(** * Checkers engine: a shallow embedding of [src/game/engine.ts]

    The engine works on an 8x8 array of cells, each cell either [null] or a
    piece object.  The embedding follows the TypeScript source function by
    function, under the names of the source.

    - Boards are first modelled by value (lists of lists of cells); array
      indices, piece ids and search depths are integers ([Z]); an id is
      an integer that a JavaScript number holds.  Reading
      [board[row]] outside the outer array yields [undefined], and indexing
      [undefined] raises a [TypeError]; this is the only way the engine can
      throw, and it is modelled by the [res] monad.
    - Scores are JavaScript numbers.  The scoring and search code is
      written against the interface [Num], with binary64 floats and exact
      rationals as instances.
    - [applyMove] assigns to arrays and to a field of a piece object.  The
      module [Heap] models it a second time over a heap of objects, where
      sharing is visible; the model by value is proved to be what the
      model by reference does to the value of a board.

    Part I holds the definitions, Part II the properties. *)

From Stdlib Require Import ZArith List Bool Lia QArith Qpower Qabs Qround Lqa Floats.
From stdpp Require Import base list.

Open Scope Z_scope.

(** ** Exceptions *)

Inductive res (A : Type) : Type :=
| Ok (a : A)
| TypeError.
Arguments Ok {A} a.
Arguments TypeError {A}.

#[global] Instance res_ret : MRet res := fun A a => Ok a.
#[global] Instance res_bind : MBind res :=
  fun A B f m => match m with Ok a => f a | TypeError => TypeError end.

(** [for (const x of xs) { acc = body(acc, x) }] where the body may throw. *)
Fixpoint foldM {A B : Type} (body : A -> B -> res A) (acc : A) (xs : list B) : res A :=
  match xs with
  | [] => Ok acc
  | x :: rest => acc' ← body acc x; foldM body acc' rest
  end.

(** ** Data model ([types.ts]) *)

Inductive Player : Type := light | dark.

Record Piece : Type := { id : Z; player : Player; king : bool }.

(** A cell is [null] (or [undefined]: the engine only ever tests cells for
    truthiness) or a piece. *)
Abbreviation Cell := (option Piece).
Abbreviation Board := (list (list Cell)).

Record Move : Type :=
  { pieceId : Z; from : Z * Z; to : Z * Z; capture : option (Z * Z) }.

Record AppliedMove : Type :=
  { board : Board;
    currentPlayer : Player;
    forcedPieceId : option Z;
    capturedPieceId : option Z;
    promoted : bool }.

Definition Player_eqb (a b : Player) : bool :=
  match a, b with
  | light, light | dark, dark => true
  | _, _ => false
  end.

#[global] Instance Player_eq_dec : EqDecision Player.
Proof. solve_decision. Defined.
#[global] Instance Piece_eq_dec : EqDecision Piece.
Proof. solve_decision. Defined.
#[global] Instance Move_eq_dec : EqDecision Move.
Proof. solve_decision. Defined.

(** ** Array access *)

(** [xs[i]] for an integer [i]: [undefined] ([None]) outside the array.
    (A negative [i] names a property, not an element; no array of the
    engine is given one, except by the assignment described at [writeRow].) *)
Definition index {A : Type} (xs : list A) (i : Z) : option A :=
  if 0 <=? i then xs !! Z.to_nat i else None.

(** [board[row]]: the row array, needed before it is indexed again. *)
Definition getRow (b : Board) (row : Z) : res (list Cell) :=
  match index b row with
  | Some cells => Ok cells
  | None => TypeError
  end.

(** [board[row][col]]: throws when the row is missing; a missing column
    reads as [undefined], which is falsy like [null]. *)
Definition getCell (b : Board) (row col : Z) : res Cell :=
  cells ← getRow b row;
  mret (match index cells col with Some cell => cell | None => None end).

(** [cells[col] = v] on a row array.  Inside the array the element is
    replaced; past the end JavaScript grows the array, leaving holes; a
    negative [col] creates a property that is not an array element, so the
    elements stay as they are (the model does not keep such a property,
    which only a later read at the same negative column could see). *)
Definition writeRow {A : Type} (cells : list (option A)) (col : Z) (v : option A)
    : list (option A) :=
  if col <? 0 then cells
  else if col <? Z.of_nat (length cells) then <[Z.to_nat col := v]> cells
  else cells ++ replicate (Z.to_nat col - length cells)%nat None ++ [v].

(** [board[row][col] = v]. *)
Definition setCell (b : Board) (row col : Z) (v : Cell) : res Board :=
  cells ← getRow b row;
  mret (<[Z.to_nat row := writeRow cells col v]> b).

(** ** Small helpers of the engine *)

(** [%] is the remainder of the division that truncates: [Z.rem]. *)
Definition isDarkSquare (row col : Z) : bool := Z.rem (row + col) 2 =? 1.

Definition otherPlayer (p : Player) : Player :=
  if Player_eqb p light then dark else light.

Definition isInside (row col : Z) : bool :=
  (0 <=? row) && (row <? 8) && (0 <=? col) && (col <? 8).

Definition getDirections (piece : Piece) : list (Z * Z) :=
  if king piece then [(1, -1); (1, 1); (-1, -1); (-1, 1)]
  else if Player_eqb (player piece) light then [(-1, -1); (-1, 1)]
  else [(1, -1); (1, 1)].

Definition isSome {A : Type} (o : option A) : bool :=
  match o with Some _ => true | None => false end.

Definition isEmpty {A : Type} (xs : list A) : bool :=
  match xs with [] => true | _ => false end.

(** ** Move generation *)

(** One iteration of the direction loop of [getSinglePieceCaptures]. *)
Definition captureStep (b : Board) (row col : Z) (piece : Piece)
    (moves : list Move) (d : Z * Z) : res (list Move) :=
  let '(dr, dc) := d in
  let middleRow := row + dr in
  let middleCol := col + dc in
  let targetRow := row + dr * 2 in
  let targetCol := col + dc * 2 in
  if negb (isInside middleRow middleCol) || negb (isInside targetRow targetCol)
  then Ok moves
  else
    middlePiece ← getCell b middleRow middleCol;
    match middlePiece with
    | None => Ok moves
    | Some mp =>
        if Player_eqb (player mp) (player piece) then Ok moves
        else
          target ← getCell b targetRow targetCol;
          if isSome target then Ok moves
          else Ok (moves ++ [ {| pieceId := id piece;
                                 from := (row, col);
                                 to := (targetRow, targetCol);
                                 capture := Some (middleRow, middleCol) |} ])
    end.

Definition getSinglePieceCaptures (b : Board) (row col : Z) (piece : Piece)
    : res (list Move) :=
  foldM (captureStep b row col piece) [] (getDirections piece).

(** One iteration of the direction loop of [getSinglePieceSlides]. *)
Definition slideStep (b : Board) (row col : Z) (piece : Piece)
    (moves : list Move) (d : Z * Z) : res (list Move) :=
  let '(dr, dc) := d in
  let targetRow := row + dr in
  let targetCol := col + dc in
  if negb (isInside targetRow targetCol) then Ok moves
  else
    target ← getCell b targetRow targetCol;
    if isSome target then Ok moves
    else Ok (moves ++ [ {| pieceId := id piece;
                           from := (row, col);
                           to := (targetRow, targetCol);
                           capture := None |} ]).

Definition getSinglePieceSlides (b : Board) (row col : Z) (piece : Piece)
    : res (list Move) :=
  foldM (slideStep b row col piece) [] (getDirections piece).

(** [findPiece]: row-major scan that returns at the first hit. *)
Fixpoint findInRow (pieceId : Z) (b : Board) (row : Z) (cols : list Z)
    : res (option (Z * Z * Piece)) :=
  match cols with
  | [] => Ok None
  | col :: rest =>
      piece ← getCell b row col;
      match piece with
      | Some pc =>
          if id pc =? pieceId then Ok (Some (row, col, pc))
          else findInRow pieceId b row rest
      | None => findInRow pieceId b row rest
      end
  end.

Fixpoint findInRows (pieceId : Z) (b : Board) (rows : list Z)
    : res (option (Z * Z * Piece)) :=
  match rows with
  | [] => Ok None
  | row :: rest =>
      hit ← findInRow pieceId b row (seqZ 0 8);
      match hit with
      | Some found => Ok (Some found)
      | None => findInRows pieceId b rest
      end
  end.

Definition findPiece (pieceId : Z) (b : Board) : res (option (Z * Z * Piece)) :=
  findInRows pieceId b (seqZ 0 8).

(** Body of the inner loop of [getLegalMoves]; the accumulator is the pair
    of the [captures] and [slides] arrays. *)
Definition scanCell (b : Board) (p : Player) (row : Z)
    (acc : list Move * list Move) (col : Z) : res (list Move * list Move) :=
  let '(captures, slides) := acc in
  piece ← getCell b row col;
  match piece with
  | None => Ok acc
  | Some pc =>
      if negb (Player_eqb (player pc) p) then Ok acc
      else
        pieceCaptures ← getSinglePieceCaptures b row col pc;
        if negb (isEmpty pieceCaptures) then Ok (captures ++ pieceCaptures, slides)
        else
          pieceSlides ← getSinglePieceSlides b row col pc;
          Ok (captures, slides ++ pieceSlides)
  end.

Definition scanRow (b : Board) (p : Player)
    (acc : list Move * list Move) (row : Z) : res (list Move * list Move) :=
  foldM (scanCell b p row) acc (seqZ 0 8).

(** [if (forcedPieceId)] is a truthiness test: [null] and [0] both fail it. *)
Definition truthyId (forcedPieceId : option Z) : option Z :=
  match forcedPieceId with
  | Some n => if n =? 0 then None else Some n
  | None => None
  end.

Definition getLegalMoves (b : Board) (p : Player) (forcedPieceId : option Z)
    : res (list Move) :=
  match truthyId forcedPieceId with
  | Some fid =>
      forced ← findPiece fid b;
      match forced with
      | None => Ok []
      | Some (row, col, piece) => getSinglePieceCaptures b row col piece
      end
  | None =>
      '(captures, slides) ← foldM (scanRow b p) ([], []) (seqZ 0 8);
      Ok (if negb (isEmpty captures) then captures else slides)
  end.

(** ** Applying a move *)

(** [{ ...piece }]: a new object with the same three fields. *)
Definition copyPiece (piece : Piece) : Piece :=
  {| id := id piece; player := player piece; king := king piece |}.

Definition cloneBoard (b : Board) : Board :=
  map (fun row =>
         map (fun piece : Cell =>
                match piece with
                | None => None
                | Some pc => Some (copyPiece pc)
                end) row) b.

(** The test that crowns a piece: its own colour decides the far rank. *)
Definition reachesFarRank (piece : Piece) (toRow : Z) : bool :=
  (Player_eqb (player piece) light && (toRow =? 0))
  || (Player_eqb (player piece) dark && (toRow =? 7)).

Definition crown (piece : Piece) : Piece :=
  {| id := id piece; player := player piece; king := true |}.

(** [movingPiece.king = true] writes through the object that was stored at
    [to].  In this value model the board holds pieces by value, so the write
    is replayed on the cell that still refers to that object: the [to] cell,
    unless the capture assignment has just overwritten it with [null]. *)
Definition crownOnBoard (b : Board) (move : Move) (piece : Piece) : res Board :=
  let '(toRow, toCol) := to move in
  match capture move with
  | Some (capRow, capCol) =>
      if (capRow =? toRow) && (capCol =? toCol) then Ok b
      else setCell b toRow toCol (Some (crown piece))
  | None => setCell b toRow toCol (Some (crown piece))
  end.

Definition applyMove (b : Board) (move : Move) (player0 : Player) : res AppliedMove :=
  let nextBoard := cloneBoard b in
  let '(fromRow, fromCol) := from move in
  let '(toRow, toCol) := to move in
  movingPiece ← getCell nextBoard fromRow fromCol;
  match movingPiece with
  | None =>
      Ok {| board := nextBoard;
            currentPlayer := player0;
            forcedPieceId := None;
            capturedPieceId := None;
            promoted := false |}
  | Some mp =>
      nextBoard ← setCell nextBoard fromRow fromCol None;
      nextBoard ← setCell nextBoard toRow toCol (Some mp);
      '(nextBoard, capturedId) ←
        match capture move with
        | Some (capRow, capCol) =>
            captured ← getCell nextBoard capRow capCol;
            nextBoard ← setCell nextBoard capRow capCol None;
            Ok (nextBoard, option_map id captured)
        | None => Ok (nextBoard, None)
        end;
      let promotes := negb (king mp) && reachesFarRank mp toRow in
      nextBoard ← (if promotes then crownOnBoard nextBoard move mp else Ok nextBoard);
      let mp := if promotes then crown mp else mp in
      if isSome (capture move) && negb promotes then
        followups ← getSinglePieceCaptures nextBoard toRow toCol mp;
        if negb (isEmpty followups) then
          Ok {| board := nextBoard;
                currentPlayer := player0;
                forcedPieceId := Some (id mp);
                capturedPieceId := capturedId;
                promoted := promotes |}
        else
          Ok {| board := nextBoard;
                currentPlayer := otherPlayer player0;
                forcedPieceId := None;
                capturedPieceId := capturedId;
                promoted := promotes |}
      else
        Ok {| board := nextBoard;
              currentPlayer := otherPlayer player0;
              forcedPieceId := None;
              capturedPieceId := capturedId;
              promoted := promotes |}
  end.

(** ** The starting position *)

Definition emptyBoard : Board := replicate 8 (replicate 8 None).

(** Ids are JavaScript numbers that hold integers; the engine copies and
    compares them, and [createInitialBoard] counts them up by
    [nextId += 1].  That is an addition of doubles: the sum of the two
    numbers, rounded to the nearest double (ties to the even mantissa).
    It is [nextId + 1] as long as that is at most [2^53] in magnitude;
    from [2^53] on the counter stays where it is. *)

(** The double that holds the integer [n]. *)
Definition numberOfId (n : Z) : spec_float := binary_normalize prec emax n 0 false.

(** The integer that a double holds. *)
Definition idOfNumber (x : spec_float) : Z :=
  match x with
  | S754_finite s m e => cond_Zopp s (Z.shiftl (Z.pos m) e)
  | _ => 0
  end.

(** [nextId + 1] *)
Definition addOne (nextId : Z) : Z :=
  idOfNumber (SFadd prec emax (numberOfId nextId) (numberOfId 1)).

(** Inner loop body of [createInitialBoard] for pieces of colour [owner]. *)
Definition placeCell (owner : Player) (row : Z) (acc : Board * Z) (col : Z)
    : res (Board * Z) :=
  let '(b, nextId) := acc in
  if isDarkSquare row col then
    b' ← setCell b row col (Some {| id := nextId; player := owner; king := false |});
    Ok (b', addOne nextId)
  else Ok acc.

Definition placeRow (owner : Player) (acc : Board * Z) (row : Z) : res (Board * Z) :=
  foldM (placeCell owner row) acc (seqZ 0 8).

(** [startId] is an integer that a double holds, as every integer up to
    [2^53] in magnitude is. *)
Definition createInitialBoard (startId : Z) : res (Board * Z) :=
  acc ← foldM (placeRow dark) (emptyBoard, startId) (seqZ 0 3);
  foldM (placeRow light) acc (seqZ 5 3).


(** ** JavaScript numbers

    Scores are IEEE-754 doubles in the source.  The scoring and search code
    is written once against the interface [Num] and then read in two ways:
    on Rocq's primitive binary64 floats, which compute exactly what the
    JavaScript engine computes, and on the rationals extended with the
    special values, which is the same arithmetic without rounding and admits
    proofs for every value of the random source. *)

Class Num (R : Type) : Type :=
  { ofZ : Z -> R;            (* an integer written in the source, or an array length *)
    nadd : R -> R -> R;
    nsub : R -> R -> R;
    nmul : R -> R -> R;
    ndiv : R -> R -> R;
    nopp : R -> R;           (* unary minus *)
    nabs : R -> R;           (* Math.abs *)
    nmax : R -> R -> R;      (* Math.max *)
    nmin : R -> R -> R;      (* Math.min *)
    nfloor : R -> R;         (* Math.floor *)
    nlt : R -> R -> bool;    (* a < b *)
    nle : R -> R -> bool;    (* a <= b *)
    infinity : R;            (* Infinity *)
    toIndex : R -> option Z  (* the integer a number denotes when used as an array index *)
  }.

Section Scoring.
Context {R : Type} {N : Num R}.

(** The decimal literal [n/d], e.g. [dec 55 100] for [0.55]. *)
Definition dec (n d : Z) : R := ndiv (ofZ n) (ofZ d).

Definition HARD_SEARCH_DEPTH : Z := 4.

(** The random source is a JavaScript closure; what the engine sees of it
    is the sequence of numbers it returns.  [rnd i] is the value of the
    [i]-th call and every function threads the number of calls made. *)
Variable rnd : nat -> R.

(** [Math.abs(row - 3.5) + Math.abs(col - 3.5)] *)
Definition centerDistance (row col : Z) : R :=
  nadd (nabs (nsub (ofZ row) (dec 35 10))) (nabs (nsub (ofZ col) (dec 35 10))).

Definition scoreMove (move : Move) (b : Board) (p : Player) (k : nat)
    : res (R * nat) :=
  let score := nmul (rnd k) (dec 2 10) in
  let k := S k in
  movingPiece ← getCell b (fst (from move)) (snd (from move));
  score ← match capture move with
          | Some (capRow, capCol) =>
              let score := nadd score (ofZ 6) in
              captured ← getCell b capRow capCol;
              match captured with
              | Some cp => if king cp then Ok (nadd score (ofZ 3)) else Ok score
              | None => Ok score
              end
          | None => Ok score
          end;
  let score :=
    match movingPiece with
    | Some mp =>
        if negb (king mp) then
          let targetRow := fst (to move) in
          if (Player_eqb p light && (targetRow =? 0))
             || (Player_eqb p dark && (targetRow =? 7))
          then nadd score (ofZ 4)
          else
            let advance :=
              if Player_eqb p light
              then nsub (ofZ (fst (from move))) (ofZ targetRow)
              else nsub (ofZ targetRow) (ofZ (fst (from move))) in
            nadd score (nmul advance (dec 55 100))
        else score
    | None => score
    end in
  let cd := centerDistance (fst (to move)) (snd (to move)) in
  Ok (nadd score (nmul (nsub (ofZ 7) cd) (dec 12 100)), k).

(** The loop of [chooseBestMove]. *)
Fixpoint bestLoop (moves : list Move) (b : Board) (p : Player)
    (bestMove : option Move) (bestScore : R) (k : nat) : res (option Move * nat) :=
  match moves with
  | [] => Ok (bestMove, k)
  | move :: rest =>
      '(score, k) ← scoreMove move b p k;
      if nlt bestScore score
      then bestLoop rest b p (Some move) score k
      else bestLoop rest b p bestMove bestScore k
  end.

Definition chooseBestMove (moves : list Move) (b : Board) (p : Player) (k : nat)
    : res (option Move * nat) :=
  if isEmpty moves then Ok (None, k)
  else bestLoop moves b p (head moves) (nopp infinity) k.

(** Inner loop body of [evaluateBoard]. *)
Definition evalCell (b : Board) (maximizingPlayer : Player) (row : Z)
    (score : R) (col : Z) : res R :=
  piece ← getCell b row col;
  match piece with
  | None => Ok score
  | Some pc =>
      let promotionDistance :=
        if Player_eqb (player pc) light then ofZ row else nsub (ofZ 7) (ofZ row) in
      let advancement := ndiv (nsub (ofZ 7) promotionDistance) (ofZ 7) in
      let centerControl := nmul (nsub (ofZ 7) (centerDistance row col)) (dec 5 100) in
      let pieceValue :=
        nadd (nadd (if king pc then dec 38 10 else dec 12 10)
                   (nmul advancement (dec 35 100)))
             centerControl in
      Ok (nadd score (if Player_eqb (player pc) maximizingPlayer
                      then pieceValue else nopp pieceValue))
  end.

Definition evalRow (b : Board) (maximizingPlayer : Player) (score : R) (row : Z)
    : res R :=
  foldM (evalCell b maximizingPlayer row) score (seqZ 0 8).

Definition evaluateBoard (b : Board) (maximizingPlayer : Player) : res R :=
  score ← foldM (evalRow b maximizingPlayer) (ofZ 0) (seqZ 0 8);
  mine ← getLegalMoves b maximizingPlayer None;
  theirs ← getLegalMoves b (otherPlayer maximizingPlayer) None;
  let myMobility := ofZ (Z.of_nat (length mine)) in
  let theirMobility := ofZ (Z.of_nat (length theirs)) in
  Ok (nadd score (nmul (nsub myMobility theirMobility) (dec 6 100))).

(** The two loops of [minimax]; [rec] is the recursive call at depth - 1.
    Leaving the loop early is the [break] on [beta <= alpha]. *)
Fixpoint maxLoop (rec : Board -> Player -> option Z -> R -> R -> nat -> res (R * nat))
    (b : Board) (cur : Player) (moves : list Move)
    (value alpha beta : R) (k : nat) : res (R * nat) :=
  match moves with
  | [] => Ok (value, k)
  | move :: rest =>
      next ← applyMove b move cur;
      '(v, k) ← rec (board next) (currentPlayer next) (forcedPieceId next) alpha beta k;
      let value := nmax value v in
      let alpha := nmax alpha value in
      if nle beta alpha then Ok (value, k)
      else maxLoop rec b cur rest value alpha beta k
  end.

Fixpoint minLoop (rec : Board -> Player -> option Z -> R -> R -> nat -> res (R * nat))
    (b : Board) (cur : Player) (moves : list Move)
    (value alpha beta : R) (k : nat) : res (R * nat) :=
  match moves with
  | [] => Ok (value, k)
  | move :: rest =>
      next ← applyMove b move cur;
      '(v, k) ← rec (board next) (currentPlayer next) (forcedPieceId next) alpha beta k;
      let value := nmin value v in
      let beta := nmin beta value in
      if nle beta alpha then Ok (value, k)
      else minLoop rec b cur rest value alpha beta k
  end.

(** [minimax], by recursion on [n = Z.to_nat depth]: [n] is [0] exactly
    when [depth <= 0], and the recursive calls at [depth - 1] run on the
    predecessor of [n]. *)
Fixpoint minimaxN (n : nat) (b : Board) (cur : Player) (forced : option Z)
    (maximizingPlayer : Player) (depth : Z) (alpha beta : R) (k : nat)
    : res (R * nat) :=
  moves ← getLegalMoves b cur forced;
  if isEmpty moves then
    Ok (if Player_eqb cur maximizingPlayer
        then nsub (nopp (ofZ 1000)) (ofZ depth)
        else nadd (ofZ 1000) (ofZ depth), k)
  else
    match n with
    | O =>
        ev ← evaluateBoard b maximizingPlayer;
        Ok (nadd ev (nmul (rnd k) (dec 1 100)), S k)
    | S n' =>
        let rec := fun b' cur' forced' alpha' beta' k' =>
          minimaxN n' b' cur' forced' maximizingPlayer (depth - 1) alpha' beta' k' in
        if Player_eqb cur maximizingPlayer
        then maxLoop rec b cur moves (nopp infinity) alpha beta k
        else minLoop rec b cur moves infinity alpha beta k
    end.

Definition minimax (b : Board) (cur : Player) (forced : option Z)
    (maximizingPlayer : Player) (depth : Z) (alpha beta : R) (k : nat)
    : res (R * nat) :=
  minimaxN (Z.to_nat depth) b cur forced maximizingPlayer depth alpha beta k.

(** The loop of [chooseBestLookaheadMove]. *)
Fixpoint lookaheadLoop (moves : list Move) (b : Board) (p : Player)
    (bestMove : option Move) (bestScore : R) (k : nat) : res (option Move * nat) :=
  match moves with
  | [] => Ok (bestMove, k)
  | move :: rest =>
      next ← applyMove b move p;
      '(score, k) ← minimax (board next) (currentPlayer next) (forcedPieceId next)
                      p (HARD_SEARCH_DEPTH - 1) (nopp infinity) infinity k;
      if nlt bestScore score
      then lookaheadLoop rest b p (Some move) score k
      else if nlt (nabs (nsub score bestScore)) (dec 1 1000)
      then
        if nlt (dec 5 10) (rnd k)
        then lookaheadLoop rest b p (Some move) bestScore (S k)
        else lookaheadLoop rest b p bestMove bestScore (S k)
      else lookaheadLoop rest b p bestMove bestScore k
  end.

Definition chooseBestLookaheadMove (moves : list Move) (b : Board) (p : Player)
    (k : nat) : res (option Move * nat) :=
  lookaheadLoop moves b p (head moves) (nopp infinity) k.

End Scoring.

(** Modelled from the spec: the declaration of the type [AISkill] is not
    among the sources; section 4.5 names the three policies [easy],
    [medium] and [hard], and [chooseMoveBySkill] compares against the
    first two. *)
Inductive AISkill : Type := easy | medium | hard.

Section Selector.
Context {R : Type} {N : Num R}.
Variable rnd : nat -> R.

Definition chooseMoveBySkill (skill : AISkill) (moves : list Move) (b : Board)
    (p : Player) (k : nat) : res (option Move * nat) :=
  if isEmpty moves then Ok (None, k)
  else
    match skill with
    | easy =>
        let len := ofZ (Z.of_nat (length moves)) in
        let idx := nmin (nsub len (ofZ 1)) (nfloor (nmul (rnd k) len)) in
        Ok (match toIndex idx with
            | Some i => index moves i
            | None => None
            end, S k)
    | medium => chooseBestMove rnd moves b p k
    | hard => chooseBestLookaheadMove rnd moves b p k
    end.

End Selector.

(** ** Numbers without rounding: the rationals with the IEEE special values *)

Inductive xQ : Type :=
| Fin (q : Q)
| PInf
| NInf
| NaN.

Definition Qltb (a b : Q) : bool := negb (Qle_bool b a).

Definition xopp (a : xQ) : xQ :=
  match a with
  | Fin q => Fin (Qopp q)
  | PInf => NInf
  | NInf => PInf
  | NaN => NaN
  end.

Definition xadd (a b : xQ) : xQ :=
  match a, b with
  | NaN, _ | _, NaN => NaN
  | Fin x, Fin y => Fin (Qplus x y)
  | PInf, NInf | NInf, PInf => NaN
  | PInf, _ | _, PInf => PInf
  | NInf, _ | _, NInf => NInf
  end.

Definition xsub (a b : xQ) : xQ := xadd a (xopp b).

(** An infinity of the sign of [up] when [q] is positive, of the other sign
    when [q] is negative, and [NaN] for [0 * Infinity]. *)
Definition scaleInf (up : bool) (q : Q) : xQ :=
  match Qcompare q 0 with
  | Gt => if up then PInf else NInf
  | Lt => if up then NInf else PInf
  | Eq => NaN
  end.

Definition xmul (a b : xQ) : xQ :=
  match a, b with
  | NaN, _ | _, NaN => NaN
  | Fin x, Fin y => Fin (Qmult x y)
  | Fin x, PInf | PInf, Fin x => scaleInf true x
  | Fin x, NInf | NInf, Fin x => scaleInf false x
  | PInf, PInf | NInf, NInf => PInf
  | PInf, NInf | NInf, PInf => NInf
  end.

(** The rationals have one zero; it behaves as [+0] under division. *)
Definition xdiv (a b : xQ) : xQ :=
  match a, b with
  | NaN, _ | _, NaN => NaN
  | Fin x, Fin y => if Qeq_bool y 0 then scaleInf true x else Fin (Qdiv x y)
  | Fin _, _ => Fin 0
  | PInf, Fin y => if Qltb y 0 then NInf else PInf
  | NInf, Fin y => if Qltb y 0 then PInf else NInf
  | _, _ => NaN
  end.

Definition xabs (a : xQ) : xQ :=
  match a with
  | Fin q => Fin (Qabs q)
  | PInf | NInf => PInf
  | NaN => NaN
  end.

Definition xlt (a b : xQ) : bool :=
  match a, b with
  | NaN, _ | _, NaN => false
  | Fin x, Fin y => Qltb x y
  | NInf, NInf | PInf, _ | _, NInf => false
  | _, _ => true
  end.

Definition xle (a b : xQ) : bool :=
  match a, b with
  | NaN, _ | _, NaN => false
  | Fin x, Fin y => Qle_bool x y
  | NInf, _ | _, PInf => true
  | _, _ => false
  end.

Definition xmax (a b : xQ) : xQ :=
  match a, b with
  | NaN, _ | _, NaN => NaN
  | _, _ => if xlt a b then b else a
  end.

Definition xmin (a b : xQ) : xQ :=
  match a, b with
  | NaN, _ | _, NaN => NaN
  | _, _ => if xlt b a then b else a
  end.

Definition xfloor (a : xQ) : xQ :=
  match a with
  | Fin q => Fin (inject_Z (Qfloor q))
  | _ => a
  end.

Definition xtoIndex (a : xQ) : option Z :=
  match a with
  | Fin q => if Qeq_bool q (inject_Z (Qfloor q)) then Some (Qfloor q) else None
  | _ => None
  end.

#[global] Instance Num_xQ : Num xQ :=
  {| ofZ := fun z => Fin (inject_Z z);
     nadd := xadd; nsub := xsub; nmul := xmul; ndiv := xdiv;
     nopp := xopp; nabs := xabs; nmax := xmax; nmin := xmin;
     nfloor := xfloor; nlt := xlt; nle := xle;
     infinity := PInf; toIndex := xtoIndex |}.

(** ** Numbers as they are: binary64 *)

(** The double nearest to an integer (exact below 2^53). *)
Definition fofZ (z : Z) : float := SF2Prim (binary_normalize prec emax z 0 false).

(** The integer [m * 2^e] rounded down, for a finite non-zero double of
    signed mantissa [m]. *)
Definition floorOfParts (m : Z) (e : Z) : Z :=
  if 0 <=? e then m * 2 ^ e else m / 2 ^ (- e).

Definition ffloor (x : float) : float :=
  match Prim2SF x with
  | S754_finite s m e =>
      if 0 <=? e then x
      else fofZ (floorOfParts (if s then Z.neg m else Z.pos m) e)
  | _ => x
  end.

Definition ftoIndex (x : float) : option Z :=
  match Prim2SF x with
  | S754_zero _ => Some 0
  | S754_finite s m e =>
      let v := if s then Z.neg m else Z.pos m in
      if 0 <=? e then Some (v * 2 ^ e)
      else if v mod 2 ^ (- e) =? 0 then Some (v / 2 ^ (- e)) else None
  | _ => None
  end.

(** [Math.max] and [Math.min]: [NaN] is contagious and [+0] is above [-0]. *)
Definition fmax (a b : float) : float :=
  if PrimFloat.is_nan a then a
  else if PrimFloat.is_nan b then b
  else if PrimFloat.ltb a b then b
  else if PrimFloat.ltb b a then a
  else if PrimFloat.get_sign a then b else a.

Definition fmin (a b : float) : float :=
  if PrimFloat.is_nan a then a
  else if PrimFloat.is_nan b then b
  else if PrimFloat.ltb a b then a
  else if PrimFloat.ltb b a then b
  else if PrimFloat.get_sign a then a else b.

#[global] Instance Num_float : Num float :=
  {| ofZ := fofZ;
     nadd := PrimFloat.add; nsub := PrimFloat.sub;
     nmul := PrimFloat.mul; ndiv := PrimFloat.div;
     nopp := PrimFloat.opp; nabs := PrimFloat.abs;
     nmax := fmax; nmin := fmin;
     nfloor := ffloor; nlt := PrimFloat.ltb; nle := PrimFloat.leb;
     infinity := PrimFloat.infinity; toIndex := ftoIndex |}.

(** ** The value of a double

    A finite double is a signed mantissa times a power of two; the
    properties of the scoring code in binary64 are stated on these values.
    [SFval] reads the value off the specification of a double, [fval] off
    a primitive double. *)

Definition SFval (x : spec_float) : option Q :=
  match x with
  | S754_zero _ => Some 0%Q
  | S754_finite s m e => Some (inject_Z (cond_Zopp s (Z.pos m)) * 2 ^ e)%Q
  | _ => None
  end.

Definition fval (x : float) : option Q := SFval (Prim2SF x).

Definition sgnQ (s : bool) (q : Q) : Q := if s then (- q)%Q else q.

(** A double with a value in an interval. *)
Definition within (x : float) (lo hi : Q) : Prop :=
  exists a, fval x = Some a /\ (lo <= a <= hi)%Q.

(** The largest rounding error of an operation whose exact result is
    below 16 in magnitude: half a unit in the last place, [2^-50]. *)
Definition ulp16 : Q := 1 # 1125899906842624.

(** ** The specification's vocabulary

    The definitions below follow the words of the specification, not the
    code: they are what the embedded functions are compared with. *)

(** An 8x8 grid. *)
Definition wf_board (b : Board) : Prop :=
  length b = 8%nat /\ Forall (fun cells => length cells = 8%nat) b.

(** The content of a square; empty off the board. *)
Definition cellAt (b : Board) (row col : Z) : Cell :=
  match index b row with
  | Some cells => match index cells col with Some cell => cell | None => None end
  | None => None
  end.

(** The 64 squares in row-major order. *)
Definition squares : list (Z * Z) :=
  flat_map (fun row => map (fun col => (row, col)) (seqZ 0 8)) (seqZ 0 8).

(** The piece of player [p] on a square, if there is one, with its square. *)
Definition ownPiece (b : Board) (p : Player) (sq : Z * Z) : list (Z * Z * Piece) :=
  match cellAt b (fst sq) (snd sq) with
  | Some pc => if decide (player pc = p) then [(fst sq, snd sq, pc)] else []
  | None => []
  end.

(** The pieces of a player, each with its square. *)
Definition playerPieces (b : Board) (p : Player) : list (Z * Z * Piece) :=
  flat_map (ownPiece b p) squares.

(** The piece with a given id on a square, if it is there. *)
Definition pieceWithId (b : Board) (pieceId : Z) (sq : Z * Z) : list (Z * Z * Piece) :=
  match cellAt b (fst sq) (snd sq) with
  | Some pc => if decide (id pc = pieceId) then [(fst sq, snd sq, pc)] else []
  | None => []
  end.

Definition piecesWithId (b : Board) (pieceId : Z) : list (Z * Z * Piece) :=
  flat_map (pieceWithId b pieceId) squares.

(** Section 4.1, per-piece capture candidate: in direction [(dr, dc)] the
    adjacent square must hold an opponent piece and the square two steps
    further must be empty and on the board. *)
Definition captureCandidate (b : Board) (row col : Z) (pc : Piece) (d : Z * Z)
    : list Move :=
  let adjacent := (row + fst d, col + snd d) in
  let landing := (row + fst d * 2, col + snd d * 2) in
  match cellAt b (fst adjacent) (snd adjacent) with
  | Some other =>
      if decide (player other <> player pc
                 /\ isInside (fst adjacent) (snd adjacent) = true
                 /\ isInside (fst landing) (snd landing) = true
                 /\ cellAt b (fst landing) (snd landing) = None)
      then [ {| pieceId := id pc; from := (row, col); to := landing;
                capture := Some adjacent |} ]
      else []
  | None => []
  end.

Definition captureCandidates (b : Board) (row col : Z) (pc : Piece) : list Move :=
  flat_map (captureCandidate b row col pc) (getDirections pc).

(** Section 4.1, per-piece slide candidate: the adjacent diagonal square,
    if on the board and empty. *)
Definition slideCandidate (b : Board) (row col : Z) (pc : Piece) (d : Z * Z)
    : list Move :=
  let target := (row + fst d, col + snd d) in
  if decide (isInside (fst target) (snd target) = true
             /\ cellAt b (fst target) (snd target) = None)
  then [ {| pieceId := id pc; from := (row, col); to := target; capture := None |} ]
  else [].

Definition slideCandidates (b : Board) (row col : Z) (pc : Piece) : list Move :=
  flat_map (slideCandidate b row col pc) (getDirections pc).

Definition capturesOf (b : Board) (x : Z * Z * Piece) : list Move :=
  captureCandidates b (fst (fst x)) (snd (fst x)) (snd x).

Definition slidesOf (b : Board) (x : Z * Z * Piece) : list Move :=
  slideCandidates b (fst (fst x)) (snd (fst x)) (snd x).

(** The union of the candidates over all pieces of a player. *)
Definition allCaptureCandidates (b : Board) (p : Player) : list Move :=
  flat_map (capturesOf b) (playerPieces b p).

Definition allSlideCandidates (b : Board) (p : Player) : list Move :=
  flat_map (slidesOf b) (playerPieces b p).

(** What a piece adds to the [slides] array: its slides, when it has no capture. *)
Definition idleSlidesOf (b : Board) (x : Z * Z * Piece) : list Move :=
  if isEmpty (capturesOf b x) then slidesOf b x else [].

Definition isCapture (m : Move) : Prop := capture m <> None.
Definition isSlide (m : Move) : Prop := capture m = None.

(** Section 4.2, promotion: the far rank of a player is row 0 for light
    and row 7 for dark; a move crowns a piece that is not yet a king and
    lands on the far rank of its owner. *)
Definition farRank (p : Player) : Z :=
  match p with light => 0 | dark => 7 end.

Definition crowns (pc : Piece) (m : Move) : Prop :=
  king pc = false /\ fst (to m) = farRank (player pc).

(** A move over squares of the board. *)
Definition onBoard (m : Move) : Prop :=
  isInside (fst (from m)) (snd (from m)) = true
  /\ isInside (fst (to m)) (snd (to m)) = true
  /\ (forall sq, capture m = Some sq -> isInside (fst sq) (snd sq) = true).

(** Section 4.5: the signed number of rows a move takes its piece toward
    the promotion rank of [p]. *)
Definition advance (p : Player) (m : Move) : Z :=
  match p with
  | light => fst (from m) - fst (to m)
  | dark => fst (to m) - fst (from m)
  end.

(** The test that the index [Math.min(n - 1, Math.floor(0.99 * n))] of the
    easy policy is [n - 1]. *)
Definition easyIndexOk {R : Type} {N : Num R} (n : nat) : bool :=
  match toIndex (nmin (nsub (ofZ (Z.of_nat n)) (ofZ 1))
                      (nfloor (nmul (dec 99 100) (ofZ (Z.of_nat n))))) with
  | Some i => i =? Z.of_nat n - 1
  | None => false
  end.

(** ** Positions used as examples *)

Definition man (i : Z) (p : Player) : Piece := {| id := i; player := p; king := false |}.

Definition emptyRow : list Cell := replicate 8 None.

(** The position of the engine's mandatory-capture test: light men on
    (5,2) and (5,6), a dark man on (4,3). *)
Definition captureBoard : Board :=
  [ emptyRow; emptyRow; emptyRow; emptyRow;
    [None; None; None; Some (man 2 dark); None; None; None; None];
    [None; None; Some (man 1 light); None; None; None; Some (man 3 light); None];
    emptyRow; emptyRow ].

(** The position of the multi-jump test: a light man on (5,0), dark men on
    (4,1) and (2,3). *)
Definition chainBoard : Board :=
  [ emptyRow; emptyRow;
    [None; None; None; Some (man 21 dark); None; None; None; None];
    emptyRow;
    [None; Some (man 20 dark); None; None; None; None; None; None];
    [Some (man 10 light); None; None; None; None; None; None; None];
    emptyRow; emptyRow ].

(** The position of the crowning test: a light man on (2,1), dark men on
    (1,2) and (1,4). *)
Definition crownBoard : Board :=
  [ emptyRow;
    [None; None; Some (man 31 dark); None; Some (man 32 dark); None; None; None];
    [None; Some (man 30 light); None; None; None; None; None; None];
    emptyRow; emptyRow; emptyRow; emptyRow; emptyRow ].

(** [n] distinct moves, told apart by their [pieceId]. *)
Definition numberedMoves (n : Z) : list Move :=
  map (fun i => {| pieceId := i; from := (5, 0); to := (4, 1); capture := None |})
      (seqZ 0 n).

(** Light men on (0,1) and (1,2). *)
Definition retreatBoard : Board :=
  [ [None; Some (man 1 light); None; None; None; None; None; None];
    [None; None; Some (man 2 light); None; None; None; None; None];
    emptyRow; emptyRow; emptyRow; emptyRow; emptyRow; emptyRow ].

(** A capture that carries the man on (0,1) seven rows backwards, and the
    slide that crowns the man on (1,2). *)
Definition retreatCapture : Move :=
  {| pieceId := 1; from := (0, 1); to := (7, 0); capture := Some (3, 4) |}.

Definition crowningSlide : Move :=
  {| pieceId := 2; from := (1, 2); to := (0, 3); capture := None |}.

(** The position of the greedy-scoring test: a light man on (5,2) next to
    a dark man on (4,3), with the slide and the jump offered to the policy. *)
Definition greedyBoard : Board :=
  [ emptyRow; emptyRow; emptyRow; emptyRow;
    [None; None; None; Some (man 41 dark); None; None; None; None];
    [None; None; Some (man 40 light); None; None; None; None; None];
    emptyRow; emptyRow ].

Definition greedySlide : Move :=
  {| pieceId := 40; from := (5, 2); to := (4, 1); capture := None |}.

Definition greedyCapture : Move :=
  {| pieceId := 40; from := (5, 2); to := (3, 4); capture := Some (4, 3) |}.

(** ** Objects and references

    In the source a board is an array of row arrays whose cells refer to
    piece objects, and [applyMove] assigns to cells and to the [king] field
    of a piece.  The model below keeps the objects in a heap and the arrays
    hold references, so that sharing between two boards is visible.  The
    functions carry the names of the source inside the module [Heap]. *)

Module Heap.

Abbreviation loc := nat.

Inductive obj : Type :=
| PieceObj (p : Piece)
| RowObj (cells : list (option loc))
| BoardObj (rows : list loc).

(** A heap is the list of the objects allocated so far; a reference is a
    position in it. *)
Abbreviation heap := (list obj).

(** Computations that read and write the heap and may throw. *)
Definition M (A : Type) : Type := heap -> heap * res A.

Definition ret {A : Type} (a : A) : M A := fun h => (h, Ok a).

Definition throw {A : Type} : M A := fun h => (h, TypeError).

Definition bind {A B : Type} (m : M A) (f : A -> M B) : M B :=
  fun h =>
    match m h with
    | (h', Ok a) => f a h'
    | (h', TypeError) => (h', TypeError)
    end.

#[global] Instance heap_ret : MRet M := @ret.
#[global] Instance heap_bind : MBind M := fun A B f m => bind m f.

(** A new object: the next free position. *)
Definition alloc (o : obj) : M loc := fun h => (h ++ [o], Ok (length h)).

Definition store (l : loc) (o : obj) : M unit := fun h => (<[l := o]> h, Ok tt).

Definition readPiece (l : loc) : M Piece :=
  fun h => match h !! l with
           | Some (PieceObj p) => (h, Ok p)
           | _ => (h, TypeError)
           end.

Definition readRow (l : loc) : M (list (option loc)) :=
  fun h => match h !! l with
           | Some (RowObj cells) => (h, Ok cells)
           | _ => (h, TypeError)
           end.

Definition readBoard (l : loc) : M (list loc) :=
  fun h => match h !! l with
           | Some (BoardObj rows) => (h, Ok rows)
           | _ => (h, TypeError)
           end.

(** [board[row][col]] *)
Definition getCell (b : loc) (row col : Z) : M (option loc) :=
  rows ← readBoard b;
  match index rows row with
  | None => throw
  | Some r =>
      cells ← readRow r;
      ret (match index cells col with Some cell => cell | None => None end)
  end.

(** [board[row][col] = v]: an assignment to the row array. *)
Definition setCell (b : loc) (row col : Z) (v : option loc) : M unit :=
  rows ← readBoard b;
  match index rows row with
  | None => throw
  | Some r =>
      cells ← readRow r;
      store r (RowObj (writeRow cells col v))
  end.

(** [piece ? { ...piece } : null] *)
Definition cloneCell (cell : option loc) : M (option loc) :=
  match cell with
  | None => ret None
  | Some l =>
      p ← readPiece l;
      l' ← alloc (PieceObj (copyPiece p));
      ret (Some l')
  end.

Definition cloneRow (r : loc) : M loc :=
  cells ← readRow r;
  cells' ← mapM cloneCell cells;
  alloc (RowObj cells').

Definition cloneBoard (b : loc) : M loc :=
  rows ← readBoard b;
  rows' ← mapM cloneRow rows;
  alloc (BoardObj rows').

(** The value a board reference denotes in a heap; [None] when the
    reference does not lead to an array of arrays of pieces. *)
Definition cellValue (h : heap) (cell : option loc) : option Cell :=
  match cell with
  | None => Some None
  | Some l => match h !! l with
              | Some (PieceObj p) => Some (Some p)
              | _ => None
              end
  end.

Definition rowValue (h : heap) (r : loc) : option (list Cell) :=
  match h !! r with
  | Some (RowObj cells) => mapM (cellValue h) cells
  | _ => None
  end.

Definition boardValue (h : heap) (b : loc) : option Board :=
  match h !! b with
  | Some (BoardObj rows) => mapM (rowValue h) rows
  | _ => None
  end.

(** The move generator only reads: it is run on the value of the board.
    (A reference that does not lead to arrays of pieces cannot come from
    typed code; reading through it is answered by [TypeError].) *)
Definition followupCaptures (b : loc) (row col : Z) (piece : Piece) : M (list Move) :=
  fun h => match boardValue h b with
           | Some bv => (h, getSinglePieceCaptures bv row col piece)
           | None => (h, TypeError)
           end.

Record AppliedRef : Type :=
  { boardRef : loc;
    nextPlayer : Player;
    forcedId : option Z;
    capturedId : option Z;
    wasPromoted : bool }.

Definition applyMove (b : loc) (move : Move) (player0 : Player) : M AppliedRef :=
  nextBoard ← cloneBoard b;
  let '(fromRow, fromCol) := from move in
  let '(toRow, toCol) := to move in
  movingPiece ← getCell nextBoard fromRow fromCol;
  match movingPiece with
  | None =>
      ret {| boardRef := nextBoard; nextPlayer := player0; forcedId := None;
             capturedId := None; wasPromoted := false |}
  | Some mpl =>
      _ ← setCell nextBoard fromRow fromCol None;
      _ ← setCell nextBoard toRow toCol (Some mpl);
      captured ←
        match capture move with
        | Some (capRow, capCol) =>
            captured ← getCell nextBoard capRow capCol;
            _ ← setCell nextBoard capRow capCol None;
            match captured with
            | Some cl => cp ← readPiece cl; ret (Some (id cp))
            | None => ret None
            end
        | None => ret None
        end;
      mp ← readPiece mpl;
      promoted ←
        (if negb (king mp) && reachesFarRank mp toRow
         then _ ← store mpl (PieceObj (crown mp)); ret true
         else ret false);
      if isSome (capture move) && negb promoted then
        mp ← readPiece mpl;
        followups ← followupCaptures nextBoard toRow toCol mp;
        if negb (isEmpty followups) then
          ret {| boardRef := nextBoard; nextPlayer := player0;
                 forcedId := Some (id mp);
                 capturedId := captured; wasPromoted := promoted |}
        else
          ret {| boardRef := nextBoard; nextPlayer := otherPlayer player0;
                 forcedId := None;
                 capturedId := captured; wasPromoted := promoted |}
      else
        ret {| boardRef := nextBoard; nextPlayer := otherPlayer player0;
               forcedId := None;
               capturedId := captured; wasPromoted := promoted |}
  end.

(** The objects of a board given by value, for building examples. *)
Definition allocCell (cell : Cell) : M (option loc) :=
  match cell with
  | None => ret None
  | Some p => l ← alloc (PieceObj p); ret (Some l)
  end.

Definition allocRow (cells : list Cell) : M loc :=
  cells' ← mapM allocCell cells;
  alloc (RowObj cells').

Definition allocBoard (bv : Board) : M loc :=
  rows ← mapM allocRow bv;
  alloc (BoardObj rows).

End Heap.

(** ** What it means for a board to be new

    Relative to a heap of [n] objects, a reference is new when it is not
    below [n].  A board is new when its outer array, its row arrays and
    all the piece objects in its cells are. *)

Definition newCell (n : nat) (cell : option Heap.loc) : Prop :=
  forall l, cell = Some l -> (n <= l)%nat.

Definition newRow (n : nat) (h : list Heap.obj) (r : Heap.loc) : Prop :=
  (n <= r)%nat
  /\ exists cells, h !! r = Some (Heap.RowObj cells) /\ Forall (newCell n) cells.

Definition newBoard (n : nat) (h : list Heap.obj) (b : Heap.loc) : Prop :=
  (n <= b)%nat
  /\ exists rows, h !! b = Some (Heap.BoardObj rows) /\ Forall (newRow n h) rows.

(** [wp m Q h]: running [m] in the heap [h] ends in a heap and an outcome
    that satisfy [Q]. *)
Definition wp {A : Type} (m : Heap.M A) (Q : list Heap.obj -> res A -> Prop)
    (h : list Heap.obj) : Prop :=
  Q (fst (m h)) (snd (m h)).

(** The objects below [n] are the same in both heaps. *)
Definition sameBelow (n : nat) (h h' : list Heap.obj) : Prop :=
  take n h' = take n h.

(** ** The two models side by side

    [applyMove] on values and [Heap.applyMove] on references, run on the
    same board: the first is what the properties of moves are stated on,
    the second is what the source does to objects.  [agreeOn] allocates the
    objects of a board in an empty heap, runs both and compares: both
    throw, or the board returned by reference has the value returned by
    value and the other four fields agree; in either case the input board
    has kept its value. *)
Definition agreeOn (bv : Board) (m : Move) (p : Player) : bool :=
  match Heap.allocBoard bv [] with
  | (h0, Ok b) =>
      let '(h1, r) := Heap.applyMove b m p h0 in
      bool_decide (Heap.boardValue h1 b = Some bv)
      && match r, applyMove bv m p with
         | Ok a, Ok v =>
             bool_decide (Heap.boardValue h1 (Heap.boardRef a) = Some (board v))
             && bool_decide (Heap.nextPlayer a = currentPlayer v)
             && bool_decide (Heap.forcedId a = forcedPieceId v)
             && bool_decide (Heap.capturedId a = capturedPieceId v)
             && bool_decide (Heap.wasPromoted a = promoted v)
         | TypeError, TypeError => true
         | _, _ => false
         end
  | (_, TypeError) => false
  end.

(** Moves between squares on and off the board, with and without a
    captured square, the destination itself among the captured squares. *)
Definition sampleMoves : list Move :=
  fr ← [1; 2; 4; 5; 8];
  fc ← [-1; 0; 1; 2; 3; 4];
  tr ← [-1; 0; 3; 7; 8];
  tc ← [-1; 0; 2; 3; 9];
  cap ← [None; Some (4, 1); Some (1, 2); Some (tr, tc); Some (8, 0)];
  [ {| pieceId := 1; from := (fr, fc); to := (tr, tc); capture := cap |} ].

(** ** Boards without sharing

    The clone that [applyMove] works on is made of objects of its own: no
    row array and no piece object occurs at two places.  This is what makes
    an assignment through a reference visible at one cell only. *)

(** The reference held at row [i], column [j] of a matrix of cells. *)
Definition refAt (locs : list (list (option Heap.loc))) (i j : nat) : option Heap.loc :=
  match locs !! i with
  | Some cells => match cells !! j with Some cell => cell | None => None end
  | None => None
  end.

(** [m[i][j] = x] inside a matrix. *)
Definition put2 {A : Type} (m : list (list A)) (i j : nat) (x : A) : list (list A) :=
  match m !! i with
  | Some row => <[i := <[j := x]> row]> m
  | None => m
  end.

(** The cell [c] reads as [v] in the heap [h]. *)
Definition cellRel (h : list Heap.obj) (c : option Heap.loc) (v : Cell) : Prop :=
  Heap.cellValue h c = Some v.

(** In [h] the reference [nb] leads to the row arrays [rows], these to the
    cells [locs], and the cells read as the board [bv]; no two rows and no
    two cells hold the same reference. *)
Record separated (h : list Heap.obj) (nb : Heap.loc) (rows : list Heap.loc)
    (locs : list (list (option Heap.loc))) (bv : Board) : Prop :=
  { sep_board : h !! nb = Some (Heap.BoardObj rows);
    sep_rows : Forall2 (fun r cells => h !! r = Some (Heap.RowObj cells)) rows locs;
    sep_rows_nodup : NoDup rows;
    sep_cells : Forall2 (Forall2 (cellRel h)) locs bv;
    sep_inj : forall i j i' j' l,
        refAt locs i j = Some l -> refAt locs i' j' = Some l -> i = i' /\ j = j' }.

(** ** The board after a move, step by step

    For a move over an 8x8 board whose [from] square holds [pc]: the piece
    is taken from [from] and put on [to], the captured square is emptied,
    and the piece on [to] is crowned when the move crowns it. *)

Definition promotes (pc : Piece) (m : Move) : bool :=
  negb (king pc) && reachesFarRank pc (fst (to m)).

Definition carriedBoard (bv : Board) (m : Move) (pc : Piece) : Board :=
  put2 (put2 bv (Z.to_nat (fst (from m))) (Z.to_nat (snd (from m))) None)
       (Z.to_nat (fst (to m))) (Z.to_nat (snd (to m))) (Some pc).

Definition capturedBoard (bv : Board) (m : Move) (pc : Piece) : Board :=
  match capture m with
  | Some (capRow, capCol) =>
      put2 (carriedBoard bv m pc) (Z.to_nat capRow) (Z.to_nat capCol) None
  | None => carriedBoard bv m pc
  end.

Definition capturedPiece (bv : Board) (m : Move) (pc : Piece) : option Z :=
  match capture m with
  | Some (capRow, capCol) => option_map id (cellAt (carriedBoard bv m pc) capRow capCol)
  | None => None
  end.

(** The move names its own destination as the captured square. *)
Definition capturesDestination (m : Move) : bool :=
  match capture m with
  | Some (capRow, capCol) => (capRow =? fst (to m)) && (capCol =? snd (to m))
  | None => false
  end.

Definition movedBoard (bv : Board) (m : Move) (pc : Piece) : Board :=
  if promotes pc m && negb (capturesDestination m)
  then put2 (capturedBoard bv m pc) (Z.to_nat (fst (to m))) (Z.to_nat (snd (to m)))
            (Some (crown pc))
  else capturedBoard bv m pc.

Definition moveOutcome (bv : Board) (m : Move) (p : Player) (pc : Piece) : AppliedMove :=
  if isSome (capture m) && negb (promotes pc m)
     && negb (isEmpty (captureCandidates (movedBoard bv m pc)
                         (fst (to m)) (snd (to m)) pc))
  then {| board := movedBoard bv m pc; currentPlayer := p;
          forcedPieceId := Some (id pc);
          capturedPieceId := capturedPiece bv m pc; promoted := promotes pc m |}
  else {| board := movedBoard bv m pc; currentPlayer := otherPlayer p;
          forcedPieceId := None;
          capturedPieceId := capturedPiece bv m pc; promoted := promotes pc m |}.

(** The outcome of [Heap.applyMove] is the outcome of [applyMove] on the
    value of the board: it returns, the returned board has the value of
    the board returned by value, and the other fields are the same. *)
Definition refines (bv : Board) (m : Move) (p : Player)
    (h' : list Heap.obj) (res : res Heap.AppliedRef) : Prop :=
  exists a v,
    res = Ok a /\ applyMove bv m p = Ok v
    /\ Heap.boardValue h' (Heap.boardRef a) = Some (board v)
    /\ Heap.nextPlayer a = currentPlayer v
    /\ Heap.forcedId a = forcedPieceId v
    /\ Heap.capturedId a = capturedPieceId v
    /\ Heap.wasPromoted a = promoted v.


(** ** Comparing moves ([isSameMove]) *)

(** [left === right] on two captured squares holds for two [null]s and for
    one and the same array; an array has the same elements as itself, so on
    values that case gives what the comparison of the elements gives. *)
Definition areCaptureCoordsEqual (left right : option (Z * Z)) : bool :=
  match left, right with
  | None, None => true
  | None, Some _ | Some _, None => false
  | Some l, Some r => (fst l =? fst r) && (snd l =? snd r)
  end.

Definition isSameMove (left right : Move) : bool :=
  (pieceId left =? pieceId right)
  && (fst (from left) =? fst (from right))
  && (snd (from left) =? snd (from right))
  && (fst (to left) =? fst (to right))
  && (snd (to left) =? snd (to right))
  && areCaptureCoordsEqual (capture left) (capture right).

(** ** The game store

    The store of the application keeps the position and what the interface
    shows of it; its methods are the only code that calls [applyMove] on
    the position of the game.  A method reads the state with [get()] and
    overwrites some of its fields with [set]; here a method is a function
    from the state before the call to the state after it. *)

Inductive Mode : Type := one | two.
Inductive Screen : Type := title | game.

Module Store.

Record MoveEvent : Type :=
  { move : Move;
    mover : Player;
    capture : bool;
    promoted : bool;
    forcedContinuation : bool }.

Record GameState : Type :=
  { screen : Screen;
    mode : Mode;
    tutorialEnabled : bool;
    board : Board;
    currentPlayer : Player;
    forcedPieceId : option Z;
    legalMoves : list Move;
    selectedPieceId : option Z;
    waitingForComputer : bool;
    gameOver : bool;
    winner : option Player;
    tipIndex : Z;
    capturedFlashId : option Z;
    lastMoveEvent : option MoveEvent }.

End Store.

(** The fields that [startGame] sets, for the given mode. *)
Definition newGame (screen0 : Screen) (mode0 : Mode) (tutorialEnabled0 : bool)
    : res Store.GameState :=
  '(seeded, _) ← createInitialBoard 1;
  moves ← getLegalMoves seeded light None;
  Ok {| Store.screen := screen0;
        Store.mode := mode0;
        Store.tutorialEnabled := tutorialEnabled0;
        Store.board := seeded;
        Store.currentPlayer := light;
        Store.forcedPieceId := None;
        Store.legalMoves := moves;
        Store.selectedPieceId := None;
        Store.waitingForComputer := false;
        Store.gameOver := false;
        Store.winner := None;
        Store.tipIndex := 0;
        Store.capturedFlashId := None;
        Store.lastMoveEvent := None |}.

(** The state the store is created with. *)
Definition initialState : res Store.GameState := newGame title one false.

Definition startGame (s : Store.GameState) (mode0 : Mode) (tutorialEnabled0 : bool)
    : res Store.GameState :=
  newGame game mode0 tutorialEnabled0.

Definition restartGame (s : Store.GameState) : res Store.GameState :=
  startGame s (Store.mode s) (Store.tutorialEnabled s).

Definition goHome (s : Store.GameState) : Store.GameState :=
  {| Store.screen := title;
     Store.mode := Store.mode s;
     Store.tutorialEnabled := Store.tutorialEnabled s;
     Store.board := Store.board s;
     Store.currentPlayer := Store.currentPlayer s;
     Store.forcedPieceId := None;
     Store.legalMoves := Store.legalMoves s;
     Store.selectedPieceId := None;
     Store.waitingForComputer := false;
     Store.gameOver := Store.gameOver s;
     Store.winner := Store.winner s;
     Store.tipIndex := Store.tipIndex s;
     Store.capturedFlashId := None;
     Store.lastMoveEvent := None |}.

Definition setWaitingForComputer (s : Store.GameState) (value : bool) : Store.GameState :=
  {| Store.screen := Store.screen s;
     Store.mode := Store.mode s;
     Store.tutorialEnabled := Store.tutorialEnabled s;
     Store.board := Store.board s;
     Store.currentPlayer := Store.currentPlayer s;
     Store.forcedPieceId := Store.forcedPieceId s;
     Store.legalMoves := Store.legalMoves s;
     Store.selectedPieceId := Store.selectedPieceId s;
     Store.waitingForComputer := value;
     Store.gameOver := Store.gameOver s;
     Store.winner := Store.winner s;
     Store.tipIndex := Store.tipIndex s;
     Store.capturedFlashId := Store.capturedFlashId s;
     Store.lastMoveEvent := Store.lastMoveEvent s |}.

(** [set({ selectedPieceId: v })] *)
Definition setSelectedPieceId (s : Store.GameState) (v : option Z) : Store.GameState :=
  {| Store.screen := Store.screen s;
     Store.mode := Store.mode s;
     Store.tutorialEnabled := Store.tutorialEnabled s;
     Store.board := Store.board s;
     Store.currentPlayer := Store.currentPlayer s;
     Store.forcedPieceId := Store.forcedPieceId s;
     Store.legalMoves := Store.legalMoves s;
     Store.selectedPieceId := v;
     Store.waitingForComputer := Store.waitingForComputer s;
     Store.gameOver := Store.gameOver s;
     Store.winner := Store.winner s;
     Store.tipIndex := Store.tipIndex s;
     Store.capturedFlashId := Store.capturedFlashId s;
     Store.lastMoveEvent := Store.lastMoveEvent s |}.

(** [if (!pieceId)] is a truthiness test, as in [getLegalMoves]. *)
Definition selectPiece (s : Store.GameState) (pieceId0 : option Z) : Store.GameState :=
  let legalMoves := Store.legalMoves s in
  match truthyId pieceId0 with
  | None => setSelectedPieceId s None
  | Some i =>
      let hasMoves := existsb (fun move => pieceId move =? i) legalMoves in
      setSelectedPieceId s (if hasMoves then Some i else None)
  end.

Definition clearSelection (s : Store.GameState) : Store.GameState :=
  setSelectedPieceId s None.

Definition commitMove (current : Store.GameState) (move : Move) : res Store.GameState :=
  if Store.gameOver current then Ok current
  else
    match find (fun candidate => isSameMove candidate move) (Store.legalMoves current) with
    | None => Ok current
    | Some legalMove =>
        let mover := Store.currentPlayer current in
        next ← applyMove (Store.board current) legalMove (Store.currentPlayer current);
        legalMoves ← getLegalMoves (board next) (currentPlayer next) (forcedPieceId next);
        let gameOver := isEmpty legalMoves in
        let winner := if gameOver then Some (otherPlayer (currentPlayer next)) else None in
        let lastMoveEvent :=
          {| Store.move := legalMove;
             Store.mover := mover;
             Store.capture := isSome (capture legalMove);
             Store.promoted := promoted next;
             Store.forcedContinuation := isSome (forcedPieceId next) |} in
        Ok {| Store.screen := Store.screen current;
              Store.mode := Store.mode current;
              Store.tutorialEnabled := Store.tutorialEnabled current;
              Store.board := board next;
              Store.currentPlayer := currentPlayer next;
              Store.forcedPieceId := forcedPieceId next;
              Store.legalMoves := legalMoves;
              Store.selectedPieceId := forcedPieceId next;
              Store.waitingForComputer := false;
              Store.gameOver := gameOver;
              Store.winner := winner;
              Store.tipIndex := Store.tipIndex current;
              Store.capturedFlashId := capturedPieceId next;
              Store.lastMoveEvent := Some lastMoveEvent |}
    end.

(** [nextTip] returns the new index with the state. *)
Definition nextTip (s : Store.GameState) : Store.GameState * Z :=
  let next := Store.tipIndex s + 1 in
  ({| Store.screen := Store.screen s;
      Store.mode := Store.mode s;
      Store.tutorialEnabled := Store.tutorialEnabled s;
      Store.board := Store.board s;
      Store.currentPlayer := Store.currentPlayer s;
      Store.forcedPieceId := Store.forcedPieceId s;
      Store.legalMoves := Store.legalMoves s;
      Store.selectedPieceId := Store.selectedPieceId s;
      Store.waitingForComputer := Store.waitingForComputer s;
      Store.gameOver := Store.gameOver s;
      Store.winner := Store.winner s;
      Store.tipIndex := next;
      Store.capturedFlashId := Store.capturedFlashId s;
      Store.lastMoveEvent := Store.lastMoveEvent s |}, next).

Definition clearCapturedFlash (s : Store.GameState) : Store.GameState :=
  {| Store.screen := Store.screen s;
     Store.mode := Store.mode s;
     Store.tutorialEnabled := Store.tutorialEnabled s;
     Store.board := Store.board s;
     Store.currentPlayer := Store.currentPlayer s;
     Store.forcedPieceId := Store.forcedPieceId s;
     Store.legalMoves := Store.legalMoves s;
     Store.selectedPieceId := Store.selectedPieceId s;
     Store.waitingForComputer := Store.waitingForComputer s;
     Store.gameOver := Store.gameOver s;
     Store.winner := Store.winner s;
     Store.tipIndex := Store.tipIndex s;
     Store.capturedFlashId := None;
     Store.lastMoveEvent := Store.lastMoveEvent s |}.

(** ** The board component: a click on a square

    The application hands the fields of the store to the board component,
    with [isHumanTurn]; a click on a square ends in at most one call of a
    method of the store. *)

Definition isHumanTurn (s : Store.GameState) : bool :=
  match Store.mode s with two => true | one => false end
  || Player_eqb (Store.currentPlayer s) light.

(** The legal moves of the selected piece. *)
Definition selectedMoves (s : Store.GameState) : list Move :=
  match truthyId (Store.selectedPieceId s) with
  | None => []
  | Some i => List.filter (fun move => pieceId move =? i) (Store.legalMoves s)
  end.

(** [drag] tells whether a piece is being dragged. *)
Definition handleSquareClick (s : Store.GameState) (drag : bool) (row col : Z)
    : res Store.GameState :=
  if negb (isHumanTurn s) || Store.waitingForComputer s || drag then Ok s
  else
    match find (fun move => (fst (to move) =? row) && (snd (to move) =? col))
               (selectedMoves s) with
    | Some selectedMove => commitMove s selectedMove
    | None =>
        piece ← getCell (Store.board s) row col;
        match piece with
        | None => Ok (selectPiece s None)
        | Some pc =>
            if negb (Player_eqb (player pc) (Store.currentPlayer s))
            then Ok (selectPiece s None)
            else
              let pieceHasMoves :=
                existsb (fun move => pieceId move =? id pc) (Store.legalMoves s) in
              Ok (selectPiece s (if pieceHasMoves then Some (id pc) else None))
        end
    end.

Section Randomised.
Context {R : Type} {N : Num R}.

(** [Math.random], as in the scoring code: the sequence of its values and
    the number of calls made so far. *)
Variable rnd : nat -> R.

(** [showHint] returns the hint with the state. *)
Definition showHint (s : Store.GameState) (k : nat)
    : res (Store.GameState * option Move * nat) :=
  if Store.gameOver s || isEmpty (Store.legalMoves s) then Ok (s, None, k)
  else
    '(hint, k) ← chooseBestMove rnd (Store.legalMoves s) (Store.board s)
                   (Store.currentPlayer s) k;
    match hint with
    | Some h => Ok (setSelectedPieceId s (Some (pieceId h)), hint, k)
    | None => Ok (s, hint, k)
    end.

(** The computer's turn: the callback that the application schedules when
    it is dark's turn in a one-player game. *)
Definition computerTurn (state : Store.GameState) (k : nat)
    : res (Store.GameState * nat) :=
  '(move, k) ← chooseBestMove rnd (Store.legalMoves state) (Store.board state)
                 (Store.currentPlayer state) k;
  let state := setWaitingForComputer state false in
  match move with
  | Some m => s' ← commitMove state m; Ok (s', k)
  | None => Ok (state, k)
  end.

End Randomised.

(** ** The board on the screen

    The board component draws the board as a diamond: the tile of row
    [row] and column [col] is a rhombus around [getTileCenter row col],
    and a pointer position is mapped back to a tile by
    [boardPointToCell].  Coordinates are JavaScript numbers. *)

Section Geometry.
Context {R : Type} {N : Num R}.

Definition BOARD_SIZE : R := ofZ 8.
Definition TOP_PADDING : R := ofZ 26.
Definition HORIZONTAL_PADDING : R := ofZ 34.
Definition TOP_WIDTH : R := ofZ 800.
Definition TOP_HEIGHT : R := ofZ 448.
Definition BOARD_EDGE_PADDING_X : R := ofZ 28.
Definition BOARD_EDGE_PADDING_Y : R := ofZ 18.
Definition TILE_HALF_WIDTH : R :=
  ndiv (nsub TOP_WIDTH (nmul BOARD_EDGE_PADDING_X (ofZ 2))) (ofZ 16).
Definition TILE_HALF_HEIGHT : R :=
  ndiv (nsub TOP_HEIGHT (nmul BOARD_EDGE_PADDING_Y (ofZ 2))) (ofZ 16).
Definition VIEW_WIDTH : R := nadd TOP_WIDTH (nmul HORIZONTAL_PADDING (ofZ 2)).
Definition CENTER_X : R := ndiv VIEW_WIDTH (ofZ 2).

(** [Math.round]: the nearest integer, the upper one of two that are
    equally near.  [roundUp] finds it from the fractional part
    [x - Math.floor(x)], which it compares with one half; [Math.round]
    returns [-0] where that gives a zero for a negative [x]. *)
Definition roundUp (x : R) : R :=
  let f := nfloor x in
  if nle (dec 5 10) (nsub x f) then nadd f (ofZ 1) else f.

Definition round (x : R) : R :=
  let r := roundUp x in
  if nlt x (ofZ 0) && nle (ofZ 0) r then nopp (ofZ 0) else r.

Definition getTileCenter (row col : R) : R * R :=
  (nadd CENTER_X (nmul (nsub col row) TILE_HALF_WIDTH),
   nadd (nadd TOP_PADDING BOARD_EDGE_PADDING_Y)
        (nmul (nadd (nadd row col) (ofZ 1)) TILE_HALF_HEIGHT)).

Definition isInsideBoard (row col : R) : bool :=
  nle (ofZ 0) row && nlt row BOARD_SIZE && nle (ofZ 0) col && nlt col BOARD_SIZE.

Definition boardPointToCell (x y : R) : option (R * R) :=
  let u := ndiv (nsub x CENTER_X) TILE_HALF_WIDTH in
  let v := nsub (ndiv (nsub (nsub y TOP_PADDING) BOARD_EDGE_PADDING_Y) TILE_HALF_HEIGHT)
                (ofZ 1) in
  let row := round (ndiv (nsub v u) (ofZ 2)) in
  let col := round (ndiv (nadd v u) (ofZ 2)) in
  if negb (isInsideBoard row col) then None else Some (row, col).

End Geometry.

(** ** Vocabulary for positions and moves *)

(** No two squares hold pieces with the same id. *)
Definition uniqueIds (b : Board) : Prop :=
  forall row col row' col' pc pc',
    cellAt b row col = Some pc -> cellAt b row' col' = Some pc' ->
    id pc = id pc' -> (row, col) = (row', col').

(** No piece has the id [0], which [getLegalMoves] and [selectPiece] read
    as no id at all. *)
Definition nonzeroIds (b : Board) : Prop :=
  forall row col pc, cellAt b row col = Some pc -> id pc <> 0.

(** Every piece stands on a dark square. *)
Definition onDarkSquares (b : Board) : Prop :=
  forall row col pc, cellAt b row col = Some pc -> isDarkSquare row col = true.

(** The square a piece is put on by [createInitialBoard startId], with the
    id it gets: four pieces to a row, numbered along the rows, dark on rows
    0 to 2 and light on rows 5 to 7. *)
Definition initialCell (startId row col : Z) : Cell :=
  if isInside row col && isDarkSquare row col then
    if row <? 3 then Some (man (startId + 4 * row + col / 2) dark)
    else if 5 <=? row then Some (man (startId + 4 * (row - 2) + col / 2) light)
    else None
  else None.

(** The row direction in which the men of a player move. *)
Definition forward (p : Player) : Z :=
  match p with light => -1 | dark => 1 end.

(** A step to a diagonal neighbour that the piece may take: any of the four
    for a king, the two forward ones for a man. *)
Definition diagonalStep (pc : Piece) (dr dc : Z) : Prop :=
  (dr = 1 \/ dr = -1) /\ (dc = 1 \/ dc = -1)
  /\ (king pc = false -> dr = forward (player pc)).

(** [m] is a move of checkers for the piece [pc] of the board [b]: the
    piece stands on [from m] and [pieceId m] is its id; a slide takes it
    one diagonal step to an empty square of the board; a capture takes it
    two steps in one direction to an empty square of the board, over a
    piece of the other colour, which is the captured square. *)
Definition validMove (b : Board) (pc : Piece) (m : Move) : Prop :=
  cellAt b (fst (from m)) (snd (from m)) = Some pc
  /\ pieceId m = id pc
  /\ onBoard m
  /\ cellAt b (fst (to m)) (snd (to m)) = None
  /\ exists dr dc,
       diagonalStep pc dr dc
       /\ match capture m with
          | None => to m = (fst (from m) + dr, snd (from m) + dc)
          | Some sq =>
              sq = (fst (from m) + dr, snd (from m) + dc)
              /\ to m = (fst (from m) + 2 * dr, snd (from m) + 2 * dc)
              /\ exists other, cellAt b (fst sq) (snd sq) = Some other
                               /\ player other <> player pc
          end.

(** The number of pieces of a player on the board. *)
Definition countPieces (b : Board) (p : Player) : nat := length (playerPieces b p).

(** A board of fewer than eight rows. *)
Definition shortBoard : Board := [ emptyRow; emptyRow; emptyRow ].

(** ** Vocabulary for the game store *)

(** What the starting position has and every move keeps. *)
Definition goodPosition (b : Board) : Prop :=
  wf_board b /\ uniqueIds b /\ nonzeroIds b /\ onDarkSquares b.

(** The same, as a test that can be run: the cells are compared square by
    square. *)
Definition goodPositionb (b : Board) : bool :=
  (length b =? 8)%nat
  && forallb (fun cells : list Cell => (length cells =? 8)%nat) b
  && forallb (fun sq : Z * Z =>
                match cellAt b (fst sq) (snd sq) with
                | Some pc =>
                    negb (id pc =? 0) && isDarkSquare (fst sq) (snd sq)
                    && forallb (fun sq' : Z * Z =>
                                  match cellAt b (fst sq') (snd sq') with
                                  | Some pc' => negb (id pc =? id pc') || bool_decide (sq = sq')
                                  | None => true
                                  end) squares
                | None => true
                end) squares.

(** The state of the store hangs together: the position is good; every
    move on offer is a move of checkers of a piece of the player to move;
    the game is over exactly when no move is on offer, and then the other
    player has won; a selected piece has a move on offer; and on the game
    screen the moves on offer are the legal moves of the position. *)
Definition consistent (s : Store.GameState) : Prop :=
  goodPosition (Store.board s)
  /\ Forall (fun m => exists pc, player pc = Store.currentPlayer s
                                 /\ validMove (Store.board s) pc m)
            (Store.legalMoves s)
  /\ Store.gameOver s = isEmpty (Store.legalMoves s)
  /\ Store.winner s
     = (if Store.gameOver s then Some (otherPlayer (Store.currentPlayer s)) else None)
  /\ (forall i, Store.selectedPieceId s = Some i ->
                exists m, In m (Store.legalMoves s) /\ pieceId m = i)
  /\ (Store.screen s = game ->
      getLegalMoves (Store.board s) (Store.currentPlayer s) (Store.forcedPieceId s)
      = Ok (Store.legalMoves s)).

(** One call from the application: a method of the store, or the
    computer's turn. *)
Inductive Action : Type :=
| StartGame (mode0 : Mode) (tutorialEnabled0 : bool)
| RestartGame
| GoHome
| SetWaitingForComputer (value : bool)
| SelectPiece (pieceId0 : option Z)
| ClearSelection
| CommitMove (move : Move)
| ShowHint
| NextTip
| ClearCapturedFlash
| ComputerTurn.

Section Steps.
Context {R : Type} {N : Num R}.
Variable rnd : nat -> R.

(** The state after a call, with the number of random numbers drawn. *)
Definition step (a : Action) (s : Store.GameState) (k : nat)
    : res (Store.GameState * nat) :=
  match a with
  | StartGame mode0 tutorialEnabled0 => s' ← startGame s mode0 tutorialEnabled0; Ok (s', k)
  | RestartGame => s' ← restartGame s; Ok (s', k)
  | GoHome => Ok (goHome s, k)
  | SetWaitingForComputer value => Ok (setWaitingForComputer s value, k)
  | SelectPiece pieceId0 => Ok (selectPiece s pieceId0, k)
  | ClearSelection => Ok (clearSelection s, k)
  | CommitMove move => s' ← commitMove s move; Ok (s', k)
  | ShowHint => '(s', _, k') ← showHint rnd s k; Ok (s', k')
  | NextTip => Ok (fst (nextTip s), k)
  | ClearCapturedFlash => Ok (clearCapturedFlash s, k)
  | ComputerTurn => computerTurn rnd s k
  end.

(** The states the store can be in: the one it is created with, and those
    that calls lead to. *)
Inductive reachable : Store.GameState -> nat -> Prop :=
| reachable_initial (s : Store.GameState) :
    initialState = Ok s -> reachable s 0
| reachable_step (a : Action) (s s' : Store.GameState) (k k' : nat) :
    reachable s k -> step a s k = Ok (s', k') -> reachable s' k'.

End Steps.

(** ** Vocabulary for the scores *)

(** The score that [scoreMove] gives a move at the [k]-th draw from the
    random source, in exact arithmetic. *)
Definition scoreOf (rnd : nat -> xQ) (b : Board) (p : Player) (k : nat) (m : Move) : Q :=
  match scoreMove rnd m b p k with
  | Ok (Fin s, _) => s
  | _ => 0
  end.

(** Two scores that cancel. *)
Definition opposite (a1 a2 : xQ) : Prop :=
  exists v w, a1 = Fin v /\ a2 = Fin w /\ (v + w == 0)%Q.

(** ** Vocabulary for the board on the screen *)

(** The tile that a point is mapped to, as a pair of indices. *)
Definition cellOf {R : Type} {N : Num R} (x y : R) : option (option Z * option Z) :=
  option_map (fun rc : R * R => (toIndex (fst rc), toIndex (snd rc))) (boardPointToCell x y).

(** The point [(x, y)] lies in the rhombus of the tile of row [row] and
    column [col]: its centre is at [434 + (col - row) * 46.5] across and
    [44 + (row + col + 1) * 25.75] down, its half-width is 46.5 and its
    half-height 25.75.  The upper two edges belong to the tile, the lower
    two do not. *)
Definition inTile (row col : Z) (x y : Q) : Prop :=
  let du := ((x - (434 + (inject_Z col - inject_Z row) * (93 # 2))) / (93 # 2))%Q in
  let dv := ((y - (44 + (inject_Z row + inject_Z col + 1) * (103 # 4))) / (103 # 4))%Q in
  (-1 <= dv - du < 1)%Q /\ (-1 <= dv + du < 1)%Q.

(** The round trip from every tile to its centre and back, in binary64. *)
Definition centreRoundTrip (sq : Z * Z) : bool :=
  let '(x, y) := getTileCenter (R := float) (ofZ (fst sq)) (ofZ (snd sq)) in
  bool_decide (cellOf x y = Some (Some (fst sq), Some (snd sq))).

(** ** Vocabulary for the search *)

(** The value of a position by plain minimax to a given depth: no pruning
    and no jitter; a position without moves has the terminal score, a
    position at depth 0 the score of [evaluateBoard], and any other the
    greatest (at a node of the maximizing player) or the least of the
    values of the positions after each legal move. *)
Fixpoint searchValueN (n : nat) (b : Board) (cur : Player) (forced : option Z)
    (maximizingPlayer : Player) (depth : Z) : res xQ :=
  moves ← getLegalMoves b cur forced;
  if isEmpty moves then
    Ok (if Player_eqb cur maximizingPlayer
        then nsub (nopp (ofZ 1000)) (ofZ depth)
        else nadd (ofZ 1000) (ofZ depth))
  else
    match n with
    | O => evaluateBoard b maximizingPlayer
    | S n' =>
        foldM (fun value move =>
                 next ← applyMove b move cur;
                 v ← searchValueN n' (board next) (currentPlayer next) (forcedPieceId next)
                       maximizingPlayer (depth - 1);
                 Ok (if Player_eqb cur maximizingPlayer then nmax value v else nmin value v))
              (if Player_eqb cur maximizingPlayer then nopp infinity else infinity)
              moves
    end.

Definition searchValue (b : Board) (cur : Player) (forced : option Z)
    (maximizingPlayer : Player) (depth : Z) : res xQ :=
  searchValueN (Z.to_nat depth) b cur forced maximizingPlayer depth.

(** A lower bound of a search window is a number or [-Infinity], an upper
    bound a number or [Infinity]. *)
Definition lowBound (a : xQ) : Prop := a = NInf \/ exists q, a = Fin q.
Definition highBound (a : xQ) : Prop := a = PInf \/ exists q, a = Fin q.

(** What a search with the window from [alpha] to [beta] returns ([v]) for
    a position of value [t]: the value itself when it lies inside the
    window, and otherwise a number on the same side of the window as the
    value, no further out. *)
Definition failsoft (alpha beta t v : xQ) : Prop :=
  (xle t alpha = true -> xle t v = true /\ xle v alpha = true)
  /\ (xlt alpha t = true -> xlt t beta = true -> xle t v = true /\ xle v t = true)
  /\ (xle beta t = true -> xle beta v = true /\ xle v t = true).

(** [t'] is [t] with jitter: at most one hundredth more. *)
Definition jittered (t t' : xQ) : Prop :=
  match t, t' with
  | Fin a, Fin a' => (a <= a' <= a + (1 # 100))%Q
  | NInf, NInf | PInf, PInf => True
  | _, _ => False
  end.

(** The value of a move for the player who makes it: the value by plain
    minimax, to the depth of the hard policy, of the position that the move
    leads to. *)
Definition moveValue (b : Board) (p : Player) (m : Move) : Q :=
  match applyMove b m p with
  | Ok next =>
      match searchValue (board next) (currentPlayer next) (forcedPieceId next) p
              (HARD_SEARCH_DEPTH - 1) with
      | Ok (Fin t) => t
      | _ => 0
      end
  | TypeError => 0
  end.

(** * Part II: properties *)

(** ** The error monad and its loops *)

Lemma bind_Ok {A B : Type} (a : A) (f : A -> res B) : (Ok a ≫= f) = f a.
Proof. reflexivity. Qed.

(** A loop whose body appends to two arrays appends, in the end, what each
    element contributes. *)
Lemma foldM_collect2 {A B C : Type}
    (body : list A * list B -> C -> res (list A * list B))
    (f : C -> list A) (g : C -> list B) (xs : list C) :
  (forall acc x, In x xs -> body acc x = Ok (fst acc ++ f x, snd acc ++ g x)) ->
  forall acc, foldM body acc xs = Ok (fst acc ++ flat_map f xs, snd acc ++ flat_map g xs).
Proof.
  induction xs as [|x xs IH]; intros Hbody acc; simpl.
  - rewrite !app_nil_r. by destruct acc.
  - rewrite (Hbody acc x) by (by left). rewrite bind_Ok.
    rewrite IH by (intros; apply Hbody; by right).
    simpl. by rewrite <- !app_assoc.
Qed.

Lemma foldM_collect {A C : Type} (body : list A -> C -> res (list A))
    (f : C -> list A) (xs : list C) :
  (forall acc x, In x xs -> body acc x = Ok (acc ++ f x)) ->
  forall acc, foldM body acc xs = Ok (acc ++ flat_map f xs).
Proof.
  induction xs as [|x xs IH]; intros Hbody acc; simpl.
  - by rewrite app_nil_r.
  - rewrite (Hbody acc x) by (by left). rewrite bind_Ok.
    rewrite IH by (intros; apply Hbody; by right).
    by rewrite <- app_assoc.
Qed.

(** ** Boards *)

Lemma index_Some {A : Type} (xs : list A) (i : Z) (x : A) :
  index xs i = Some x <-> 0 <= i /\ xs !! Z.to_nat i = Some x.
Proof.
  unfold index. destruct (Z.leb_spec 0 i); split; intros H'; try tauto; try lia.
  - discriminate.
Qed.

Lemma index_in_range {A : Type} (xs : list A) (i : Z) :
  0 <= i < Z.of_nat (length xs) -> exists x, index xs i = Some x.
Proof.
  intros Hi. unfold index. destruct (Z.leb_spec 0 i); [|lia].
  apply lookup_lt_is_Some_2. lia.
Qed.

Lemma getCell_cellAt (b : Board) (row col : Z) :
  0 <= row < Z.of_nat (length b) -> getCell b row col = Ok (cellAt b row col).
Proof.
  intros Hrow. unfold getCell, getRow, cellAt.
  destruct (index_in_range b row Hrow) as [cells ->]. reflexivity.
Qed.

Lemma isInside_spec (row col : Z) :
  isInside row col = true <-> 0 <= row < 8 /\ 0 <= col < 8.
Proof. unfold isInside. rewrite !andb_true_iff. lia. Qed.

(** Case analysis on a row or column index known to lie in 0..7. *)
Ltac enum_coord x :=
  let H := fresh "Hx" in
  assert (H : x = 0 \/ x = 1 \/ x = 2 \/ x = 3 \/ x = 4 \/ x = 5 \/ x = 6 \/ x = 7) by lia;
  repeat (destruct H as [->|H]); [..|subst x].

Lemma getCell_inside (b : Board) (row col : Z) :
  wf_board b -> isInside row col = true -> getCell b row col = Ok (cellAt b row col).
Proof.
  intros [Hlen _] Hin%isInside_spec. apply getCell_cellAt. lia.
Qed.

Lemma Player_eqb_eq (a b : Player) : Player_eqb a b = true <-> a = b.
Proof. destruct a, b; simpl; split; congruence. Qed.

Lemma Player_eqb_neq (a b : Player) : Player_eqb a b = false <-> a <> b.
Proof. destruct a, b; simpl; split; congruence. Qed.

(** ** The move generators compute the candidates of the specification *)

Lemma captureStep_spec (b : Board) (row col : Z) (pc : Piece) (acc : list Move) (d : Z * Z) :
  wf_board b ->
  captureStep b row col pc acc d = Ok (acc ++ captureCandidate b row col pc d).
Proof.
  intros Hwf. destruct d as [dr dc]. unfold captureStep, captureCandidate. cbn [fst snd].
  destruct (isInside (row + dr) (col + dc)) eqn:Hmid; cbn [negb orb].
  2:{ destruct (cellAt b (row + dr) (col + dc)); [|by rewrite app_nil_r].
      case_decide as H; [|by rewrite app_nil_r]. destruct H as (_ & ? & _); congruence. }
  destruct (isInside (row + dr * 2) (col + dc * 2)) eqn:Htgt; cbn [negb orb].
  2:{ destruct (cellAt b (row + dr) (col + dc)); [|by rewrite app_nil_r].
      case_decide as H; [|by rewrite app_nil_r]. destruct H as (_ & _ & ? & _); congruence. }
  rewrite (getCell_inside b _ _ Hwf Hmid), bind_Ok.
  destruct (cellAt b (row + dr) (col + dc)) as [mp|]; [|by rewrite app_nil_r].
  destruct (Player_eqb (player mp) (player pc)) eqn:Hpl.
  { apply Player_eqb_eq in Hpl. case_decide as H; [|by rewrite app_nil_r]. tauto. }
  apply Player_eqb_neq in Hpl.
  rewrite (getCell_inside b _ _ Hwf Htgt), bind_Ok.
  destruct (cellAt b (row + dr * 2) (col + dc * 2)) as [tp|] eqn:Ht; cbn [isSome].
  - case_decide as H; [|by rewrite app_nil_r]. destruct H as (_ & _ & _ & ?); congruence.
  - case_decide as H; [done|]. tauto.
Qed.

Lemma getSinglePieceCaptures_spec (b : Board) (row col : Z) (pc : Piece) :
  wf_board b -> getSinglePieceCaptures b row col pc = Ok (captureCandidates b row col pc).
Proof.
  intros Hwf. unfold getSinglePieceCaptures, captureCandidates.
  rewrite (foldM_collect _ (captureCandidate b row col pc)); [done|].
  intros. by apply captureStep_spec.
Qed.

Lemma slideStep_spec (b : Board) (row col : Z) (pc : Piece) (acc : list Move) (d : Z * Z) :
  wf_board b ->
  slideStep b row col pc acc d = Ok (acc ++ slideCandidate b row col pc d).
Proof.
  intros Hwf. destruct d as [dr dc]. unfold slideStep, slideCandidate. cbn [fst snd].
  destruct (isInside (row + dr) (col + dc)) eqn:Htgt; cbn [negb].
  2:{ case_decide as H; [|by rewrite app_nil_r]. destruct H as (? & _); congruence. }
  rewrite (getCell_inside b _ _ Hwf Htgt), bind_Ok.
  destruct (cellAt b (row + dr) (col + dc)) as [tp|] eqn:Ht; cbn [isSome].
  - case_decide as H; [|by rewrite app_nil_r]. destruct H as (_ & ?); congruence.
  - case_decide as H; [done|]. tauto.
Qed.

Lemma getSinglePieceSlides_spec (b : Board) (row col : Z) (pc : Piece) :
  wf_board b -> getSinglePieceSlides b row col pc = Ok (slideCandidates b row col pc).
Proof.
  intros Hwf. unfold getSinglePieceSlides, slideCandidates.
  rewrite (foldM_collect _ (slideCandidate b row col pc)); [done|].
  intros. by apply slideStep_spec.
Qed.

(** ** The scan of [getLegalMoves] *)

Lemma flat_map_flat_map {A B C : Type} (f : B -> list C) (g : A -> list B) (xs : list A) :
  flat_map f (flat_map g xs) = flat_map (fun x => flat_map f (g x)) xs.
Proof.
  induction xs as [|x xs IH]; simpl; [done|]. by rewrite flat_map_app, IH.
Qed.

Lemma flat_map_map {A B C : Type} (f : B -> list C) (g : A -> B) (xs : list A) :
  flat_map f (map g xs) = flat_map (fun x => f (g x)) xs.
Proof. induction xs as [|x xs IH]; simpl; [done|]. by rewrite IH. Qed.

Lemma flat_map_nil_inv {A B : Type} (f : A -> list B) (xs : list A) :
  flat_map f xs = [] -> forall x, In x xs -> f x = [].
Proof.
  induction xs as [|y xs IH]; simpl; [tauto|].
  intros [Hy Hxs]%app_eq_nil x [<-|Hin]; auto.
Qed.

Lemma flat_map_ext_In {A B : Type} (f g : A -> list B) (xs : list A) :
  (forall x, In x xs -> f x = g x) -> flat_map f xs = flat_map g xs.
Proof.
  induction xs as [|x xs IH]; intros H; simpl; [done|].
  rewrite H by (by left). rewrite IH; [done|]. intros; apply H; by right.
Qed.

Lemma flat_map_nil_intro {A B : Type} (f : A -> list B) (xs : list A) :
  (forall x, In x xs -> f x = []) -> flat_map f xs = [].
Proof.
  induction xs as [|x xs IH]; intros H; simpl; [done|].
  rewrite H by (by left). apply IH. intros; apply H; by right.
Qed.

Lemma flat_map_squares {B : Type} (f : Z * Z -> list B) :
  flat_map f squares
  = flat_map (fun row => flat_map (fun col => f (row, col)) (seqZ 0 8)) (seqZ 0 8).
Proof.
  unfold squares. rewrite flat_map_flat_map.
  apply flat_map_ext. intros row. apply flat_map_map.
Qed.

Lemma In_seqZ_8 (i : Z) : In i (seqZ 0 8) <-> 0 <= i < 8.
Proof. rewrite <- list_elem_of_In, elem_of_seqZ. lia. Qed.

Lemma In_squares (row col : Z) : In (row, col) squares <-> isInside row col = true.
Proof.
  unfold squares. rewrite in_flat_map, isInside_spec. split.
  - intros (r & Hr%In_seqZ_8 & Hc). apply in_map_iff in Hc as (c & [= <- <-] & Hc%In_seqZ_8). lia.
  - intros [Hr Hc]. exists row. split; [by apply In_seqZ_8|].
    apply in_map_iff. exists col. split; [done|by apply In_seqZ_8].
Qed.

Lemma scanCell_spec (b : Board) (p : Player) (row col : Z) (acc : list Move * list Move) :
  wf_board b -> isInside row col = true ->
  scanCell b p row acc col
  = Ok (fst acc ++ flat_map (capturesOf b) (ownPiece b p (row, col)),
        snd acc ++ flat_map (idleSlidesOf b) (ownPiece b p (row, col))).
Proof.
  intros Hwf Hin. destruct acc as [captures slides]. unfold scanCell, ownPiece.
  rewrite (getCell_inside b _ _ Hwf Hin), bind_Ok. cbn [fst snd].
  destruct (cellAt b row col) as [pc|]; [|by rewrite !app_nil_r].
  destruct (Player_eqb (player pc) p) eqn:Hp; cbn [negb].
  - apply Player_eqb_eq in Hp. rewrite decide_True by done.
    rewrite getSinglePieceCaptures_spec, bind_Ok by done.
    cbn [flat_map]. unfold idleSlidesOf, capturesOf, slidesOf. cbn [fst snd].
    rewrite !app_nil_r.
    destruct (captureCandidates b row col pc) eqn:Hc; cbn [isEmpty negb].
    + rewrite getSinglePieceSlides_spec, bind_Ok by done. by rewrite app_nil_r.
    + by rewrite app_nil_r.
  - apply Player_eqb_neq in Hp. rewrite decide_False by done. by rewrite !app_nil_r.
Qed.

Lemma scan_spec (b : Board) (p : Player) :
  wf_board b ->
  foldM (scanRow b p) ([], []) (seqZ 0 8)
  = Ok (allCaptureCandidates b p, flat_map (idleSlidesOf b) (playerPieces b p)).
Proof.
  intros Hwf. unfold allCaptureCandidates, playerPieces.
  rewrite !flat_map_flat_map, !flat_map_squares.
  rewrite (foldM_collect2 (scanRow b p)
             (fun row => flat_map (fun col => flat_map (capturesOf b) (ownPiece b p (row, col))) (seqZ 0 8))
             (fun row => flat_map (fun col => flat_map (idleSlidesOf b) (ownPiece b p (row, col))) (seqZ 0 8)));
    [done|].
  intros acc row Hrow%In_seqZ_8. unfold scanRow.
  apply foldM_collect2. intros acc' col Hcol%In_seqZ_8.
  apply scanCell_spec; [done|]. apply isInside_spec. lia.
Qed.

Lemma getLegalMoves_scan (b : Board) (p : Player) :
  wf_board b ->
  getLegalMoves b p None
  = Ok (if isEmpty (allCaptureCandidates b p)
        then allSlideCandidates b p else allCaptureCandidates b p).
Proof.
  intros Hwf. unfold getLegalMoves. cbn [truthyId].
  rewrite scan_spec, bind_Ok by done.
  destruct (allCaptureCandidates b p) eqn:Hcaps; cbn [isEmpty negb]; [|done].
  f_equal. unfold allSlideCandidates. apply flat_map_ext_In.
  intros x Hx. unfold idleSlidesOf.
  by rewrite (flat_map_nil_inv _ _ Hcaps x Hx).
Qed.

Lemma In_playerPieces (b : Board) (p : Player) (row col : Z) (pc : Piece) :
  In (row, col, pc) (playerPieces b p)
  <-> isInside row col = true /\ cellAt b row col = Some pc /\ player pc = p.
Proof.
  unfold playerPieces. rewrite in_flat_map. split.
  - intros ([r c] & Hsq%In_squares & Hown). unfold ownPiece in Hown. cbn [fst snd] in Hown.
    destruct (cellAt b r c) as [q|] eqn:Hq; [|done].
    case_decide; [|done]. destruct Hown as [[= <- <- <-]|[]]. done.
  - intros (Hin & Hcell & Hp). exists (row, col). split; [by apply In_squares|].
    unfold ownPiece. cbn [fst snd]. rewrite Hcell, decide_True by done. by left.
Qed.

Lemma captureCandidates_are_captures (b : Board) (row col : Z) (pc : Piece) :
  Forall (fun m => isCapture m /\ pieceId m = id pc /\ from m = (row, col))
         (captureCandidates b row col pc).
Proof.
  unfold captureCandidates. apply List.Forall_forall. intros m (d & _ & Hm)%in_flat_map.
  unfold captureCandidate in Hm.
  destruct (cellAt b _ _); [|done]. case_decide; [|done].
  destruct Hm as [<-|[]]. unfold isCapture. done.
Qed.

Lemma slideCandidates_are_slides (b : Board) (row col : Z) (pc : Piece) :
  Forall isSlide (slideCandidates b row col pc).
Proof.
  unfold slideCandidates. apply List.Forall_forall. intros m (d & _ & Hm)%in_flat_map.
  unfold slideCandidate in Hm. case_decide; [|done]. by destruct Hm as [<-|[]].
Qed.

(** C1. Without a forced piece, [getLegalMoves] enforces the mandatory
    capture: as soon as one piece of the player has a capture candidate the
    result is the list of all capture candidates of all the player's pieces
    and holds no slide; when no piece has one, the result is the list of
    all slide candidates of the player's pieces. *)
Theorem getLegalMoves_mandatory_capture (b : Board) (p : Player) :
  wf_board b ->
  ((exists row col pc,
       isInside row col = true /\ cellAt b row col = Some pc /\ player pc = p
       /\ captureCandidates b row col pc <> []) ->
     getLegalMoves b p None = Ok (allCaptureCandidates b p)
     /\ Forall isCapture (allCaptureCandidates b p))
  /\ ((forall row col pc,
         isInside row col = true -> cellAt b row col = Some pc -> player pc = p ->
         captureCandidates b row col pc = []) ->
      getLegalMoves b p None = Ok (allSlideCandidates b p)
      /\ Forall isSlide (allSlideCandidates b p)).
Proof.
  intros Hwf. rewrite getLegalMoves_scan by done. split.
  - intros (row & col & pc & Hin & Hcell & Hp & Hcand).
    assert (Hmem : In (row, col, pc) (playerPieces b p)) by (by apply In_playerPieces).
    destruct (allCaptureCandidates b p) as [|m0 ms] eqn:Hall.
    + exfalso. apply Hcand. apply (flat_map_nil_inv _ _ Hall _ Hmem).
    + cbn [isEmpty]. split; [done|]. rewrite <- Hall.
      unfold allCaptureCandidates. apply List.Forall_forall.
      intros m ([[r c] q] & _ & Hm)%in_flat_map.
      pose proof (captureCandidates_are_captures b r c q) as HF.
      rewrite List.Forall_forall in HF. by apply (HF m).
  - intros Hnone.
    assert (Hall : allCaptureCandidates b p = []).
    { unfold allCaptureCandidates. apply flat_map_nil_intro.
      intros [[r c] q] (Hin & Hcell & Hp)%In_playerPieces.
      by apply (Hnone r c q). }
    rewrite Hall. cbn [isEmpty]. split; [done|].
    unfold allSlideCandidates. apply List.Forall_forall.
    intros m ([[r c] q] & _ & Hm)%in_flat_map.
    pose proof (slideCandidates_are_slides b r c q) as HF.
    rewrite List.Forall_forall in HF. by apply HF.
Qed.

Lemma captureBoard_wf : wf_board captureBoard.
Proof. split; [reflexivity | repeat constructor]. Defined.

Lemma chainBoard_wf : wf_board chainBoard.
Proof. split; [reflexivity | repeat constructor]. Defined.

Lemma crownBoard_wf : wf_board crownBoard.
Proof. split; [reflexivity | repeat constructor]. Defined.

(** On the test position light must capture 4,3 with the man on 5,2; on
    the multi-jump position dark has no capture and may only slide. *)
Lemma getLegalMoves_mandatory_capture_witness :
  (getLegalMoves captureBoard light None
   = Ok [ {| pieceId := 1; from := (5, 2); to := (3, 4); capture := Some (4, 3) |} ])
  /\ getLegalMoves chainBoard dark None = Ok (allSlideCandidates chainBoard dark).
Proof.
  split.
  - apply (proj1 (getLegalMoves_mandatory_capture captureBoard light captureBoard_wf)).
    exists 5, 2, (man 1 light). repeat split; discriminate.
  - apply (proj2 (getLegalMoves_mandatory_capture chainBoard dark chainBoard_wf)).
    intros row col pc Hin%isInside_spec Hcell Hp.
    enum_coord row; enum_coord col;
      vm_compute in Hcell; try discriminate Hcell;
      injection Hcell as <-; first [discriminate Hp | reflexivity].
Defined.

(** ** [findPiece] and the forced piece *)

Lemma head_app {A : Type} (xs ys : list A) :
  head (xs ++ ys) = match head xs with Some x => Some x | None => head ys end.
Proof. by destruct xs. Qed.

Lemma findInRow_spec (fid : Z) (b : Board) (row : Z) (cols : list Z) :
  wf_board b -> (forall col, In col cols -> isInside row col = true) ->
  findInRow fid b row cols
  = Ok (head (flat_map (fun col => pieceWithId b fid (row, col)) cols)).
Proof.
  intros Hwf. induction cols as [|col cols IH]; intros Hin; [done|].
  cbn [findInRow flat_map]. rewrite getCell_inside, bind_Ok by (auto using in_eq).
  rewrite head_app. unfold pieceWithId at 1. cbn [fst snd].
  assert (Hrest : forall col0, In col0 cols -> isInside row col0 = true)
    by (intros; apply Hin; by right).
  destruct (cellAt b row col) as [pc|]; [|by apply IH].
  destruct (Z.eqb_spec (id pc) fid) as [Heq|Hne].
  - by rewrite decide_True.
  - rewrite decide_False by done. by apply IH.
Qed.

Lemma findInRows_spec (fid : Z) (b : Board) (rows : list Z) :
  wf_board b -> (forall row, In row rows -> 0 <= row < 8) ->
  findInRows fid b rows
  = Ok (head (flat_map (fun row => flat_map (fun col => pieceWithId b fid (row, col))
                                            (seqZ 0 8)) rows)).
Proof.
  intros Hwf. induction rows as [|row rows IH]; intros Hin; [done|].
  cbn [findInRows flat_map]. rewrite findInRow_spec, bind_Ok; [|done|].
  2:{ intros col Hcol%In_seqZ_8. apply isInside_spec.
      specialize (Hin row (in_eq _ _)). lia. }
  rewrite head_app.
  destruct (head (flat_map _ (seqZ 0 8))); [done|].
  apply IH. intros; apply Hin; by right.
Qed.

Lemma findPiece_spec (fid : Z) (b : Board) :
  wf_board b -> findPiece fid b = Ok (head (piecesWithId b fid)).
Proof.
  intros Hwf. unfold findPiece, piecesWithId. rewrite flat_map_squares.
  apply findInRows_spec; [done|]. by intros row Hrow%In_seqZ_8.
Qed.

Lemma In_piecesWithId (b : Board) (fid row col : Z) (pc : Piece) :
  In (row, col, pc) (piecesWithId b fid)
  <-> isInside row col = true /\ cellAt b row col = Some pc /\ id pc = fid.
Proof.
  unfold piecesWithId. rewrite in_flat_map. split.
  - intros ([r c] & Hsq%In_squares & Hown). unfold pieceWithId in Hown. cbn [fst snd] in Hown.
    destruct (cellAt b r c) as [q|] eqn:Hq; [|done].
    case_decide; [|done]. destruct Hown as [[= <- <- <-]|[]]. done.
  - intros (Hin & Hcell & Hp). exists (row, col). split; [by apply In_squares|].
    unfold pieceWithId. cbn [fst snd]. rewrite Hcell, decide_True by done. by left.
Qed.

Lemma getLegalMoves_forced (b : Board) (p : Player) (fid : Z) :
  wf_board b -> fid <> 0 ->
  getLegalMoves b p (Some fid)
  = Ok (match head (piecesWithId b fid) with
        | Some x => capturesOf b x
        | None => []
        end).
Proof.
  intros Hwf Hfid. unfold getLegalMoves. cbn [truthyId].
  destruct (Z.eqb_spec fid 0); [done|].
  rewrite findPiece_spec, bind_Ok by done.
  destruct (head (piecesWithId b fid)) as [[[row col] pc]|]; [|done].
  by apply getSinglePieceCaptures_spec.
Qed.

(** C4, as the code has it.  For a forced piece id other than 0,
    [getLegalMoves] ignores the player and every other piece: when the
    board holds exactly one piece with that id, the result is the list of
    that piece's capture candidates from its square, all of them captures
    by that piece; it is empty when that piece has no capture candidate,
    and when no piece on the board has the id. *)
Theorem getLegalMoves_forced_piece (b : Board) (p : Player) (fid : Z) :
  wf_board b -> fid <> 0 ->
  (forall row col pc,
      isInside row col = true -> cellAt b row col = Some pc -> id pc = fid ->
      (forall row' col' pc',
          isInside row' col' = true -> cellAt b row' col' = Some pc' -> id pc' = fid ->
          (row', col') = (row, col)) ->
      getLegalMoves b p (Some fid) = Ok (captureCandidates b row col pc)
      /\ Forall (fun m => isCapture m /\ pieceId m = fid /\ from m = (row, col))
                (captureCandidates b row col pc)
      /\ (captureCandidates b row col pc = [] -> getLegalMoves b p (Some fid) = Ok []))
  /\ ((forall row col pc,
          isInside row col = true -> cellAt b row col = Some pc -> id pc <> fid) ->
      getLegalMoves b p (Some fid) = Ok []).
Proof.
  intros Hwf Hfid. rewrite getLegalMoves_forced by done. split.
  - intros row col pc Hin Hcell Hid Huniq.
    assert (Hmem : In (row, col, pc) (piecesWithId b fid)) by (by apply In_piecesWithId).
    destruct (piecesWithId b fid) as [|[[r c] q] rest] eqn:Hlist; [done|].
    assert (Hfirst : In (r, c, q) (piecesWithId b fid)) by (rewrite Hlist; by left).
    apply In_piecesWithId in Hfirst as (Hin' & Hcell' & Hid').
    pose proof (Huniq r c q Hin' Hcell' Hid') as [= -> ->].
    assert (q = pc) as -> by congruence.
    cbn [head]. unfold capturesOf. cbn [fst snd].
    split; [done|]. split; [|by intros ->].
    rewrite <- Hid. apply captureCandidates_are_captures.
  - intros Hnone.
    destruct (piecesWithId b fid) as [|[[r c] q] rest] eqn:Hlist; [done|].
    assert (Hfirst : In (r, c, q) (piecesWithId b fid)) by (rewrite Hlist; by left).
    apply In_piecesWithId in Hfirst as (Hin' & Hcell' & Hid').
    by destruct (Hnone r c q Hin' Hcell').
Qed.

Lemma getLegalMoves_forced_piece_witness :
  getLegalMoves chainBoard light (Some 10)
  = Ok [ {| pieceId := 10; from := (5, 0); to := (3, 2); capture := Some (4, 1) |} ].
Proof.
  refine (proj1 (proj1 (getLegalMoves_forced_piece chainBoard light 10 chainBoard_wf _)
                   5 0 (man 10 light) _ _ _ _)); try reflexivity; try lia.
  intros row col pc Hin%isInside_spec Hcell Hid.
  enum_coord row; enum_coord col;
    vm_compute in Hcell; try discriminate Hcell;
    injection Hcell as <-; first [discriminate Hid | reflexivity].
Defined.

(** C4 as stated fails for the id 0: no piece of the test position has
    id 0, yet the answer is not empty. *)
Lemma getLegalMoves_forced_zero_counterexample :
  (forall row col pc, cellAt captureBoard row col = Some pc -> id pc <> 0)
  /\ getLegalMoves captureBoard light (Some 0)
     = Ok [ {| pieceId := 1; from := (5, 2); to := (3, 4); capture := Some (4, 3) |} ]
  /\ getLegalMoves captureBoard light (Some 0) <> Ok [].
Proof.
  split; [|split; [reflexivity | discriminate]].
  intros row col pc Hcell Hid.
  destruct (isInside row col) eqn:Hin.
  - apply isInside_spec in Hin.
    enum_coord row; enum_coord col;
      vm_compute in Hcell; try discriminate Hcell;
      injection Hcell as <-; discriminate Hid.
  - unfold cellAt in Hcell.
    destruct (index captureBoard row) as [cells|] eqn:Hrow; [|done].
    destruct (index cells col) as [cell|] eqn:Hcol; [|done].
    apply index_Some in Hrow as [Hr Hrow], Hcol as [Hc Hcol].
    pose proof (lookup_lt_Some _ _ _ Hrow) as Hlr.
    assert (length cells = 8%nat) as Hlen.
    { destruct captureBoard_wf as [_ HF]. rewrite List.Forall_forall in HF.
      apply HF. apply list_elem_of_In. by eapply list_elem_of_lookup_2. }
    pose proof (lookup_lt_Some _ _ _ Hcol) as Hlc.
    assert (isInside row col = true); [|congruence].
    apply isInside_spec. cbn in Hlr. lia.
Qed.

(** C10. A forced piece id of 0 is read as no forced piece: the answer is
    that of the full scan, for every board, well formed or not.  The id 0
    does occur: [createInitialBoard 0] gives it to the first piece placed. *)
Theorem getLegalMoves_zero_is_absent (b : Board) (p : Player) :
  getLegalMoves b p (Some 0) = getLegalMoves b p None
  /\ exists b0 nextId,
       createInitialBoard 0 = Ok (b0, nextId) /\ cellAt b0 0 1 = Some (man 0 dark).
Proof.
  split; [reflexivity|]. eexists _, _. split; reflexivity.
Qed.

(** ** Writing cells *)

Lemma copyPiece_id (pc : Piece) : copyPiece pc = pc.
Proof. by destruct pc. Qed.

Lemma cloneBoard_id (b : Board) : cloneBoard b = b.
Proof.
  unfold cloneBoard. rewrite <- (map_id b) at 2. apply map_ext. intros cells.
  rewrite <- (map_id cells) at 2. apply map_ext. intros [pc|]; [|done].
  by rewrite copyPiece_id.
Qed.

Lemma wf_board_row (b : Board) (row : Z) :
  wf_board b -> 0 <= row < 8 ->
  exists cells, index b row = Some cells /\ length cells = 8%nat.
Proof.
  intros [Hlen HF] Hrow. destruct (index_in_range b row) as [cells Hcells]; [lia|].
  exists cells. split; [done|]. apply index_Some in Hcells as [_ Hcells].
  rewrite List.Forall_forall in HF. apply HF, list_elem_of_In.
  by eapply list_elem_of_lookup_2.
Qed.

Lemma setCell_spec (b : Board) (row col : Z) (v : Cell) :
  wf_board b -> isInside row col = true ->
  exists b', setCell b row col v = Ok b'
    /\ wf_board b'
    /\ cellAt b' row col = v
    /\ (forall row' col', (row', col') <> (row, col) -> cellAt b' row' col' = cellAt b row' col').
Proof.
  intros Hwf Hin%isInside_spec.
  destruct (wf_board_row b row Hwf) as (cells & Hcells & Hlen); [lia|].
  unfold setCell, getRow. rewrite Hcells, bind_Ok.
  eexists. split; [reflexivity|].
  apply index_Some in Hcells as [_ Hcells].
  assert (Hw : writeRow cells col v = <[Z.to_nat col := v]> cells).
  { unfold writeRow. destruct (Z.ltb_spec col 0); [lia|].
    destruct (Z.ltb_spec col (Z.of_nat (length cells))); [done|lia]. }
  rewrite Hw. destruct Hwf as [Hlb HF]. split; [|split].
  - split; [by rewrite length_insert|].
    apply Forall_insert; [done|]. by rewrite length_insert.
  - unfold cellAt, index. destruct (Z.leb_spec 0 row); [|lia].
    rewrite list_lookup_insert_eq by (by eapply lookup_lt_Some).
    destruct (Z.leb_spec 0 col); [|lia].
    rewrite list_lookup_insert_eq by lia. done.
  - intros row' col' Hne. unfold cellAt, index.
    destruct (Z.leb_spec 0 row'); [|done].
    destruct (decide (Z.to_nat row' = Z.to_nat row)) as [Heq|Hneq].
    + rewrite Heq. rewrite list_lookup_insert_eq by (by eapply lookup_lt_Some).
      rewrite Hcells. destruct (Z.leb_spec 0 col'); [|done].
      rewrite list_lookup_insert_ne; [done|]. intros Hc. apply Hne. f_equal; lia.
    + rewrite list_lookup_insert_ne; done.
Qed.

(** C5. A move whose [from] square is empty is a no-op: [applyMove] does
    not throw and returns the input board as it is, the same player, no
    forced piece, no captured piece and no promotion.  The row of [from]
    has to exist for the square to be one of the board; nothing is asked
    of [to] and [capture]. *)
Theorem applyMove_empty_from (b : Board) (m : Move) (p : Player) :
  0 <= fst (from m) < Z.of_nat (length b) ->
  cellAt b (fst (from m)) (snd (from m)) = None ->
  applyMove b m p
  = Ok {| board := b; currentPlayer := p; forcedPieceId := None;
          capturedPieceId := None; promoted := false |}.
Proof.
  intros Hrow Hcell. unfold applyMove. rewrite cloneBoard_id.
  destruct (from m) as [fromRow fromCol], (to m) as [toRow toCol]. cbn [fst snd] in *.
  rewrite getCell_cellAt, bind_Ok by done. by rewrite Hcell.
Qed.

Lemma applyMove_empty_from_witness :
  applyMove captureBoard
    {| pieceId := 9; from := (3, 3); to := (2, 4); capture := None |} dark
  = Ok {| board := captureBoard; currentPlayer := dark; forcedPieceId := None;
          capturedPieceId := None; promoted := false |}.
Proof.
  apply applyMove_empty_from; cbn; [lia | reflexivity].
Defined.

(** Outside this fallback nothing is guarded: a [from] or a [to] whose row
    the board does not have makes [applyMove] throw. *)
Lemma applyMove_from_row_missing (b : Board) (m : Move) (p : Player) :
  index b (fst (from m)) = None -> applyMove b m p = TypeError.
Proof.
  intros Hrow. unfold applyMove. rewrite cloneBoard_id.
  destruct (from m) as [fromRow fromCol], (to m) as [toRow toCol]. cbn [fst snd] in *.
  unfold getCell, getRow. by rewrite Hrow.
Qed.

Lemma applyMove_to_row_missing (b : Board) (m : Move) (p : Player) (pc : Piece) :
  0 <= fst (from m) < Z.of_nat (length b) ->
  cellAt b (fst (from m)) (snd (from m)) = Some pc ->
  index b (fst (to m)) = None ->
  applyMove b m p = TypeError.
Proof.
  intros Hfrom Hcell Hto. unfold applyMove. rewrite cloneBoard_id.
  destruct (from m) as [fromRow fromCol], (to m) as [toRow toCol]. cbn [fst snd] in *.
  rewrite getCell_cellAt, bind_Ok, Hcell by done.
  destruct (index_in_range b fromRow Hfrom) as [cells Hcells].
  assert (Hto' : index (<[Z.to_nat fromRow := writeRow cells fromCol None]> b) toRow = None).
  { unfold index in *. destruct (0 <=? toRow); [|done].
    apply lookup_ge_None. rewrite length_insert. by apply lookup_ge_None. }
  unfold setCell, getRow. rewrite Hcells, bind_Ok. cbn [mret res_ret].
  rewrite bind_Ok. by rewrite Hto'.
Qed.

(** ** [applyMove] on a move over the board *)

Lemma reachesFarRank_spec (pc : Piece) (toRow : Z) :
  reachesFarRank pc toRow = true <-> toRow = farRank (player pc).
Proof.
  unfold reachesFarRank, farRank. destruct (player pc); cbn [Player_eqb andb orb].
  - rewrite orb_false_r. apply Z.eqb_eq.
  - apply Z.eqb_eq.
Qed.

(** The outcome of [applyMove] when the three squares of the move are on
    the board and [from] holds the piece [pc]: no exception, and the result
    is the one of the three records of the source that the tests select. *)
Lemma applyMove_run (b : Board) (m : Move) (p : Player) (pc : Piece) :
  wf_board b -> onBoard m -> cellAt b (fst (from m)) (snd (from m)) = Some pc ->
  exists nb capturedId,
    wf_board nb
    /\ (let promotes := negb (king pc) && reachesFarRank pc (fst (to m)) in
        applyMove b m p
        = Ok (if isSome (capture m) && negb promotes
                 && negb (isEmpty (captureCandidates nb (fst (to m)) (snd (to m)) pc))
              then {| board := nb; currentPlayer := p; forcedPieceId := Some (id pc);
                      capturedPieceId := capturedId; promoted := promotes |}
              else {| board := nb; currentPlayer := otherPlayer p; forcedPieceId := None;
                      capturedPieceId := capturedId; promoted := promotes |})
        /\ (promotes = true -> capture m <> Some (to m) ->
            cellAt nb (fst (to m)) (snd (to m)) = Some (crown pc))).
Proof.
  intros Hwf (Hfrom & Hto & Hcap) Hcell.
  unfold applyMove, crownOnBoard. rewrite cloneBoard_id.
  destruct (from m) as [fromRow fromCol], (to m) as [toRow toCol]. cbn [fst snd] in *.
  rewrite (getCell_inside _ _ _ Hwf Hfrom), bind_Ok, Hcell.
  destruct (setCell_spec b fromRow fromCol None Hwf Hfrom) as (b1 & -> & Hwf1 & _ & _).
  rewrite bind_Ok.
  destruct (setCell_spec b1 toRow toCol (Some pc) Hwf1 Hto) as (b2 & -> & Hwf2 & Hat2 & _).
  rewrite bind_Ok.
  destruct (capture m) as [[capRow capCol]|].
  - specialize (Hcap _ eq_refl). cbn [fst snd] in Hcap.
    rewrite (getCell_inside _ _ _ Hwf2 Hcap), bind_Ok.
    destruct (setCell_spec b2 capRow capCol None Hwf2 Hcap) as (b3 & -> & Hwf3 & Hat3 & Hoth3).
    rewrite !bind_Ok. cbv zeta. cbn [isSome andb].
    destruct (negb (king pc) && reachesFarRank pc toRow) eqn:Hpromo; cbn [negb andb].
    + destruct ((capRow =? toRow) && (capCol =? toCol)) eqn:Hsame.
      * exists b3, (option_map id (cellAt b2 capRow capCol)).
        rewrite bind_Ok. split; [done|]. split; [done|].
        intros _ Hne. exfalso. apply Hne.
        apply andb_true_iff in Hsame as [->%Z.eqb_eq ->%Z.eqb_eq]. done.
      * destruct (setCell_spec b3 toRow toCol (Some (crown pc)) Hwf3 Hto)
          as (b4 & -> & Hwf4 & Hat4 & _).
        exists b4, (option_map id (cellAt b2 capRow capCol)).
        rewrite bind_Ok. done.
    + exists b3, (option_map id (cellAt b2 capRow capCol)).
      rewrite bind_Ok. split; [done|]. split; [|done].
      rewrite (getSinglePieceCaptures_spec _ _ _ _ Hwf3), bind_Ok.
      by destruct (captureCandidates b3 toRow toCol pc).
  - rewrite !bind_Ok. cbv zeta. cbn [isSome andb].
    destruct (negb (king pc) && reachesFarRank pc toRow) eqn:Hpromo.
    + destruct (setCell_spec b2 toRow toCol (Some (crown pc)) Hwf2 Hto)
        as (b4 & -> & Hwf4 & Hat4 & _).
      exists b4, None. rewrite bind_Ok. done.
    + exists b2, None. rewrite bind_Ok. done.
Qed.

Lemma crowns_promotes (pc : Piece) (m : Move) :
  crowns pc m <-> negb (king pc) && reachesFarRank pc (fst (to m)) = true.
Proof.
  unfold crowns. rewrite andb_true_iff, negb_true_iff, reachesFarRank_spec. done.
Qed.

(** C2. For a move over the board whose [from] square holds a piece:
    when the move is a capture that does not crown the piece and the piece
    has a further capture candidate from its destination on the resulting
    board, the turn stays with the input player and the piece is forced;
    in every other case (a slide, a crowning move, or no further capture)
    the turn passes to the other player and no piece is forced. *)
Theorem applyMove_turn_continuation (b : Board) (m : Move) (p : Player) (pc : Piece) :
  wf_board b -> onBoard m -> cellAt b (fst (from m)) (snd (from m)) = Some pc ->
  exists r,
    applyMove b m p = Ok r
    /\ (isCapture m -> ~ crowns pc m ->
        captureCandidates (board r) (fst (to m)) (snd (to m)) pc <> [] ->
        currentPlayer r = p /\ forcedPieceId r = Some (id pc))
    /\ (isSlide m \/ crowns pc m
        \/ captureCandidates (board r) (fst (to m)) (snd (to m)) pc = [] ->
        currentPlayer r = otherPlayer p /\ forcedPieceId r = None).
Proof.
  intros Hwf Hon Hcell.
  destruct (applyMove_run b m p pc Hwf Hon Hcell) as (nb & cid & _ & Hrun & _).
  cbv zeta in Hrun. rewrite Hrun. clear Hrun.
  pose proof (crowns_promotes pc m) as Hcrown.
  destruct (negb (king pc) && reachesFarRank pc (fst (to m))) eqn:Hpromo.
  - rewrite andb_false_r. cbn [andb]. eexists. split; [reflexivity|]. cbn [board currentPlayer forcedPieceId].
    split; [|done]. intros _ Hnot. exfalso. apply Hnot. by apply Hcrown.
  - assert (Hnc : ~ crowns pc m) by (rewrite Hcrown; congruence).
    unfold isCapture, isSlide.
    destruct (capture m) as [sq|]; cbn [isSome negb andb].
    + destruct (captureCandidates nb (fst (to m)) (snd (to m)) pc) as [|m1 ms] eqn:Hfurther;
        cbn [isEmpty negb]; eexists; (split; [reflexivity|]);
        cbn [board currentPlayer forcedPieceId]; rewrite Hfurther.
      * split; [done|]. done.
      * split; [done|]. intros [?|[?|?]]; [done|tauto|done].
    + eexists. split; [reflexivity|]. cbn [board currentPlayer forcedPieceId].
      split; [done|done].
Qed.

(** C3. A move over the board that takes a piece that is not a king to
    the far rank of its owner crowns it: the result has [promoted] set, no
    forced piece and the turn passed to the other player, whether or not
    the move is a capture; the [to] square of the resulting board holds
    the piece with its king flag set (a move is assumed not to name its own
    destination as the captured square). *)
Theorem applyMove_promotion (b : Board) (m : Move) (p : Player) (pc : Piece) :
  wf_board b -> onBoard m -> cellAt b (fst (from m)) (snd (from m)) = Some pc ->
  king pc = false -> fst (to m) = farRank (player pc) ->
  exists r,
    applyMove b m p = Ok r
    /\ promoted r = true
    /\ forcedPieceId r = None
    /\ currentPlayer r = otherPlayer p
    /\ (capture m <> Some (to m) ->
        cellAt (board r) (fst (to m)) (snd (to m))
        = Some {| id := id pc; player := player pc; king := true |}).
Proof.
  intros Hwf Hon Hcell Hking Hrank.
  destruct (applyMove_run b m p pc Hwf Hon Hcell) as (nb & cid & _ & Hrun & Hto).
  cbv zeta in Hrun, Hto.
  assert (Hpromo : negb (king pc) && reachesFarRank pc (fst (to m)) = true)
    by (by apply crowns_promotes).
  rewrite Hpromo in Hrun, Hto. rewrite andb_false_r in Hrun. cbn [andb] in Hrun.
  eexists. split; [exact Hrun|]. cbn [board currentPlayer forcedPieceId promoted].
  repeat split. intros Hne. by apply Hto.
Qed.

Lemma onBoard_jump (i : Z) (f t c : Z * Z) :
  isInside (fst f) (snd f) = true -> isInside (fst t) (snd t) = true ->
  isInside (fst c) (snd c) = true ->
  onBoard {| pieceId := i; from := f; to := t; capture := Some c |}.
Proof. intros Hf Ht Hc. repeat split; try done. by intros sq [= <-]. Defined.

(** The first jump of the multi-jump test leaves the light man on 3,2 with
    a second jump over 2,3: the turn stays with light and piece 10 is forced. *)
Lemma applyMove_turn_continuation_witness :
  exists r,
    applyMove chainBoard
      {| pieceId := 10; from := (5, 0); to := (3, 2); capture := Some (4, 1) |} light = Ok r
    /\ currentPlayer r = light /\ forcedPieceId r = Some 10.
Proof.
  destruct (applyMove_turn_continuation chainBoard
              {| pieceId := 10; from := (5, 0); to := (3, 2); capture := Some (4, 1) |}
              light (man 10 light) chainBoard_wf
              (onBoard_jump 10 (5, 0) (3, 2) (4, 1) eq_refl eq_refl eq_refl) eq_refl)
    as (r & Hr & Hstay & _).
  exists r. split; [exact Hr|].
  vm_compute in Hr. injection Hr as <-.
  apply Hstay.
  - discriminate.
  - intros [_ Hrank]. discriminate Hrank.
  - discriminate.
Defined.

(** The crowning capture of the engine's test: the new king on 0,3 could
    jump over 1,4, and the turn passes all the same. *)
Lemma applyMove_promotion_witness :
  exists r,
    applyMove crownBoard
      {| pieceId := 30; from := (2, 1); to := (0, 3); capture := Some (1, 2) |} light = Ok r
    /\ promoted r = true /\ forcedPieceId r = None /\ currentPlayer r = dark
    /\ cellAt (board r) 0 3 = Some {| id := 30; player := light; king := true |}
    /\ captureCandidates (board r) 0 3 {| id := 30; player := light; king := true |}
       = [ {| pieceId := 30; from := (0, 3); to := (2, 5); capture := Some (1, 4) |} ].
Proof.
  destruct (applyMove_promotion crownBoard
              {| pieceId := 30; from := (2, 1); to := (0, 3); capture := Some (1, 2) |}
              light (man 30 light) crownBoard_wf
              (onBoard_jump 30 (2, 1) (0, 3) (1, 2) eq_refl eq_refl eq_refl)
              eq_refl eq_refl eq_refl)
    as (r & Hr & Hp & Hf & Hc & Hk).
  exists r. split; [exact Hr|]. split; [exact Hp|]. split; [exact Hf|].
  split; [exact Hc|]. split; [apply Hk; discriminate|].
  vm_compute in Hr. injection Hr as <-. reflexivity.
Defined.

(** ** Search *)

(** The recursion equation of the source's [minimax]. *)
Lemma minimax_unfold {R : Type} {N : Num R} (rnd : nat -> R)
    (b : Board) (cur : Player) (forced : option Z) (maximizingPlayer : Player)
    (depth : Z) (alpha beta : R) (k : nat) :
  minimax rnd b cur forced maximizingPlayer depth alpha beta k
  = (moves ← getLegalMoves b cur forced;
     if isEmpty moves then
       Ok (if Player_eqb cur maximizingPlayer
           then nsub (nopp (ofZ 1000)) (ofZ depth)
           else nadd (ofZ 1000) (ofZ depth), k)
     else if depth <=? 0 then
       ev ← evaluateBoard b maximizingPlayer;
       Ok (nadd ev (nmul (rnd k) (dec 1 100)), S k)
     else
       let rec := fun b' cur' forced' alpha' beta' k' =>
         minimax rnd b' cur' forced' maximizingPlayer (depth - 1) alpha' beta' k' in
       if Player_eqb cur maximizingPlayer
       then maxLoop rec b cur moves (nopp infinity) alpha beta k
       else minLoop rec b cur moves infinity alpha beta k).
Proof.
  unfold minimax. destruct (Z.leb_spec depth 0) as [Hle|Hgt].
  - replace (Z.to_nat depth) with O by lia. reflexivity.
  - replace (Z.to_nat depth) with (S (Z.to_nat (depth - 1))) by lia. reflexivity.
Qed.

(** C7. When the player to move has no legal move, [minimax] returns
    [-1000 - depth] if that player is the maximizing player and
    [1000 + depth] otherwise, at every depth (also at and below 0, where a
    position with moves would be evaluated) and without drawing from the
    random source. *)
Theorem minimax_terminal {R : Type} {N : Num R} (rnd : nat -> R)
    (b : Board) (cur : Player) (forced : option Z) (maximizingPlayer : Player)
    (depth : Z) (alpha beta : R) (k : nat) :
  getLegalMoves b cur forced = Ok [] ->
  minimax rnd b cur forced maximizingPlayer depth alpha beta k
  = Ok (if decide (cur = maximizingPlayer)
        then nsub (nopp (ofZ 1000)) (ofZ depth)
        else nadd (ofZ 1000) (ofZ depth), k).
Proof.
  intros Hnone. rewrite minimax_unfold, Hnone, bind_Ok. cbn [isEmpty].
  destruct (decide (cur = maximizingPlayer)) as [Heq|Hne].
  - apply Player_eqb_eq in Heq. by rewrite Heq.
  - apply Player_eqb_neq in Hne. by rewrite Hne.
Qed.

(** Read without rounding, these are the rationals -1000 - depth and
    1000 + depth. *)
Lemma terminal_scores_exact (depth : Z) :
  nsub (nopp (ofZ 1000)) (ofZ depth) = Fin (inject_Z (-1000 - depth))
  /\ nadd (ofZ 1000) (ofZ depth) = Fin (inject_Z (1000 + depth)).
Proof.
  cbn. unfold Qplus, Qopp, inject_Z. cbn. split; do 2 f_equal; lia.
Qed.

(** On the empty board nobody can move: three plies from the horizon the
    maximizing player to move scores -1003, the opponent to move 1003. *)
Lemma minimax_terminal_witness :
  minimax (fun _ => 0%float) emptyBoard light None light 3 (-infinity)%float infinity 0
  = Ok ((-1003)%float, 0%nat)
  /\ minimax (fun _ => 0%float) emptyBoard dark None light 3 (-infinity)%float infinity 0
     = Ok (1003%float, 0%nat).
Proof.
  split.
  - exact (minimax_terminal (fun _ => 0%float) emptyBoard light None light 3
             (-infinity)%float infinity 0 eq_refl).
  - exact (minimax_terminal (fun _ => 0%float) emptyBoard dark None light 3
             (-infinity)%float infinity 0 eq_refl).
Defined.

(** ** The easy policy *)

(** The literal [0.99] is the double [0x1.fae147ae147aep-1]. *)
Lemma dec_99_100_float : @dec float _ 99 100 = 0x1.fae147ae147aep-1%float.
Proof. reflexivity. Qed.

Lemma index_last {A : Type} (xs : list A) :
  xs <> [] -> index xs (Z.of_nat (length xs) - 1) = last xs.
Proof.
  intros Hne. unfold index. destruct xs as [|x xs]; [done|].
  destruct (Z.leb_spec 0 (Z.of_nat (length (x :: xs)) - 1)) as [_|Hneg].
  - rewrite last_lookup. f_equal. cbn [length]. lia.
  - cbn [length] in Hneg. lia.
Qed.

Lemma easy_index_upto_100 {R : Type} {N : Num R} (n : nat) :
  forallb (easyIndexOk (N := N)) (seq 1 100) = true ->
  (1 <= n <= 100)%nat ->
  toIndex (nmin (nsub (ofZ (Z.of_nat n)) (ofZ 1))
                (nfloor (nmul (dec 99 100) (ofZ (Z.of_nat n)))))
  = Some (Z.of_nat n - 1).
Proof.
  intros Hall Hn. rewrite forallb_forall in Hall.
  specialize (Hall n). unfold easyIndexOk in Hall.
  destruct (toIndex _) as [i|].
  - f_equal. apply Z.eqb_eq, Hall, in_seq. lia.
  - discriminate Hall. apply in_seq. lia.
Qed.

Lemma easy_index_float : forallb (easyIndexOk (N := Num_float)) (seq 1 100) = true.
Proof. vm_compute. reflexivity. Qed.

Lemma easy_index_xQ : forallb (easyIndexOk (N := Num_xQ)) (seq 1 100) = true.
Proof. vm_compute. reflexivity. Qed.

(** C8, as the code has it.  With the constant random source [0.99] the
    easy policy returns the last move of every non-empty list of at most
    100 moves, computed in binary64 as the engine does and in exact
    arithmetic alike, and draws once from the random source. *)
Theorem easy_picks_last (moves : list Move) (b : Board) (p : Player) (k : nat) :
  moves <> [] -> (length moves <= 100)%nat ->
  chooseMoveBySkill (R := float) (fun _ => dec 99 100) easy moves b p k
  = Ok (last moves, S k)
  /\ chooseMoveBySkill (R := xQ) (fun _ => dec 99 100) easy moves b p k
     = Ok (last moves, S k).
Proof.
  intros Hne Hlen. unfold chooseMoveBySkill.
  assert (Hn : (1 <= length moves <= 100)%nat).
  { destruct moves; [done|]. cbn [length]. cbn [length] in Hlen. lia. }
  destruct moves as [|m0 ms] eqn:Hmoves; [done|]. cbn [isEmpty]. rewrite <- Hmoves in *.
  rewrite (easy_index_upto_100 _ easy_index_float Hn).
  rewrite (easy_index_upto_100 _ easy_index_xQ Hn).
  rewrite index_last by (rewrite Hmoves; done). done.
Qed.

Lemma easy_picks_last_witness :
  chooseMoveBySkill (R := float) (fun _ => dec 99 100) easy (numberedMoves 7) emptyBoard light 0
  = Ok (Some {| pieceId := 6; from := (5, 0); to := (4, 1); capture := None |}, 1%nat).
Proof.
  refine (proj1 (easy_picks_last (numberedMoves 7) emptyBoard light 0 _ _)).
  - discriminate.
  - vm_compute. lia.
Defined.

(** C8 as stated fails for longer lists: of 101 moves the policy returns
    the one at index 99, which is not the last. *)
Lemma easy_not_last_counterexample :
  chooseMoveBySkill (R := float) (fun _ => dec 99 100) easy (numberedMoves 101) emptyBoard light 0
  = Ok (Some {| pieceId := 99; from := (5, 0); to := (4, 1); capture := None |}, 1%nat)
  /\ last (numberedMoves 101)
     = Some {| pieceId := 100; from := (5, 0); to := (4, 1); capture := None |}
  /\ chooseMoveBySkill (R := float) (fun _ => dec 99 100) easy (numberedMoves 101) emptyBoard light 0
     <> Ok (last (numberedMoves 101), 1%nat).
Proof.
  split; [vm_compute; reflexivity|]. split; [vm_compute; reflexivity|].
  vm_compute. discriminate.
Qed.

(** ** The greedy policy, in exact arithmetic *)

Lemma Qltb_spec (a b : Q) : Qltb a b = true <-> (a < b)%Q.
Proof.
  unfold Qltb. rewrite negb_true_iff. split.
  - intros H. apply Qnot_le_lt. intros Hle. apply Qle_bool_iff in Hle. congruence.
  - intros H. destruct (Qle_bool b a) eqn:E; [|done].
    apply Qle_bool_iff in E. exfalso. by apply (Qlt_not_le a b).
Qed.

Lemma Qltb_false (a b : Q) : Qltb a b = false <-> (b <= a)%Q.
Proof.
  unfold Qltb. rewrite negb_false_iff. apply Qle_bool_iff.
Qed.

Lemma centerDistance_bounds (row col : Z) :
  isInside row col = true ->
  exists cd, centerDistance (R := xQ) row col = Fin cd
    /\ (1 <= cd <= 7)%Q
    /\ (row = 0 \/ row = 7 -> (4 <= cd)%Q).
Proof.
  intros Hin%isInside_spec.
  enum_coord row; enum_coord col;
    (eexists; split; [vm_compute; reflexivity|];
     split; [split; unfold Qle; cbn; lia|];
     intros Hrow; first [unfold Qle; cbn; lia | exfalso; lia]).
Qed.

Lemma inject_Z_le (a b : Z) : a <= b -> (inject_Z a <= inject_Z b)%Q.
Proof. intros H. by rewrite <- Zle_Qle. Qed.

Ltac q_consts :=
  change (inject_Z 0) with 0%Q in *; change (inject_Z 1) with 1%Q in *;
  change (inject_Z 3) with 3%Q in *; change (inject_Z 4) with 4%Q in *;
  change (inject_Z 6) with 6%Q in *; change (inject_Z 7) with 7%Q in *;
  change (inject_Z (-2)) with (-2 # 1)%Q in *.

(* Turn an integer inequality [a <= b], proved by [lia], into the same
   inequality between rationals. *)
Ltac zq a b :=
  let H := fresh "Hzq" in
  assert (H : a <= b) by lia;
  apply inject_Z_le in H;
  unfold Z.sub in H; rewrite ?inject_Z_plus, ?inject_Z_opp in H.


Ltac xq_consts :=
  change (@dec xQ Num_xQ 2 10) with (Fin (2 # 10)) in *;
  change (@dec xQ Num_xQ 55 100) with (Fin (55 # 100)) in *;
  change (@dec xQ Num_xQ 12 100) with (Fin (12 # 100)) in *.

Ltac xq_eval :=
  cbn [nadd nsub nmul nopp ofZ Num_xQ xadd xsub xmul xopp].

Section Medium.
Variable rnd : nat -> xQ.
Hypothesis rnd_unit : forall i, exists q, rnd i = Fin q /\ (0 <= q < 1)%Q.
Variable b : Board.
Hypothesis Hwf : wf_board b.
Variable p : Player.

Lemma scoreMove_capture_bound (m : Move) (k : nat) :
  onBoard m -> isCapture m -> -2 <= advance p m ->
  exists s, scoreMove rnd m b p k = Ok (Fin s, S k) /\ (49 # 10 <= s)%Q.
Proof.
  intros (Hf & Ht & Hc) Hcap Hadv.
  destruct (rnd_unit k) as (q & Hq & Hq01).
  destruct (centerDistance_bounds _ _ Ht) as (cd & Hcd & Hcdb & _).
  unfold scoreMove. rewrite Hq, Hcd. xq_consts.
  rewrite (getCell_inside _ _ _ Hwf Hf), bind_Ok.
  unfold isCapture in Hcap. destruct (capture m) as [[cr cc]|]; [|done].
  pose proof (Hc _ eq_refl) as Hc'. cbn [fst snd] in Hc'.
  rewrite (getCell_inside _ _ _ Hwf Hc'), bind_Ok.
  unfold advance in Hadv.
  destruct (cellAt b cr cc) as [cp|]; [destruct (king cp)|]; rewrite bind_Ok;
    (destruct (cellAt b (fst (from m)) (snd (from m))) as [mp|]; [destruct (king mp)|]);
    cbn [negb]; destruct p; cbn [Player_eqb andb orb]; rewrite ?orb_false_r;
    repeat match goal with
           | |- context [?x =? ?y] => destruct (Z.eqb_spec x y)
           end;
    xq_eval; (eexists; split; [reflexivity|]);
    try (zq (-2) (fst (from m) - fst (to m)));
    try (zq (-2) (fst (to m) - fst (from m)));
    q_consts; lra.
Qed.

Lemma scoreMove_slide_bound (m : Move) (k : nat) :
  onBoard m -> isSlide m ->
  exists s, scoreMove rnd m b p k = Ok (Fin s, S k) /\ (s < 456 # 100)%Q.
Proof.
  intros (Hf & Ht & Hc) Hslide.
  destruct (rnd_unit k) as (q & Hq & Hq01).
  destruct (centerDistance_bounds _ _ Ht) as (cd & Hcd & Hcdb & Hedge).
  unfold scoreMove. rewrite Hq, Hcd. xq_consts.
  rewrite (getCell_inside _ _ _ Hwf Hf), bind_Ok.
  unfold isSlide in Hslide. rewrite Hslide, bind_Ok.
  apply isInside_spec in Hf, Ht.
  (destruct (cellAt b (fst (from m)) (snd (from m))) as [mp|]; [destruct (king mp)|]);
    cbn [negb]; destruct p; cbn [Player_eqb andb orb]; rewrite ?orb_false_r;
    repeat match goal with
           | |- context [?x =? ?y] => destruct (Z.eqb_spec x y)
           end;
    xq_eval; (eexists; split; [reflexivity|]);
    try (assert (Hcd4 : (4 <= cd)%Q) by (apply Hedge; lia));
    try (zq (fst (from m) - fst (to m)) 6);
    try (zq (fst (to m) - fst (from m)) 6);
    q_consts; lra.
Qed.

Lemma move_capture_or_slide (m : Move) : {isCapture m} + {isSlide m}.
Proof.
  unfold isCapture, isSlide. destruct (capture m); [left; discriminate | by right].
Qed.

(** Once the best move so far is a capture, it stays one. *)
Lemma bestLoop_keeps_capture (rest : list Move) :
  forall (best : Move) (s : Q) (k : nat),
    isCapture best -> (49 # 10 <= s)%Q ->
    Forall onBoard rest ->
    Forall (fun m => isCapture m -> -2 <= advance p m) rest ->
    exists m' k',
      bestLoop rnd rest b p (Some best) (Fin s) k = Ok (Some m', k')
      /\ isCapture m' /\ (m' = best \/ In m' rest).
Proof.
  induction rest as [|m rest IH]; intros best s k Hbest Hs Hon Hadv.
  - exists best, k. cbn. auto.
  - apply Forall_cons in Hon as [Hm Hon]. apply Forall_cons in Hadv as [Hma Hadv].
    cbn [bestLoop]. destruct (move_capture_or_slide m) as [Hcap|Hslide].
    + destruct (scoreMove_capture_bound m k Hm Hcap (Hma Hcap)) as (s' & -> & Hs').
      rewrite bind_Ok. cbn [nlt Num_xQ xlt].
      destruct (Qltb s s').
      * destruct (IH m s' (S k) Hcap Hs' Hon Hadv) as (m' & k' & -> & Hc' & Hin).
        exists m', k'. split; [done|]. split; [done|]. right. destruct Hin as [->|Hin]; [by left|by right].
      * destruct (IH best s (S k) Hbest Hs Hon Hadv) as (m' & k' & -> & Hc' & Hin).
        exists m', k'. split; [done|]. split; [done|]. destruct Hin as [->|Hin]; [by left|right; by right].
    + destruct (scoreMove_slide_bound m k Hm Hslide) as (s' & -> & Hs').
      rewrite bind_Ok. cbn [nlt Num_xQ xlt].
      assert (Hno : Qltb s s' = false) by (apply Qltb_false; lra).
      rewrite Hno.
      destruct (IH best s (S k) Hbest Hs Hon Hadv) as (m' & k' & -> & Hc' & Hin).
      exists m', k'. split; [done|]. split; [done|]. destruct Hin as [->|Hin]; [by left|right; by right].
Qed.

(** Before a capture is met, the best score is that of a slide, or still
    [-Infinity]; the first capture beats it. *)
Lemma bestLoop_finds_capture (rest : list Move) :
  forall (best : option Move) (score : xQ) (k : nat),
    score = NInf \/ (exists s, score = Fin s /\ (s < 456 # 100)%Q) ->
    Forall onBoard rest ->
    Forall (fun m => isCapture m -> -2 <= advance p m) rest ->
    Exists isCapture rest ->
    exists m' k',
      bestLoop rnd rest b p best score k = Ok (Some m', k')
      /\ isCapture m' /\ In m' rest.
Proof.
  induction rest as [|m rest IH]; intros best score k Hscore Hon Hadv Hex.
  - by apply Exists_nil in Hex.
  - apply Forall_cons in Hon as [Hm Hon]. apply Forall_cons in Hadv as [Hma Hadv].
    cbn [bestLoop]. destruct (move_capture_or_slide m) as [Hcap|Hslide].
    + destruct (scoreMove_capture_bound m k Hm Hcap (Hma Hcap)) as (s' & -> & Hs').
      rewrite bind_Ok. cbn [nlt Num_xQ].
      assert (Hlt : xlt score (Fin s') = true).
      { destruct Hscore as [->|(s & -> & Hs)]; [done|]. apply Qltb_spec. lra. }
      rewrite Hlt.
      destruct (bestLoop_keeps_capture rest m s' (S k) Hcap Hs' Hon Hadv)
        as (m' & k' & -> & Hc' & Hin).
      exists m', k'. split; [done|]. split; [done|]. destruct Hin as [->|Hin]; [by left|by right].
    + apply Exists_cons in Hex as [Hcap|Hex]; [unfold isCapture, isSlide in *; congruence|].
      destruct (scoreMove_slide_bound m k Hm Hslide) as (s' & -> & Hs').
      rewrite bind_Ok.
      destruct (nlt score (Fin s')).
      * destruct (IH (Some m) (Fin s') (S k)) as (m' & k' & -> & Hc' & Hin); try done.
        { right. by exists s'. }
        exists m', k'. split; [done|]. split; [done|]. by right.
      * destruct (IH best score (S k)) as (m' & k' & -> & Hc' & Hin); try done.
        exists m', k'. split; [done|]. split; [done|]. by right.
Qed.

End Medium.

(** The greedy policy without rounding: on a well-formed board, with a
    random source that returns values in [0,1) and a list of moves over
    the board that holds a capture, the policy returns a capture of the
    list, provided no capture of the list takes its piece more than two
    rows backwards.  The same is proved further down for the doubles the
    code computes with. *)
Theorem greedy_exact_prefers_capture (rnd : nat -> xQ) (b : Board) (p : Player)
    (moves : list Move) (k : nat) :
  wf_board b ->
  (forall i, exists q, rnd i = Fin q /\ (0 <= q < 1)%Q) ->
  Forall onBoard moves ->
  Exists isCapture moves ->
  Forall (fun m => isCapture m -> -2 <= advance p m) moves ->
  exists m k',
    chooseMoveBySkill rnd medium moves b p k = Ok (Some m, k')
    /\ In m moves /\ isCapture m.
Proof.
  intros Hwf Hrnd Hon Hex Hadv. unfold chooseMoveBySkill, chooseBestMove.
  destruct moves as [|m0 ms] eqn:Hmoves; [by apply Exists_nil in Hex|].
  cbn [isEmpty]. rewrite <- Hmoves in *.
  destruct (bestLoop_finds_capture rnd Hrnd b Hwf p moves (head moves) (nopp infinity) k)
    as (m & k' & Hrun & Hcap & Hin); try done.
  { by left. }
  exists m, k'. done.
Qed.

Lemma greedyBoard_wf : wf_board greedyBoard.
Proof. split; [reflexivity | repeat constructor]. Defined.

Lemma retreatBoard_wf : wf_board retreatBoard.
Proof. split; [reflexivity | repeat constructor]. Defined.

Lemma onBoard_slide (i : Z) (f t : Z * Z) :
  isInside (fst f) (snd f) = true -> isInside (fst t) (snd t) = true ->
  onBoard {| pieceId := i; from := f; to := t; capture := None |}.
Proof. intros Hf Ht. repeat split; try done. Defined.

(** C9 as stated fails when a capture runs far backwards: the man on 0,1
    is offered a capture that lands on 7,0 (score 2.15) and the man on 1,2
    a slide to the crowning square 0,3 (score 4.36); both moves are over
    the board, the random source is constantly 0, and the greedy policy
    returns the slide, whichever way the two are listed, in binary64 as in
    exact arithmetic. *)
Lemma medium_returns_slide_counterexample :
  wf_board retreatBoard
  /\ Forall onBoard [retreatCapture; crowningSlide]
  /\ isCapture retreatCapture /\ isSlide crowningSlide
  /\ chooseMoveBySkill (R := float) (fun _ => 0%float) medium
       [retreatCapture; crowningSlide] retreatBoard light 0
     = Ok (Some crowningSlide, 2%nat)
  /\ chooseMoveBySkill (R := float) (fun _ => 0%float) medium
       [crowningSlide; retreatCapture] retreatBoard light 0
     = Ok (Some crowningSlide, 2%nat)
  /\ chooseMoveBySkill (R := xQ) (fun _ => Fin 0) medium
       [retreatCapture; crowningSlide] retreatBoard light 0
     = Ok (Some crowningSlide, 2%nat)
  /\ (exists s, scoreMove (R := xQ) (fun _ => Fin 0) retreatCapture retreatBoard light 0
                 = Ok (Fin s, 1%nat) /\ (s == 215 # 100)%Q)
  /\ (exists s, scoreMove (R := xQ) (fun _ => Fin 0) crowningSlide retreatBoard light 0
                 = Ok (Fin s, 1%nat) /\ (s == 436 # 100)%Q).
Proof.
  split; [exact retreatBoard_wf|].
  split.
  { constructor; [apply onBoard_jump; reflexivity|].
    constructor; [apply onBoard_slide; reflexivity|constructor]. }
  split; [discriminate|]. split; [reflexivity|].
  split; [vm_compute; reflexivity|]. split; [vm_compute; reflexivity|].
  split; [vm_compute; reflexivity|].
  split; (eexists; split; [vm_compute; reflexivity | reflexivity]).
Qed.

(** ** The moves the generator emits

    The side conditions of the two policies above hold of every list that
    [getLegalMoves] returns on a board of at most 25 pieces a side: its
    moves are over the board, its captures advance by two rows or retreat
    by two, and there are at most four moves a piece. *)

Lemma getDirections_unit (pc : Piece) (d : Z * Z) :
  In d (getDirections pc) -> (fst d = 1 \/ fst d = -1) /\ (snd d = 1 \/ snd d = -1).
Proof.
  unfold getDirections. destruct (king pc); [|destruct (Player_eqb _ _)];
    cbn [In]; intros H; repeat (destruct H as [<-|H]; [cbn; lia|]); done.
Qed.

Lemma captureCandidates_admissible (b : Board) (row col : Z) (pc : Piece) (p : Player) :
  isInside row col = true ->
  Forall (fun m => onBoard m /\ -2 <= advance p m) (captureCandidates b row col pc).
Proof.
  intros Hin. apply List.Forall_forall. intros m (d & Hd & Hm)%in_flat_map.
  apply getDirections_unit in Hd. unfold captureCandidate in Hm.
  destruct (cellAt b _ _); [|done]. case_decide as Hcond; [|done].
  destruct Hm as [<-|[]]. destruct Hcond as (_ & Hadj & Hland & _). split.
  - repeat split; try done. by intros sq [= <-].
  - unfold advance. cbn [from to fst snd]. destruct p; lia.
Qed.

Lemma slideCandidates_onBoard (b : Board) (row col : Z) (pc : Piece) :
  isInside row col = true -> Forall onBoard (slideCandidates b row col pc).
Proof.
  intros Hin. apply List.Forall_forall. intros m (d & Hd & Hm)%in_flat_map.
  unfold slideCandidate in Hm. case_decide as Hcond; [|done].
  destruct Hm as [<-|[]]. destruct Hcond as (Htgt & _). repeat split; done.
Qed.

Lemma getLegalMoves_admissible (b : Board) (p q : Player) (moves : list Move) :
  wf_board b -> getLegalMoves b p None = Ok moves ->
  Forall (fun m => onBoard m /\ (isCapture m -> -2 <= advance q m)) moves.
Proof.
  intros Hwf. rewrite getLegalMoves_scan by done. intros [= <-].
  destruct (isEmpty (allCaptureCandidates b p)).
  - unfold allSlideCandidates. apply List.Forall_forall.
    intros m ([[r c] pc] & (Hin & _)%In_playerPieces & Hm)%in_flat_map.
    pose proof (slideCandidates_onBoard b r c pc Hin) as HF.
    pose proof (slideCandidates_are_slides b r c pc) as HS.
    rewrite List.Forall_forall in HF, HS. split; [by apply HF|].
    intros Hcap. specialize (HS m Hm). unfold isCapture, isSlide in *. congruence.
  - unfold allCaptureCandidates. apply List.Forall_forall.
    intros m ([[r c] pc] & (Hin & _)%In_playerPieces & Hm)%in_flat_map.
    pose proof (captureCandidates_admissible b r c pc q Hin) as HF.
    rewrite List.Forall_forall in HF. destruct (HF m Hm). done.
Qed.

Lemma flat_map_length_le {A B : Type} (f : A -> list B) (xs : list A) (k : nat) :
  (forall x, In x xs -> (length (f x) <= k)%nat) ->
  (length (flat_map f xs) <= k * length xs)%nat.
Proof.
  induction xs as [|x xs IH]; intros Hf; cbn [flat_map length]; [lia|].
  rewrite length_app. specialize (Hf x (in_eq _ _)) as Hx.
  specialize (IH (fun y Hy => Hf y (in_cons _ _ _ Hy))). lia.
Qed.

Lemma getDirections_length (pc : Piece) : (length (getDirections pc) <= 4)%nat.
Proof.
  unfold getDirections. destruct (king pc); [|destruct (Player_eqb _ _)]; cbn; lia.
Qed.

(** X4. [getLegalMoves] generates at most four moves for each piece of
    the player. *)
Lemma getLegalMoves_length (b : Board) (p : Player) (moves : list Move) :
  wf_board b -> getLegalMoves b p None = Ok moves ->
  (length moves <= 4 * length (playerPieces b p))%nat.
Proof.
  intros Hwf. rewrite getLegalMoves_scan by done. intros [= <-].
  assert (Hcap : forall x, In x (playerPieces b p) -> (length (capturesOf b x) <= 4)%nat).
  { intros [[r c] pc] _. unfold capturesOf, captureCandidates. cbn [fst snd].
    etrans; [apply (flat_map_length_le _ _ 1)|pose proof (getDirections_length pc); lia].
    intros d _. unfold captureCandidate. destruct (cellAt b _ _); [|cbn; lia].
    case_decide; cbn; lia. }
  assert (Hsl : forall x, In x (playerPieces b p) -> (length (slidesOf b x) <= 4)%nat).
  { intros [[r c] pc] _. unfold slidesOf, slideCandidates. cbn [fst snd].
    etrans; [apply (flat_map_length_le _ _ 1)|pose proof (getDirections_length pc); lia].
    intros d _. unfold slideCandidate. case_decide; cbn; lia. }
  destruct (isEmpty (allCaptureCandidates b p)).
  - by apply flat_map_length_le.
  - by apply flat_map_length_le.
Qed.

(** ** The heap model: [applyMove] writes to new objects only *)

Lemma wp_bind {A B : Type} (m : Heap.M A) (f : A -> Heap.M B)
    (Q : list Heap.obj -> res B -> Prop) (h : list Heap.obj) :
  wp m (fun h1 r1 => match r1 with
                     | Ok a => wp (f a) Q h1
                     | TypeError => Q h1 TypeError
                     end) h ->
  wp (m ≫= f) Q h.
Proof.
  unfold wp, mbind, Heap.heap_bind, Heap.bind. by destruct (m h) as [h1 [a|]].
Qed.

Lemma wp_mono {A : Type} (m : Heap.M A) (Q Q' : list Heap.obj -> res A -> Prop)
    (h : list Heap.obj) :
  wp m Q h -> (forall h' r, Q h' r -> Q' h' r) -> wp m Q' h.
Proof. unfold wp. auto. Qed.

Lemma wp_ret {A : Type} (a : A) (Q : list Heap.obj -> res A -> Prop) (h : list Heap.obj) :
  Q h (Ok a) -> wp (Heap.ret a) Q h.
Proof. done. Qed.

Lemma wp_throw {A : Type} (Q : list Heap.obj -> res A -> Prop) (h : list Heap.obj) :
  Q h TypeError -> wp Heap.throw Q h.
Proof. done. Qed.

Lemma wp_alloc (o : Heap.obj) (Q : list Heap.obj -> res Heap.loc -> Prop) (h : list Heap.obj) :
  Q (h ++ [o]) (Ok (length h)) -> wp (Heap.alloc o) Q h.
Proof. done. Qed.

Lemma wp_store (l : Heap.loc) (o : Heap.obj) (Q : list Heap.obj -> res unit -> Prop)
    (h : list Heap.obj) :
  Q (<[l := o]> h) (Ok tt) -> wp (Heap.store l o) Q h.
Proof. done. Qed.

Lemma wp_readPiece (l : Heap.loc) (Q : list Heap.obj -> res (Piece) -> Prop)
    (h : list Heap.obj) :
  (forall p, h !! l = Some (Heap.PieceObj p) -> Q h (Ok p)) ->
  ((forall p, h !! l <> Some (Heap.PieceObj p)) -> Q h TypeError) ->
  wp (Heap.readPiece l) Q h.
Proof.
  intros Hok Herr. unfold wp, Heap.readPiece.
  destruct (h !! l) as [[p|cells|rows]|]; cbn; auto.
Qed.

Lemma wp_readRow (l : Heap.loc) (Q : list Heap.obj -> res (list (option Heap.loc)) -> Prop)
    (h : list Heap.obj) :
  (forall cells, h !! l = Some (Heap.RowObj cells) -> Q h (Ok cells)) ->
  ((forall cells, h !! l <> Some (Heap.RowObj cells)) -> Q h TypeError) ->
  wp (Heap.readRow l) Q h.
Proof.
  intros Hok Herr. unfold wp, Heap.readRow.
  destruct (h !! l) as [[p|cells|rows]|]; cbn; auto.
Qed.

Lemma wp_readBoard (l : Heap.loc) (Q : list Heap.obj -> res (list Heap.loc) -> Prop)
    (h : list Heap.obj) :
  (forall rows, h !! l = Some (Heap.BoardObj rows) -> Q h (Ok rows)) ->
  ((forall rows, h !! l <> Some (Heap.BoardObj rows)) -> Q h TypeError) ->
  wp (Heap.readBoard l) Q h.
Proof.
  intros Hok Herr. unfold wp, Heap.readBoard.
  destruct (h !! l) as [[p|cells|rows]|]; cbn; auto.
Qed.

Lemma prefix_snoc (h : list Heap.obj) (o : Heap.obj) : h `prefix_of` h ++ [o].
Proof. by exists [o]. Qed.

Lemma newRow_grow (n : nat) (h h' : list Heap.obj) (r : Heap.loc) :
  h `prefix_of` h' -> newRow n h r -> newRow n h' r.
Proof.
  intros Hpre (Hr & cells & Hcells & HF). split; [done|].
  exists cells. split; [|done]. by eapply prefix_lookup_Some.
Qed.

(** *** Cloning allocates, and the clone is new *)

Section Clone.
Variable n : nat.

Lemma cloneCell_new (cell : option Heap.loc) (h : list Heap.obj) :
  (n <= length h)%nat ->
  wp (Heap.cloneCell cell)
     (fun h' r => h `prefix_of` h' /\ forall c, r = Ok c -> newCell n c) h.
Proof.
  intros Hn. destruct cell as [l|]; cbn [Heap.cloneCell].
  - apply wp_bind, wp_readPiece; [|done]. intros p _.
    apply wp_bind, wp_alloc, wp_ret. split; [apply prefix_snoc|].
    intros c [= <-] l' [= <-]. done.
  - apply wp_ret. split; [done|]. by intros c [= <-] l'.
Qed.

Lemma cloneCells_new (cells : list (option Heap.loc)) :
  forall h, (n <= length h)%nat ->
  wp (mapM Heap.cloneCell cells)
     (fun h' r => h `prefix_of` h' /\ forall cs, r = Ok cs -> Forall (newCell n) cs) h.
Proof.
  induction cells as [|cell cells IH]; intros h Hn; cbn [mapM].
  - apply wp_ret. split; [done|]. by intros cs [= <-].
  - apply wp_bind. eapply wp_mono; [by apply cloneCell_new|].
    intros h1 [c|] [Hpre Hc]; [|done].
    apply wp_bind. eapply wp_mono; [apply IH; apply prefix_length in Hpre; lia|].
    intros h2 [cs|] [Hpre2 Hcs]; [|split; [by etrans|done]].
    apply wp_ret. split; [by etrans|].
    intros cs' [= <-]. constructor; auto.
Qed.

Lemma cloneRow_new (r : Heap.loc) (h : list Heap.obj) :
  (n <= length h)%nat ->
  wp (Heap.cloneRow r)
     (fun h' res => h `prefix_of` h' /\ forall r', res = Ok r' -> newRow n h' r') h.
Proof.
  intros Hn. unfold Heap.cloneRow.
  apply wp_bind, wp_readRow; [|done]. intros cells _.
  apply wp_bind. eapply wp_mono; [by apply cloneCells_new|].
  intros h1 [cs|] [Hpre Hcs]; [|done].
  apply wp_alloc. split; [etrans; [done|apply prefix_snoc]|].
  intros r' [= <-]. split; [apply prefix_length in Hpre; lia|].
  exists cs. split; [|by apply Hcs].
  rewrite lookup_app_r by done. by rewrite Nat.sub_diag.
Qed.

Lemma cloneRows_new (rows : list Heap.loc) :
  forall h, (n <= length h)%nat ->
  wp (mapM Heap.cloneRow rows)
     (fun h' res => h `prefix_of` h' /\ forall rs, res = Ok rs -> Forall (newRow n h') rs) h.
Proof.
  induction rows as [|r rows IH]; intros h Hn; cbn [mapM].
  - apply wp_ret. split; [done|]. by intros rs [= <-].
  - apply wp_bind. eapply wp_mono; [by apply cloneRow_new|].
    intros h1 [r'|] [Hpre Hr]; [|done].
    apply wp_bind. eapply wp_mono; [apply IH; apply prefix_length in Hpre; lia|].
    intros h2 [rs|] [Hpre2 Hrs]; [|split; [by etrans|done]].
    apply wp_ret. split; [by etrans|].
    intros rs' [= <-]. constructor; [|by apply Hrs].
    eapply newRow_grow; [done|]. by apply Hr.
Qed.

Lemma cloneBoard_new (b : Heap.loc) (h : list Heap.obj) :
  (n <= length h)%nat ->
  wp (Heap.cloneBoard b)
     (fun h' res => h `prefix_of` h' /\ forall nb, res = Ok nb -> newBoard n h' nb) h.
Proof.
  intros Hn. unfold Heap.cloneBoard.
  apply wp_bind, wp_readBoard; [|done]. intros rows _.
  apply wp_bind. eapply wp_mono; [by apply cloneRows_new|].
  intros h1 [rs|] [Hpre Hrs]; [|done].
  apply wp_alloc. split; [etrans; [done|apply prefix_snoc]|].
  intros nb [= <-]. split; [apply prefix_length in Hpre; lia|].
  exists rs. split.
  - rewrite lookup_app_r by done. by rewrite Nat.sub_diag.
  - eapply Forall_impl; [by apply Hrs|]. intros r. apply newRow_grow, prefix_snoc.
Qed.

End Clone.

(** *** Assignments go to the clone *)

Lemma writeRow_Forall {A : Type} (P : option A -> Prop) (cells : list (option A))
    (col : Z) (v : option A) :
  Forall P cells -> P v -> P None -> Forall P (writeRow cells col v).
Proof.
  intros Hcells Hv Hnone. unfold writeRow.
  destruct (col <? 0); [done|].
  destruct (col <? Z.of_nat (length cells)).
  - by apply Forall_insert.
  - apply Forall_app. split; [done|]. apply Forall_app. split.
    + by apply Forall_replicate.
    + by constructor.
Qed.

Section Mutation.
Variable n : nat.

Lemma newCell_None : newCell n None.
Proof. by intros l. Qed.

Lemma getCell_new (nb : Heap.loc) (row col : Z) (h : list Heap.obj) :
  newBoard n h nb ->
  wp (Heap.getCell nb row col)
     (fun h' r => h' = h /\ forall c, r = Ok c -> newCell n c) h.
Proof.
  intros (_ & rows & Hrows & HF). unfold Heap.getCell.
  apply wp_bind, wp_readBoard; [|done]. intros rows' Hrows'.
  assert (rows' = rows) as -> by congruence.
  destruct (index rows row) as [r|] eqn:Hr; [|by apply wp_throw].
  apply index_Some in Hr as [_ Hr].
  destruct (Forall_lookup_1 _ _ _ _ HF Hr) as (_ & cells & Hcells & HFc).
  apply wp_bind, wp_readRow; [|done]. intros cells' Hcells'.
  assert (cells' = cells) as -> by congruence.
  apply wp_ret. split; [done|]. intros c [= <-].
  destruct (index cells col) as [cell|] eqn:Hc; [|apply newCell_None].
  apply index_Some in Hc as [_ Hc]. by eapply Forall_lookup_1.
Qed.

(** Replacing a row by a row of new cells, or a piece by a piece, keeps a
    new board new. *)
Lemma newBoard_insert (nb l : Heap.loc) (o : Heap.obj) (h : list Heap.obj) :
  newBoard n h nb ->
  (forall rows, h !! l <> Some (Heap.BoardObj rows)) ->
  (forall cells, h !! l = Some (Heap.RowObj cells) ->
                 exists cells', o = Heap.RowObj cells' /\ Forall (newCell n) cells') ->
  newBoard n (<[l := o]> h) nb.
Proof.
  intros (Hnb & rows & Hrows & HF) Hnotboard Hrow. split; [done|].
  exists rows. split.
  - rewrite list_lookup_insert_ne; [done|]. intros ->. by eapply Hnotboard.
  - eapply Forall_impl; [exact HF|]. intros r (Hr & cells & Hcells & HFc).
    split; [done|]. destruct (decide (l = r)) as [->|Hne].
    + destruct (Hrow _ Hcells) as (cells' & -> & HFc').
      exists cells'. split; [|done].
      apply list_lookup_insert_eq. by eapply lookup_lt_Some.
    + exists cells. split; [|done]. by rewrite list_lookup_insert_ne.
Qed.

Lemma setCell_new (nb : Heap.loc) (row col : Z) (v : option Heap.loc) (h : list Heap.obj) :
  newBoard n h nb -> newCell n v ->
  wp (Heap.setCell nb row col v)
     (fun h' r => sameBelow n h h' /\ newBoard n h' nb) h.
Proof.
  intros Hnew Hv. pose proof Hnew as (_ & rows & Hrows & HF). unfold Heap.setCell.
  apply wp_bind, wp_readBoard; [|done]. intros rows' Hrows'.
  assert (rows' = rows) as -> by congruence.
  destruct (index rows row) as [r|] eqn:Hr; [|by apply wp_throw].
  apply index_Some in Hr as [_ Hr].
  destruct (Forall_lookup_1 _ _ _ _ HF Hr) as (Hnr & cells & Hcells & HFc).
  apply wp_bind, wp_readRow; [|done]. intros cells' Hcells'.
  assert (cells' = cells) as -> by congruence.
  apply wp_store. split.
  - unfold sameBelow. by apply take_insert_ge.
  - apply newBoard_insert; [done|congruence|].
    intros cells0 Hcells0. assert (cells0 = cells) as -> by congruence.
    eexists. split; [done|]. apply writeRow_Forall; [done|done|apply newCell_None].
Qed.

Lemma crown_new (nb l : Heap.loc) (p p' : Piece) (h : list Heap.obj) :
  newBoard n h nb -> (n <= l)%nat -> h !! l = Some (Heap.PieceObj p) ->
  sameBelow n h (<[l := Heap.PieceObj p']> h)
  /\ newBoard n (<[l := Heap.PieceObj p']> h) nb.
Proof.
  intros Hnew Hl Hp. split.
  - unfold sameBelow. by apply take_insert_ge.
  - apply newBoard_insert; [done|congruence|congruence].
Qed.

Lemma wp_followupCaptures (nb : Heap.loc) (row col : Z) (piece : Piece)
    (Q : list Heap.obj -> res (list Move) -> Prop) (h : list Heap.obj) :
  (forall r, Q h r) -> wp (Heap.followupCaptures nb row col piece) Q h.
Proof.
  intros HQ. unfold wp, Heap.followupCaptures. destruct (Heap.boardValue h nb); apply HQ.
Qed.

End Mutation.

(** The heap after [applyMove] agrees with the heap before on every old
    object, and a returned board is new. *)
Lemma applyMove_writes_new (b : Heap.loc) (move : Move) (p : Player) (h : list Heap.obj) :
  wp (Heap.applyMove b move p)
     (fun h' r => take (length h) h' = h
                  /\ forall a, r = Ok a -> newBoard (length h) h' (Heap.boardRef a)) h.
Proof.
  set (n := length h).
  set (Post := fun (h' : list Heap.obj) (r : res Heap.AppliedRef) =>
                 take n h' = h /\ forall a, r = Ok a -> newBoard n h' (Heap.boardRef a)).
  unfold Heap.applyMove.
  apply wp_bind. eapply wp_mono; [apply (cloneBoard_new n); lia|].
  intros h1 [nb|] [[ext ->] Hnb]; [|split; [by apply take_app_length|done]].
  specialize (Hnb nb eq_refl).
  assert (Hbase : take n (h ++ ext) = h) by apply take_app_length.
  (* from here on the heap changes by assignments only *)
  assert (Hdone : forall h' a, sameBelow n (h ++ ext) h' -> newBoard n h' nb ->
                               Heap.boardRef a = nb -> Post h' (Ok a)).
  { intros h' a Hsame Hnew Href. split; [unfold sameBelow in Hsame; congruence|].
    intros a' [= <-]. by rewrite Href. }
  assert (Hfail : forall h', sameBelow n (h ++ ext) h' -> Post h' TypeError).
  { intros h' Hsame. split; [unfold sameBelow in Hsame; congruence|done]. }
  assert (Hrefl : sameBelow n (h ++ ext) (h ++ ext)) by done.
  revert Hnb Hrefl. generalize (h ++ ext) at 1 3 4 as h1. intros h1 Hnb Hsame1.
  destruct (from move) as [fromRow fromCol], (to move) as [toRow toCol].
  apply wp_bind. eapply wp_mono; [by apply (getCell_new n)|].
  intros h2 [cell|] [-> Hcell]; [|by apply Hfail].
  destruct cell as [mpl|]; [|by apply wp_ret, Hdone].
  assert (Hmpl : (n <= mpl)%nat) by (by apply (Hcell _ eq_refl)).
  apply wp_bind. eapply wp_mono; [apply (setCell_new n); [done|apply newCell_None]|].
  intros h3 [[]|] [Hsame3 Hnb3]; [|apply Hfail; unfold sameBelow in *; congruence].
  apply wp_bind. eapply wp_mono; [apply (setCell_new n); [done|by intros l [= <-]]|].
  intros h4 [[]|] [Hsame4 Hnb4]; [|apply Hfail; unfold sameBelow in *; congruence].
  assert (Hsame14 : sameBelow n h1 h4) by (unfold sameBelow in *; congruence).
  clear Hsame3 Hnb3 Hsame4 h3 Hnb.
  match goal with
  | |- wp (_ ≫= ?f) _ _ => set (rest := f)
  end.
  apply wp_bind.
  assert (Hrest : forall captured h', sameBelow n h1 h' -> newBoard n h' nb ->
                                      wp (rest captured) Post h').
  { intros captured h' Hsame' Hnb'. unfold rest.
    apply wp_bind, wp_readPiece; [|intros _; apply Hfail; unfold sameBelow in *; congruence].
    intros mp Hmp.
    assert (Hfinish : forall promoted h'', sameBelow n h1 h'' -> newBoard n h'' nb ->
              wp (if isSome (capture move) && negb promoted
                  then
                    mp0 ← Heap.readPiece mpl;
                    followups ← Heap.followupCaptures nb toRow toCol mp0;
                    if negb (isEmpty followups)
                    then Heap.ret {| Heap.boardRef := nb; Heap.nextPlayer := p;
                                     Heap.forcedId := Some (id mp0);
                                     Heap.capturedId := captured;
                                     Heap.wasPromoted := promoted |}
                    else Heap.ret {| Heap.boardRef := nb;
                                     Heap.nextPlayer := otherPlayer p;
                                     Heap.forcedId := None;
                                     Heap.capturedId := captured;
                                     Heap.wasPromoted := promoted |}
                  else Heap.ret {| Heap.boardRef := nb;
                                   Heap.nextPlayer := otherPlayer p;
                                   Heap.forcedId := None;
                                   Heap.capturedId := captured;
                                   Heap.wasPromoted := promoted |}) Post h'').
    { intros promoted h'' Hsame'' Hnb''.
      assert (Hs : sameBelow n (h ++ ext) h'') by (unfold sameBelow in *; congruence).
      destruct (isSome (capture move) && negb promoted); [|by apply wp_ret, Hdone].
      apply wp_bind, wp_readPiece; [|intros _; by apply Hfail]. intros mp0 _.
      apply wp_bind, wp_followupCaptures. intros [followups|]; [|by apply Hfail].
      destruct (negb (isEmpty followups)); by apply wp_ret, Hdone. }
    apply wp_bind.
    destruct (negb (king mp) && reachesFarRank mp toRow).
    - apply wp_bind, wp_store, wp_ret.
      destruct (crown_new n nb mpl mp (crown mp) h' Hnb' Hmpl Hmp) as [Hs Hn'].
      apply Hfinish; [unfold sameBelow in *; congruence|done].
    - apply wp_ret. by apply Hfinish. }
  destruct (capture move) as [[capRow capCol]|]; [|by apply wp_ret, Hrest].
  apply wp_bind. eapply wp_mono; [by apply (getCell_new n)|].
  intros h5 [captured|] [-> Hcap]; [|apply Hfail; unfold sameBelow in *; congruence].
  apply wp_bind. eapply wp_mono; [apply (setCell_new n); [done|apply newCell_None]|].
  intros h6 [[]|] [Hsame6 Hnb6]; [|apply Hfail; unfold sameBelow in *; congruence].
  assert (Hsame16 : sameBelow n h1 h6) by (unfold sameBelow in *; congruence).
  destruct captured as [cl|]; [|by apply wp_ret, Hrest].
  apply wp_bind, wp_readPiece; [|intros _; apply Hfail; unfold sameBelow in *; congruence].
  intros cp _. by apply wp_ret, Hrest.
Qed.

(** *** The value of a board does not depend on later allocations *)

Lemma cellValue_grow (h ext : list Heap.obj) (cell : option Heap.loc) (v : Cell) :
  Heap.cellValue h cell = Some v -> Heap.cellValue (h ++ ext) cell = Some v.
Proof.
  destruct cell as [l|]; cbn [Heap.cellValue]; [|done].
  destruct (h !! l) as [o|] eqn:Hl; [|done].
  by rewrite (lookup_app_l_Some _ _ _ _ Hl).
Qed.

Lemma rowValue_grow (h ext : list Heap.obj) (r : Heap.loc) (vs : list Cell) :
  Heap.rowValue h r = Some vs -> Heap.rowValue (h ++ ext) r = Some vs.
Proof.
  unfold Heap.rowValue. destruct (h !! r) as [o|] eqn:Hr; [|done].
  rewrite (lookup_app_l_Some _ _ _ _ Hr). destruct o as [p|cells|rows]; try done.
  rewrite !mapM_Some. intros HF. eapply Forall2_impl; [exact HF|].
  intros cell v. apply cellValue_grow.
Qed.

Lemma boardValue_grow (h ext : list Heap.obj) (b : Heap.loc) (bv : Board) :
  Heap.boardValue h b = Some bv -> Heap.boardValue (h ++ ext) b = Some bv.
Proof.
  unfold Heap.boardValue. destruct (h !! b) as [o|] eqn:Hb; [|done].
  rewrite (lookup_app_l_Some _ _ _ _ Hb). destruct o as [p|cells|rows]; try done.
  rewrite !mapM_Some. intros HF. eapply Forall2_impl; [exact HF|].
  intros r vs. apply rowValue_grow.
Qed.

(** C6. [applyMove] never changes an object that existed before the call,
    whatever the board, the move and the player, and whether it returns
    or throws: the heap after the call is the heap before it followed by
    the objects allocated during the call.  Hence every old object reads
    as before (the king flag of a piece of the input board included) and
    the input board denotes the same value.  The board that is returned is
    new: its outer array, its row arrays and every piece object in its
    cells were allocated by the call, so it shares no object with the
    input. *)
Theorem applyMove_never_mutates (h : list Heap.obj) (b : Heap.loc) (move : Move)
    (p : Player) :
  let h' := fst (Heap.applyMove b move p h) in
  let r := snd (Heap.applyMove b move p h) in
  (exists fresh, h' = h ++ fresh)
  /\ (forall l o, h !! l = Some o -> h' !! l = Some o)
  /\ (forall bv, Heap.boardValue h b = Some bv -> Heap.boardValue h' b = Some bv)
  /\ (forall a, r = Ok a ->
        newBoard (length h) h' (Heap.boardRef a) /\ Heap.boardRef a <> b).
Proof.
  intros h' r.
  destruct (applyMove_writes_new b move p h) as [Htake Hnew]. fold h' r in Htake, Hnew.
  assert (Hext : h' = h ++ drop (length h) h').
  { rewrite <- Htake at 1. by rewrite take_drop. }
  split; [by eexists|]. split; [|split].
  - intros l o Hl. rewrite Hext. by apply lookup_app_l_Some.
  - intros bv Hbv. rewrite Hext. by apply boardValue_grow.
  - intros a Ha. split; [by apply Hnew|].
    destruct (Hnew a Ha) as [Hfresh _]. intros Heq.
    (* the input reference was read by the clone, so it is an old object *)
    subst r. unfold Heap.applyMove, Heap.cloneBoard in Ha.
    unfold mbind, Heap.heap_bind, Heap.bind, Heap.readBoard in Ha.
    destruct (h !! b) as [o|] eqn:Hb.
    + apply lookup_lt_Some in Hb. lia.
    + cbn in Ha. discriminate Ha.
Qed.

(** On the crowning test the returned board holds a king on 0,3 while the
    input board, read after the call, still holds the man on 2,1. *)
Lemma applyMove_crown_on_heap :
  exists h0 b h1 a,
    Heap.allocBoard crownBoard [] = (h0, Ok b)
    /\ Heap.applyMove b
         {| pieceId := 30; from := (2, 1); to := (0, 3); capture := Some (1, 2) |} light h0
       = (h1, Ok a)
    /\ (bv ← Heap.boardValue h1 (Heap.boardRef a); Some (cellAt bv 0 3))
       = Some (Some {| id := 30; player := light; king := true |})
    /\ (bv ← Heap.boardValue h1 b; Some (cellAt bv 2 1))
       = Some (Some {| id := 30; player := light; king := false |})
    /\ Heap.boardValue h1 b = Some crownBoard.
Proof.
  eexists _, _, _, _. split; [vm_compute; reflexivity|].
  split; [vm_compute; reflexivity|]. repeat split; vm_compute; reflexivity.
Qed.

(** The value model and the heap model agree on 3750 moves from each of
    three positions, for either player. *)
Lemma models_agree_on_samples :
  forallb (fun m => agreeOn chainBoard m light && agreeOn chainBoard m dark
                    && agreeOn crownBoard m light && agreeOn crownBoard m dark
                    && agreeOn captureBoard m light && agreeOn captureBoard m dark)
          sampleMoves = true.
Proof. vm_compute. reflexivity. Qed.

(** ** The value model is what the heap model does to values *)

(** *** Matrices *)

Lemma put2_lookup {A : Type} (m : list (list A)) (i j : nat) (x : A) (row : list A) :
  m !! i = Some row ->
  forall i', put2 m i j x !! i' = if decide (i' = i) then Some (<[j := x]> row) else m !! i'.
Proof.
  intros Hrow i'. unfold put2. rewrite Hrow.
  destruct (decide (i' = i)) as [->|Hne].
  - apply list_lookup_insert_eq. by eapply lookup_lt_Some.
  - by apply list_lookup_insert_ne.
Qed.

Lemma refAt_put2 (locs : list (list (option Heap.loc))) (i j : nat) (x : option Heap.loc)
    (row : list (option Heap.loc)) :
  locs !! i = Some row -> (j < length row)%nat ->
  forall i' j', refAt (put2 locs i j x) i' j'
                = if decide (i' = i /\ j' = j) then x else refAt locs i' j'.
Proof.
  intros Hrow Hj i' j'. unfold refAt. rewrite (put2_lookup _ _ _ _ _ Hrow).
  destruct (decide (i' = i)) as [->|Hne].
  - rewrite Hrow. destruct (decide (j' = j)) as [->|Hnej].
    + rewrite list_lookup_insert_eq by done. by rewrite decide_True.
    + rewrite list_lookup_insert_ne by done. rewrite decide_False; [done|]. tauto.
  - rewrite decide_False; [done|]. tauto.
Qed.

Lemma Forall2_put2 {A B : Type} (P : A -> B -> Prop) (m : list (list A)) (k : list (list B))
    (i j : nat) (x : A) (y : B) :
  Forall2 (Forall2 P) m k -> P x y -> Forall2 (Forall2 P) (put2 m i j x) (put2 k i j y).
Proof.
  intros HF Hxy. unfold put2.
  destruct (m !! i) as [row|] eqn:Hm.
  - destruct (Forall2_lookup_l _ _ _ _ _ HF Hm) as (row' & -> & Hrows).
    apply Forall2_insert; [done|]. by apply Forall2_insert.
  - destruct (k !! i) as [row'|] eqn:Hk; [|done].
    destruct (Forall2_lookup_r _ _ _ _ _ HF Hk) as (row & Hrow & _). congruence.
Qed.

Lemma wf_board_put2 (bv : Board) (i j : nat) (v : Cell) :
  wf_board bv -> wf_board (put2 bv i j v).
Proof.
  intros [Hlen HF]. unfold put2. destruct (bv !! i) as [row|] eqn:Hrow; [|done].
  split; [by rewrite length_insert|].
  apply Forall_insert; [done|]. rewrite length_insert.
  by eapply (Forall_lookup_1 _ _ _ _ HF).
Qed.

Lemma wf_board_lookup (bv : Board) (row col : Z) :
  wf_board bv -> isInside row col = true ->
  exists cells, bv !! Z.to_nat row = Some cells /\ (Z.to_nat col < length cells)%nat.
Proof.
  intros Hwf Hin%isInside_spec.
  destruct (wf_board_row bv row Hwf) as (cells & Hcells%index_Some & Hlen); [lia|].
  exists cells. split; [tauto|lia].
Qed.

Lemma setCell_put2 (bv : Board) (row col : Z) (v : Cell) :
  wf_board bv -> isInside row col = true ->
  setCell bv row col v = Ok (put2 bv (Z.to_nat row) (Z.to_nat col) v).
Proof.
  intros Hwf Hin. destruct (wf_board_lookup bv row col Hwf Hin) as (cells & Hcells & Hlen).
  apply isInside_spec in Hin.
  unfold setCell, getRow, index, put2. destruct (Z.leb_spec 0 row); [|lia].
  rewrite Hcells, bind_Ok. unfold writeRow.
  destruct (Z.ltb_spec col 0); [lia|].
  destruct (Z.ltb_spec col (Z.of_nat (length cells))); [done|lia].
Qed.

Lemma cellAt_index2 (bv : Board) (row col : Z) :
  0 <= row -> 0 <= col ->
  cellAt bv row col
  = match bv !! Z.to_nat row with
    | Some cells => match cells !! Z.to_nat col with Some cell => cell | None => None end
    | None => None
    end.
Proof.
  intros Hr Hc. unfold cellAt, index.
  destruct (Z.leb_spec 0 row); [|lia]. destruct (bv !! Z.to_nat row); [|done].
  destruct (Z.leb_spec 0 col); [done|lia].
Qed.

(** *** What a separated board gives *)

Lemma separated_value (h : list Heap.obj) (nb : Heap.loc) (rows : list Heap.loc)
    (locs : list (list (option Heap.loc))) (bv : Board) :
  separated h nb rows locs bv -> Heap.boardValue h nb = Some bv.
Proof.
  intros [Hb Hrows _ Hcells _]. unfold Heap.boardValue. rewrite Hb.
  apply mapM_Some_2. apply Forall2_same_length_lookup_2.
  - rewrite (Forall2_length _ _ _ Hrows). by eapply Forall2_length.
  - intros i r vs Hr Hvs.
    destruct (Forall2_lookup_l _ _ _ _ _ Hrows Hr) as (cells & Hcs & Hobj).
    unfold Heap.rowValue. rewrite Hobj. apply mapM_Some_2.
    by eapply (Forall2_lookup_lr _ _ _ _ _ _ Hcells).
Qed.

Lemma separated_refAt (h : list Heap.obj) (nb : Heap.loc) (rows : list Heap.loc)
    (locs : list (list (option Heap.loc))) (bv : Board) (row col : Z) :
  separated h nb rows locs bv -> wf_board bv -> isInside row col = true ->
  cellRel h (refAt locs (Z.to_nat row) (Z.to_nat col)) (cellAt bv row col).
Proof.
  intros [_ _ _ Hcells _] Hwf Hin.
  destruct (wf_board_lookup bv row col Hwf Hin) as (vs & Hvs & Hlen).
  apply isInside_spec in Hin. rewrite cellAt_index2 by lia. rewrite Hvs.
  destruct (Forall2_lookup_r _ _ _ _ _ Hcells Hvs) as (cs & Hcs & Hrel).
  unfold refAt. rewrite Hcs.
  destruct (lookup_lt_is_Some_2 vs (Z.to_nat col) Hlen) as [v Hv]. rewrite Hv.
  destruct (Forall2_lookup_r _ _ _ _ _ Hrel Hv) as (c & -> & Hc). done.
Qed.

Lemma cellRel_None_inv (h : list Heap.obj) (c : option Heap.loc) :
  cellRel h c None -> c = None.
Proof.
  unfold cellRel, Heap.cellValue. destruct c as [l|]; [|done].
  by destruct (h !! l) as [[]|].
Qed.

Lemma cellRel_Some_inv (h : list Heap.obj) (c : option Heap.loc) (pc : Piece) :
  cellRel h c (Some pc) -> exists l, c = Some l /\ h !! l = Some (Heap.PieceObj pc).
Proof.
  unfold cellRel, Heap.cellValue. destruct c as [l|]; [|done].
  destruct (h !! l) as [[p| |]|] eqn:Hl; try done. intros [= ->]. by exists l.
Qed.

(** A cell keeps its value when the pieces keep theirs. *)
Lemma cellRel_pieces (h h' : list Heap.obj) (c : option Heap.loc) (v : Cell) :
  (forall l p, h !! l = Some (Heap.PieceObj p) -> h' !! l = Some (Heap.PieceObj p)) ->
  cellRel h c v -> cellRel h' c v.
Proof.
  intros Hkeep. unfold cellRel, Heap.cellValue. destruct c as [l|]; [|done].
  destruct (h !! l) as [[p| |]|] eqn:Hl; try done.
  intros [= <-]. by rewrite (Hkeep _ _ Hl).
Qed.

Lemma Forall2_matrix {A B : Type} (P : A -> B -> Prop) (m : list (list A)) (k : list (list B)) :
  Forall2 (Forall2 P) m k
  <-> length m = length k
      /\ forall i ra rb, m !! i = Some ra -> k !! i = Some rb ->
           length ra = length rb
           /\ forall j a b, ra !! j = Some a -> rb !! j = Some b -> P a b.
Proof.
  rewrite Forall2_same_length_lookup. split.
  - intros [Hlen Hrow]. split; [done|]. intros i ra rb Hra Hrb.
    by apply Forall2_same_length_lookup, (Hrow i).
  - intros [Hlen Hrow]. split; [done|]. intros i ra rb Hra Hrb.
    by apply Forall2_same_length_lookup, (Hrow i).
Qed.

Lemma refAt_Some (locs : list (list (option Heap.loc))) (i j : nat) (l : Heap.loc) :
  refAt locs i j = Some l
  <-> exists cells, locs !! i = Some cells /\ cells !! j = Some (Some l).
Proof.
  unfold refAt. split.
  - destruct (locs !! i) as [cells|]; [|done].
    destruct (cells !! j) as [c|] eqn:Hc; [|done]. intros ->. by exists cells.
  - intros (cells & -> & ->). done.
Qed.

Lemma put2_length {A : Type} (m : list (list A)) (i j : nat) (x : A) :
  length (put2 m i j x) = length m.
Proof. unfold put2. destruct (m !! i); [by rewrite length_insert|done]. Qed.

(** *** Reading and writing a separated board *)

Section Separated.
Variables (h : list Heap.obj) (nb : Heap.loc) (rows : list Heap.loc).
Variables (locs : list (list (option Heap.loc))) (bv : Board).
Hypothesis Hsep : separated h nb rows locs bv.
Hypothesis Hwf : wf_board bv.

Lemma separated_row (row col : Z) :
  isInside row col = true ->
  exists r cells vs,
    rows !! Z.to_nat row = Some r /\ locs !! Z.to_nat row = Some cells
    /\ bv !! Z.to_nat row = Some vs /\ h !! r = Some (Heap.RowObj cells)
    /\ length cells = length vs /\ (Z.to_nat col < length cells)%nat
    /\ index rows row = Some r /\ index cells col = cells !! Z.to_nat col.
Proof.
  intros Hin. destruct Hsep as [_ Hrows _ Hcells _].
  destruct (wf_board_lookup bv row col Hwf Hin) as (vs & Hvs & Hlen).
  destruct (Forall2_lookup_r _ _ _ _ _ Hcells Hvs) as (cells & Hcs & Hrel).
  destruct (Forall2_lookup_r _ _ _ _ _ Hrows Hcs) as (r & Hr & Hobj).
  apply isInside_spec in Hin. exists r, cells, vs.
  pose proof (Forall2_length _ _ _ Hrel) as Hl.
  repeat split; try done; try lia.
  - unfold index. by destruct (Z.leb_spec 0 row); [|lia].
  - unfold index. by destruct (Z.leb_spec 0 col); [|lia].
Qed.

Lemma getCell_separated (row col : Z) :
  isInside row col = true ->
  wp (Heap.getCell nb row col)
     (fun h' res => h' = h /\ res = Ok (refAt locs (Z.to_nat row) (Z.to_nat col))) h.
Proof.
  intros Hin.
  destruct (separated_row row col Hin) as (r & cells & vs & Hr & Hcs & Hvs & Hobj & _ & _ & Hir & Hic).
  unfold Heap.getCell.
  apply wp_bind, wp_readBoard; [|intros Hno; by destruct (Hno _ (sep_board _ _ _ _ _ Hsep))].
  intros rows' Hrows'. rewrite (sep_board _ _ _ _ _ Hsep) in Hrows'. injection Hrows' as <-.
  rewrite Hir. apply wp_bind, wp_readRow; [|intros Hno; by destruct (Hno _ Hobj)].
  intros cells' Hcells'. rewrite Hobj in Hcells'. injection Hcells' as <-.
  apply wp_ret. split; [done|]. unfold refAt. by rewrite Hcs, Hic.
Qed.

Lemma setCell_separated (row col : Z) (x : option Heap.loc) (v : Cell) :
  isInside row col = true ->
  cellRel h x v ->
  (forall l i j, x = Some l -> refAt locs i j = Some l ->
                 i = Z.to_nat row /\ j = Z.to_nat col) ->
  wp (Heap.setCell nb row col x)
     (fun h' res =>
        res = Ok tt
        /\ separated h' nb rows (put2 locs (Z.to_nat row) (Z.to_nat col) x)
                     (put2 bv (Z.to_nat row) (Z.to_nat col) v)
        /\ forall l p, h !! l = Some (Heap.PieceObj p) -> h' !! l = Some (Heap.PieceObj p)) h.
Proof.
  intros Hin Hxv Hfresh.
  destruct (separated_row row col Hin)
    as (r & cells & vs & Hr & Hcs & Hvs & Hobj & Hlen & Hcol & Hir & Hic).
  pose proof Hsep as [Hb Hrows Hnodup Hcells Hinj].
  unfold Heap.setCell.
  apply wp_bind, wp_readBoard; [|intros Hno; by destruct (Hno _ Hb)].
  intros rows' Hrows'. rewrite Hb in Hrows'. injection Hrows' as <-.
  rewrite Hir. apply wp_bind, wp_readRow; [|intros Hno; by destruct (Hno _ Hobj)].
  intros cells' Hcells'. rewrite Hobj in Hcells'. injection Hcells' as <-.
  apply wp_store. split; [done|].
  assert (Hw : writeRow cells col x = <[Z.to_nat col := x]> cells).
  { apply isInside_spec in Hin. unfold writeRow. destruct (Z.ltb_spec col 0); [lia|].
    destruct (Z.ltb_spec col (Z.of_nat (length cells))); [done|lia]. }
  rewrite Hw.
  assert (Hkeep : forall l p, h !! l = Some (Heap.PieceObj p) ->
                              <[r := Heap.RowObj (<[Z.to_nat col := x]> cells)]> h !! l
                              = Some (Heap.PieceObj p)).
  { intros l p Hl. rewrite list_lookup_insert_ne; [done|]. intros ->. congruence. }
  split; [|done]. split.
  - rewrite list_lookup_insert_ne; [done|]. intros ->. congruence.
  - apply Forall2_same_length_lookup_2.
    { rewrite put2_length. by eapply Forall2_length. }
    intros i r' cs' Hr' Hcs'. rewrite (put2_lookup _ _ _ _ _ Hcs) in Hcs'.
    destruct (decide (i = Z.to_nat row)) as [->|Hne].
    + injection Hcs' as <-. assert (r' = r) as -> by congruence.
      apply list_lookup_insert_eq. by eapply lookup_lt_Some.
    + rewrite list_lookup_insert_ne.
      * by eapply (Forall2_lookup_lr _ _ _ _ _ _ Hrows).
      * intros <-. apply Hne. symmetry. by eapply NoDup_lookup.
  - done.
  - apply Forall2_put2; [|by eapply cellRel_pieces].
    eapply Forall2_impl; [exact Hcells|]. intros cs0 vs0 H0.
    eapply Forall2_impl; [exact H0|]. intros c0 v0. by apply cellRel_pieces.
  - intros i j i' j' l.
    rewrite !(refAt_put2 _ _ _ _ _ Hcs Hcol).
    destruct (decide (i = Z.to_nat row /\ j = Z.to_nat col)) as [[-> ->]|Hne];
      destruct (decide (i' = Z.to_nat row /\ j' = Z.to_nat col)) as [[-> ->]|Hne'].
    + done.
    + intros Hx Hl. destruct (Hfresh l i' j' Hx Hl). tauto.
    + intros Hl Hx. destruct (Hfresh l i j Hx Hl). tauto.
    + apply Hinj.
Qed.

(** Crowning the piece at [mpl], which the board holds at one cell. *)
Lemma crown_separated_at (mpl : Heap.loc) (mp mp' : Piece) (row col : Z) :
  isInside row col = true ->
  h !! mpl = Some (Heap.PieceObj mp) ->
  refAt locs (Z.to_nat row) (Z.to_nat col) = Some mpl ->
  separated (<[mpl := Heap.PieceObj mp']> h) nb rows locs
            (put2 bv (Z.to_nat row) (Z.to_nat col) (Some mp')).
Proof.
  intros Hin Hmp Hat.
  destruct (separated_row row col Hin)
    as (r & cells & vs & Hr & Hcs & Hvs & Hobj & Hlen & Hcol & _ & _).
  pose proof Hsep as [Hb Hrows Hnodup Hcells Hinj].
  apply Forall2_matrix in Hcells as [Hlen2 Hcells].
  split; try done.
  - rewrite list_lookup_insert_ne; [done|]. intros ->. congruence.
  - eapply Forall2_impl; [exact Hrows|]. intros r0 cs0 H0. cbn beta.
    rewrite list_lookup_insert_ne; [done|]. intros ->. congruence.
  - apply Forall2_matrix. split; [by rewrite put2_length|].
    intros i ra rb Hra Hrb. rewrite (put2_lookup _ _ _ _ _ Hvs) in Hrb.
    destruct (decide (i = Z.to_nat row)) as [->|Hne].
    + injection Hrb as <-. assert (ra = cells) as -> by congruence.
      split; [by rewrite length_insert|].
      intros j a b Ha Hb'. destruct (decide (j = Z.to_nat col)) as [->|Hnej].
      * rewrite list_lookup_insert_eq in Hb' by lia. injection Hb' as <-.
        assert (a = Some mpl) as ->.
        { apply refAt_Some in Hat as (cs' & Hcs' & Hl). congruence. }
        unfold cellRel, Heap.cellValue.
        rewrite list_lookup_insert_eq by (by eapply lookup_lt_Some). done.
      * rewrite list_lookup_insert_ne in Hb' by done.
        destruct (Hcells _ _ _ Hcs Hvs) as [_ Hrow].
        specialize (Hrow j a b Ha Hb'). unfold cellRel, Heap.cellValue in *.
        destruct a as [l|]; [|done].
        rewrite list_lookup_insert_ne; [done|]. intros <-.
        destruct (Hinj (Z.to_nat row) j (Z.to_nat row) (Z.to_nat col) mpl); [|done|done].
        apply refAt_Some. by exists cells.
    + destruct (Hcells _ _ _ Hra Hrb) as [Hl Hrow]. split; [done|].
      intros j a b Ha Hb'. specialize (Hrow j a b Ha Hb').
      unfold cellRel, Heap.cellValue in *. destruct a as [l|]; [|done].
      rewrite list_lookup_insert_ne; [done|]. intros <-.
      destruct (Hinj i j (Z.to_nat row) (Z.to_nat col) mpl); [|done|done].
      apply refAt_Some. by exists ra.
Qed.

(** Crowning a piece that the board does not hold. *)
Lemma crown_separated_absent (mpl : Heap.loc) (mp mp' : Piece) :
  h !! mpl = Some (Heap.PieceObj mp) ->
  (forall i j, refAt locs i j <> Some mpl) ->
  separated (<[mpl := Heap.PieceObj mp']> h) nb rows locs bv.
Proof.
  intros Hmp Habsent.
  pose proof Hsep as [Hb Hrows Hnodup Hcells Hinj].
  apply Forall2_matrix in Hcells as [Hlen2 Hcells].
  split; try done.
  - rewrite list_lookup_insert_ne; [done|]. intros ->. congruence.
  - eapply Forall2_impl; [exact Hrows|]. intros r0 cs0 H0. cbn beta.
    rewrite list_lookup_insert_ne; [done|]. intros ->. congruence.
  - apply Forall2_matrix. split; [done|].
    intros i ra rb Hra Hrb. destruct (Hcells _ _ _ Hra Hrb) as [Hl Hrow]. split; [done|].
    intros j a b Ha Hb'. specialize (Hrow j a b Ha Hb').
    unfold cellRel, Heap.cellValue in *. destruct a as [l|]; [|done].
    rewrite list_lookup_insert_ne; [done|]. intros <-.
    apply (Habsent i j). apply refAt_Some. by exists ra.
Qed.

End Separated.

(** *** The clone is separated and has the value of the original *)

Lemma cellRel_grow (h h' : list Heap.obj) (c : option Heap.loc) (v : Cell) :
  h `prefix_of` h' -> cellRel h c v -> cellRel h' c v.
Proof. intros [ext ->]. apply cellValue_grow. Qed.

Lemma cloneCell_rel (c : option Heap.loc) (v : Cell) (h : list Heap.obj) :
  cellRel h c v ->
  wp (Heap.cloneCell c)
     (fun h' res => exists c',
          res = Ok c' /\ h `prefix_of` h' /\ cellRel h' c' v
          /\ forall l, c' = Some l -> (length h <= l < length h')%nat) h.
Proof.
  intros Hrel. destruct v as [pc|].
  - apply cellRel_Some_inv in Hrel as (l & -> & Hl). cbn [Heap.cloneCell].
    apply wp_bind, wp_readPiece; [|intros Hno; by destruct (Hno _ Hl)].
    intros p Hp. assert (p = pc) as -> by congruence.
    apply wp_bind, wp_alloc, wp_ret. exists (Some (length h)).
    split; [done|]. split; [apply prefix_snoc|]. split.
    + unfold cellRel, Heap.cellValue. rewrite lookup_app_r by done.
      rewrite Nat.sub_diag. cbn. by rewrite copyPiece_id.
    + intros l' [= <-]. rewrite length_app. cbn. lia.
  - apply cellRel_None_inv in Hrel as ->. apply wp_ret. exists None.
    split; [done|]. split; [done|]. split; [done|]. by intros l.
Qed.

Lemma cloneCells_rel (cells : list (option Heap.loc)) (vs : list Cell) :
  forall h, Forall2 (cellRel h) cells vs ->
  wp (mapM Heap.cloneCell cells)
     (fun h' res => exists cs',
          res = Ok cs' /\ h `prefix_of` h' /\ Forall2 (cellRel h') cs' vs
          /\ (forall j l, cs' !! j = Some (Some l) -> (length h <= l < length h')%nat)
          /\ (forall j j' l, cs' !! j = Some (Some l) -> cs' !! j' = Some (Some l) -> j = j')) h.
Proof.
  revert vs. induction cells as [|c cells IH]; intros vs h HF.
  - apply Forall2_nil_inv_l in HF as ->. apply wp_ret. exists [].
    split; [done|]. split; [done|]. split; [constructor|]. split; intros; done.
  - apply Forall2_cons_inv_l in HF as (v & vs' & Hc & HF & ->). cbn [mapM].
    apply wp_bind. eapply wp_mono; [by apply cloneCell_rel|].
    intros h1 r1 (c' & -> & Hpre1 & Hc' & Hint1).
    apply wp_bind. eapply wp_mono.
    { apply (IH vs' h1). eapply Forall2_impl; [exact HF|].
      intros c0 v0. by apply cellRel_grow. }
    intros h2 r2 (cs' & -> & Hpre2 & HF2 & Hint2 & Hinj2).
    apply wp_ret. exists (c' :: cs').
    pose proof (prefix_length _ _ Hpre1) as Hl1.
    pose proof (prefix_length _ _ Hpre2) as Hl2.
    split; [done|]. split; [by etrans|]. split; [|split].
    + constructor; [by eapply cellRel_grow|done].
    + intros [|j] l Hj; cbn in Hj.
      * injection Hj as ->. specialize (Hint1 l eq_refl). lia.
      * specialize (Hint2 j l Hj). lia.
    + intros [|j] [|j'] l Hj Hj'; cbn in Hj, Hj'.
      * done.
      * injection Hj as ->. specialize (Hint1 l eq_refl). specialize (Hint2 j' l Hj'). lia.
      * injection Hj' as ->. specialize (Hint1 l eq_refl). specialize (Hint2 j l Hj). lia.
      * f_equal. by eapply Hinj2.
Qed.

Lemma rowValue_inv (h : list Heap.obj) (r : Heap.loc) (vs : list Cell) :
  Heap.rowValue h r = Some vs ->
  exists cells, h !! r = Some (Heap.RowObj cells) /\ Forall2 (cellRel h) cells vs.
Proof.
  unfold Heap.rowValue. destruct (h !! r) as [[| cells |]|]; try done.
  intros Hm%mapM_Some_1. by exists cells.
Qed.

Lemma cloneRow_rel (r : Heap.loc) (vs : list Cell) (h : list Heap.obj) :
  Heap.rowValue h r = Some vs ->
  wp (Heap.cloneRow r)
     (fun h' res => exists r' cs',
          res = Ok r' /\ h `prefix_of` h' /\ (length h <= r' < length h')%nat
          /\ h' !! r' = Some (Heap.RowObj cs') /\ Forall2 (cellRel h') cs' vs
          /\ (forall j l, cs' !! j = Some (Some l) -> (length h <= l < length h')%nat)
          /\ (forall j j' l, cs' !! j = Some (Some l) -> cs' !! j' = Some (Some l) -> j = j')) h.
Proof.
  intros (cells & Hr & HF)%rowValue_inv. unfold Heap.cloneRow.
  apply wp_bind, wp_readRow; [|intros Hno; by destruct (Hno _ Hr)].
  intros cells' Hcells'. assert (cells' = cells) as -> by congruence.
  apply wp_bind. eapply wp_mono; [by apply cloneCells_rel|].
  intros h1 r1 (cs' & -> & Hpre1 & HF1 & Hint1 & Hinj1).
  apply wp_alloc. exists (length h1), cs'.
  pose proof (prefix_length _ _ Hpre1) as Hl1.
  split; [done|]. split; [etrans; [done|apply prefix_snoc]|].
  split; [rewrite length_app; cbn; lia|]. split; [|split; [|split]].
  - rewrite lookup_app_r by done. by rewrite Nat.sub_diag.
  - eapply Forall2_impl; [exact HF1|]. intros c0 v0. apply cellRel_grow, prefix_snoc.
  - intros j l Hj. specialize (Hint1 j l Hj). rewrite length_app. cbn. lia.
  - done.
Qed.

Lemma refAt_cons_0 (cells : list (option Heap.loc)) (locs : list (list (option Heap.loc)))
    (j : nat) (l : Heap.loc) :
  refAt (cells :: locs) 0 j = Some l <-> cells !! j = Some (Some l).
Proof.
  unfold refAt. cbn. destruct (cells !! j) as [c|]; [|done].
  split; [by intros ->|by intros [= ->]].
Qed.

Lemma refAt_cons_S (cells : list (option Heap.loc)) (locs : list (list (option Heap.loc)))
    (i j : nat) :
  refAt (cells :: locs) (S i) j = refAt locs i j.
Proof. done. Qed.

Lemma cloneRows_rel (rows : list Heap.loc) (bv : Board) :
  forall h, Forall2 (fun r vs => Heap.rowValue h r = Some vs) rows bv ->
  wp (mapM Heap.cloneRow rows)
     (fun h' res => exists rows' locs,
          res = Ok rows' /\ h `prefix_of` h'
          /\ Forall2 (fun r' cells => h' !! r' = Some (Heap.RowObj cells)) rows' locs
          /\ Forall2 (Forall2 (cellRel h')) locs bv
          /\ Forall (fun r' => (length h <= r' < length h')%nat) rows'
          /\ NoDup rows'
          /\ (forall i j l, refAt locs i j = Some l -> (length h <= l < length h')%nat)
          /\ (forall i j i' j' l,
                 refAt locs i j = Some l -> refAt locs i' j' = Some l -> i = i' /\ j = j')) h.
Proof.
  revert bv. induction rows as [|r rows IH]; intros bv h HF.
  - apply Forall2_nil_inv_l in HF as ->. apply wp_ret. exists [], [].
    split; [done|]. split; [done|]. split; [constructor|]. split; [constructor|].
    split; [constructor|]. split; [constructor|]. split; intros; done.
  - apply Forall2_cons_inv_l in HF as (vs & bv' & Hr & HF & ->). cbn [mapM].
    apply wp_bind. eapply wp_mono; [by apply cloneRow_rel|].
    intros h1 r1 (r' & cs' & -> & Hpre1 & Hr' & Hobj & HFc & Hint1 & Hinj1).
    apply wp_bind. eapply wp_mono.
    { apply (IH bv' h1). eapply Forall2_impl; [exact HF|].
      intros r0 vs0. destruct Hpre1 as [ext ->]. apply rowValue_grow. }
    intros h2 r2 (rows' & locs & -> & Hpre2 & HFr & HFc2 & Hrows & Hnodup & Hint2 & Hinj2).
    apply wp_ret. exists (r' :: rows'), (cs' :: locs).
    pose proof (prefix_length _ _ Hpre1) as Hl1.
    pose proof (prefix_length _ _ Hpre2) as Hl2.
    split; [done|]. split; [by etrans|].
    split; [constructor; [by eapply prefix_lookup_Some|done]|].
    split.
    { constructor; [|done]. eapply Forall2_impl; [exact HFc|].
      intros c0 v0. by apply cellRel_grow. }
    split.
    { constructor; [lia|]. eapply Forall_impl; [exact Hrows|]. intros r0 ?. cbn beta in *. lia. }
    split.
    { apply NoDup_cons. split; [|done]. intros Hin.
      rewrite Forall_forall in Hrows. specialize (Hrows _ Hin). cbn beta in Hrows. lia. }
    split.
    + intros [|i] j l Hl.
      * apply refAt_cons_0 in Hl. specialize (Hint1 j l Hl). lia.
      * rewrite refAt_cons_S in Hl. specialize (Hint2 i j l Hl). lia.
    + intros [|i] j [|i'] j' l Hl Hl'.
      * apply refAt_cons_0 in Hl, Hl'. split; [done|]. by eapply Hinj1.
      * apply refAt_cons_0 in Hl. rewrite refAt_cons_S in Hl'.
        specialize (Hint1 j l Hl). specialize (Hint2 i' j' l Hl'). lia.
      * apply refAt_cons_0 in Hl'. rewrite refAt_cons_S in Hl.
        specialize (Hint1 j' l Hl'). specialize (Hint2 i j l Hl). lia.
      * rewrite !refAt_cons_S in *. destruct (Hinj2 i j i' j' l Hl Hl'). by subst.
Qed.

Lemma boardValue_inv (h : list Heap.obj) (b : Heap.loc) (bv : Board) :
  Heap.boardValue h b = Some bv ->
  exists rows, h !! b = Some (Heap.BoardObj rows)
               /\ Forall2 (fun r vs => Heap.rowValue h r = Some vs) rows bv.
Proof.
  unfold Heap.boardValue. destruct (h !! b) as [[| |rows]|]; try done.
  intros Hm%mapM_Some_1. by exists rows.
Qed.

Lemma cloneBoard_separated (b : Heap.loc) (bv : Board) (h : list Heap.obj) :
  Heap.boardValue h b = Some bv ->
  wp (Heap.cloneBoard b)
     (fun h' res => exists nb rows locs, res = Ok nb /\ separated h' nb rows locs bv) h.
Proof.
  intros (rows & Hb & HF)%boardValue_inv. unfold Heap.cloneBoard.
  apply wp_bind, wp_readBoard; [|intros Hno; by destruct (Hno _ Hb)].
  intros rows0 Hrows0. assert (rows0 = rows) as -> by congruence.
  apply wp_bind. eapply wp_mono; [by apply cloneRows_rel|].
  intros h1 r1 (rows' & locs & -> & Hpre & HFr & HFc & Hrows & Hnodup & Hint & Hinj).
  apply wp_alloc. exists (length h1), rows', locs. split; [done|]. split.
  - rewrite lookup_app_r by done. by rewrite Nat.sub_diag.
  - eapply Forall2_impl; [exact HFr|]. intros r0 cs0. apply lookup_app_l_Some.
  - done.
  - eapply Forall2_impl; [exact HFc|]. intros cs0 vs0 H0.
    eapply Forall2_impl; [exact H0|]. intros c0 v0. apply cellRel_grow, prefix_snoc.
  - done.
Qed.

(** *** [applyMove] on values, in closed form *)

Lemma carriedBoard_wf (bv : Board) (m : Move) (pc : Piece) :
  wf_board bv -> wf_board (carriedBoard bv m pc).
Proof. intros Hwf. unfold carriedBoard. by do 2 apply wf_board_put2. Qed.

Lemma capturedBoard_wf (bv : Board) (m : Move) (pc : Piece) :
  wf_board bv -> wf_board (capturedBoard bv m pc).
Proof.
  intros Hwf. unfold capturedBoard. destruct (capture m) as [[capRow capCol]|].
  - by apply wf_board_put2, carriedBoard_wf.
  - by apply carriedBoard_wf.
Qed.

Lemma movedBoard_wf (bv : Board) (m : Move) (pc : Piece) :
  wf_board bv -> wf_board (movedBoard bv m pc).
Proof.
  intros Hwf. unfold movedBoard. destruct (promotes pc m && negb (capturesDestination m)).
  - by apply wf_board_put2, capturedBoard_wf.
  - by apply capturedBoard_wf.
Qed.

Lemma applyMove_value (bv : Board) (m : Move) (p : Player) (pc : Piece) :
  wf_board bv -> onBoard m -> cellAt bv (fst (from m)) (snd (from m)) = Some pc ->
  applyMove bv m p = Ok (moveOutcome bv m p pc).
Proof.
  intros Hwf (Hfrom & Hto & Hcap) Hcell.
  pose proof (movedBoard_wf bv m pc Hwf) as Hwf4.
  pose proof (capturedBoard_wf bv m pc Hwf) as Hwf3.
  pose proof (carriedBoard_wf bv m pc Hwf) as Hwf2.
  unfold moveOutcome, movedBoard, capturedBoard, capturedPiece, capturesDestination,
    carriedBoard, promotes in *.
  unfold applyMove, crownOnBoard. rewrite cloneBoard_id.
  destruct (from m) as [fromRow fromCol], (to m) as [toRow toCol]. cbn [fst snd] in *.
  rewrite (getCell_inside _ _ _ Hwf Hfrom), bind_Ok, Hcell.
  rewrite (setCell_put2 _ _ _ _ Hwf Hfrom), bind_Ok.
  rewrite (setCell_put2 _ _ _ _ (wf_board_put2 _ _ _ _ Hwf) Hto), bind_Ok.
  destruct (capture m) as [[capRow capCol]|].
  - specialize (Hcap _ eq_refl). cbn [fst snd] in Hcap.
    rewrite (getCell_inside _ _ _ Hwf2 Hcap), bind_Ok.
    rewrite (setCell_put2 _ _ _ _ Hwf2 Hcap), !bind_Ok. cbv zeta. cbn [isSome andb].
    destruct (negb (king pc) && reachesFarRank pc toRow) eqn:Hpromo; cbn [negb andb].
    + destruct ((capRow =? toRow) && (capCol =? toCol)); cbn [negb andb].
      * by rewrite bind_Ok.
      * rewrite (setCell_put2 _ _ _ _ Hwf3 Hto), bind_Ok. done.
    + rewrite bind_Ok.
      rewrite (getSinglePieceCaptures_spec _ _ _ _ Hwf3), bind_Ok.
      by destruct (captureCandidates _ toRow toCol pc).
  - rewrite !bind_Ok. cbv zeta. cbn [isSome andb negb].
    destruct (negb (king pc) && reachesFarRank pc toRow) eqn:Hpromo; cbn [negb andb].
    + rewrite (setCell_put2 _ _ _ _ Hwf2 Hto), bind_Ok. done.
    + by rewrite bind_Ok.
Qed.

(** *** The heap model refines to the value model *)

Lemma cellRel_None (h : list Heap.obj) : cellRel h None None.
Proof. done. Qed.

Lemma wp_followupCaptures_value (nb : Heap.loc) (row col : Z) (piece : Piece) (bv : Board)
    (Q : list Heap.obj -> res (list Move) -> Prop) (h : list Heap.obj) :
  Heap.boardValue h nb = Some bv ->
  Q h (getSinglePieceCaptures bv row col piece) ->
  wp (Heap.followupCaptures nb row col piece) Q h.
Proof. intros Hbv HQ. unfold wp, Heap.followupCaptures. by rewrite Hbv. Qed.

Lemma applyMove_refines_wp (h : list Heap.obj) (b : Heap.loc) (bv : Board) (m : Move)
    (p : Player) :
  Heap.boardValue h b = Some bv -> wf_board bv -> onBoard m ->
  wp (Heap.applyMove b m p) (refines bv m p) h.
Proof.
  intros Hbv Hwf Hon. pose proof Hon as (Hfrom & Hto & Hcap).
  destruct m as [mid [fromRow fromCol] [toRow toCol] cap]. cbn [from to capture fst snd] in *.
  unfold Heap.applyMove. cbn [from to capture].
  apply wp_bind. eapply wp_mono; [by apply cloneBoard_separated|].
  intros h1 r1 (nb & rows & locs & -> & Hsep1).
  apply wp_bind. eapply wp_mono; [by apply (getCell_separated _ _ _ _ _ Hsep1 Hwf)|].
  intros h1' r1 [-> ->].
  pose proof (separated_refAt _ _ _ _ _ fromRow fromCol Hsep1 Hwf Hfrom) as Hrel.
  destruct (cellAt bv fromRow fromCol) as [pc|] eqn:Hcell.
  2:{ apply cellRel_None_inv in Hrel. rewrite Hrel. apply wp_ret.
      eexists _, _. split; [done|]. split.
      { unfold applyMove. rewrite cloneBoard_id. cbn [from to].
        rewrite (getCell_inside _ _ _ Hwf Hfrom), bind_Ok, Hcell. reflexivity. }
      cbn. split; [by eapply separated_value|done]. }
  apply cellRel_Some_inv in Hrel as (mpl & Hat & Hmpl). rewrite Hat.
  pose proof (applyMove_value bv _ p pc Hwf Hon Hcell) as Hval.
  set (m := {| pieceId := mid; from := (fromRow, fromCol); to := (toRow, toCol);
               capture := cap |}) in Hval, Hon |- *.
  (* the piece leaves [from] *)
  apply wp_bind. eapply wp_mono.
  { apply (setCell_separated _ _ _ _ _ Hsep1 Hwf fromRow fromCol None None Hfrom
             (cellRel_None _)). by intros l i j. }
  intros h2 r2 (-> & Hsep2 & Hkeep2).
  assert (Hwf1 : wf_board (put2 bv (Z.to_nat fromRow) (Z.to_nat fromCol) None))
    by (by apply wf_board_put2).
  assert (Habs1 : forall i j,
             refAt (put2 locs (Z.to_nat fromRow) (Z.to_nat fromCol) None) i j <> Some mpl).
  { destruct (separated_row _ _ _ _ _ Hsep1 Hwf fromRow fromCol Hfrom)
      as (r & cells & vs & _ & Hcs & _ & _ & _ & Hcol & _).
    intros i j. rewrite (refAt_put2 _ _ _ _ _ Hcs Hcol).
    case_decide as Hd; [done|]. intros Hl. apply Hd.
    by eapply (sep_inj _ _ _ _ _ Hsep1). }
  (* and lands on [to] *)
  apply wp_bind. eapply wp_mono.
  { apply (setCell_separated _ _ _ _ _ Hsep2 Hwf1 toRow toCol (Some mpl) (Some pc) Hto).
    - unfold cellRel, Heap.cellValue. by rewrite (Hkeep2 _ _ Hmpl).
    - intros l i j [= <-] Hl. by destruct (Habs1 i j). }
  intros h3 r3 (-> & Hsep3 & Hkeep3).
  change (put2 (put2 bv (Z.to_nat fromRow) (Z.to_nat fromCol) None)
               (Z.to_nat toRow) (Z.to_nat toCol) (Some pc))
    with (carriedBoard bv m pc) in Hsep3.
  pose proof (carriedBoard_wf bv m pc Hwf) as Hwf2.
  assert (Hmpl3 : h3 !! mpl = Some (Heap.PieceObj pc)) by (by apply Hkeep3, Hkeep2).
  set (locs2 := put2 (put2 locs (Z.to_nat fromRow) (Z.to_nat fromCol) None)
                     (Z.to_nat toRow) (Z.to_nat toCol) (Some mpl)) in *.
  assert (Hat2 : forall i j,
             refAt locs2 i j = Some mpl <-> i = Z.to_nat toRow /\ j = Z.to_nat toCol).
  { destruct (separated_row _ _ _ _ _ Hsep2 Hwf1 toRow toCol Hto)
      as (r & cells & vs & _ & Hcs & _ & _ & _ & Hcol & _).
    intros i j. unfold locs2. rewrite (refAt_put2 _ _ _ _ _ Hcs Hcol).
    case_decide as Hd; [done|]. split; [intros Hl; by destruct (Habs1 i j)|done]. }
  clearbody locs2. clear Hsep1 Hsep2 Habs1 Hkeep2 Hkeep3 Hmpl Hat Hwf1 locs.
  (* what follows the capture *)
  match goal with |- wp (_ ≫= ?f) _ _ => set (rest := f) end.
  assert (Hrest : forall h' locs',
             separated h' nb rows locs' (capturedBoard bv m pc) ->
             h' !! mpl = Some (Heap.PieceObj pc) ->
             (forall i j, refAt locs' i j = Some mpl
                          <-> (i = Z.to_nat toRow /\ j = Z.to_nat toCol)
                              /\ capturesDestination m = false) ->
             wp (rest (capturedPiece bv m pc)) (refines bv m p) h').
  { intros h' locs' Hsep' Hmpl' Hocc. unfold rest.
    pose proof (capturedBoard_wf bv m pc Hwf) as Hwf3.
    apply wp_bind, wp_readPiece; [|intros Hno; by destruct (Hno _ Hmpl')].
    intros mp Hmp. assert (mp = pc) as -> by congruence.
    change (negb (king pc) && reachesFarRank pc toRow) with (promotes pc m).
    apply wp_bind. destruct (promotes pc m) eqn:Hpromo.
    - apply wp_bind, wp_store, wp_ret. rewrite andb_false_r. apply wp_ret.
      unfold refines; eexists _, (moveOutcome bv m p pc). split; [done|]. split; [exact Hval|].
      unfold moveOutcome, movedBoard. rewrite Hpromo. cbn [negb andb].
      rewrite andb_false_r. cbn [board currentPlayer forcedPieceId capturedPieceId promoted
                                   Heap.boardRef Heap.nextPlayer Heap.forcedId
                                   Heap.capturedId Heap.wasPromoted].
      split; [|done].
      destruct (capturesDestination m) eqn:Hcd; cbn [negb].
      + eapply separated_value. eapply crown_separated_absent; [exact Hsep'|exact Hmpl'|].
        intros i j Hl. apply Hocc in Hl as [_ ?]. congruence.
      + eapply separated_value.
        apply (crown_separated_at _ _ _ _ _ Hsep' Hwf3 mpl pc (crown pc) toRow toCol Hto Hmpl').
        by apply Hocc.
    - apply wp_ret. cbn [negb]. rewrite andb_true_r.
      assert (Hmoved : movedBoard bv m pc = capturedBoard bv m pc).
      { unfold movedBoard. by rewrite Hpromo. }
      assert (Hvalue : Heap.boardValue h' nb = Some (movedBoard bv m pc)).
      { rewrite Hmoved. by eapply separated_value. }
      destruct (isSome cap) eqn:Hisc.
      + apply wp_bind, wp_readPiece; [|intros Hno; by destruct (Hno _ Hmpl')].
        intros mp0 Hmp0. assert (mp0 = pc) as -> by congruence.
        apply wp_bind. eapply wp_followupCaptures_value; [exact Hvalue|].
        rewrite getSinglePieceCaptures_spec by (by apply movedBoard_wf).
        destruct (isEmpty (captureCandidates (movedBoard bv m pc) toRow toCol pc)) eqn:Hfol;
          cbn [negb]; apply wp_ret;
          (unfold refines; eexists _, (moveOutcome bv m p pc); split; [done|]; split; [exact Hval|]);
          unfold moveOutcome; change (capture m) with cap; change (to m) with (toRow, toCol);
          rewrite Hpromo, Hisc; cbn [fst snd negb andb];
          rewrite Hfol; cbn; done.
      + apply wp_ret.
        unfold refines; eexists _, (moveOutcome bv m p pc). split; [done|]. split; [exact Hval|].
        unfold moveOutcome. change (capture m) with cap. rewrite Hisc. cbn [andb]. cbn. rewrite Hpromo. done. }
  assert (Hcm : capture m = cap) by done.
  assert (Htm : to m = (toRow, toCol)) by done.
  clearbody m. clear Hval Hon.
  apply wp_bind.
  destruct cap as [[capRow capCol]|].
  - specialize (Hcap _ eq_refl). cbn [fst snd] in Hcap.
    apply wp_bind. eapply wp_mono; [by apply (getCell_separated _ _ _ _ _ Hsep3 Hwf2)|].
    intros h3' r3 [-> ->].
    pose proof (separated_refAt _ _ _ _ _ capRow capCol Hsep3 Hwf2 Hcap) as Hrelc.
    apply wp_bind. eapply wp_mono.
    { apply (setCell_separated _ _ _ _ _ Hsep3 Hwf2 capRow capCol None None Hcap
               (cellRel_None _)). by intros l i j. }
    intros h4 r4 (-> & Hsep4 & Hkeep4).
    assert (Hcb : capturedBoard bv m pc
                  = put2 (carriedBoard bv m pc) (Z.to_nat capRow) (Z.to_nat capCol) None).
    { unfold capturedBoard. by rewrite Hcm. }
    rewrite <- Hcb in Hsep4.
    assert (Hocc : forall i j,
               refAt (put2 locs2 (Z.to_nat capRow) (Z.to_nat capCol) None) i j = Some mpl
               <-> (i = Z.to_nat toRow /\ j = Z.to_nat toCol)
                   /\ capturesDestination m = false).
    { destruct (separated_row _ _ _ _ _ Hsep3 Hwf2 capRow capCol Hcap)
        as (r & cells & vs & _ & Hcs & _ & _ & _ & Hcol & _).
      intros i j. rewrite (refAt_put2 _ _ _ _ _ Hcs Hcol), <- Hat2.
      unfold capturesDestination. rewrite Hcm, Htm. cbn [fst snd].
      apply isInside_spec in Hcap, Hto.
      case_decide as Hd.
      - split; [done|]. intros [Hl Hne]. exfalso.
        apply Hat2 in Hl. apply andb_false_iff in Hne. rewrite !Z.eqb_neq in Hne. lia.
      - split; [|tauto]. intros Hl. split; [done|].
        apply Hat2 in Hl. apply andb_false_iff. rewrite !Z.eqb_neq.
        destruct (decide (capRow = toRow)) as [->|]; [|tauto].
        destruct (decide (capCol = toCol)) as [->|]; [|tauto]. tauto. }
    assert (Hcp : capturedPiece bv m pc
                  = option_map id (cellAt (carriedBoard bv m pc) capRow capCol)).
    { unfold capturedPiece. by rewrite Hcm. }
    destruct (refAt locs2 (Z.to_nat capRow) (Z.to_nat capCol)) as [cl|].
    + destruct (cellAt (carriedBoard bv m pc) capRow capCol) as [cp|];
        [|by apply cellRel_None_inv in Hrelc].
      apply cellRel_Some_inv in Hrelc as (cl' & [= <-] & Hcl).
      apply wp_bind, wp_readPiece; [|intros Hno; by destruct (Hno _ (Hkeep4 _ _ Hcl))].
      intros cp' Hcp'. rewrite (Hkeep4 _ _ Hcl) in Hcp'. injection Hcp' as <-.
      apply wp_ret. cbn [option_map] in Hcp. rewrite <- Hcp.
      apply (Hrest _ _ Hsep4); [by apply Hkeep4|exact Hocc].
    + assert (cellAt (carriedBoard bv m pc) capRow capCol = None) as Hnone.
      { unfold cellRel in Hrelc. cbn in Hrelc. congruence. }
      rewrite Hnone in Hcp. cbn [option_map] in Hcp.
      apply wp_ret. rewrite <- Hcp.
      apply (Hrest _ _ Hsep4); [by apply Hkeep4|exact Hocc].
  - apply wp_ret.
    assert (Hcp : capturedPiece bv m pc = None) by (unfold capturedPiece; by rewrite Hcm).
    rewrite <- Hcp. apply (Hrest _ locs2); [|done|].
    + unfold capturedBoard. by rewrite Hcm.
    + intros i j. rewrite Hat2. unfold capturesDestination. rewrite Hcm. tauto.
Qed.

Theorem applyMove_refines (h : list Heap.obj) (b : Heap.loc) (bv : Board) (m : Move)
    (p : Player) :
  Heap.boardValue h b = Some bv -> wf_board bv -> onBoard m ->
  exists h' a v,
    Heap.applyMove b m p h = (h', Ok a) /\ applyMove bv m p = Ok v
    /\ Heap.boardValue h' (Heap.boardRef a) = Some (board v)
    /\ Heap.nextPlayer a = currentPlayer v
    /\ Heap.forcedId a = forcedPieceId v
    /\ Heap.capturedId a = capturedPieceId v
    /\ Heap.wasPromoted a = promoted v.
Proof.
  intros Hbv Hwf Hon.
  pose proof (applyMove_refines_wp h b bv m p Hbv Hwf Hon) as Hwp.
  unfold wp, refines in Hwp. destruct (Heap.applyMove b m p h) as [h' r].
  cbn [fst snd] in Hwp. destruct Hwp as (a & v & -> & Hrest). by exists h', a, v.
Qed.

(** ** Rounding in binary64

    The operations on primitive doubles are specified by [SpecFloat]; the
    lemmas below bound the error of a rounded sum or product and relate the
    comparison of two doubles to that of their values. *)

Lemma digits2_log2 (p : positive) : Z.pos (digits2_pos p) = Z.log2 (Z.pos p) + 1.
Proof.
  induction p as [p IH|p IH|]; [| |reflexivity].
  - change (digits2_pos p~1) with (Pos.succ (digits2_pos p)).
    rewrite Pos2Z.inj_succ, IH.
    destruct p; cbn; lia.
  - change (digits2_pos p~0) with (Pos.succ (digits2_pos p)).
    rewrite Pos2Z.inj_succ, IH.
    destruct p; cbn; lia.
Qed.

Lemma digits2_bounds (p : positive) :
  2 ^ (Z.pos (digits2_pos p) - 1) <= Z.pos p < 2 ^ Z.pos (digits2_pos p).
Proof.
  rewrite digits2_log2.
  pose proof (Z.log2_spec (Z.pos p) eq_refl) as H.
  replace (Z.log2 (Z.pos p) + 1 - 1) with (Z.log2 (Z.pos p)) by lia.
  by replace (Z.log2 (Z.pos p) + 1) with (Z.succ (Z.log2 (Z.pos p))) by lia.
Qed.

Lemma iter_pos_nat {A : Type} (f : A -> A) (p : positive) (x : A) :
  SpecFloat.iter_pos f p x = Nat.iter (Pos.to_nat p) f x.
Proof.
  revert x. induction p as [p IH|p IH|]; intros x; cbn [SpecFloat.iter_pos].
  - rewrite !IH, Pos2Nat.inj_xI.
    replace (S (2 * Pos.to_nat p)) with (Pos.to_nat p + (Pos.to_nat p + 1))%nat by lia.
    rewrite !Nat.iter_add. reflexivity.
  - rewrite !IH, Pos2Nat.inj_xO.
    replace (2 * Pos.to_nat p)%nat with (Pos.to_nat p + Pos.to_nat p)%nat by lia.
    rewrite Nat.iter_add. reflexivity.
  - reflexivity.
Qed.

Lemma shr_1_nonneg (m : Z) (r s : bool) :
  0 <= m ->
  shr_1 {| shr_m := m; shr_r := r; shr_s := s |}
  = {| shr_m := m / 2; shr_r := Z.odd m; shr_s := r || s |}.
Proof.
  intros Hm. destruct m as [|[p|p|]|]; try lia; cbn [shr_1].
  - reflexivity.
  - f_equal. rewrite Pos2Z.inj_xI. apply (Z.div_unique _ _ _ 1); lia.
  - f_equal. rewrite Pos2Z.inj_xO. apply (Z.div_unique _ _ _ 0); lia.
  - reflexivity.
Qed.

(** The state of the shifter after [n] steps on a mantissa [M]: the
    quotient, and the two bits that locate the remainder. *)
Lemma shr_iter (M : Z) (n : nat) :
  0 <= M ->
  exists m r s u,
    Nat.iter n shr_1 {| shr_m := M; shr_r := false; shr_s := false |}
    = {| shr_m := m; shr_r := r; shr_s := s |}
    /\ 0 <= m
    /\ 0 <= u < 2 ^ Z.of_nat n
    /\ 2 * M = m * 2 ^ (Z.of_nat n + 1) + (if r then 2 ^ Z.of_nat n else 0) + u
    /\ (s = true <-> 0 < u).
Proof.
  intros HM. induction n as [|n IH].
  - exists M, false, false, 0. cbn. split; [done|]. split; [done|].
    split; [cbn; lia|]. split; [cbn; lia|]. split; [done|lia].
  - destruct IH as (m & r & s & u & Hrun & Hm & Hu & Heq & Hs).
    rewrite Nat.iter_succ, Hrun, (shr_1_nonneg _ _ _ Hm).
    exists (m / 2), (Z.odd m), (r || s), ((if r then 2 ^ Z.of_nat n else 0) + u).
    split; [done|]. split; [by apply Z.div_pos|].
    rewrite Nat2Z.inj_succ.
    replace (Z.succ (Z.of_nat n) + 1) with (Z.succ (Z.of_nat n + 1)) by lia.
    rewrite !Z.pow_succ_r by lia.
    assert (Hp : 0 < 2 ^ Z.of_nat n) by (apply Z.pow_pos_nonneg; lia).
    pose proof (Zdiv2_odd_eqn m) as Hodd. rewrite Z.div2_div in Hodd.
    set (q := m / 2) in *. set (P := 2 ^ Z.of_nat n) in *.
    set (P1 := 2 ^ (Z.of_nat n + 1)) in *.
    assert (HP1 : P1 = 2 * P) by (unfold P1, P; rewrite Z.pow_add_r by lia; lia).
    split; [destruct r; lia|].
    split.
    + rewrite Heq, HP1. destruct (Z.odd m), r; nia.
    + destruct Hs as [Hs1 Hs2].
      destruct r, s; cbn [orb]; split; intros H; try done; try lia;
        first [specialize (Hs1 eq_refl); lia | apply Hs2; lia].
Qed.

Lemma fexp_eq (e : Z) : fexp prec emax e = Z.max (e - 53) (-1074).
Proof. reflexivity. Qed.

Lemma Zdigits2_small (m : Z) (d : Z) : 0 <= d -> 0 <= m < 2 ^ d -> Zdigits2 m <= d.
Proof.
  intros Hd [Hm Hlt]. destruct m as [|p|p]; [cbn; lia| |lia].
  cbn [Zdigits2]. pose proof (digits2_bounds p) as [Hlo _].
  destruct (Z_le_gt_dec (Z.pos (digits2_pos p)) d) as [|Hgt]; [done|exfalso].
  assert (2 ^ d <= 2 ^ (Z.pos (digits2_pos p) - 1)) by (apply Z.pow_le_mono_r; lia).
  lia.
Qed.

(** Shifting [n] places and rounding to nearest, ties to even. *)
Lemma shr_round (M ex n : Z) :
  0 <= M ->
  let N := Z.max n 0 in
  exists rec m2,
    shr {| shr_m := M; shr_r := false; shr_s := false |} ex n = (rec, ex + N)
    /\ m2 = round_nearest_even (shr_m rec) (loc_of_shr_record rec)
    /\ 0 <= m2
    /\ - 2 ^ N <= 2 * M - m2 * 2 ^ (N + 1) <= 2 ^ N
    /\ (M mod 2 ^ N = 0 -> m2 * 2 ^ N = M).
Proof.
  intros HM N. subst N. destruct n as [|q|q].
  - change (Z.max 0 0) with 0.
    eexists _, _. split; [cbn [shr]; f_equal; lia|]. split; [reflexivity|].
    cbn [shr_m loc_of_shr_record round_nearest_even]. rewrite Z.pow_0_r, Z.pow_1_r.
    split; [done|]. split; [lia|]. lia.
  - unfold shr. rewrite iter_pos_nat.
    destruct (shr_iter M (Pos.to_nat q) HM) as (m & r & s & u & -> & Hm & Hu & Heq & Hs).
    rewrite positive_nat_Z in *. change (Z.max (Z.pos q) 0) with (Z.pos q).
    eexists _, _. split; [reflexivity|]. split; [reflexivity|].
    cbn [shr_m loc_of_shr_record].
    assert (Hp : 0 < 2 ^ Z.pos q) by (apply Z.pow_pos_nonneg; lia).
    assert (HP1 : 2 ^ (Z.pos q + 1) = 2 * 2 ^ Z.pos q) by (rewrite Z.pow_add_r by lia; lia).
    rewrite HP1 in *. set (P := 2 ^ Z.pos q) in *.
    destruct Hs as [Hs1 Hs2].
    assert (Hex : M mod P = 0 -> r = false /\ u = 0).
    { intros Hmod. apply Z.mod_divide in Hmod; [|lia]. destruct Hmod as [c Hc].
      destruct r.
      - exfalso. assert (2 * c * P = (2 * m + 1) * P + u) by lia.
        assert (u = (2 * c - 2 * m - 1) * P) by lia.
        assert (0 <= 2 * c - 2 * m - 1) by nia.
        assert (2 * c - 2 * m - 1 < 1) by nia. lia.
      - split; [done|]. assert (u = 2 * (c - m) * P) by lia.
        assert (0 <= c - m) by nia. assert (c - m < 1) by nia.
        assert (c - m = 0) by lia. nia. }
    destruct r, s; cbn [round_nearest_even].
    + specialize (Hs1 eq_refl). split; [lia|]. split; [lia|].
      intros Hmod. destruct (Hex Hmod). done.
    + destruct (Z.even m); (split; [lia|]); (split; [assert (u = 0) by (destruct (Z_lt_le_dec 0 u) as [H|H]; [apply Hs2 in H; done|lia]); lia|]);
        intros Hmod; destruct (Hex Hmod); done.
    + specialize (Hs1 eq_refl). split; [lia|]. split; [lia|].
      intros Hmod. destruct (Hex Hmod). lia.
    + assert (u = 0) by (destruct (Z_lt_le_dec 0 u) as [H|H]; [apply Hs2 in H; done|lia]).
      split; [lia|]. split; [lia|]. intros _. lia.
  - change (Z.max (Z.neg q) 0) with 0.
    eexists _, _. split; [cbn [shr]; f_equal; lia|]. split; [reflexivity|].
    cbn [shr_m loc_of_shr_record round_nearest_even]. rewrite Z.pow_0_r, Z.pow_1_r.
    split; [done|]. split; [lia|]. lia.
Qed.

Lemma pow2_split (a b : Z) : 0 <= a -> 0 <= b -> 2 ^ (a + b) = 2 ^ a * 2 ^ b.
Proof. intros. by apply Z.pow_add_r. Qed.

Lemma binary_round_aux_Z (sx : bool) (p : positive) (ex : Z) :
  let N := Z.max (fexp prec emax (Z.pos (digits2_pos p) + ex) - ex) 0 in
  ex + N <= 970 ->
  exists m3 k,
    (k = 0 \/ k = 1) /\ 0 <= m3
    /\ binary_round_aux prec emax sx (Z.pos p) ex loc_Exact
       = match m3 with
         | Z.pos q => S754_finite sx q (ex + N + k)
         | _ => S754_zero sx
         end
    /\ - 2 ^ N <= 2 * Z.pos p - m3 * 2 ^ (N + k + 1) <= 2 ^ N
    /\ (Z.pos p mod 2 ^ N = 0 -> m3 * 2 ^ (N + k) = Z.pos p).
Proof.
  intros N Hmax.
  pose proof (digits2_bounds p) as [Hdlo Hdhi].
  set (d := Z.pos (digits2_pos p)) in *.
  assert (Hd : 1 <= d) by (unfold d; lia).
  unfold binary_round_aux, shr_fexp.
  change (shr_record_of_loc (Z.pos p) loc_Exact)
    with {| shr_m := Z.pos p; shr_r := false; shr_s := false |}.
  change (Zdigits2 (Z.pos p)) with d.
  destruct (shr_round (Z.pos p) ex (fexp prec emax (d + ex) - ex) ltac:(lia))
    as (rec & m2 & -> & Hm2 & Hm2pos & Herr & Hexact).
  fold N in Herr, Hexact |- *. rewrite <- Hm2.
  assert (HN : 0 <= N) by (unfold N; lia).
  assert (HPN : 0 < 2 ^ N) by (apply Z.pow_pos_nonneg; lia).
  (* the rounded mantissa has at most 53 digits, or is 2^53 *)
  assert (Hm2le : m2 <= 2 ^ 53).
  { assert (HdN : d <= N + 53) by (unfold N; rewrite fexp_eq; lia).
    assert (2 ^ d <= 2 ^ (N + 53)) by (apply Z.pow_le_mono_r; lia).
    rewrite (pow2_split N 53) in H by lia.
    rewrite (pow2_split N 1) in Herr by lia.
    change (2 ^ 1) with 2 in Herr.
    set (P := 2 ^ N) in *. set (T := 2 ^ 53) in *.
    assert (0 < T) by (unfold T; lia).
    destruct (Z_le_gt_dec m2 T) as [|Hgt]; [done|exfalso]. nia. }
  assert (He' : -1074 <= ex + N) by (unfold N; rewrite fexp_eq; lia).
  change (shr_record_of_loc m2 loc_Exact)
    with {| shr_m := m2; shr_r := false; shr_s := false |}.
  destruct (Z.eq_dec m2 (2 ^ 53)) as [Heq|Hne].
  - (* a carry: one more place, exactly *)
    exists (2 ^ 52), 1. split; [by right|]. split; [lia|].
    rewrite Heq in *.
    replace (fexp prec emax (Zdigits2 (2 ^ 53) + (ex + N)) - (ex + N)) with 1
      by (rewrite fexp_eq; change (Zdigits2 (2 ^ 53)) with 54; lia).
    cbn [shr SpecFloat.iter_pos shr_1 shr_m].
    change (2 ^ 53) with 9007199254740992 in *. change (2 ^ 52) with 4503599627370496.
    cbn [shr_1 shr_m].
    replace (ex + N + 1 <=? emax - prec) with true by (symmetry; apply Z.leb_le; change (emax - prec) with 971; lia).
    split; [reflexivity|].
    rewrite (pow2_split N 1) in Herr by lia. change (2 ^ 1) with 2 in Herr.
    replace (N + 1 + 1) with (N + 2) by lia. rewrite (pow2_split N 2) by lia.
    rewrite (pow2_split N 1) by lia.
    change (2 ^ 2) with 4. change (2 ^ 1) with 2.
    split; [lia|]. intros Hmod. specialize (Hexact Hmod). lia.
  - exists m2, 0. split; [by left|]. split; [done|].
    assert (Hdig : Zdigits2 m2 <= 53) by (apply Zdigits2_small; lia).
    assert (Hn2 : fexp prec emax (Zdigits2 m2 + (ex + N)) - (ex + N) <= 0)
      by (rewrite fexp_eq; lia).
    destruct (fexp prec emax (Zdigits2 m2 + (ex + N)) - (ex + N)) as [|q|q] eqn:En2;
      [|lia|]; cbn [shr shr_m]; rewrite ?Z.add_0_r;
      (destruct m2 as [|q2|q2]; [| |lia]);
      try (replace (ex + N <=? emax - prec) with true by (symmetry; apply Z.leb_le; change (emax - prec) with 971; lia));
      (split; [reflexivity|]); rewrite ?Z.add_0_r; done.
Qed.



Lemma Q2pow_pos (e : Z) : (0 < 2 ^ e)%Q.
Proof. by apply Qpower_0_lt. Qed.

Lemma Q2pow_add (a b : Z) : (2 ^ (a + b) == 2 ^ a * 2 ^ b)%Q.
Proof. by apply Qpower_plus. Qed.

Lemma Q2pow_le (a b : Z) : a <= b -> (2 ^ a <= 2 ^ b)%Q.
Proof. intros H. apply Qpower_le_compat_l; [done|]. by unfold Qle. Qed.

Lemma Q2pow_lt (a b : Z) : a < b -> (2 ^ a < 2 ^ b)%Q.
Proof. intros H. apply Qpower_lt_compat_l; [done|]. by unfold Qlt. Qed.

Lemma Q2pow_Z (n : Z) : 0 <= n -> (inject_Z (2 ^ n) == 2 ^ n)%Q.
Proof. intros H. by rewrite Zpower_Qpower. Qed.

Lemma Q2pow_succ (a : Z) : (2 ^ (a + 1) == 2 * 2 ^ a)%Q.
Proof. rewrite Q2pow_add. change (2 ^ 1)%Q with 2%Q. ring. Qed.

(** The magnitude of a value bounds the number of its digits. *)
Lemma digits_below (p : positive) (ex B : Z) :
  (inject_Z (Z.pos p) * 2 ^ ex < 2 ^ B)%Q -> Z.pos (digits2_pos p) + ex <= B.
Proof.
  intros Hlt. pose proof (digits2_bounds p) as [Hlo _].
  set (d := Z.pos (digits2_pos p)) in *.
  destruct (Z_le_gt_dec (d + ex) B) as [|Hgt]; [done|exfalso].
  assert (Hd : 0 <= d - 1) by (unfold d; lia).
  apply inject_Z_le in Hlo. rewrite (Q2pow_Z _ Hd) in Hlo.
  assert (H1 : (2 ^ B <= 2 ^ (d - 1 + ex))%Q) by (apply Q2pow_le; lia).
  rewrite Q2pow_add in H1.
  pose proof (Q2pow_pos ex). pose proof (Q2pow_pos (d - 1)).
  set (E := (2 ^ ex)%Q) in *. set (D := (2 ^ (d - 1))%Q) in *.
  set (P := inject_Z (Z.pos p)) in *. set (T := (2 ^ B)%Q) in *.
  assert (D * E <= P * E)%Q by (apply Qmult_le_compat_r; [done|by apply Qlt_le_weak]).
  lra.
Qed.

(** Rounding a positive value below [2^B]: the result is finite and
    within [2^(B-54)] of the value. *)
Lemma binary_round_aux_Q (sx : bool) (p : positive) (ex B : Z) :
  let x := (inject_Z (Z.pos p) * 2 ^ ex)%Q in
  (x < 2 ^ B)%Q -> -1021 <= B <= 971 ->
  exists w,
    SFval (binary_round_aux prec emax sx (Z.pos p) ex loc_Exact) = Some w
    /\ (if sx then - x - 2 ^ (B - 54) <= w <= - x + 2 ^ (B - 54)
        else x - 2 ^ (B - 54) <= w <= x + 2 ^ (B - 54))%Q.
Proof.
  intros x Hlt HB.
  pose proof (digits_below p ex B Hlt) as Hd.
  assert (Hex : ex <= 970) by lia.
  set (N := Z.max (fexp prec emax (Z.pos (digits2_pos p) + ex) - ex) 0).
  assert (HN : 0 <= N) by (unfold N; lia).
  assert (HexN : ex + N <= B - 53 \/ N = 0) by (unfold N; rewrite fexp_eq; lia).
  destruct (binary_round_aux_Z sx p ex) as (m3 & k & Hk & Hm3 & -> & Herr & Hexact).
  { fold N. lia. }
  fold N in Herr, Hexact.
  assert (Hzero : N = 0 -> (inject_Z m3 * (2 ^ N * 2 ^ k) == inject_Z (Z.pos p))%Q).
  { intros HN0. rewrite <- Hexact by (rewrite HN0; apply Z.mod_1_r).
    rewrite inject_Z_mult, Q2pow_Z, Q2pow_add by lia. reflexivity. }
  (* the error, as a rational *)
  assert (HerrQ : (- 2 ^ (B - 54) <= inject_Z m3 * 2 ^ (ex + N + k) - x <= 2 ^ (B - 54))%Q).
  { assert (Hk0 : 0 <= k) by lia.
    destruct Herr as [Hlo Hhi].
    apply inject_Z_le in Hlo, Hhi.
    rewrite inject_Z_opp in Hlo.
    unfold Z.sub in Hlo, Hhi. rewrite inject_Z_plus, inject_Z_opp, !inject_Z_mult in Hlo, Hhi.
    rewrite !Q2pow_Z in Hlo, Hhi by lia.
    rewrite !Q2pow_add in Hlo, Hhi |- *.
    change (2 ^ 1)%Q with 2%Q in *. change (inject_Z 2) with 2%Q in *.
    pose proof (Q2pow_pos ex) as HE. pose proof (Q2pow_pos N) as HP.
    pose proof (Q2pow_pos k) as HK. pose proof (Q2pow_pos (B - 54)) as HT.
    assert (HEN : N = 0 \/ (2 ^ ex * 2 ^ N <= 2 * 2 ^ (B - 54))%Q).
    { destruct HexN as [H|H]; [right|by left].
      rewrite <- Q2pow_add, <- Q2pow_succ. apply Q2pow_le. lia. }
    unfold x.
    set (E := (2 ^ ex)%Q) in *. set (P := (2 ^ N)%Q) in *. set (K := (2 ^ k)%Q) in *.
    set (M := inject_Z m3) in *. set (X := inject_Z (Z.pos p)) in *.
    set (T := (2 ^ (B - 54))%Q) in *.
    set (D := (M * (P * K) - X)%Q).
    assert (HD : (- P <= 2 * D <= P)%Q) by (unfold D; lra).
    assert (Hgoal : (M * (E * P * K) - X * E == E * D)%Q) by (unfold D; ring).
    rewrite Hgoal.
    destruct HEN as [HN0|HEN].
    - (* no shift: the integers agree *)
      assert (HDz : (D == 0)%Q) by (unfold D; rewrite (Hzero HN0); ring).
      rewrite HDz. clear -HT. clearbody T E. lra.
    - assert (H1 : (E * (2 * D) <= E * P)%Q) by (apply Qmult_le_l; [exact HE|apply HD]).
      assert (H2 : (E * (- P) <= E * (2 * D))%Q) by (apply Qmult_le_l; [exact HE|apply HD]).
      clear -H1 H2 HEN. clearbody D T E P. lra. }
  destruct m3 as [|q|q]; [| |lia].
  - eexists. split; [reflexivity|].
    rewrite Qmult_0_l in HerrQ. destruct sx; lra.
  - eexists. split; [reflexivity|]. fold N.
    set (I := inject_Z (Z.pos q)) in *. set (W := (2 ^ (ex + N + k))%Q) in *.
    set (T := (2 ^ (B - 54))%Q) in *.
    destruct sx; cbn [cond_Zopp].
    + change (Z.neg q) with (- Z.pos q). rewrite inject_Z_opp. fold I.
      clearbody I W T x. lra.
    + fold I. clearbody I W T x. lra.
Qed.

Lemma iter_xO (p d : positive) : Z.pos (Pos.iter xO p d) = Z.pos p * 2 ^ Z.pos d.
Proof.
  induction d as [|d IH] using Pos.peano_ind.
  - cbn [Pos.iter]. lia.
  - rewrite Pos.iter_succ, Pos2Z.inj_xO, IH, Pos2Z.inj_succ, Z.pow_succ_r by lia. lia.
Qed.

(** [shl_align] keeps the value. *)
Lemma shl_align_val (p : positive) (e e' : Z) :
  (inject_Z (Z.pos (fst (shl_align p e e'))) * 2 ^ snd (shl_align p e e')
   == inject_Z (Z.pos p) * 2 ^ e)%Q.
Proof.
  unfold shl_align. destruct (e' - e) as [|d|d] eqn:Hd; cbn [fst snd]; [reflexivity..|].
  rewrite iter_xO, inject_Z_mult, Q2pow_Z by lia.
  replace e with (Z.pos d + e') by lia. rewrite Q2pow_add. ring.
Qed.

Lemma shl_align_down (p : positive) (e e' : Z) :
  e' <= e -> Z.pos (fst (shl_align p e e')) = Z.pos p * 2 ^ (e - e').
Proof.
  intros Hle. unfold shl_align. destruct (e' - e) as [|d|d] eqn:Hd; cbn [fst]; [|lia|].
  - replace (e - e') with 0 by lia. lia.
  - rewrite iter_xO. f_equal. f_equal. lia.
Qed.


Lemma SFval_finite (s : bool) (m : positive) (e : Z) :
  SFval (S754_finite s m e) = Some (inject_Z (cond_Zopp s (Z.pos m)) * 2 ^ e)%Q.
Proof. reflexivity. Qed.

Lemma cond_Zopp_Q (s : bool) (z : Z) : (inject_Z (cond_Zopp s z) == sgnQ s (inject_Z z))%Q.
Proof. destruct s; cbn [cond_Zopp sgnQ]; [by rewrite inject_Z_opp|reflexivity]. Qed.

Lemma binary_round_Q (s : bool) (p : positive) (e B : Z) :
  let x := (inject_Z (Z.pos p) * 2 ^ e)%Q in
  (x < 2 ^ B)%Q -> -1021 <= B <= 971 ->
  exists w,
    SFval (binary_round prec emax s p e) = Some w
    /\ (sgnQ s x - 2 ^ (B - 54) <= w <= sgnQ s x + 2 ^ (B - 54))%Q.
Proof.
  intros x Hlt HB. unfold binary_round.
  pose proof (shl_align_val p e (fexp prec emax (Z.pos (digits2_pos p) + e))) as Hval.
  destruct (shl_align p e (fexp prec emax (Z.pos (digits2_pos p) + e))) as [mz ez].
  cbn [fst snd] in Hval.
  destruct (binary_round_aux_Q s mz ez B) as (w & Hw & Hbound); [by rewrite Hval|done|].
  exists w. split; [done|].
  set (T := (2 ^ (B - 54))%Q) in *. fold x in Hval.
  set (y := (inject_Z (Z.pos mz) * 2 ^ ez)%Q) in *.
  clearbody T y x. destruct s; cbn [sgnQ]; lra.
Qed.

Lemma binary_normalize_Q (m e B : Z) (szero : bool) :
  let x := (inject_Z m * 2 ^ e)%Q in
  (- 2 ^ B < x < 2 ^ B)%Q -> -1021 <= B <= 971 ->
  exists w,
    SFval (binary_normalize prec emax m e szero) = Some w
    /\ (x - 2 ^ (B - 54) <= w <= x + 2 ^ (B - 54))%Q.
Proof.
  intros x Hlt HB. pose proof (Q2pow_pos (B - 54)) as HT.
  destruct m as [|p|p]; cbn [binary_normalize].
  - exists 0%Q. split; [done|]. unfold x. rewrite Qmult_0_l. lra.
  - destruct (binary_round_Q false p e B) as (w & Hw & Hb); [by apply Hlt|done|].
    exists w. done.
  - assert (Hx : (x == - (inject_Z (Z.pos p) * 2 ^ e))%Q).
    { unfold x. change (Z.neg p) with (- Z.pos p). rewrite inject_Z_opp. ring. }
    destruct (binary_round_Q true p e B) as (w & Hw & Hb); [|done|].
    { destruct Hlt as [Hlo _]. rewrite Hx in Hlo.
      set (y := (inject_Z (Z.pos p) * 2 ^ e)%Q) in *. set (T := (2 ^ B)%Q) in *.
      clearbody y T. lra. }
    exists w. split; [done|]. cbn [sgnQ] in Hb. rewrite Hx.
    set (y := (inject_Z (Z.pos p) * 2 ^ e)%Q) in *. set (T := (2 ^ (B - 54))%Q) in *.
    clearbody y T. lra.
Qed.

Lemma SFmul_Q (x y : spec_float) (a b : Q) (B : Z) :
  SFval x = Some a -> SFval y = Some b ->
  (- 2 ^ B < a * b < 2 ^ B)%Q -> -1021 <= B <= 971 ->
  exists c,
    SFval (SFmul prec emax x y) = Some c
    /\ (a * b - 2 ^ (B - 54) <= c <= a * b + 2 ^ (B - 54))%Q.
Proof.
  intros Hx Hy Hlt HB. pose proof (Q2pow_pos (B - 54)) as HT.
  destruct x as [sx|sx| |sx mx ex], y as [sy|sy| |sy my ey]; try done;
    cbn [SFval] in Hx, Hy; injection Hx as <-; injection Hy as <-; cbn [SFmul].
  - exists 0%Q. split; [done|]. lra.
  - exists 0%Q. split; [done|]. rewrite Qmult_0_l. lra.
  - exists 0%Q. split; [done|]. rewrite Qmult_0_r. lra.
  - set (X := inject_Z (Z.pos mx)) in *. set (Y := inject_Z (Z.pos my)) in *.
    assert (Hprod : (inject_Z (Z.pos (mx * my)) * 2 ^ (ex + ey) == (X * 2 ^ ex) * (Y * 2 ^ ey))%Q).
    { rewrite Pos2Z.inj_mul, inject_Z_mult, Q2pow_add. unfold X, Y. ring. }
    rewrite !cond_Zopp_Q in Hlt. fold X Y in Hlt.
    set (A := (X * 2 ^ ex)%Q) in *. set (C := (Y * 2 ^ ey)%Q) in *.
    assert (HA : (0 < A)%Q).
    { unfold A. apply Qmult_lt_0_compat; [by unfold X, Qlt|apply Q2pow_pos]. }
    assert (HC : (0 < C)%Q).
    { unfold C. apply Qmult_lt_0_compat; [by unfold Y, Qlt|apply Q2pow_pos]. }
    assert (HAC : (0 < A * C)%Q) by (by apply Qmult_lt_0_compat).
    assert (Hsign : (sgnQ sx X * 2 ^ ex * (sgnQ sy Y * 2 ^ ey) == sgnQ (xorb sx sy) (A * C))%Q).
    { unfold A, C. destruct sx, sy; cbn [sgnQ xorb]; ring. }
    rewrite Hsign in Hlt.
    destruct (binary_round_aux_Q (xorb sx sy) (mx * my) (ex + ey) B) as (w & Hw & Hb); [|done|].
    { rewrite Hprod. fold A C. set (T := (2 ^ B)%Q) in *. set (AC := (A * C)%Q) in *.
      clearbody T AC. destruct (xorb sx sy); cbn [sgnQ] in Hlt; lra. }
    exists w. split; [done|]. rewrite !cond_Zopp_Q. fold X Y. rewrite Hsign.
    assert (Hb' : (sgnQ (xorb sx sy) (A * C) - 2 ^ (B - 54) <= w
                   <= sgnQ (xorb sx sy) (A * C) + 2 ^ (B - 54))%Q).
    { set (P := (inject_Z (Z.pos (mx * my)) * 2 ^ (ex + ey))%Q) in *.
      fold A C in Hprod. set (AC := (A * C)%Q) in *. set (T := (2 ^ (B - 54))%Q) in *.
      clearbody P AC T. destruct (xorb sx sy); cbn [sgnQ]; lra. }
    exact Hb'.
Qed.

Lemma SFadd_Q (x y : spec_float) (a b : Q) (B : Z) :
  SFval x = Some a -> SFval y = Some b ->
  (- 2 ^ B < a + b < 2 ^ B)%Q -> -1021 <= B <= 971 ->
  exists c,
    SFval (SFadd prec emax x y) = Some c
    /\ (a + b - 2 ^ (B - 54) <= c <= a + b + 2 ^ (B - 54))%Q.
Proof.
  intros Hx Hy Hlt HB. pose proof (Q2pow_pos (B - 54)) as HT.
  destruct x as [sx|sx| |sx mx ex], y as [sy|sy| |sy my ey]; try done;
    cbn [SFval] in Hx, Hy; injection Hx as <-; injection Hy as <-; cbn [SFadd].
  - exists 0%Q. split; [by destruct sx, sy|]. lra.
  - eexists. split; [reflexivity|]. lra.
  - eexists. split; [reflexivity|]. lra.
  - set (ez := Z.min ex ey).
    rewrite (shl_align_down mx ex ez), (shl_align_down my ey ez) by (unfold ez; lia).
    set (S := cond_Zopp sx (Z.pos mx * 2 ^ (ex - ez)) + cond_Zopp sy (Z.pos my * 2 ^ (ey - ez))).
    assert (HS : (inject_Z S * 2 ^ ez
                  == inject_Z (cond_Zopp sx (Z.pos mx)) * 2 ^ ex
                     + inject_Z (cond_Zopp sy (Z.pos my)) * 2 ^ ey)%Q).
    { assert (Hex : (2 ^ ex == 2 ^ (ex - ez) * 2 ^ ez)%Q)
        by (rewrite <- Q2pow_add; by replace (ex - ez + ez) with ex by lia).
      assert (Hey : (2 ^ ey == 2 ^ (ey - ez) * 2 ^ ez)%Q)
        by (rewrite <- Q2pow_add; by replace (ey - ez + ez) with ey by lia).
      rewrite Hex, Hey. unfold S.
      destruct sx, sy; cbn [cond_Zopp];
        rewrite inject_Z_plus, ?inject_Z_opp, !inject_Z_mult;
        rewrite !Q2pow_Z by (unfold ez; lia); ring. }
    destruct (binary_normalize_Q S ez B false) as (w & Hw & Hb); [by rewrite HS|done|].
    exists w. split; [done|]. by rewrite <- HS.
Qed.

Lemma inject_Z_lt (a b : Z) : a < b -> (inject_Z a < inject_Z b)%Q.
Proof. intros H. by rewrite <- Zlt_Qlt. Qed.

Lemma bounded_digits (m : positive) (e : Z) :
  bounded prec emax m e = true ->
  Z.pos m < 2 ^ 53 /\ (-1074 < e -> 2 ^ 52 <= Z.pos m) /\ -1074 <= e <= 971.
Proof.
  unfold bounded, canonical_mantissa. intros [Hc He]%andb_prop.
  apply Z.eqb_eq in Hc. apply Z.leb_le in He. change (emax - prec) with 971 in He.
  rewrite fexp_eq in Hc. pose proof (digits2_bounds m) as [Hlo Hhi].
  set (d := Z.pos (digits2_pos m)) in *.
  assert (Hd : 1 <= d) by (unfold d; lia).
  split; [|split; [|lia]].
  - assert (2 ^ d <= 2 ^ 53) by (apply Z.pow_le_mono_r; lia). lia.
  - intros Hn. assert (d = 53) as Hd53 by lia. rewrite Hd53 in Hlo. exact Hlo.
Qed.

(** Among valid doubles of one sign, the exponent decides the order. *)
Lemma bounded_lt (m1 m2 : positive) (e1 e2 : Z) :
  bounded prec emax m1 e1 = true -> bounded prec emax m2 e2 = true ->
  e1 < e2 ->
  (inject_Z (Z.pos m1) * 2 ^ e1 < inject_Z (Z.pos m2) * 2 ^ e2)%Q.
Proof.
  intros (H1 & _ & He1)%bounded_digits (_ & H2 & He2)%bounded_digits Hlt.
  specialize (H2 ltac:(lia)).
  apply inject_Z_lt in H1. apply inject_Z_le in H2.
  rewrite (Q2pow_Z 53) in H1 by lia. rewrite (Q2pow_Z 52) in H2 by lia.
  pose proof (Q2pow_pos e1) as HE1. pose proof (Q2pow_pos e2) as HE2.
  assert (Hstep : (2 ^ 53 * 2 ^ e1 <= 2 ^ 52 * 2 ^ e2)%Q).
  { rewrite <- !Q2pow_add. apply Q2pow_le. lia. }
  assert (Ha : (inject_Z (Z.pos m1) * 2 ^ e1 < 2 ^ 53 * 2 ^ e1)%Q)
    by (apply Qmult_lt_compat_r; [exact HE1|exact H1]).
  assert (Hb : (2 ^ 52 * 2 ^ e2 <= inject_Z (Z.pos m2) * 2 ^ e2)%Q)
    by (apply Qmult_le_compat_r; [exact H2|by apply Qlt_le_weak]).
  eapply Qlt_le_trans; [exact Ha|]. eapply Qle_trans; [exact Hstep|exact Hb].
Qed.

Lemma Qcompare_Lt (a b : Q) : (a < b)%Q -> (a ?= b)%Q = Lt.
Proof. apply Qlt_alt. Qed.

Lemma Qcompare_Gt (a b : Q) : (b < a)%Q -> (a ?= b)%Q = Gt.
Proof. apply Qgt_alt. Qed.

Lemma Qcompare_Eq (a b : Q) : (a == b)%Q -> (a ?= b)%Q = Eq.
Proof. apply Qeq_alt. Qed.

Lemma finite_pos (m : positive) (e : Z) : (0 < inject_Z (Z.pos m) * 2 ^ e)%Q.
Proof. apply Qmult_lt_0_compat; [by unfold Qlt|apply Q2pow_pos]. Qed.

(** Positive valid doubles compare as their values do. *)
Lemma compare_magnitudes (m1 m2 : positive) (e1 e2 : Z) :
  bounded prec emax m1 e1 = true -> bounded prec emax m2 e2 = true ->
  match e1 ?= e2 with
  | Lt => Lt
  | Gt => Gt
  | Eq => Pos.compare_cont Eq m1 m2
  end
  = (inject_Z (Z.pos m1) * 2 ^ e1 ?= inject_Z (Z.pos m2) * 2 ^ e2)%Q.
Proof.
  intros Hb1 Hb2. destruct (Z.compare_spec e1 e2) as [->|Hlt|Hgt].
  - change (Pos.compare_cont Eq m1 m2) with (m1 ?= m2)%positive.
    pose proof (Q2pow_pos e2) as HE.
    destruct (Pos.compare_spec m1 m2) as [->|Hlt|Hgt]; symmetry.
    + by apply Qcompare_Eq.
    + apply Qcompare_Lt, Qmult_lt_compat_r; [done|]. apply inject_Z_lt. lia.
    + apply Qcompare_Gt, Qmult_lt_compat_r; [done|]. apply inject_Z_lt. lia.
  - symmetry. by apply Qcompare_Lt, bounded_lt.
  - symmetry. by apply Qcompare_Gt, bounded_lt.
Qed.

Lemma Qcompare_opp (a b : Q) : (- a ?= - b)%Q = CompOpp (a ?= b)%Q.
Proof.
  destruct (Qcompare_spec a b) as [H|H|H]; cbn [CompOpp].
  - apply Qcompare_Eq. by rewrite H.
  - apply Qcompare_Gt. lra.
  - apply Qcompare_Lt. lra.
Qed.

Lemma SFcompare_Q (x y : spec_float) (a b : Q) :
  valid_binary x = true -> valid_binary y = true ->
  SFval x = Some a -> SFval y = Some b ->
  SFcompare x y = Some (a ?= b)%Q.
Proof.
  intros Hvx Hvy Hx Hy.
  destruct x as [sx|sx| |sx mx ex], y as [sy|sy| |sy my ey]; try done;
    cbn [SFval] in Hx, Hy; injection Hx as <-; injection Hy as <-;
    cbn [SFcompare valid_binary] in *; f_equal.
  - pose proof (finite_pos my ey) as Hp. symmetry.
    destruct sy; cbn [cond_Zopp].
    + apply Qcompare_Gt. change (Z.neg my) with (- Z.pos my). rewrite inject_Z_opp.
      set (v := (inject_Z (Z.pos my) * 2 ^ ey)%Q) in *.
      assert (Hv : (- inject_Z (Z.pos my) * 2 ^ ey == - v)%Q) by (unfold v; ring).
      rewrite Hv. lra.
    + by apply Qcompare_Lt.
  - pose proof (finite_pos mx ex) as Hp. symmetry.
    destruct sx; cbn [cond_Zopp].
    + apply Qcompare_Lt. change (Z.neg mx) with (- Z.pos mx). rewrite inject_Z_opp.
      set (v := (inject_Z (Z.pos mx) * 2 ^ ex)%Q) in *.
      assert (Hv : (- inject_Z (Z.pos mx) * 2 ^ ex == - v)%Q) by (unfold v; ring).
      rewrite Hv. lra.
    + by apply Qcompare_Gt.
  - pose proof (finite_pos mx ex) as Hpx. pose proof (finite_pos my ey) as Hpy.
    set (vx := (inject_Z (Z.pos mx) * 2 ^ ex)%Q) in *.
    set (vy := (inject_Z (Z.pos my) * 2 ^ ey)%Q) in *.
    assert (Hnx : (inject_Z (Z.neg mx) * 2 ^ ex == - vx)%Q).
    { change (Z.neg mx) with (- Z.pos mx). rewrite inject_Z_opp. unfold vx. ring. }
    assert (Hny : (inject_Z (Z.neg my) * 2 ^ ey == - vy)%Q).
    { change (Z.neg my) with (- Z.pos my). rewrite inject_Z_opp. unfold vy. ring. }
    destruct sx, sy; cbn [cond_Zopp].
    + transitivity (CompOpp (match ex ?= ey with
                             | Lt => Lt
                             | Gt => Gt
                             | Eq => Pos.compare_cont Eq mx my
                             end)); [by destruct (ex ?= ey)|].
      rewrite (compare_magnitudes mx my ex ey Hvx Hvy).
      fold vx vy. rewrite Hnx, Hny. symmetry. apply Qcompare_opp.
    + symmetry. apply Qcompare_Lt. rewrite Hnx. fold vy. lra.
    + symmetry. apply Qcompare_Gt. rewrite Hny. fold vx. lra.
    + apply compare_magnitudes; done.
Qed.



Lemma fmul_Q (x y : float) (a b : Q) :
  fval x = Some a -> fval y = Some b -> (- (16) < a * b < 16)%Q ->
  exists c, fval (x * y)%float = Some c /\ (a * b - ulp16 <= c <= a * b + ulp16)%Q.
Proof.
  unfold fval. intros Hx Hy Hlt. rewrite mul_spec.
  destruct (SFmul_Q _ _ a b 4 Hx Hy) as (c & Hc & Hb); [|lia|].
  { change (2 ^ 4)%Q with 16%Q. exact Hlt. }
  exists c. split; [exact Hc|]. change (2 ^ (4 - 54))%Q with ulp16 in Hb. exact Hb.
Qed.

Lemma fadd_Q (x y : float) (a b : Q) :
  fval x = Some a -> fval y = Some b -> (- (16) < a + b < 16)%Q ->
  exists c, fval (x + y)%float = Some c /\ (a + b - ulp16 <= c <= a + b + ulp16)%Q.
Proof.
  unfold fval. intros Hx Hy Hlt. rewrite add_spec.
  destruct (SFadd_Q _ _ a b 4 Hx Hy) as (c & Hc & Hb); [|lia|].
  { change (2 ^ 4)%Q with 16%Q. exact Hlt. }
  exists c. split; [exact Hc|]. change (2 ^ (4 - 54))%Q with ulp16 in Hb. exact Hb.
Qed.

Lemma fltb_Q (x y : float) (a b : Q) :
  fval x = Some a -> fval y = Some b ->
  PrimFloat.ltb x y = match (a ?= b)%Q with Lt => true | _ => false end.
Proof.
  unfold fval. intros Hx Hy. rewrite ltb_spec. unfold SFltb.
  by rewrite (SFcompare_Q _ _ a b (Prim2SF_valid x) (Prim2SF_valid y) Hx Hy).
Qed.

Lemma fltb_lt (x y : float) (a b : Q) :
  fval x = Some a -> fval y = Some b -> (a < b)%Q -> PrimFloat.ltb x y = true.
Proof. intros Hx Hy Hlt. rewrite (fltb_Q x y a b Hx Hy). by rewrite (Qcompare_Lt a b Hlt). Qed.

Lemma fltb_ge (x y : float) (a b : Q) :
  fval x = Some a -> fval y = Some b -> (b <= a)%Q -> PrimFloat.ltb x y = false.
Proof.
  intros Hx Hy Hle. rewrite (fltb_Q x y a b Hx Hy).
  destruct (Qcompare_spec a b) as [H|H|H]; [done| |done]. lra.
Qed.

(** [-Infinity] is below every double that has a value. *)
Lemma fltb_ninf (y : float) (b : Q) :
  fval y = Some b -> PrimFloat.ltb (- infinity)%float y = true.
Proof.
  unfold fval. intros Hy. rewrite ltb_spec, opp_spec.
  change (Prim2SF infinity) with (S754_infinity false).
  by destruct (Prim2SF y).
Qed.

(** A random number of the unit interval. *)
Lemma funit (r : float) :
  PrimFloat.leb 0 r = true -> PrimFloat.ltb r 1 = true -> within r 0 1.
Proof.
  intros Hle Hlt. rewrite leb_spec in Hle. unfold within.
  assert (H1 : fval 1%float = Some (inject_Z 4503599627370496 * 2 ^ (-52))%Q) by reflexivity.
  change (Prim2SF 0) with (S754_zero false) in Hle.
  destruct (Prim2SF r) as [s|s| |s m e] eqn:Hr.
  - exists 0%Q. unfold fval. rewrite Hr. split; [done|lra].
  - exfalso. rewrite ltb_spec, Hr in Hlt. by destruct s.
  - done.
  - assert (Hv : fval r = Some (inject_Z (cond_Zopp s (Z.pos m)) * 2 ^ e)%Q)
      by (unfold fval; by rewrite Hr).
    destruct s; [done|]. cbn [cond_Zopp] in Hv.
    eexists. split; [exact Hv|].
    pose proof (finite_pos m e) as Hpos.
    rewrite (fltb_Q r 1 _ _ Hv H1) in Hlt.
    destruct (Qcompare_spec (inject_Z (Z.pos m) * 2 ^ e)
                            (inject_Z 4503599627370496 * 2 ^ (-52))) as [H|H|H]; try done.
    assert (Hone : (inject_Z 4503599627370496 * 2 ^ (-52) == 1)%Q) by reflexivity.
    rewrite Hone in H. split; lra.
Qed.

(** ** The greedy policy, in binary64 *)

Lemma within_weaken (x : float) (lo hi lo' hi' : Q) :
  within x lo hi -> (lo' <= lo)%Q -> (hi <= hi')%Q -> within x lo' hi'.
Proof. intros (a & Ha & Hb) Hlo Hhi. exists a. split; [done|]. lra. Qed.

Lemma within_add (x y : float) (l1 h1 l2 h2 : Q) :
  within x l1 h1 -> within y l2 h2 ->
  (- (16) < l1 + l2)%Q -> (h1 + h2 < 16)%Q ->
  within (x + y)%float (l1 + l2 - ulp16) (h1 + h2 + ulp16).
Proof.
  intros (a & Ha & Hab) (c & Hc & Hcb) Hlo Hhi.
  destruct (fadd_Q x y a c Ha Hc) as (s & Hs & Hsb); [lra|].
  exists s. split; [done|]. lra.
Qed.

(** The jitter: a number of the unit interval times a small constant. *)
Lemma within_jitter (r c : float) (hc : Q) :
  within r 0 1 -> within c 0 hc -> (hc < 16)%Q ->
  within (r * c)%float (- ulp16) (hc + ulp16).
Proof.
  intros (a & Ha & Hab) (q & Hq & Hqb) Hhc.
  assert (H0 : (0 <= a * q)%Q) by (apply Qmult_le_0_compat; lra).
  assert (H1 : (a * q <= 1 * q)%Q) by (apply Qmult_le_compat_r; lra).
  destruct (fmul_Q r c a q Ha Hq) as (s & Hs & Hsb); [lra|].
  exists s. split; [done|]. lra.
Qed.

Lemma within_const (x : float) (q lo hi : Q) :
  fval x = Some q -> Qle_bool lo q = true -> Qle_bool q hi = true -> within x lo hi.
Proof.
  intros Hx Hlo%Qle_bool_iff Hhi%Qle_bool_iff. exists q. done.
Qed.

Ltac within_eval := eapply within_const; vm_compute; reflexivity.

Lemma jitter_scale : within (dec (R := float) 2 10) 0 (2000001 # 10000000).
Proof. within_eval. Qed.

Lemma six_within : within (ofZ (R := float) 6) 6 6.
Proof. within_eval. Qed.

Lemma three_within : within (ofZ (R := float) 3) 3 3.
Proof. within_eval. Qed.

Lemma four_within : within (ofZ (R := float) 4) 4 4.
Proof. within_eval. Qed.

(** The advancement term [advance * 0.55], for rows of the board. *)
Lemma advance_term (r1 r2 : Z) :
  0 <= r1 < 8 -> 0 <= r2 < 8 ->
  within (nmul (nsub (ofZ (R := float) r1) (ofZ r2)) (dec 55 100))
         (inject_Z (r1 - r2) * (55 # 100) - (1 # 1000000))
         (inject_Z (r1 - r2) * (55 # 100) + (1 # 1000000)).
Proof.
  intros H1 H2. enum_coord r1; enum_coord r2; within_eval.
Qed.

(** The centre term [(7 - centerDistance) * 0.12], for squares of the
    board; it is smaller on the first and on the last row. *)
Lemma centre_term (row col : Z) :
  isInside row col = true ->
  within (nmul (nsub (ofZ (R := float) 7) (centerDistance row col)) (dec 12 100))
         0 (if (row =? 0) || (row =? 7) then 3600001 # 10000000 else 7200001 # 10000000).
Proof.
  intros Hin%isInside_spec. enum_coord row; enum_coord col; within_eval.
Qed.

Section MediumFloat.
Variable rnd : nat -> float.
Hypothesis rnd_unit :
  forall i, PrimFloat.leb 0 (rnd i) = true /\ PrimFloat.ltb (rnd i) 1 = true.
Variable b : Board.
Hypothesis Hwf : wf_board b.
Variable p : Player.

Lemma jitter_within (k : nat) :
  within (nmul (rnd k) (dec 2 10)) (- ulp16) ((2000001 # 10000000) + ulp16).
Proof.
  destruct (rnd_unit k) as [Hle Hlt].
  apply within_jitter; [by apply funit|exact jitter_scale|reflexivity].
Qed.

Lemma scoreMove_capture_float (m : Move) (k : nat) :
  onBoard m -> isCapture m -> -2 <= advance p m ->
  exists s, scoreMove rnd m b p k = Ok (s, S k) /\ within s (489 # 100) 16.
Proof.
  intros (Hf & Ht & Hc) Hcap Hadv.
  pose proof (jitter_within k) as Hj.
  pose proof (centre_term _ _ Ht) as Hcd.
  unfold scoreMove.
  rewrite (getCell_inside _ _ _ Hwf Hf), bind_Ok.
  unfold isCapture in Hcap. destruct (capture m) as [[cr cc]|]; [|done].
  pose proof (Hc _ eq_refl) as Hc'. cbn [fst snd] in Hc'.
  rewrite (getCell_inside _ _ _ Hwf Hc'), bind_Ok.
  unfold advance in Hadv.
  apply isInside_spec in Hf, Ht.
  pose proof (advance_term (fst (from m)) (fst (to m)) ltac:(lia) ltac:(lia)) as Hal.
  pose proof (advance_term (fst (to m)) (fst (from m)) ltac:(lia) ltac:(lia)) as Had.
  assert (Hcd' : within (nmul (nsub (ofZ 7) (centerDistance (fst (to m)) (snd (to m))))
                              (dec 12 100)) 0 (7200001 # 10000000)).
  { eapply within_weaken; [exact Hcd|lra|].
    destruct ((fst (to m) =? 0) || (fst (to m) =? 7)); lra. }
  clear Hcd.
  destruct (cellAt b cr cc) as [cp|]; [destruct (king cp)|]; rewrite bind_Ok;
    (destruct (cellAt b (fst (from m)) (snd (from m))) as [mp|]; [destruct (king mp)|]);
    cbn [negb]; destruct p; cbn [Player_eqb andb orb]; rewrite ?orb_false_r;
    repeat match goal with
           | |- context [?x =? ?y] => destruct (Z.eqb_spec x y)
           end;
    (eexists; split; [reflexivity|]);
    try (zq (-2) (fst (from m) - fst (to m)));
    try (zq (-2) (fst (to m) - fst (from m)));
    zq (fst (from m) - fst (to m)) 7; zq (fst (to m) - fst (from m)) 7;
    unfold Z.sub in Hal, Had; rewrite ?inject_Z_plus, ?inject_Z_opp in Hal, Had;
    q_consts;
    (eapply within_weaken;
     [repeat first [exact Hj | exact Hcd' | exact Hal | exact Had
                   | exact six_within | exact three_within | exact four_within
                   | eapply within_add]
     |..]); unfold ulp16; lra.
Qed.

Lemma scoreMove_slide_float (m : Move) (k : nat) :
  onBoard m -> isSlide m ->
  exists s, scoreMove rnd m b p k = Ok (s, S k) /\ within s (- (16)) (457 # 100).
Proof.
  intros (Hf & Ht & Hc) Hslide.
  pose proof (jitter_within k) as Hj.
  pose proof (centre_term _ _ Ht) as Hcd.
  unfold scoreMove.
  rewrite (getCell_inside _ _ _ Hwf Hf), bind_Ok.
  unfold isSlide in Hslide. rewrite Hslide, bind_Ok.
  apply isInside_spec in Hf, Ht.
  pose proof (advance_term (fst (from m)) (fst (to m)) ltac:(lia) ltac:(lia)) as Hal.
  pose proof (advance_term (fst (to m)) (fst (from m)) ltac:(lia) ltac:(lia)) as Had.
  assert (Hcd' : within (nmul (nsub (ofZ 7) (centerDistance (fst (to m)) (snd (to m))))
                              (dec 12 100)) 0 (7200001 # 10000000)).
  { eapply within_weaken; [exact Hcd|lra|].
    destruct ((fst (to m) =? 0) || (fst (to m) =? 7)); lra. }
  assert (Hedge : fst (to m) = 0 \/ fst (to m) = 7 ->
                  within (nmul (nsub (ofZ 7) (centerDistance (fst (to m)) (snd (to m))))
                               (dec 12 100)) 0 (3600001 # 10000000)).
  { intros H. eapply within_weaken; [exact Hcd|lra|].
    destruct H as [-> | ->]; apply Qle_bool_iff; reflexivity. }
  clear Hcd.
  (destruct (cellAt b (fst (from m)) (snd (from m))) as [mp|]; [destruct (king mp)|]);
    cbn [negb]; destruct p; cbn [Player_eqb andb orb]; rewrite ?orb_false_r;
    repeat match goal with
           | |- context [?x =? ?y] => destruct (Z.eqb_spec x y)
           end;
    (eexists; split; [reflexivity|]);
    try (pose proof (Hedge ltac:(lia)) as Hce);
    try (zq (fst (from m) - fst (to m)) 6);
    try (zq (fst (to m) - fst (from m)) 6);
    zq (-7) (fst (from m) - fst (to m)); zq (-7) (fst (to m) - fst (from m));
    unfold Z.sub in Hal, Had; rewrite ?inject_Z_plus, ?inject_Z_opp in Hal, Had;
    q_consts; change (inject_Z (-7)) with (-7 # 1)%Q in *;
    (eapply within_weaken;
     [repeat first [exact Hj | exact Hce | exact Hcd' | exact Hal | exact Had
                   | exact four_within | eapply within_add]
     |..]); unfold ulp16; lra.
Qed.

(** Once the best move so far is a capture, it stays one. *)
Lemma bestLoop_keeps_capture_float (rest : list Move) :
  forall (best : Move) (s : float) (k : nat),
    isCapture best -> within s (489 # 100) 16 ->
    Forall onBoard rest ->
    Forall (fun m => isCapture m -> -2 <= advance p m) rest ->
    exists m' k',
      bestLoop rnd rest b p (Some best) s k = Ok (Some m', k')
      /\ isCapture m' /\ (m' = best \/ In m' rest).
Proof.
  induction rest as [|m rest IH]; intros best s k Hbest Hs Hon Hadv.
  - exists best, k. cbn. auto.
  - apply Forall_cons in Hon as [Hm Hon]. apply Forall_cons in Hadv as [Hma Hadv].
    cbn [bestLoop]. destruct (move_capture_or_slide m) as [Hcap|Hslide].
    + destruct (scoreMove_capture_float m k Hm Hcap (Hma Hcap)) as (s' & -> & Hs').
      rewrite bind_Ok.
      destruct (nlt s s').
      * destruct (IH m s' (S k) Hcap Hs' Hon Hadv) as (m' & k' & -> & Hc' & Hin).
        exists m', k'. split; [done|]. split; [done|]. right.
        destruct Hin as [->|Hin]; [by left|by right].
      * destruct (IH best s (S k) Hbest Hs Hon Hadv) as (m' & k' & -> & Hc' & Hin).
        exists m', k'. split; [done|]. split; [done|].
        destruct Hin as [->|Hin]; [by left|right; by right].
    + destruct (scoreMove_slide_float m k Hm Hslide) as (s' & -> & Hs').
      rewrite bind_Ok.
      assert (Hno : nlt s s' = false).
      { destruct Hs as (a & Ha & Hab), Hs' as (c & Hc & Hcb).
        apply (fltb_ge s s' a c Ha Hc). lra. }
      rewrite Hno.
      destruct (IH best s (S k) Hbest Hs Hon Hadv) as (m' & k' & -> & Hc' & Hin).
      exists m', k'. split; [done|]. split; [done|].
      destruct Hin as [->|Hin]; [by left|right; by right].
Qed.

(** Before a capture is met, the best score is that of a slide, or still
    [-Infinity]; the first capture beats it. *)
Lemma bestLoop_finds_capture_float (rest : list Move) :
  forall (best : option Move) (score : float) (k : nat),
    score = nopp infinity \/ within score (- (16)) (457 # 100) ->
    Forall onBoard rest ->
    Forall (fun m => isCapture m -> -2 <= advance p m) rest ->
    Exists isCapture rest ->
    exists m' k',
      bestLoop rnd rest b p best score k = Ok (Some m', k')
      /\ isCapture m' /\ In m' rest.
Proof.
  induction rest as [|m rest IH]; intros best score k Hscore Hon Hadv Hex.
  - by apply Exists_nil in Hex.
  - apply Forall_cons in Hon as [Hm Hon]. apply Forall_cons in Hadv as [Hma Hadv].
    cbn [bestLoop]. destruct (move_capture_or_slide m) as [Hcap|Hslide].
    + destruct (scoreMove_capture_float m k Hm Hcap (Hma Hcap)) as (s' & -> & Hs').
      rewrite bind_Ok.
      assert (Hlt : nlt score s' = true).
      { destruct Hs' as (c & Hc & Hcb).
        destruct Hscore as [->|(a & Ha & Hab)].
        - exact (fltb_ninf s' c Hc).
        - apply (fltb_lt score s' a c Ha Hc). lra. }
      rewrite Hlt.
      destruct (bestLoop_keeps_capture_float rest m s' (S k) Hcap Hs' Hon Hadv)
        as (m' & k' & -> & Hc' & Hin).
      exists m', k'. split; [done|]. split; [done|].
      destruct Hin as [->|Hin]; [by left|by right].
    + apply Exists_cons in Hex as [Hcap|Hex]; [unfold isCapture, isSlide in *; congruence|].
      destruct (scoreMove_slide_float m k Hm Hslide) as (s' & -> & Hs').
      rewrite bind_Ok.
      destruct (nlt score s').
      * destruct (IH (Some m) s' (S k)) as (m' & k' & -> & Hc' & Hin); try done.
        { by right. }
        exists m', k'. split; [done|]. split; [done|]. by right.
      * destruct (IH best score (S k)) as (m' & k' & -> & Hc' & Hin); try done.
        exists m', k'. split; [done|]. split; [done|]. by right.
Qed.

End MediumFloat.

(** C9, as the code has it, in binary64.  On a well-formed board, with a
    random source that returns doubles in [0,1) and a list of moves over
    the board that holds a capture, the greedy policy returns a capture of
    the list, provided no capture of the list takes its piece more than
    two rows backwards (a jump moves two rows). *)
Theorem medium_prefers_capture (rnd : nat -> float) (b : Board) (p : Player)
    (moves : list Move) (k : nat) :
  wf_board b ->
  (forall i, PrimFloat.leb 0 (rnd i) = true /\ PrimFloat.ltb (rnd i) 1 = true) ->
  Forall onBoard moves ->
  Exists isCapture moves ->
  Forall (fun m => isCapture m -> -2 <= advance p m) moves ->
  exists m k',
    chooseMoveBySkill rnd medium moves b p k = Ok (Some m, k')
    /\ In m moves /\ isCapture m.
Proof.
  intros Hwf Hrnd Hon Hex Hadv. unfold chooseMoveBySkill, chooseBestMove.
  destruct moves as [|m0 ms] eqn:Hmoves; [by apply Exists_nil in Hex|].
  cbn [isEmpty]. rewrite <- Hmoves in *.
  destruct (bestLoop_finds_capture_float rnd Hrnd b Hwf p moves (head moves)
              (nopp infinity) k)
    as (m & k' & Hrun & Hcap & Hin); try done.
  { by left. }
  exists m, k'. done.
Qed.


(** The engine's own test: offered the slide first and the jump second,
    the greedy policy returns the jump. *)
Lemma medium_prefers_capture_witness :
  exists k',
    chooseMoveBySkill (fun _ => 0%float) medium [greedySlide; greedyCapture] greedyBoard light 0
    = Ok (Some greedyCapture, k').
Proof.
  destruct (medium_prefers_capture (fun _ => 0%float) greedyBoard light
              [greedySlide; greedyCapture] 0 greedyBoard_wf)
    as (m & k' & Hrun & Hin & Hcap).
  - intros _. split; reflexivity.
  - constructor; [apply onBoard_slide; reflexivity|].
    constructor; [apply onBoard_jump; reflexivity|constructor].
  - right. left. discriminate.
  - constructor; [intros _; vm_compute; discriminate|].
    constructor; [intros _; vm_compute; discriminate|constructor].
  - exists k'. rewrite Hrun. destruct Hin as [<-|[<-|[]]]; [|reflexivity].
    exfalso. by apply Hcap.
Defined.

(** ** Counting ids

    [addOne] is an addition of doubles; it is exact on the integers that
    doubles hold without rounding. *)


Lemma digits_iter_xO (p k : positive) :
  Z.pos (digits2_pos (Pos.iter xO p k)) = Z.pos (digits2_pos p) + Z.pos k.
Proof.
  induction k as [|k IH] using Pos.peano_ind.
  - cbn [Pos.iter digits2_pos]. lia.
  - rewrite Pos.iter_succ. cbn [digits2_pos]. rewrite Pos2Z.inj_succ, IH. lia.
Qed.

(** [shl_align] moves the exponent down to the target, if it is above. *)
Lemma shl_align_exp (p : positive) (e f : Z) :
  snd (shl_align p e f) = Z.min e f
  /\ Z.pos (digits2_pos (fst (shl_align p e f))) + snd (shl_align p e f)
     = Z.pos (digits2_pos p) + e.
Proof.
  unfold shl_align. destruct (f - e) as [|k|k] eqn:Hk; cbn [fst snd]; [lia..|].
  rewrite digits_iter_xO. lia.
Qed.

Lemma inject_Z_eq (a b : Z) : (inject_Z a == inject_Z b)%Q -> a = b.
Proof. unfold Qeq. cbn. lia. Qed.

(** The digits of a mantissa locate the value between two powers of two. *)
Lemma digits_above (p : positive) (ex : Z) :
  (2 ^ (Z.pos (digits2_pos p) + ex - 1) <= inject_Z (Z.pos p) * 2 ^ ex)%Q.
Proof.
  pose proof (digits2_bounds p) as [Hlo _].
  set (d := Z.pos (digits2_pos p)) in *.
  assert (Hd : 0 <= d - 1) by (unfold d; lia).
  apply inject_Z_le in Hlo. rewrite (Q2pow_Z _ Hd) in Hlo.
  replace (d + ex - 1) with (d - 1 + ex) by lia. rewrite Q2pow_add.
  apply Qmult_le_compat_r; [exact Hlo|]. apply Qlt_le_weak, Q2pow_pos.
Qed.

Lemma binary_round_exact (s : bool) (p : positive) (e z : Z) :
  0 < z <= 2 ^ 53 ->
  (inject_Z (Z.pos p) * 2 ^ e == inject_Z z)%Q ->
  exists w, SFval (binary_round prec emax s p e) = Some w /\ (w == sgnQ s (inject_Z z))%Q.
Proof.
  intros Hz Hval. unfold binary_round.
  set (f := fexp prec emax (Z.pos (digits2_pos p) + e)).
  pose proof (shl_align_val p e f) as Hv.
  pose proof (shl_align_exp p e f) as [Hez Hdig].
  destruct (shl_align p e f) as [mz ez]. cbn [fst snd] in Hv, Hez, Hdig.
  rewrite Hval in Hv.
  set (D := Z.pos (digits2_pos p) + e) in *.
  (* where the leading bit of [z] is *)
  assert (HD54 : D <= 54).
  { rewrite <- Hdig. apply digits_below. rewrite Hv.
    apply Qle_lt_trans with (inject_Z (2 ^ 53)); [apply inject_Z_le; lia|].
    by unfold Qlt. }
  assert (HD1 : 1 <= D).
  { destruct (Z_le_gt_dec 1 D) as [|Hgt]; [done|exfalso].
    pose proof (digits2_bounds mz) as [_ Hhi].
    assert (Hlt : (inject_Z (Z.pos mz) * 2 ^ ez < 2 ^ D)%Q).
    { rewrite <- Hdig, Q2pow_add.
      apply Qmult_lt_compat_r; [apply Q2pow_pos|].
      rewrite <- Q2pow_Z by lia. apply inject_Z_lt. exact Hhi. }
    rewrite Hv in Hlt.
    assert (H1 : (2 ^ D <= 2 ^ 0)%Q) by (apply Q2pow_le; lia).
    change (2 ^ 0)%Q with (inject_Z 1) in H1.
    assert (Hz1 : (inject_Z 1 <= inject_Z z)%Q) by (apply inject_Z_le; lia).
    lra. }
  assert (Hlow : 2 ^ (D - 1) <= z).
  { pose proof (digits_above mz ez) as Hlo. rewrite Hdig in Hlo. fold D in Hlo.
    rewrite Hv, <- Q2pow_Z in Hlo by lia. by rewrite Zle_Qle. }
  assert (Hf : f = D - 53) by (unfold f; rewrite fexp_eq; fold D; lia).
  set (N := Z.max (fexp prec emax (Z.pos (digits2_pos mz) + ez) - ez) 0).
  assert (HN : N = f - ez) by (unfold N; rewrite Hdig; fold D f; lia).
  (* the mantissa is a multiple of what is shifted out *)
  assert (Hdiv : Z.pos mz mod 2 ^ N = 0).
  { destruct (Z_le_gt_dec ez 0) as [Hneg|Hpos].
    - assert (Hmz : Z.pos mz = z * 2 ^ (- ez)).
      { apply inject_Z_eq. rewrite inject_Z_mult, Q2pow_Z by lia.
        rewrite <- Hv. rewrite <- Qmult_assoc, <- Q2pow_add.
        replace (ez + - ez) with 0 by lia. change (2 ^ 0)%Q with 1%Q. ring. }
      rewrite Hmz. apply Z.mod_divide; [apply Z.pow_nonzero; lia|].
      destruct (Z.eq_dec D 54) as [HD|HD].
      + assert (z = 2 ^ 53) as -> by (rewrite HD in Hlow; change (54 - 1) with 53 in Hlow; lia).
        rewrite <- Z.pow_add_r by lia.
        exists (2 ^ (53 + - ez - N)). rewrite <- Z.pow_add_r by lia. f_equal. lia.
      + exists (z * 2 ^ (- ez - N)). rewrite <- Z.mul_assoc, <- Z.pow_add_r by lia.
        f_equal. f_equal. lia.
    - replace N with 0 by lia. apply Z.mod_1_r. }
  destruct (binary_round_aux_Z s mz ez) as (m3 & k & Hk & Hm3 & -> & _ & Hexact).
  { fold N. lia. }
  fold N in Hexact. specialize (Hexact Hdiv).
  assert (Hk0 : 0 <= k) by lia. assert (HN0 : 0 <= N) by (unfold N; lia).
  destruct m3 as [|q|q]; [lia| |lia].
  eexists. split; [reflexivity|]. fold N.
  rewrite cond_Zopp_Q.
  assert (Hq : (inject_Z (Z.pos q) * 2 ^ (ez + N + k) == inject_Z z)%Q).
  { rewrite <- Hv, <- Hexact, inject_Z_mult, Q2pow_Z by lia.
    replace (ez + N + k) with (N + k + ez) by lia. rewrite (Q2pow_add (N + k) ez). ring. }
  destruct s; cbn [sgnQ]; [|exact Hq].
  rewrite <- Hq. ring.
Qed.

Lemma binary_normalize_exact (m e z : Z) :
  - 2 ^ 53 <= z <= 2 ^ 53 ->
  (inject_Z m * 2 ^ e == inject_Z z)%Q ->
  exists w, SFval (binary_normalize prec emax m e false) = Some w /\ (w == inject_Z z)%Q.
Proof.
  intros Hz Hval. pose proof (Q2pow_pos e) as HE.
  destruct m as [|p|p]; cbn [binary_normalize].
  - exists 0%Q. split; [done|]. rewrite <- Hval. ring.
  - pose proof (finite_pos p e) as Hpos. rewrite Hval in Hpos.
    assert (0 < z) by (by rewrite Zlt_Qlt).
    destruct (binary_round_exact false p e z) as (w & Hw & Hwz); [lia|done|].
    by exists w.
  - pose proof (finite_pos p e) as Hpos.
    assert (Hneg : (inject_Z (Z.pos p) * 2 ^ e == inject_Z (- z))%Q).
    { rewrite inject_Z_opp, <- Hval. change (Z.neg p) with (- Z.pos p).
      rewrite inject_Z_opp. ring. }
    rewrite Hneg in Hpos.
    assert (0 < - z) by (by rewrite Zlt_Qlt).
    destruct (binary_round_exact true p e (- z)) as (w & Hw & Hwz); [lia|done|].
    exists w. split; [done|]. rewrite Hwz. cbn [sgnQ]. rewrite inject_Z_opp. ring.
Qed.

(** A double whose value is an integer holds that integer. *)
Lemma idOfNumber_val (x : spec_float) (w : Q) (z : Z) :
  SFval x = Some w -> (w == inject_Z z)%Q -> idOfNumber x = z.
Proof.
  destruct x as [s|s| |s m e]; cbn [SFval idOfNumber]; try done.
  - intros [= <-] Hz. apply inject_Z_eq. by rewrite <- Hz.
  - intros [= <-] Hz.
    assert (Habs : (inject_Z (Z.pos m) * 2 ^ e == inject_Z (cond_Zopp s z))%Q).
    { destruct s; cbn [cond_Zopp] in *; [|exact Hz].
      rewrite inject_Z_opp, <- Hz. change (Z.neg m) with (- Z.pos m).
      rewrite inject_Z_opp. ring. }
    assert (Hshift : Z.shiftl (Z.pos m) e = cond_Zopp s z).
    { apply inject_Z_eq. rewrite <- Habs.
      destruct (Z_le_gt_dec 0 e) as [Hpos|Hneg].
      - rewrite Z.shiftl_mul_pow2, inject_Z_mult, Q2pow_Z by lia. reflexivity.
      - assert (Hm : Z.pos m = cond_Zopp s z * 2 ^ (- e)).
        { apply inject_Z_eq. rewrite inject_Z_mult, Q2pow_Z, <- Habs by lia.
          rewrite <- Qmult_assoc, <- Q2pow_add.
          replace (e + - e) with 0 by lia. change (2 ^ 0)%Q with 1%Q. ring. }
        rewrite Z.shiftl_div_pow2 by lia. rewrite Hm at 1.
        rewrite Z.div_mul by (apply Z.pow_nonzero; lia).
        rewrite Hm, inject_Z_mult, Q2pow_Z by lia.
        rewrite <- Qmult_assoc, <- Q2pow_add.
        replace (- e + e) with 0 by lia. change (2 ^ 0)%Q with 1%Q. ring. }
    rewrite Hshift. by destruct s; cbn [cond_Zopp]; lia.
Qed.

(** The sum of two doubles that hold integers, when it is at most [2^53]
    in magnitude, is exact. *)
Lemma SFadd_exact (x y : spec_float) (a b : Q) (z : Z) :
  SFval x = Some a -> SFval y = Some b ->
  (a + b == inject_Z z)%Q -> - 2 ^ 53 <= z <= 2 ^ 53 ->
  exists w, SFval (SFadd prec emax x y) = Some w /\ (w == inject_Z z)%Q.
Proof.
  intros Hx Hy Hsum Hz.
  destruct x as [sx|sx| |sx mx ex], y as [sy|sy| |sy my ey]; try done;
    cbn [SFval] in Hx, Hy; injection Hx as <-; injection Hy as <-; cbn [SFadd].
  - exists 0%Q. split; [by destruct sx, sy|]. rewrite <- Hsum. ring.
  - eexists. split; [reflexivity|]. rewrite <- Hsum. ring.
  - eexists. split; [reflexivity|]. rewrite <- Hsum. ring.
  - set (ez := Z.min ex ey).
    rewrite (shl_align_down mx ex ez), (shl_align_down my ey ez) by (unfold ez; lia).
    apply binary_normalize_exact; [done|]. rewrite <- Hsum.
    assert (Hex : (2 ^ ex == 2 ^ (ex - ez) * 2 ^ ez)%Q)
      by (rewrite <- Q2pow_add; by replace (ex - ez + ez) with ex by lia).
    assert (Hey : (2 ^ ey == 2 ^ (ey - ez) * 2 ^ ez)%Q)
      by (rewrite <- Q2pow_add; by replace (ey - ez + ez) with ey by lia).
    rewrite Hex, Hey.
    destruct sx, sy; cbn [cond_Zopp];
      rewrite inject_Z_plus, ?inject_Z_opp, !inject_Z_mult;
      rewrite !Q2pow_Z by (unfold ez; lia); ring.
Qed.

Lemma numberOfId_val (n : Z) :
  - 2 ^ 53 <= n <= 2 ^ 53 ->
  exists w, SFval (numberOfId n) = Some w /\ (w == inject_Z n)%Q.
Proof.
  intros Hn. apply binary_normalize_exact; [done|]. change (2 ^ 0)%Q with 1%Q. ring.
Qed.

(** Counting ids up is exact as far as [2^53]. *)
Lemma addOne_exact (n : Z) : - 2 ^ 53 <= n < 2 ^ 53 -> addOne n = n + 1.
Proof.
  intros Hn. unfold addOne.
  destruct (numberOfId_val n) as (a & Ha & Han); [lia|].
  destruct (numberOfId_val 1) as (b & Hb & Hbn); [lia|].
  destruct (SFadd_exact _ _ a b (n + 1) Ha Hb) as (w & Hw & Hwz); [|lia|].
  { rewrite Han, Hbn, inject_Z_plus. reflexivity. }
  exact (idOfNumber_val _ w (n + 1) Hw Hwz).
Qed.

Lemma areCaptureCoordsEqual_eq (l r : option (Z * Z)) :
  areCaptureCoordsEqual l r = true <-> l = r.
Proof.
  destruct l as [[a b]|], r as [[c d]|]; cbn [areCaptureCoordsEqual fst snd]; try done.
  rewrite andb_true_iff, !Z.eqb_eq. split; [by intros [-> ->]|by intros [= -> ->]].
Qed.

Lemma isSameMove_true (left right : Move) : isSameMove left right = true -> left = right.
Proof.
  destruct left as [i [fr fc] [tr tc] cap], right as [i' [fr' fc'] [tr' tc'] cap'].
  unfold isSameMove. cbn [pieceId from to capture fst snd].
  rewrite !andb_true_iff, !Z.eqb_eq, areCaptureCoordsEqual_eq.
  by intros [[[[[-> ->] ->] ->] ->] ->].
Qed.

Lemma isSameMove_refl (m : Move) : isSameMove m m = true.
Proof.
  unfold isSameMove. rewrite !Z.eqb_refl. cbn [andb]. by apply areCaptureCoordsEqual_eq.
Qed.

Lemma find_isSameMove_In (move : Move) (moves : list Move) :
  In move moves -> find (fun candidate => isSameMove candidate move) moves = Some move.
Proof.
  induction moves as [|m ms IH]; [done|]. cbn [find].
  destruct (isSameMove m move) eqn:Hsame; [by apply isSameMove_true in Hsame as ->|].
  intros [->|Hin]; [by rewrite isSameMove_refl in Hsame|by apply IH].
Qed.

Lemma find_isSameMove_None (move : Move) (moves : list Move) :
  ~ In move moves -> find (fun candidate => isSameMove candidate move) moves = None.
Proof.
  induction moves as [|m ms IH]; [done|]. cbn [find]. intros Hnot.
  destruct (isSameMove m move) eqn:Hsame.
  - apply isSameMove_true in Hsame as ->. exfalso. apply Hnot. by left.
  - apply IH. intros Hin. apply Hnot. by right.
Qed.

(** X13. [isSameMove] is equality of moves: it holds exactly when the two
    moves have the same piece id, the same squares and the same captured
    square, or both no captured square. *)
Theorem isSameMove_eq (left right : Move) :
  isSameMove left right = true <-> left = right.
Proof.
  destruct left as [i [fr fc] [tr tc] cap], right as [i' [fr' fc'] [tr' tc'] cap'].
  unfold isSameMove. cbn [pieceId from to capture fst snd].
  rewrite !andb_true_iff, !Z.eqb_eq, areCaptureCoordsEqual_eq.
  split.
  - by intros [[[[[-> ->] ->] ->] ->] ->].
  - by intros [= -> -> -> -> -> ->].
Qed.

(** *** The starting position *)

Lemma cellAt_outside (b : Board) (row col : Z) :
  wf_board b -> isInside row col = false -> cellAt b row col = None.
Proof.
  intros [Hlen HF] Hout. unfold cellAt, index.
  destruct (Z.leb_spec 0 row); [|done].
  destruct (b !! Z.to_nat row) as [cells|] eqn:Hrow; [|done].
  pose proof (lookup_lt_Some _ _ _ Hrow) as Hlt.
  pose proof (Forall_lookup_1 _ _ _ _ HF Hrow) as Hc. cbn in Hc.
  destruct (Z.leb_spec 0 col); [|done].
  destruct (cells !! Z.to_nat col) as [cell|] eqn:Hcol; [|done].
  pose proof (lookup_lt_Some _ _ _ Hcol) as Hlt'.
  assert (isInside row col = true) by (apply isInside_spec; lia). congruence.
Qed.

Lemma cellAt_Some_inside (b : Board) (row col : Z) (pc : Piece) :
  wf_board b -> cellAt b row col = Some pc -> isInside row col = true.
Proof.
  intros Hwf Hcell. destruct (isInside row col) eqn:Hin; [done|].
  rewrite (cellAt_outside b row col Hwf Hin) in Hcell. done.
Qed.

Lemma initialCell_inv (startId row col : Z) (pc : Piece) :
  initialCell startId row col = Some pc ->
  isInside row col = true /\ isDarkSquare row col = true
  /\ king pc = false
  /\ ((row < 3 /\ player pc = dark /\ id pc = startId + 4 * row + col / 2)
      \/ (5 <= row /\ player pc = light /\ id pc = startId + 4 * (row - 2) + col / 2)).
Proof.
  unfold initialCell.
  destruct (isInside row col) eqn:Hin; [|done].
  destruct (isDarkSquare row col) eqn:Hdark; [|done]. cbn [andb].
  destruct (Z.ltb_spec row 3).
  - intros [= <-]. cbn. intuition lia.
  - destruct (Z.leb_spec 5 row); [|done]. intros [= <-]. cbn. intuition lia.
Qed.

Lemma initialCell_unique (startId row col row' col' : Z) (pc pc' : Piece) :
  initialCell startId row col = Some pc -> initialCell startId row' col' = Some pc' ->
  id pc = id pc' -> (row, col) = (row', col').
Proof.
  intros (Hin & Hd & _ & H)%initialCell_inv (Hin' & Hd' & _ & H')%initialCell_inv Hid.
  apply isInside_spec in Hin, Hin'.
  unfold isDarkSquare in Hd, Hd'. apply Z.eqb_eq in Hd, Hd'.
  assert (row = row' /\ col = col') as [-> ->]; [|done].
  Z.to_euclidean_division_equations. lia.
Qed.

Lemma man_eq (i j : Z) (p : Player) (k : bool) :
  i = j ->
  Some {| id := i; player := p; king := k |} = Some {| id := j; player := p; king := k |}.
Proof. by intros ->. Qed.

(* Replace the innermost [addOne n] by [n + 1], as long as [n] is in the
   range where the count is exact. *)
Ltac count_up :=
  repeat match goal with
         | |- context [addOne ?n] =>
             lazymatch n with
             | context [addOne _] => fail
             | _ => rewrite (addOne_exact n) by lia
             end
         end.

(* One square of the board that [createInitialBoard] has returned,
   against [initialCell]. *)
Ltac initial_square :=
  match goal with
  | |- cellAt _ ?r ?c = initialCell _ _ _ =>
      unfold initialCell;
      let v := eval vm_compute in (isInside r c && isDarkSquare r c) in
      change (isInside r c && isDarkSquare r c) with v;
      let v2 := eval vm_compute in (r <? 3) in change (r <? 3) with v2;
      let v3 := eval vm_compute in (5 <=? r) in change (5 <=? r) with v3;
      let a := eval vm_compute in (4 * r) in change (4 * r) with a;
      let a' := eval vm_compute in (4 * (r - 2)) in change (4 * (r - 2)) with a';
      let d := eval vm_compute in (c / 2) in change (c / 2) with d;
      cbv -[Z.add]; first [reflexivity | apply man_eq; lia]
  end.

(** The run of [createInitialBoard] while the ids count up exactly. *)
Lemma createInitialBoard_run (startId : Z) :
  - 2 ^ 53 <= startId <= 2 ^ 53 - 24 ->
  exists b,
    createInitialBoard startId = Ok (b, startId + 24)
    /\ wf_board b
    /\ (forall row col, isInside row col = true ->
                        cellAt b row col = initialCell startId row col)
    /\ countPieces b dark = 12%nat /\ countPieces b light = 12%nat.
Proof.
  intros Hs. change (2 ^ 53) with 9007199254740992 in *.
  eassert (Hrun : createInitialBoard startId = Ok (?[b], ?[n])).
  { cbv -[addOne]. count_up. reflexivity. }
  eexists. split; [rewrite Hrun; apply f_equal, f_equal; lia|].
  split; [split; [reflexivity|repeat constructor]|].
  split; [|split; reflexivity].
  intros row col Hin%isInside_spec.
  enum_coord row; enum_coord col; initial_square.
Qed.

(** Where the count is no longer exact, the ids no longer differ: from
    [2^53] every piece gets the id [2^53], and that is the next id too. *)
Lemma createInitialBoard_saturated :
  exists b,
    createInitialBoard (2 ^ 53) = Ok (b, 2 ^ 53)
    /\ forallb (fun sq => match cellAt b (fst sq) (snd sq) with
                          | Some pc => id pc =? 2 ^ 53
                          | None => true
                          end) squares = true.
Proof. eexists. split; vm_compute; reflexivity. Qed.

(** X1. The starting position, for a first id from which 24 ids can be
    counted exactly (the ids are doubles: up to [2^53]).
    [createInitialBoard] returns an 8x8 board and the first id plus 24.
    Dark men stand on the dark squares of rows 0 to 2 and light men on
    those of rows 5 to 7; the other squares are empty.  The ids count up
    from the first id along the rows, four to a row, so no two pieces have
    the same id; each colour has twelve pieces. *)
Theorem createInitialBoard_layout (startId : Z) :
  - 2 ^ 53 <= startId <= 2 ^ 53 - 24 ->
  exists b,
    createInitialBoard startId = Ok (b, startId + 24)
    /\ wf_board b
    /\ (forall row col, cellAt b row col = initialCell startId row col)
    /\ uniqueIds b
    /\ onDarkSquares b
    /\ countPieces b dark = 12%nat /\ countPieces b light = 12%nat.
Proof.
  intros Hs.
  destruct (createInitialBoard_run startId Hs) as (b & Hrun & Hwf & Hcells & Hdark & Hlight).
  exists b.
  assert (Hlayout : forall row col, cellAt b row col = initialCell startId row col).
  { intros row col. destruct (isInside row col) eqn:Hin; [by apply Hcells|].
    rewrite (cellAt_outside b row col Hwf Hin). unfold initialCell. by rewrite Hin. }
  split; [done|]. split; [done|]. split; [done|].
  split.
  { intros row col row' col' pc pc'. rewrite !Hlayout. apply initialCell_unique. }
  split; [|done].
  intros row col pc. rewrite Hlayout. intros H%initialCell_inv. tauto.
Qed.

Lemma createInitialBoard_layout_witness :
  exists b,
    createInitialBoard 1 = Ok (b, 25)
    /\ wf_board b
    /\ cellAt b 0 1 = Some (man 1 dark) /\ cellAt b 7 6 = Some (man 24 light)
    /\ countPieces b dark = 12%nat /\ countPieces b light = 12%nat.
Proof.
  destruct (createInitialBoard_layout 1) as (b & Hrun & Hwf & Hcells & _ & _ & Hd & Hl).
  - split; vm_compute; discriminate.
  - exists b. split; [exact Hrun|]. split; [exact Hwf|].
    split; [rewrite Hcells; reflexivity|]. split; [rewrite Hcells; reflexivity|].
    split; [exact Hd|exact Hl].
Defined.

(** *** Generated moves are moves of checkers *)

Lemma getDirections_step (pc : Piece) (d : Z * Z) :
  In d (getDirections pc) -> diagonalStep pc (fst d) (snd d).
Proof.
  unfold getDirections, diagonalStep, forward.
  destruct (king pc); [|destruct (player pc)]; cbn;
    intros H; repeat (destruct H as [<-|H]; [cbn; intuition (lia || congruence)|]); done.
Qed.

Lemma Forall_flat_map_intro {A B : Type} (P : B -> Prop) (f : A -> list B) (xs : list A) :
  (forall x, In x xs -> Forall P (f x)) -> Forall P (flat_map f xs).
Proof.
  intros H. induction xs as [|x xs IH]; [constructor|].
  cbn [flat_map]. apply Forall_app. split; [apply H; by left|].
  apply IH. intros y Hy. apply H. by right.
Qed.

Lemma captureCandidates_valid (b : Board) (row col : Z) (pc : Piece) :
  isInside row col = true -> cellAt b row col = Some pc ->
  Forall (fun m => validMove b pc m /\ isCapture m) (captureCandidates b row col pc).
Proof.
  intros Hin Hcell. apply Forall_flat_map_intro. intros [dr dc] Hd%getDirections_step.
  unfold captureCandidate. cbn [fst snd] in *.
  destruct (cellAt b (row + dr) (col + dc)) as [other|] eqn:Hadj; [|constructor].
  case_decide as Hc; [|constructor]. destruct Hc as (Hne & Hmid & Hland & Hempty).
  constructor; [|constructor]. split; [|done].
  unfold validMove, onBoard. cbn [from to capture pieceId fst snd].
  repeat split; try done.
  - by intros sq [= <-].
  - exists dr, dc. split; [done|]. split; [done|].
    split; [f_equal; lia|]. by exists other.
Qed.

Lemma slideCandidates_valid (b : Board) (row col : Z) (pc : Piece) :
  isInside row col = true -> cellAt b row col = Some pc ->
  Forall (fun m => validMove b pc m /\ isSlide m) (slideCandidates b row col pc).
Proof.
  intros Hin Hcell. apply Forall_flat_map_intro. intros [dr dc] Hd%getDirections_step.
  unfold slideCandidate. cbn [fst snd] in *.
  case_decide as Hc; [|constructor]. destruct Hc as (Hland & Hempty).
  constructor; [|constructor]. split; [|done].
  unfold validMove, onBoard. cbn [from to capture pieceId fst snd].
  repeat split; try done.
  exists dr, dc. by split.
Qed.

Lemma allCaptureCandidates_valid (b : Board) (p : Player) :
  Forall (fun m => exists pc, player pc = p /\ validMove b pc m /\ isCapture m)
         (allCaptureCandidates b p).
Proof.
  apply Forall_flat_map_intro. intros [[row col] pc] (Hin & Hcell & Hp)%In_playerPieces.
  eapply Forall_impl; [by apply captureCandidates_valid|].
  intros m [Hv Hc]. by exists pc.
Qed.

Lemma allSlideCandidates_valid (b : Board) (p : Player) :
  Forall (fun m => exists pc, player pc = p /\ validMove b pc m /\ isSlide m)
         (allSlideCandidates b p).
Proof.
  apply Forall_flat_map_intro. intros [[row col] pc] (Hin & Hcell & Hp)%In_playerPieces.
  eapply Forall_impl; [by apply slideCandidates_valid|].
  intros m [Hv Hc]. by exists pc.
Qed.

Lemma getLegalMoves_valid_moves (b : Board) (p : Player) (moves : list Move) :
  wf_board b -> getLegalMoves b p None = Ok moves ->
  Forall (fun m => exists pc, player pc = p /\ validMove b pc m) moves.
Proof.
  intros Hwf. rewrite (getLegalMoves_scan b p Hwf). intros [= <-].
  destruct (isEmpty (allCaptureCandidates b p)).
  - eapply Forall_impl; [apply allSlideCandidates_valid|]. intros m (pc & ? & ? & _). by exists pc.
  - eapply Forall_impl; [apply allCaptureCandidates_valid|]. intros m (pc & ? & ? & _). by exists pc.
Qed.

(** *** The board after a move of checkers *)

Lemma cellAt_put2 (b : Board) (row0 col0 : Z) (v : Cell) (row col : Z) :
  wf_board b -> isInside row0 col0 = true ->
  cellAt (put2 b (Z.to_nat row0) (Z.to_nat col0) v) row col
  = if decide ((row, col) = (row0, col0)) then v else cellAt b row col.
Proof.
  intros Hwf Hin. destruct (setCell_spec b row0 col0 v Hwf Hin) as (b' & Hset & _ & Hat & Hother).
  rewrite (setCell_put2 b row0 col0 v Hwf Hin) in Hset. injection Hset as <-.
  case_decide as Heq; [by injection Heq as -> ->|by apply Hother].
Qed.

(** The piece that stands on the destination after the move. *)
Lemma promotes_piece (pc : Piece) (m : Move) :
  (if promotes pc m then crown pc else pc)
  = {| id := id pc; player := player pc;
       king := king pc || reachesFarRank pc (fst (to m)) |}.
Proof.
  unfold promotes, crown. destruct pc as [i q k]. cbn [id player king].
  by destruct k, (reachesFarRank _ _).
Qed.

Lemma validMove_squares (b : Board) (pc : Piece) (m : Move) :
  validMove b pc m ->
  from m <> to m
  /\ capture m <> Some (to m) /\ capture m <> Some (from m)
  /\ capturesDestination m = false.
Proof.
  intros (Hcell & _ & _ & Hempty & dr & dc & (Hdr & Hdc & _) & Hshape).
  destruct m as [i [fr fc] [tr tc] [[cr cc]|]];
    cbn [from to capture fst snd] in *; unfold capturesDestination; cbn [capture to fst snd].
  - destruct Hshape as ([= -> ->] & [= -> ->] & _).
    repeat split; try (intros [= ? ?]; lia).
    apply andb_false_iff. left. apply Z.eqb_neq. lia.
  - injection Hshape as -> ->. repeat split; try done. intros [= ? ?]. lia.
Qed.

Lemma movedBoard_cells (b : Board) (pc : Piece) (m : Move) (row col : Z) :
  wf_board b -> validMove b pc m ->
  cellAt (movedBoard b m pc) row col
  = if decide ((row, col) = to m)
    then Some {| id := id pc; player := player pc;
                 king := king pc || reachesFarRank pc (fst (to m)) |}
    else if decide ((row, col) = from m) then None
    else if decide (capture m = Some (row, col)) then None
    else cellAt b row col.
Proof.
  intros Hwf Hv. pose proof (validMove_squares b pc m Hv) as (Hft & Hct & Hcf & Hcd).
  destruct Hv as (Hcell & _ & (Hfrom & Hto & Hcap) & Hempty & _).
  rewrite <- promotes_piece.
  pose proof (carriedBoard_wf b m pc Hwf) as Hwf2.
  pose proof (capturedBoard_wf b m pc Hwf) as Hwf3.
  assert (Hcarried : forall r c,
             cellAt (carriedBoard b m pc) r c
             = if decide ((r, c) = to m) then Some pc
               else if decide ((r, c) = from m) then None else cellAt b r c).
  { intros r c. unfold carriedBoard.
    rewrite cellAt_put2; [|by apply wf_board_put2|done].
    rewrite <- (surjective_pairing (to m)).
    case_decide; [done|]. rewrite cellAt_put2; [|done..].
    by rewrite <- (surjective_pairing (from m)). }
  assert (Hcaptured : forall r c,
             cellAt (capturedBoard b m pc) r c
             = if decide ((r, c) = to m) then Some pc
               else if decide ((r, c) = from m) then None
               else if decide (capture m = Some (r, c)) then None
               else cellAt b r c).
  { intros r c. unfold capturedBoard in *.
    destruct (capture m) as [[cr cc]|] eqn:Hc.
    - rewrite cellAt_put2; [|done|by apply (Hcap _ eq_refl)].
      rewrite Hcarried. repeat case_decide; try done; try congruence.
    - rewrite Hcarried. repeat case_decide; simplify_eq; done. }
  unfold movedBoard. rewrite Hcd. rewrite andb_true_r.
  destruct (promotes pc m) eqn:Hp.
  - rewrite cellAt_put2; [|done..]. rewrite <- (surjective_pairing (to m)).
    case_decide; [done|]. rewrite Hcaptured. by rewrite decide_False.
  - by rewrite Hcaptured.
Qed.

Lemma moveOutcome_board (b : Board) (m : Move) (p : Player) (pc : Piece) :
  board (moveOutcome b m p pc) = movedBoard b m pc
  /\ capturedPieceId (moveOutcome b m p pc) = capturedPiece b m pc
  /\ promoted (moveOutcome b m p pc) = promotes pc m.
Proof. unfold moveOutcome. by destruct (_ && _). Qed.

Lemma capturedPiece_valid (b : Board) (pc : Piece) (m : Move) :
  wf_board b -> validMove b pc m ->
  capturedPiece b m pc
  = match capture m with
    | Some sq => option_map id (cellAt b (fst sq) (snd sq))
    | None => None
    end.
Proof.
  intros Hwf Hv. pose proof (validMove_squares b pc m Hv) as (Hft & Hct & Hcf & Hcd).
  destruct Hv as (Hcell & _ & (Hfrom & Hto & Hcap) & Hempty & _).
  unfold capturedPiece, carriedBoard. destruct (capture m) as [[cr cc]|]; [|done].
  rewrite cellAt_put2; [|by apply wf_board_put2|done].
  rewrite <- (surjective_pairing (to m)). rewrite decide_False by congruence.
  rewrite cellAt_put2; [|done..].
  rewrite <- (surjective_pairing (from m)). by rewrite decide_False by congruence.
Qed.

(** X7. The board after a move of checkers: the piece stands on the
    destination, crowned if it is a man that has reached the far rank of
    its colour; the square it left and the captured square are empty;
    every other square is as before.  The id reported as captured is that
    of the piece that stood on the captured square. *)
Theorem applyMove_board (b : Board) (m : Move) (p : Player) (pc : Piece) :
  wf_board b -> validMove b pc m ->
  exists r,
    applyMove b m p = Ok r
    /\ wf_board (board r)
    /\ (forall row col,
           cellAt (board r) row col
           = if decide ((row, col) = to m)
             then Some {| id := id pc; player := player pc;
                          king := king pc || reachesFarRank pc (fst (to m)) |}
             else if decide ((row, col) = from m) then None
             else if decide (capture m = Some (row, col)) then None
             else cellAt b row col)
    /\ capturedPieceId r
       = match capture m with
         | Some sq => option_map id (cellAt b (fst sq) (snd sq))
         | None => None
         end
    /\ promoted r = negb (king pc) && reachesFarRank pc (fst (to m)).
Proof.
  intros Hwf Hv. exists (moveOutcome b m p pc).
  destruct (moveOutcome_board b m p pc) as (-> & -> & ->).
  split; [apply applyMove_value; [done|apply Hv..]|].
  split; [by apply movedBoard_wf|].
  split; [intros row col; by apply movedBoard_cells|].
  split; [by apply capturedPiece_valid|done].
Qed.

(** *** What a move keeps *)

Lemma validMove_dark (b : Board) (pc : Piece) (m : Move) :
  validMove b pc m ->
  isDarkSquare (fst (to m)) (snd (to m)) = isDarkSquare (fst (from m)) (snd (from m)).
Proof.
  intros (_ & _ & (Hfrom & Hto & _) & _ & dr & dc & (Hdr & Hdc & _) & Hshape).
  apply isInside_spec in Hfrom, Hto. unfold isDarkSquare.
  destruct (capture m) as [sq|].
  - destruct Hshape as (_ & Heq & _). rewrite Heq in *. cbn [fst snd] in *.
    f_equal. Z.to_euclidean_division_equations. lia.
  - rewrite Hshape in *. cbn [fst snd] in *.
    assert (Z.rem (fst (from m) + dr + (snd (from m) + dc)) 2
            = Z.rem (fst (from m) + snd (from m)) 2) as ->; [|done].
    Z.to_euclidean_division_equations. lia.
Qed.

Lemma movedBoard_pieces (b : Board) (pc : Piece) (m : Move) (row col : Z) (x : Piece) :
  wf_board b -> validMove b pc m ->
  cellAt (movedBoard b m pc) row col = Some x ->
  ((row, col) = to m /\ id x = id pc /\ player x = player pc)
  \/ ((row, col) <> to m /\ (row, col) <> from m /\ cellAt b row col = Some x).
Proof.
  intros Hwf Hv. rewrite (movedBoard_cells b pc m row col Hwf Hv).
  repeat case_decide; try done.
  - intros [= <-]. left. done.
  - intros Hx. right. done.
Qed.

Lemma movedBoard_invariants (b : Board) (pc : Piece) (m : Move) :
  wf_board b -> validMove b pc m ->
  (uniqueIds b -> uniqueIds (movedBoard b m pc))
  /\ (nonzeroIds b -> nonzeroIds (movedBoard b m pc))
  /\ (onDarkSquares b -> onDarkSquares (movedBoard b m pc)).
Proof.
  intros Hwf Hv. pose proof Hv as (Hcell & _).
  split; [|split].
  - intros Hu row col row' col' x x' Hx Hx' Hid.
    destruct (movedBoard_pieces b pc m row col x Hwf Hv Hx) as [(Ht & Hi & _)|(Hnt & Hnf & Hb)],
      (movedBoard_pieces b pc m row' col' x' Hwf Hv Hx') as [(Ht' & Hi' & _)|(Hnt' & Hnf' & Hb')].
    + congruence.
    + exfalso. apply Hnf'. rewrite (surjective_pairing (from m)).
      apply (Hu _ _ _ _ _ _ Hb' Hcell). congruence.
    + exfalso. apply Hnf. rewrite (surjective_pairing (from m)).
      apply (Hu _ _ _ _ _ _ Hb Hcell). congruence.
    + by apply (Hu _ _ _ _ _ _ Hb Hb').
  - intros Hn row col x Hx.
    destruct (movedBoard_pieces b pc m row col x Hwf Hv Hx) as [(Ht & Hi & _)|(Hnt & Hnf & Hb)].
    + rewrite Hi. by apply (Hn _ _ _ Hcell).
    + by apply (Hn _ _ _ Hb).
  - intros Hd row col x Hx.
    destruct (movedBoard_pieces b pc m row col x Hwf Hv Hx) as [(Ht & Hi & _)|(Hnt & Hnf & Hb)].
    + pose proof (validMove_dark b pc m Hv) as Hdark. rewrite <- Ht in Hdark. cbn [fst snd] in Hdark.
      rewrite Hdark. by apply (Hd _ _ _ Hcell).
    + by apply (Hd _ _ _ Hb).
Qed.

(** X9. A move of checkers keeps what the starting position has: an 8x8
    board, no two pieces with one id, no piece with the id 0, and every
    piece on a dark square. *)
Theorem applyMove_keeps_invariants (b : Board) (m : Move) (p : Player) (pc : Piece) :
  wf_board b -> validMove b pc m ->
  exists r,
    applyMove b m p = Ok r
    /\ wf_board (board r)
    /\ (uniqueIds b -> uniqueIds (board r))
    /\ (nonzeroIds b -> nonzeroIds (board r))
    /\ (onDarkSquares b -> onDarkSquares (board r)).
Proof.
  intros Hwf Hv. exists (moveOutcome b m p pc).
  destruct (moveOutcome_board b m p pc) as (-> & _ & _).
  split; [apply applyMove_value; [done|apply Hv..]|].
  split; [by apply movedBoard_wf|]. by apply movedBoard_invariants.
Qed.

(** *** Counting pieces *)

Lemma list_sum_update {A : Type} `{EqDecision A} (f : A -> nat) (x : A) (a : nat)
    (xs : list A) :
  NoDup xs -> In x xs ->
  (list_sum (map (fun y => if decide (y = x) then a else f y) xs) + f x
   = list_sum (map f xs) + a)%nat.
Proof.
  induction xs as [|y ys IH]; intros Hnd Hin; [done|].
  apply NoDup_cons in Hnd as [Hy Hnd]. cbn [map]. unfold list_sum. cbn [fold_right]. fold (list_sum (map f ys)). fold (list_sum (map (fun y => if decide (y = x) then a else f y) ys)).
  destruct (decide (y = x)) as [->|Hne].
  - assert (map (fun y => if decide (y = x) then a else f y) ys = map f ys) as ->; [|lia].
    apply map_ext_in. intros z Hz. rewrite decide_False; [done|].
    intros ->. apply Hy. by apply list_elem_of_In.
  - destruct Hin as [->|Hin]; [done|]. specialize (IH Hnd Hin). lia.
Qed.

Lemma list_sum_same {A : Type} `{EqDecision A} (f : A -> nat) (x : A) (a : nat)
    (xs : list A) :
  ~ In x xs -> map (fun y => if decide (y = x) then a else f y) xs = map f xs.
Proof.
  intros Hx. apply map_ext_in. intros z Hz. rewrite decide_False; [done|]. by intros ->.
Qed.

Lemma NoDup_squares : NoDup squares.
Proof. apply (bool_decide_unpack _). vm_compute. reflexivity. Qed.

(** What a cell adds to the number of pieces of [p]. *)
Lemma countPieces_sum (b : Board) (p : Player) :
  countPieces b p
  = list_sum (map (fun sq : Z * Z =>
                     match cellAt b (fst sq) (snd sq) with
                     | Some pc => if decide (player pc = p) then 1%nat else 0%nat
                     | None => 0%nat
                     end) squares).
Proof.
  unfold countPieces, playerPieces. rewrite length_flat_map. f_equal.
  apply map_ext. intros sq. unfold ownPiece.
  destruct (cellAt b (fst sq) (snd sq)) as [pc|]; [|done]. by destruct (decide _).
Qed.

Lemma countPieces_moved (b : Board) (pc : Piece) (m : Move) (p : Player) :
  wf_board b -> validMove b pc m ->
  (countPieces (movedBoard b m pc) p
   + (if isSome (capture m) then if decide (player pc = p) then 0 else 1 else 0)
   = countPieces b p)%nat.
Proof.
  intros Hwf Hv. pose proof (validMove_squares b pc m Hv) as (Hft & Hct & Hcf & _).
  pose proof Hv as (Hcell & _ & (Hfrom & Hto & Hcap) & Hempty & dr & dc & _ & Hshape).
  rewrite !countPieces_sum.
  set (f := fun sq : Z * Z =>
              match cellAt b (fst sq) (snd sq) with
              | Some x => if decide (player x = p) then 1%nat else 0%nat
              | None => 0%nat
              end).
  set (own := if decide (player pc = p) then 1%nat else 0%nat).
  set (f3 := fun sq : Z * Z => if decide (capture m = Some sq) then 0%nat else f sq).
  set (f2 := fun sq : Z * Z => if decide (sq = from m) then 0%nat else f3 sq).
  set (f1 := fun sq : Z * Z => if decide (sq = to m) then own else f2 sq).
  assert (Hmap : map (fun sq : Z * Z =>
                        match cellAt (movedBoard b m pc) (fst sq) (snd sq) with
                        | Some x => if decide (player x = p) then 1%nat else 0%nat
                        | None => 0%nat
                        end) squares = map f1 squares).
  { apply map_ext. intros [row col]. cbn [fst snd].
    rewrite (movedBoard_cells b pc m row col Hwf Hv).
    unfold f1, f2, f3, f, own. cbn [fst snd]. by repeat case_decide. }
  rewrite Hmap. clear Hmap.
  assert (Hin_to : In (to m) squares).
  { rewrite (surjective_pairing (to m)). by apply In_squares. }
  assert (Hin_from : In (from m) squares).
  { rewrite (surjective_pairing (from m)). by apply In_squares. }
  pose proof (list_sum_update f2 (to m) own squares NoDup_squares Hin_to) as H1.
  pose proof (list_sum_update f3 (from m) 0%nat squares NoDup_squares Hin_from) as H2.
  fold f1 in H1. fold f2 in H2.
  assert (Hf2 : f2 (to m) = 0%nat).
  { unfold f2, f3, f. rewrite decide_False by congruence. rewrite decide_False by done.
    by rewrite Hempty. }
  assert (Hf3 : f3 (from m) = own).
  { unfold f3, f. rewrite decide_False by done. by rewrite Hcell. }
  destruct (capture m) as [[cr cc]|] eqn:Hc; cbn [isSome].
  - destruct Hshape as (Hsq & _ & other & Hother & Hne).
    assert (Hin_cap : In (cr, cc) squares) by (apply In_squares; apply (Hcap _ eq_refl)).
    pose proof (list_sum_update f (cr, cc) 0%nat squares NoDup_squares Hin_cap) as H3.
    assert (Hmap3 : map (fun y => if decide (y = (cr, cc)) then 0%nat else f y) squares
                    = map f3 squares).
    { apply map_ext. intros sq. unfold f3. by repeat case_decide; simplify_eq. }
    rewrite Hmap3 in H3.
    assert (Hcapf : f (cr, cc) = if decide (player pc = p) then 0%nat else 1%nat).
    { unfold f. cbn [fst snd] in *. rewrite Hother.
      repeat case_decide; try done; destruct (player other), (player pc), p; done. }
    unfold own in *. rewrite <- Hcapf. lia.
  - assert (Hmap3 : map f3 squares = map f squares).
    { apply map_ext. intros sq. unfold f3. by rewrite decide_False. }
    rewrite Hmap3 in H2. lia.
Qed.

(** X8. A move of checkers keeps the number of pieces of the colour that
    moves; a capture takes exactly one piece from the other colour, a slide
    none. *)
Theorem applyMove_piece_count (b : Board) (m : Move) (p : Player) (pc : Piece) :
  wf_board b -> validMove b pc m ->
  exists r,
    applyMove b m p = Ok r
    /\ countPieces (board r) (player pc) = countPieces b (player pc)
    /\ (countPieces (board r) (otherPlayer (player pc))
        + (if isSome (capture m) then 1 else 0)
        = countPieces b (otherPlayer (player pc)))%nat.
Proof.
  intros Hwf Hv. exists (moveOutcome b m p pc).
  destruct (moveOutcome_board b m p pc) as (-> & _ & _).
  split; [apply applyMove_value; [done|apply Hv..]|].
  pose proof (countPieces_moved b pc m (player pc) Hwf Hv) as Hown.
  pose proof (countPieces_moved b pc m (otherPlayer (player pc)) Hwf Hv) as Hother.
  rewrite decide_True in Hown by done.
  rewrite decide_False in Hother by (by destruct (player pc)).
  split; [destruct (isSome (capture m)); lia|done].
Qed.

(** *** Looking a piece up by its id *)

(** X6. On an 8x8 board [findPiece] returns: a square of the board with the
    piece on it, which has the id asked for; or nothing, and then no piece
    of the board has that id. *)
Theorem findPiece_correct (pieceId0 : Z) (b : Board) :
  wf_board b ->
  exists found,
    findPiece pieceId0 b = Ok found
    /\ match found with
       | Some (row, col, pc) =>
           isInside row col = true /\ cellAt b row col = Some pc /\ id pc = pieceId0
       | None => forall row col pc, cellAt b row col = Some pc -> id pc <> pieceId0
       end.
Proof.
  intros Hwf. exists (head (piecesWithId b pieceId0)).
  split; [by apply findPiece_spec|].
  destruct (piecesWithId b pieceId0) as [|[[row col] pc] rest] eqn:Hl; cbn [head].
  - intros row col pc Hcell Hid.
    assert (Hin : In (row, col, pc) (piecesWithId b pieceId0)).
    { apply In_piecesWithId. split; [by eapply cellAt_Some_inside|done]. }
    by rewrite Hl in Hin.
  - apply In_piecesWithId. rewrite Hl. by left.
Qed.

Lemma head_unique {A : Type} (xs : list A) (x : A) :
  In x xs -> (forall y, In y xs -> y = x) -> head xs = Some x.
Proof.
  destruct xs as [|y ys]; [done|]. intros _ H. cbn. f_equal. apply H. by left.
Qed.

Lemma piecesWithId_unique (b : Board) (row col : Z) (pc : Piece) :
  wf_board b -> uniqueIds b -> cellAt b row col = Some pc ->
  head (piecesWithId b (id pc)) = Some (row, col, pc).
Proof.
  intros Hwf Hu Hcell. apply head_unique.
  - apply In_piecesWithId. split; [by eapply cellAt_Some_inside|done].
  - intros [[row' col'] pc'] (Hin & Hcell' & Hid)%In_piecesWithId.
    pose proof (Hu _ _ _ _ _ _ Hcell' Hcell Hid) as [= -> ->]. congruence.
Qed.

(** *** A capture that goes on *)

Lemma moveOutcome_forced (b : Board) (m : Move) (p : Player) (pc : Piece) (i : Z) :
  forcedPieceId (moveOutcome b m p pc) = Some i ->
  i = id pc /\ currentPlayer (moveOutcome b m p pc) = p
  /\ isSome (capture m) = true /\ promotes pc m = false
  /\ captureCandidates (movedBoard b m pc) (fst (to m)) (snd (to m)) pc <> [].
Proof.
  unfold moveOutcome.
  destruct (isSome (capture m)), (promotes pc m),
    (captureCandidates (movedBoard b m pc) (fst (to m)) (snd (to m)) pc) eqn:Hc;
    cbn [andb negb isEmpty forcedPieceId currentPlayer]; try done.
  by intros [= <-].
Qed.

Lemma getLegalMoves_after_capture (b : Board) (m : Move) (p : Player) (pc : Piece) :
  wf_board b -> uniqueIds b -> nonzeroIds b -> validMove b pc m ->
  promotes pc m = false ->
  getLegalMoves (movedBoard b m pc) p (Some (id pc))
  = Ok (captureCandidates (movedBoard b m pc) (fst (to m)) (snd (to m)) pc).
Proof.
  intros Hwf Hu Hn Hv Hp. pose proof Hv as (Hcell & _).
  pose proof (movedBoard_wf b m pc Hwf) as Hwf'.
  destruct (movedBoard_invariants b pc m Hwf Hv) as (Hu' & _).
  rewrite (getLegalMoves_forced _ _ _ Hwf' (Hn _ _ _ Hcell)).
  assert (Hto : cellAt (movedBoard b m pc) (fst (to m)) (snd (to m)) = Some pc).
  { rewrite (movedBoard_cells b pc m _ _ Hwf Hv).
    rewrite <- (surjective_pairing (to m)), decide_True by done.
    by rewrite <- promotes_piece, Hp. }
  by rewrite (piecesWithId_unique _ _ _ _ Hwf' (Hu' Hu) Hto).
Qed.

(** X10. When [applyMove] names a forced piece after a move of checkers, on
    a board whose ids are distinct and not 0, it is the piece that moved and
    the turn has not passed; [getLegalMoves], called with what [applyMove]
    returned, then gives the captures of that piece from the square it has
    reached, and there is at least one. *)
Theorem applyMove_forced_continues (b : Board) (m : Move) (p : Player) (pc : Piece)
    (r : AppliedMove) (i : Z) :
  wf_board b -> uniqueIds b -> nonzeroIds b -> validMove b pc m ->
  applyMove b m p = Ok r -> forcedPieceId r = Some i ->
  i = id pc /\ currentPlayer r = p
  /\ exists followups,
       getLegalMoves (board r) (currentPlayer r) (forcedPieceId r) = Ok followups
       /\ followups <> []
       /\ Forall (fun m' => validMove (board r) pc m' /\ isCapture m' /\ from m' = to m)
                 followups.
Proof.
  intros Hwf Hu Hn Hv Hrun Hforced.
  rewrite (applyMove_value b m p pc Hwf) in Hrun; [|apply Hv..]. injection Hrun as <-.
  destruct (moveOutcome_forced b m p pc i Hforced) as (-> & Hcur & Hcap & Hp & Hne).
  destruct (moveOutcome_board b m p pc) as (Hb & _ & _).
  rewrite Hforced, Hcur, Hb. split; [done|]. split; [done|].
  exists (captureCandidates (movedBoard b m pc) (fst (to m)) (snd (to m)) pc).
  split; [by apply getLegalMoves_after_capture|]. split; [done|].
  assert (Hto : cellAt (movedBoard b m pc) (fst (to m)) (snd (to m)) = Some pc).
  { rewrite (movedBoard_cells b pc m _ _ Hwf Hv).
    rewrite <- (surjective_pairing (to m)), decide_True by done.
    by rewrite <- promotes_piece, Hp. }
  pose proof (captureCandidates_valid _ _ _ _ (proj1 (proj2 (proj1 (proj2 (proj2 Hv))))) Hto) as HF.
  pose proof (captureCandidates_are_captures (movedBoard b m pc) (fst (to m)) (snd (to m)) pc)
    as HF'.
  rewrite List.Forall_forall in *. intros m' Hm'.
  destruct (HF m' Hm') as [Hvm Hcm]. destruct (HF' m' Hm') as (_ & _ & Hfm).
  rewrite Hfm. by rewrite <- surjective_pairing.
Qed.

(** *** Every generated move, forced piece or not *)

Lemma getLegalMoves_any_valid (b : Board) (p : Player) (forced : option Z) :
  wf_board b ->
  exists moves,
    getLegalMoves b p forced = Ok moves
    /\ Forall (fun m => exists pc, validMove b pc m) moves.
Proof.
  intros Hwf.
  assert (Hscan : exists moves,
             getLegalMoves b p None = Ok moves
             /\ Forall (fun m => exists pc, validMove b pc m) moves).
  { eexists. split; [by apply getLegalMoves_scan|].
    eapply Forall_impl; [by apply (getLegalMoves_valid_moves b p _ Hwf), getLegalMoves_scan|].
    intros m (pc & _ & Hv). by exists pc. }
  destruct forced as [fid|]; [|done].
  destruct (decide (fid = 0)) as [->|Hne]; [done|].
  eexists. split; [by apply getLegalMoves_forced|].
  destruct (head (piecesWithId b fid)) as [[[row col] pc]|] eqn:Hhead; [|constructor].
  assert (Hin : In (row, col, pc) (piecesWithId b fid)).
  { destruct (piecesWithId b fid); [done|]. injection Hhead as <-. by left. }
  apply In_piecesWithId in Hin as (Hin & Hcell & _).
  eapply Forall_impl; [by apply captureCandidates_valid|].
  intros m [Hv _]. by exists pc.
Qed.

Lemma validMove_onBoard (b : Board) (pc : Piece) (m : Move) : validMove b pc m -> onBoard m.
Proof. intros H. apply H. Qed.

(** The jump of the mandatory-capture position is a move of checkers. *)
Lemma captureBoard_jump_valid :
  validMove captureBoard (man 1 light)
    {| pieceId := 1; from := (5, 2); to := (3, 4); capture := Some (4, 3) |}.
Proof.
  repeat split; try done.
  - by intros sq [= <-].
  - exists (-1), 1. repeat split; try done; try (by right); try (by left).
    by exists (man 2 dark).
Qed.

(** X2. Every move that [getLegalMoves] generates for a player on an 8x8
    board is a move of checkers of a piece of that player: the piece
    stands on the [from] square and has the id of the move; the move goes
    diagonally, forward unless the piece is a king, one step to an empty
    square of the board, or two steps to an empty square of the board over
    a piece of the other colour, which it names as captured. *)
Theorem getLegalMoves_sound (b : Board) (p : Player) (moves : list Move) (m : Move) :
  wf_board b -> getLegalMoves b p None = Ok moves -> In m moves ->
  exists pc, player pc = p /\ validMove b pc m.
Proof.
  intros Hwf Hrun Hin.
  by apply (proj1 (List.Forall_forall _ _) (getLegalMoves_valid_moves b p moves Hwf Hrun)).
Qed.

Lemma getLegalMoves_sound_witness :
  exists pc,
    player pc = light
    /\ validMove captureBoard pc
         {| pieceId := 1; from := (5, 2); to := (3, 4); capture := Some (4, 3) |}.
Proof.
  apply (getLegalMoves_sound captureBoard light
           [ {| pieceId := 1; from := (5, 2); to := (3, 4); capture := Some (4, 3) |} ]).
  - apply captureBoard_wf.
  - vm_compute. reflexivity.
  - left. reflexivity.
Defined.

(** *** Boards that are not 8x8 *)

Lemma foldM_throws {A B : Type} (body : A -> B -> res A) (xs ys : list B) (x : B) :
  (forall acc, body acc x = TypeError) ->
  forall acc, foldM body acc (xs ++ x :: ys) = TypeError.
Proof.
  intros Hx. induction xs as [|y xs IH]; intros acc; cbn [foldM app].
  - by rewrite Hx.
  - destruct (body acc y) as [acc'|]; [|done]. rewrite bind_Ok. apply IH.
Qed.

Lemma scanRow_throws (b : Board) (p : Player) (acc : list Move * list Move) (row : Z) :
  index b row = None -> scanRow b p acc row = TypeError.
Proof.
  intros Hrow. unfold scanRow. change (seqZ 0 8) with ([] ++ 0 :: seqZ 1 7).
  apply foldM_throws. intros [caps slides]. unfold scanCell, getCell, getRow. by rewrite Hrow.
Qed.

(** X5. On a board of fewer than eight rows the scan of [getLegalMoves]
    reads a row that is not there and throws a [TypeError]. *)
Theorem getLegalMoves_missing_row (b : Board) (p : Player) :
  (length b < 8)%nat -> getLegalMoves b p None = TypeError.
Proof.
  intros Hlen. unfold getLegalMoves. cbn [truthyId].
  assert (Hsplit : exists xs ys, seqZ 0 8 = xs ++ Z.of_nat (length b) :: ys).
  { assert (Hin : In (Z.of_nat (length b)) (seqZ 0 8)) by (apply In_seqZ_8; lia).
    apply in_split in Hin as (xs & ys & ->). by exists xs, ys. }
  destruct Hsplit as (xs & ys & ->).
  rewrite foldM_throws; [done|]. intros acc. apply scanRow_throws.
  unfold index. destruct (0 <=? Z.of_nat (length b)); [|done].
  rewrite Nat2Z.id. by apply lookup_ge_None_2.
Qed.

Lemma getLegalMoves_missing_row_witness :
  getLegalMoves shortBoard light None = TypeError.
Proof. apply (getLegalMoves_missing_row shortBoard light). cbn. lia. Defined.

(** X11. [applyMove] throws a [TypeError] when the row of the [from] square
    is not a row of the board, and when a piece stands on the [from]
    square and the row of the [to] square is not a row of the board.  (A
    column outside a row never throws: it reads as an empty square, and an
    assignment to it grows the row.) *)
Theorem applyMove_missing_row (b : Board) (m : Move) (p : Player) :
  index b (fst (from m)) = None
  \/ (isSome (cellAt b (fst (from m)) (snd (from m))) = true
      /\ index b (fst (to m)) = None) ->
  applyMove b m p = TypeError.
Proof.
  intros [Hfrom|[Hcell Hto]]; [by apply applyMove_from_row_missing|].
  destruct (cellAt b (fst (from m)) (snd (from m))) as [pc|] eqn:Hpc; [|done].
  apply (applyMove_to_row_missing b m p pc); [|done..].
  unfold cellAt in Hpc. destruct (index b (fst (from m))) as [cells|] eqn:Hrow; [|done].
  apply index_Some in Hrow as [Hge Hrow]. apply lookup_lt_Some in Hrow. lia.
Qed.

Lemma applyMove_missing_row_witness :
  applyMove captureBoard
    {| pieceId := 1; from := (5, 2); to := (8, 3); capture := None |} light = TypeError
  /\ applyMove captureBoard
       {| pieceId := 1; from := (-1, 2); to := (0, 3); capture := None |} light = TypeError.
Proof.
  split.
  - apply (applyMove_missing_row captureBoard
             {| pieceId := 1; from := (5, 2); to := (8, 3); capture := None |} light).
    right. split; reflexivity.
  - apply (applyMove_missing_row captureBoard
             {| pieceId := 1; from := (-1, 2); to := (0, 3); capture := None |} light).
    left. reflexivity.
Defined.

(** *** The policies return one of the moves they are given *)

Section Policies.
Context {R : Type} {N : Num R}.
Variable rnd : nat -> R.

Lemma scoreMove_calls (m : Move) (b : Board) (p : Player) (k : nat) (s : R) (k' : nat) :
  scoreMove rnd m b p k = Ok (s, k') -> k' = S k.
Proof.
  unfold scoreMove.
  destruct (getCell b _ _) as [mp|]; [|done]. rewrite bind_Ok.
  destruct (capture m) as [[cr cc]|].
  - destruct (getCell b cr cc) as [[cp|]|]; [| |done]; rewrite bind_Ok;
      [destruct (king cp)|]; rewrite bind_Ok; by intros [= _ <-].
  - rewrite bind_Ok. by intros [= _ <-].
Qed.

Lemma bestLoop_member (moves : list Move) (b : Board) (p : Player) :
  forall (best : option Move) (bs : R) (k : nat) (r : option Move) (k' : nat),
    bestLoop rnd moves b p best bs k = Ok (r, k') ->
    (r = best \/ exists m, r = Some m /\ In m moves) /\ k' = (k + length moves)%nat.
Proof.
  induction moves as [|m0 ms IH]; intros best bs k r k'; cbn [bestLoop].
  - intros [= <- <-]. split; [by left|cbn; lia].
  - destruct (scoreMove rnd m0 b p k) as [[s k1]|] eqn:Hs; [|done].
    apply scoreMove_calls in Hs as ->. rewrite bind_Ok.
    destruct (nlt bs s); intros [Hr ->]%IH; (split; [|cbn; lia]).
    + destruct Hr as [->|(m & -> & Hin)]; right; eexists; (split; [done|]); [by left|by right].
    + destruct Hr as [->|(m & -> & Hin)]; [by left|]. right. eexists. split; [done|by right].
Qed.

Lemma chooseBestMove_member (moves : list Move) (b : Board) (p : Player) (k : nat)
    (r : option Move) (k' : nat) :
  chooseBestMove rnd moves b p k = Ok (r, k') ->
  k' = (k + length moves)%nat
  /\ match r with
     | Some m => In m moves
     | None => moves = []
     end.
Proof.
  unfold chooseBestMove. destruct moves as [|m0 ms]; cbn [isEmpty head].
  - intros [= <- <-]. split; [cbn; lia|done].
  - intros [Hr ->]%bestLoop_member. split; [done|].
    destruct Hr as [->|(m & -> & Hin)]; [by left|done].
Qed.

Lemma lookaheadLoop_member (moves : list Move) (b : Board) (p : Player) :
  forall (best : option Move) (bs : R) (k : nat) (r : option Move) (k' : nat),
    lookaheadLoop rnd moves b p best bs k = Ok (r, k') ->
    r = best \/ exists m, r = Some m /\ In m moves.
Proof.
  induction moves as [|m0 ms IH]; intros best bs k r k'; cbn [lookaheadLoop].
  - intros [= <- <-]. by left.
  - destruct (applyMove b m0 p) as [next|]; [|done]. rewrite bind_Ok.
    destruct (minimax rnd _ _ _ _ _ _ _ _) as [[s k1]|]; [|done]. rewrite bind_Ok.
    assert (Hkeep : forall k2, lookaheadLoop rnd ms b p best bs k2 = Ok (r, k') ->
                               r = best \/ exists m, r = Some m /\ In m (m0 :: ms)).
    { intros k2 [->|(m & -> & Hin)]%IH; [by left|]. right. eexists. split; [done|by right]. }
    assert (Htake : forall bs2 k2, lookaheadLoop rnd ms b p (Some m0) bs2 k2 = Ok (r, k') ->
                                   r = best \/ exists m, r = Some m /\ In m (m0 :: ms)).
    { intros bs2 k2 [->|(m & -> & Hin)]%IH; right; eexists; (split; [done|]);
        [by left|by right]. }
    destruct (nlt bs s); [apply Htake|].
    destruct (nlt (nabs (nsub s bs)) (dec 1 1000)); [|apply Hkeep].
    destruct (nlt (dec 5 10) (rnd k1)); [apply Htake|apply Hkeep].
Qed.

(** X14. Whatever the skill, the random source and the arithmetic, the move
    that [chooseMoveBySkill] returns is one of the moves it was given; the
    medium and the hard policy return a move whenever they are given one;
    and for no moves the answer is [null], with no random number drawn. *)
Theorem chooseMoveBySkill_member (skill : AISkill) (moves : list Move) (b : Board)
    (p : Player) (k : nat) (r : option Move) (k' : nat) :
  chooseMoveBySkill rnd skill moves b p k = Ok (r, k') ->
  (forall m, r = Some m -> In m moves)
  /\ (skill <> easy -> moves <> [] -> r <> None)
  /\ (moves = [] -> r = None /\ k' = k).
Proof.
  unfold chooseMoveBySkill. destruct moves as [|m0 ms]; cbn [isEmpty].
  { intros [= <- <-]. done. }
  destruct skill.
  - intros [= <- <-]. split; [|done].
    intros m Hm. destruct (toIndex _) as [i|]; [|done].
    apply index_Some in Hm as [_ Hm]. apply list_elem_of_In. by eapply list_elem_of_lookup_2.
  - intros [_ Hr]%chooseBestMove_member. destruct r as [m|]; [|done].
    split; [by intros ? [= <-]|]. done.
  - unfold chooseBestLookaheadMove. cbn [head].
    intros [->|(m & -> & Hin)]%lookaheadLoop_member.
    + split; [intros ? [= <-]; by left|done].
    + split; [by intros ? [= <-]|done].
Qed.

End Policies.

(** *** The engine does not throw on an 8x8 board *)

Lemma applyMove_total (b : Board) (m : Move) (p : Player) :
  wf_board b -> onBoard m -> exists r, applyMove b m p = Ok r /\ wf_board (board r).
Proof.
  intros Hwf Hon.
  destruct (cellAt b (fst (from m)) (snd (from m))) as [pc|] eqn:Hcell.
  - exists (moveOutcome b m p pc). split; [by apply applyMove_value|].
    destruct (moveOutcome_board b m p pc) as (-> & _). by apply movedBoard_wf.
  - exists {| board := b; currentPlayer := p; forcedPieceId := None;
              capturedPieceId := None; promoted := false |}.
    split; [|exact Hwf]. destruct Hon as (Hfrom & _).
    unfold applyMove. rewrite cloneBoard_id.
    destruct (from m) as [fromRow fromCol], (to m) as [toRow toCol]. cbn [fst snd] in *.
    by rewrite (getCell_inside _ _ _ Hwf Hfrom), bind_Ok, Hcell.
Qed.

Lemma getLegalMoves_total (b : Board) (p : Player) (forced : option Z) :
  wf_board b ->
  exists moves, getLegalMoves b p forced = Ok moves /\ Forall onBoard moves.
Proof.
  intros Hwf. destruct (getLegalMoves_any_valid b p forced Hwf) as (moves & Hrun & HF).
  exists moves. split; [done|]. eapply Forall_impl; [exact HF|].
  intros m [pc Hv]. by eapply validMove_onBoard.
Qed.

Lemma foldM_total {A B : Type} (body : A -> B -> res A) (xs : list B) :
  (forall acc x, In x xs -> exists acc', body acc x = Ok acc') ->
  forall acc, exists r, foldM body acc xs = Ok r.
Proof.
  induction xs as [|x xs IH]; intros H acc; cbn [foldM]; [by eexists|].
  destruct (H acc x (or_introl eq_refl)) as [acc' ->]. rewrite bind_Ok.
  apply IH. intros a y Hy. apply H. by right.
Qed.

Section Total.
Context {R : Type} {N : Num R}.
Variable rnd : nat -> R.

Lemma scoreMove_total (m : Move) (b : Board) (p : Player) (k : nat) :
  wf_board b -> onBoard m -> exists s, scoreMove rnd m b p k = Ok (s, S k).
Proof.
  intros Hwf (Hfrom & _ & Hcap). unfold scoreMove.
  rewrite (getCell_inside _ _ _ Hwf Hfrom), bind_Ok.
  destruct (capture m) as [[cr cc]|].
  - rewrite (getCell_inside b cr cc Hwf (Hcap _ eq_refl)), bind_Ok.
    destruct (cellAt b cr cc) as [cp|]; [destruct (king cp)|]; rewrite bind_Ok; by eexists.
  - rewrite bind_Ok. by eexists.
Qed.

Lemma bestLoop_total (moves : list Move) (b : Board) (p : Player) :
  wf_board b -> Forall onBoard moves ->
  forall best bs k, exists r k', bestLoop rnd moves b p best bs k = Ok (r, k').
Proof.
  intros Hwf. induction 1 as [|m ms Hm _ IH]; intros best bs k; cbn [bestLoop]; [by eexists _, _|].
  destruct (scoreMove_total m b p k Hwf Hm) as [s ->]. rewrite bind_Ok.
  destruct (nlt bs s); apply IH.
Qed.

Lemma evaluateBoard_total (b : Board) (p : Player) :
  wf_board b -> exists v, evaluateBoard b p = Ok v.
Proof.
  intros Hwf. unfold evaluateBoard.
  destruct (foldM_total (evalRow b p) (seqZ 0 8)) with (acc := ofZ 0) as [score ->].
  { intros acc row Hrow%In_seqZ_8. unfold evalRow. apply foldM_total.
    intros acc' col Hcol%In_seqZ_8. unfold evalCell.
    rewrite (getCell_inside b row col Hwf); [|apply isInside_spec; lia].
    rewrite bind_Ok. destruct (cellAt b row col); by eexists. }
  rewrite bind_Ok.
  destruct (getLegalMoves_total b p None Hwf) as (mine & -> & _). rewrite bind_Ok.
  destruct (getLegalMoves_total b (otherPlayer p) None Hwf) as (theirs & -> & _).
  rewrite bind_Ok. by eexists.
Qed.

Lemma maxLoop_total rec (b : Board) (cur : Player) (moves : list Move) :
  (forall b' cur' forced' alpha' beta' k',
      wf_board b' -> exists v k'', rec b' cur' forced' alpha' beta' k' = Ok (v, k'')) ->
  wf_board b -> Forall onBoard moves ->
  forall value alpha beta k, exists v k', maxLoop rec b cur moves value alpha beta k = Ok (v, k').
Proof.
  intros Hrec Hwf. induction 1 as [|m ms Hm _ IH]; intros value alpha beta k; cbn [maxLoop];
    [by eexists _, _|].
  destruct (applyMove_total b m cur Hwf Hm) as (next & -> & Hwf'). rewrite bind_Ok.
  destruct (Hrec (board next) (currentPlayer next) (forcedPieceId next) alpha beta k Hwf')
    as (v & k1 & ->).
  rewrite bind_Ok. cbv zeta. destruct (nle _ _); [by eexists _, _|apply IH].
Qed.

Lemma minLoop_total rec (b : Board) (cur : Player) (moves : list Move) :
  (forall b' cur' forced' alpha' beta' k',
      wf_board b' -> exists v k'', rec b' cur' forced' alpha' beta' k' = Ok (v, k'')) ->
  wf_board b -> Forall onBoard moves ->
  forall value alpha beta k, exists v k', minLoop rec b cur moves value alpha beta k = Ok (v, k').
Proof.
  intros Hrec Hwf. induction 1 as [|m ms Hm _ IH]; intros value alpha beta k; cbn [minLoop];
    [by eexists _, _|].
  destruct (applyMove_total b m cur Hwf Hm) as (next & -> & Hwf'). rewrite bind_Ok.
  destruct (Hrec (board next) (currentPlayer next) (forcedPieceId next) alpha beta k Hwf')
    as (v & k1 & ->).
  rewrite bind_Ok. cbv zeta. destruct (nle _ _); [by eexists _, _|apply IH].
Qed.

Lemma minimaxN_total (n : nat) (maximizingPlayer : Player) :
  forall depth b cur forced alpha beta k,
    wf_board b ->
    exists v k', minimaxN rnd n b cur forced maximizingPlayer depth alpha beta k = Ok (v, k').
Proof.
  induction n as [|n IH]; intros depth b cur forced alpha beta k Hwf;
    destruct (getLegalMoves_total b cur forced Hwf) as (moves & Hrun & Hon);
    cbn [minimaxN]; rewrite Hrun, bind_Ok;
    (destruct (isEmpty moves); [by eexists _, _|]).
  - destruct (evaluateBoard_total b maximizingPlayer Hwf) as [ev ->]. rewrite bind_Ok.
    by eexists _, _.
  - destruct (Player_eqb cur maximizingPlayer).
    + apply maxLoop_total; [|done..]. intros. by apply IH.
    + apply minLoop_total; [|done..]. intros. by apply IH.
Qed.

Lemma lookaheadLoop_total (moves : list Move) (b : Board) (p : Player) :
  wf_board b -> Forall onBoard moves ->
  forall best bs k, exists r k', lookaheadLoop rnd moves b p best bs k = Ok (r, k').
Proof.
  intros Hwf. induction 1 as [|m ms Hm _ IH]; intros best bs k; cbn [lookaheadLoop];
    [by eexists _, _|].
  destruct (applyMove_total b m p Hwf Hm) as (next & -> & Hwf'). rewrite bind_Ok.
  destruct (minimaxN_total (Z.to_nat (HARD_SEARCH_DEPTH - 1)) p (HARD_SEARCH_DEPTH - 1)
              (board next) (currentPlayer next) (forcedPieceId next)
              (nopp infinity) infinity k Hwf') as (s & k1 & Hs).
  unfold minimax. rewrite Hs, bind_Ok.
  destruct (nlt bs s); [apply IH|].
  destruct (nlt _ _); [|apply IH]. destruct (nlt _ _); apply IH.
Qed.

End Total.

(** *** Good positions *)

Lemma goodPositionb_sound (b : Board) : goodPositionb b = true -> goodPosition b.
Proof.
  unfold goodPositionb. rewrite !andb_true_iff.
  intros [[Hlen Hrows] Hcells].
  assert (Hwf : wf_board b).
  { split; [by apply Nat.eqb_eq|].
    apply List.Forall_forall. intros cells Hin.
    apply Nat.eqb_eq. by apply (proj1 (forallb_forall _ _) Hrows). }
  assert (Hsq : forall row col pc,
             cellAt b row col = Some pc ->
             id pc <> 0 /\ isDarkSquare row col = true
             /\ forall row' col' pc',
                  cellAt b row' col' = Some pc' -> id pc = id pc' -> (row, col) = (row', col')).
  { intros row col pc Hcell.
    pose proof (proj1 (forallb_forall _ _) Hcells (row, col)
                  (proj2 (In_squares row col) (cellAt_Some_inside b row col pc Hwf Hcell)))
      as Hc. cbn [fst snd] in Hc. rewrite Hcell, !andb_true_iff in Hc.
    destruct Hc as [[Hnz Hdark] Hothers].
    split; [by apply Z.eqb_neq, negb_true_iff|]. split; [done|].
    intros row' col' pc' Hcell' Hid.
    pose proof (proj1 (forallb_forall _ _) Hothers (row', col')
                  (proj2 (In_squares row' col') (cellAt_Some_inside b row' col' pc' Hwf Hcell')))
      as Hc. cbn [fst snd] in Hc. rewrite Hcell' in Hc.
    apply orb_true_iff in Hc as [Hc|Hc].
    - apply negb_true_iff, Z.eqb_neq in Hc. done.
    - by apply bool_decide_eq_true in Hc. }
  split; [done|]. split; [|split].
  - intros row col row' col' pc pc' Hc Hc' Hid.
    by apply (proj2 (proj2 (Hsq row col pc Hc)) row' col' pc').
  - intros row col pc Hc. by apply (Hsq row col pc Hc).
  - intros row col pc Hc. by apply (Hsq row col pc Hc).
Qed.

(** *** The store: a new game *)

Lemma newGame_consistent (screen0 : Screen) (mode0 : Mode) (tutorialEnabled0 : bool) :
  exists s, newGame screen0 mode0 tutorialEnabled0 = Ok s /\ consistent s
            /\ Store.screen s = screen0 /\ Store.currentPlayer s = light
            /\ Store.gameOver s = false.
Proof.
  assert (Hstart : exists b moves,
             createInitialBoard 1 = Ok (b, 25) /\ getLegalMoves b light None = Ok moves
             /\ isEmpty moves = false /\ goodPositionb b = true).
  { eexists _, _. split; [vm_compute; reflexivity|].
    split; [vm_compute; reflexivity|]. split; vm_compute; reflexivity. }
  destruct Hstart as (b & moves & Hb & Hmoves & Hne & Hgood%goodPositionb_sound).
  unfold newGame. rewrite Hb, bind_Ok, Hmoves, bind_Ok. clear Hb.
  eexists. split; [reflexivity|]. split; [|done].
  unfold consistent. cbn.
  split; [done|]. split; [by apply getLegalMoves_valid_moves, Hmoves; apply Hgood|].
  split; [done|]. split; [done|]. split; [done|done].
Qed.

(** *** The store: committing a move *)

Lemma moveOutcome_cases (b : Board) (m : Move) (p : Player) (pc : Piece) :
  (forcedPieceId (moveOutcome b m p pc) = Some (id pc)
   /\ currentPlayer (moveOutcome b m p pc) = p
   /\ promotes pc m = false
   /\ captureCandidates (movedBoard b m pc) (fst (to m)) (snd (to m)) pc <> [])
  \/ (forcedPieceId (moveOutcome b m p pc) = None
      /\ currentPlayer (moveOutcome b m p pc) = otherPlayer p).
Proof.
  unfold moveOutcome.
  destruct (isSome (capture m)), (promotes pc m),
    (captureCandidates (movedBoard b m pc) (fst (to m)) (snd (to m)) pc) eqn:Hc;
    cbn [andb negb isEmpty forcedPieceId currentPlayer]; try (by right).
  by left.
Qed.

(** The legal moves after a move of checkers of the player to move. *)
Lemma getLegalMoves_next (b : Board) (m : Move) (p : Player) (pc : Piece) :
  goodPosition b -> validMove b pc m -> player pc = p ->
  let r := moveOutcome b m p pc in
  exists moves,
    getLegalMoves (board r) (currentPlayer r) (forcedPieceId r) = Ok moves
    /\ Forall (fun m' => exists pc', player pc' = currentPlayer r /\ validMove (board r) pc' m')
              moves
    /\ (forall i, forcedPieceId r = Some i ->
                  moves <> [] /\ Forall (fun m' => pieceId m' = i) moves)
    /\ (isEmpty moves = true -> currentPlayer r = otherPlayer p).
Proof.
  intros (Hwf & Hu & Hn & Hd) Hv Hp r.
  destruct (moveOutcome_board b m p pc) as (Hb & _).
  pose proof (movedBoard_wf b m pc Hwf) as Hwf'.
  destruct (moveOutcome_cases b m p pc) as [(Hf & Hcur & Hpromo & Hne)|(Hf & Hcur)];
    subst r; rewrite Hb, Hf, Hcur.
  - exists (captureCandidates (movedBoard b m pc) (fst (to m)) (snd (to m)) pc).
    split; [by apply getLegalMoves_after_capture|].
    assert (Hto : cellAt (movedBoard b m pc) (fst (to m)) (snd (to m)) = Some pc).
    { rewrite (movedBoard_cells b pc m _ _ Hwf Hv).
      rewrite <- (surjective_pairing (to m)), decide_True by done.
      by rewrite <- promotes_piece, Hpromo. }
    split; [|split].
    + eapply Forall_impl;
        [apply (captureCandidates_valid _ _ _ _ (proj1 (proj2 (validMove_onBoard _ _ _ Hv))) Hto)|].
      intros m' [Hv' _]. by exists pc.
    + intros i [= <-]. split; [done|].
      eapply Forall_impl; [apply captureCandidates_are_captures|]. by intros m' (_ & ? & _).
    + intros Hempty. by destruct (captureCandidates _ _ _ _).
  - destruct (getLegalMoves_total (movedBoard b m pc) (otherPlayer p) None Hwf')
      as (moves & Hrun & _).
    exists moves. split; [done|].
    split; [by apply getLegalMoves_valid_moves|]. split; [done|done].
Qed.

(** The state that [commitMove] sets for the outcome [r] of the move and
    the legal moves [moves] after it. *)
Lemma commitMove_run (s : Store.GameState) (m : Move) :
  consistent s -> Store.gameOver s = false -> In m (Store.legalMoves s) ->
  exists pc r moves s',
    player pc = Store.currentPlayer s
    /\ validMove (Store.board s) pc m
    /\ applyMove (Store.board s) m (Store.currentPlayer s) = Ok r
    /\ getLegalMoves (board r) (currentPlayer r) (forcedPieceId r) = Ok moves
    /\ commitMove s m = Ok s'
    /\ s' = {| Store.screen := Store.screen s;
               Store.mode := Store.mode s;
               Store.tutorialEnabled := Store.tutorialEnabled s;
               Store.board := board r;
               Store.currentPlayer := currentPlayer r;
               Store.forcedPieceId := forcedPieceId r;
               Store.legalMoves := moves;
               Store.selectedPieceId := forcedPieceId r;
               Store.waitingForComputer := false;
               Store.gameOver := isEmpty moves;
               Store.winner :=
                 if isEmpty moves then Some (otherPlayer (currentPlayer r)) else None;
               Store.tipIndex := Store.tipIndex s;
               Store.capturedFlashId := capturedPieceId r;
               Store.lastMoveEvent :=
                 Some {| Store.move := m;
                         Store.mover := Store.currentPlayer s;
                         Store.capture := isSome (capture m);
                         Store.promoted := promoted r;
                         Store.forcedContinuation := isSome (forcedPieceId r) |} |}
    /\ consistent s'
    /\ (isEmpty moves = true -> currentPlayer r = otherPlayer (Store.currentPlayer s)).
Proof.
  intros (Hgood & Hvalid & Hover & Hwin & Hsel & Hscreen) Hplaying Hin.
  destruct (proj1 (List.Forall_forall _ _) Hvalid m Hin) as (pc & Hp & Hv).
  destruct (getLegalMoves_next _ m _ pc Hgood Hv Hp) as (moves & Hmoves & Hval' & Hforced & Hend).
  pose proof (applyMove_value (Store.board s) m (Store.currentPlayer s) pc
                (proj1 Hgood) (validMove_onBoard _ _ _ Hv) (proj1 Hv)) as Hrun.
  exists pc, (moveOutcome (Store.board s) m (Store.currentPlayer s) pc), moves.
  eexists. split; [done|]. split; [done|]. split; [done|]. split; [done|].
  split.
  { unfold commitMove. rewrite Hplaying, (find_isSameMove_In _ _ Hin).
    rewrite Hrun, bind_Ok, Hmoves, bind_Ok. reflexivity. }
  split; [reflexivity|]. split; [|done].
  unfold consistent. cbn.
  destruct (moveOutcome_board (Store.board s) m (Store.currentPlayer s) pc) as (Hb & _).
  split.
  { rewrite Hb. destruct Hgood as (Hwf & Hu & Hn & Hd).
    destruct (movedBoard_invariants _ pc m Hwf Hv) as (Hu' & Hn' & Hd').
    split; [by apply movedBoard_wf|]. split; [by apply Hu'|]. split; [by apply Hn'|by apply Hd']. }
  split; [done|]. split; [done|]. split; [done|]. split; [|done].
  intros i Hi. destruct (Hforced i Hi) as [Hne HF].
  destruct moves as [|m' ms]; [done|]. exists m'. split; [by left|].
  by apply (Forall_inv HF).
Qed.

(** X19. [commitMove] leaves the state as it is when the game is over and
    when the move is not among the moves on offer. *)
Theorem commitMove_rejects (s : Store.GameState) (move : Move) :
  Store.gameOver s = true \/ ~ In move (Store.legalMoves s) ->
  commitMove s move = Ok s.
Proof.
  intros [Hover|Hnot]; unfold commitMove; [by rewrite Hover|].
  destruct (Store.gameOver s); [done|]. by rewrite find_isSameMove_None.
Qed.

Lemma commitMove_consistent (s : Store.GameState) (m : Move) :
  consistent s -> exists s', commitMove s m = Ok s' /\ consistent s'.
Proof.
  intros Hs. destruct (Store.gameOver s) eqn:Hover.
  { exists s. split; [|done]. unfold commitMove. by rewrite Hover. }
  destruct (find (fun candidate => isSameMove candidate m) (Store.legalMoves s)) as [lm|] eqn:Hfind.
  - apply find_some in Hfind as [Hin Hsame]. apply isSameMove_true in Hsame as ->.
    destruct (commitMove_run s m Hs Hover Hin) as (pc & r & moves & s' & _ & _ & _ & _ & Hrun & _ & Hs' & _).
    by exists s'.
  - exists s. split; [|done]. unfold commitMove. by rewrite Hover, Hfind.
Qed.

(** X20. Committing a move that is on offer, in a consistent state of a game
    that is not over: the move is applied with [applyMove]; the moves then
    on offer are the legal moves of the new position for the player whose
    turn [applyMove] says it is; the game is over exactly when there are
    none, and then the player who made the move is the winner. *)
Theorem commitMove_plays (s : Store.GameState) (m : Move) :
  consistent s -> Store.gameOver s = false -> In m (Store.legalMoves s) ->
  exists r s',
    applyMove (Store.board s) m (Store.currentPlayer s) = Ok r
    /\ commitMove s m = Ok s'
    /\ Store.board s' = board r
    /\ Store.currentPlayer s' = currentPlayer r
    /\ Store.forcedPieceId s' = forcedPieceId r
    /\ getLegalMoves (board r) (currentPlayer r) (forcedPieceId r) = Ok (Store.legalMoves s')
    /\ Store.gameOver s' = isEmpty (Store.legalMoves s')
    /\ Store.winner s'
       = (if Store.gameOver s' then Some (Store.currentPlayer s) else None).
Proof.
  intros Hs Hover Hin.
  destruct (commitMove_run s m Hs Hover Hin)
    as (pc & r & moves & s' & _ & _ & Hr & Hmoves & Hrun & -> & _ & Hend).
  exists r. eexists. split; [done|]. split; [exact Hrun|]. cbn.
  repeat (split; [done|]).
  destruct (isEmpty moves); [|done]. rewrite (Hend eq_refl). by destruct (Store.currentPlayer s).
Qed.

(** *** The store: every call *)

Section StoreSteps.
Context {R : Type} {N : Num R}.
Variable rnd : nat -> R.

Lemma consistent_onBoard (s : Store.GameState) :
  consistent s -> wf_board (Store.board s) /\ Forall onBoard (Store.legalMoves s).
Proof.
  intros (Hgood & Hvalid & _). split; [apply Hgood|].
  eapply Forall_impl; [exact Hvalid|]. intros m (pc & _ & Hv). by eapply validMove_onBoard.
Qed.

Lemma chooseBestMove_legal (s : Store.GameState) (k : nat) :
  consistent s -> Store.legalMoves s <> [] ->
  exists m,
    chooseBestMove rnd (Store.legalMoves s) (Store.board s) (Store.currentPlayer s) k
    = Ok (Some m, (k + length (Store.legalMoves s))%nat)
    /\ In m (Store.legalMoves s).
Proof.
  intros [Hwf Hon]%consistent_onBoard Hne.
  destruct (Store.legalMoves s) as [|m0 ms] eqn:Hmoves; [done|].
  destruct (bestLoop_total rnd (m0 :: ms) (Store.board s) (Store.currentPlayer s) Hwf Hon
              (Some m0) (nopp infinity) k) as (r & k' & Hrun).
  assert (Hchoose : chooseBestMove rnd (m0 :: ms) (Store.board s) (Store.currentPlayer s) k
                    = Ok (r, k')) by done.
  destruct (chooseBestMove_member rnd _ _ _ _ _ _ Hchoose) as [-> Hr].
  destruct r as [m|]; [|done]. by exists m.
Qed.

Lemma selectPiece_consistent (s : Store.GameState) (pieceId0 : option Z) :
  consistent s -> consistent (selectPiece s pieceId0).
Proof.
  intros (Hgood & Hvalid & Hover & Hwin & Hsel & Hscreen).
  unfold selectPiece. destruct (truthyId pieceId0) as [i|]; unfold consistent; cbn;
    split_and!; try done.
  intros j. destruct (existsb _ _) eqn:Hex; [|done]. intros [= <-].
  apply existsb_exists in Hex as (m & Hin & Hid%Z.eqb_eq). by exists m.
Qed.

Lemma showHint_consistent (s : Store.GameState) (k : nat) :
  consistent s ->
  exists s' hint k', showHint rnd s k = Ok (s', hint, k') /\ consistent s'.
Proof.
  intros Hs. unfold showHint.
  destruct (Store.gameOver s || isEmpty (Store.legalMoves s)) eqn:Hstop; [by eexists _, _, _|].
  apply orb_false_iff in Hstop as [_ Hne].
  destruct (chooseBestMove_legal s k Hs) as (m & -> & Hin); [by destruct (Store.legalMoves s)|].
  rewrite bind_Ok. eexists _, _, _. split; [done|].
  destruct Hs as (Hgood & Hvalid & Hover & Hwin & Hsel & Hscreen).
  unfold consistent. cbn. split_and!; try done.
  intros i [= <-]. by exists m.
Qed.

Lemma setWaitingForComputer_consistent (s : Store.GameState) (value : bool) :
  consistent s -> consistent (setWaitingForComputer s value).
Proof. done. Qed.

Lemma computerTurn_consistent (s : Store.GameState) (k : nat) :
  consistent s -> exists s' k', computerTurn rnd s k = Ok (s', k') /\ consistent s'.
Proof.
  intros Hs. unfold computerTurn.
  destruct (Store.legalMoves s) as [|m0 ms] eqn:Hmoves.
  - unfold chooseBestMove. cbn [isEmpty]. rewrite bind_Ok. by eexists _, _.
  - destruct (chooseBestMove_legal s k Hs) as (m & Hrun & Hin); [by rewrite Hmoves|].
    rewrite Hmoves in Hrun. rewrite Hrun, bind_Ok.
    destruct (commitMove_consistent (setWaitingForComputer s false) m) as (s' & -> & Hs');
      [done|].
    rewrite bind_Ok. by eexists _, _.
Qed.

Lemma step_consistent (a : Action) (s : Store.GameState) (k : nat) :
  consistent s -> exists s' k', step rnd a s k = Ok (s', k') /\ consistent s'.
Proof.
  intros Hs. destruct a as [mode0 tut| | |value|i| |m| | | |]; cbn [step].
  - destruct (newGame_consistent game mode0 tut) as (s' & Hrun & Hs' & _).
    unfold startGame. rewrite Hrun, bind_Ok. by eexists _, _.
  - destruct (newGame_consistent game (Store.mode s) (Store.tutorialEnabled s))
      as (s' & Hrun & Hs' & _).
    unfold restartGame, startGame. rewrite Hrun, bind_Ok. by eexists _, _.
  - eexists _, _. split; [done|].
    destruct Hs as (Hgood & Hvalid & Hover & Hwin & Hsel & Hscreen).
    unfold consistent. cbn. by split_and!.
  - by eexists _, _.
  - eexists _, _. split; [done|]. by apply selectPiece_consistent.
  - eexists _, _. split; [done|].
    destruct Hs as (Hgood & Hvalid & Hover & Hwin & Hsel & Hscreen).
    unfold consistent. cbn. by split_and!.
  - destruct (commitMove_consistent s m Hs) as (s' & -> & Hs'). rewrite bind_Ok.
    by eexists _, _.
  - destruct (showHint_consistent s k Hs) as (s' & hint & k' & -> & Hs'). rewrite bind_Ok.
    by eexists _, _.
  - by eexists _, _.
  - by eexists _, _.
  - by apply computerTurn_consistent.
Qed.

(** X21. Every state that the store reaches from the state it is created
    with, by calls of its methods and turns of the computer, is consistent:
    the position is an 8x8 board with distinct non-zero ids and all pieces
    on dark squares; every move on offer is a move of checkers of the
    player to move; [gameOver] is set exactly when no move is on offer, with
    the other player as winner; a selected piece has a move on offer; and on
    the game screen the moves on offer are what [getLegalMoves] gives for
    the position.  From such a state no call throws. *)
Theorem store_invariant (s : Store.GameState) (k : nat) :
  reachable rnd s k ->
  consistent s /\ forall a, exists s' k', step rnd a s k = Ok (s', k').
Proof.
  intros Hreach.
  assert (Hs : consistent s).
  { induction Hreach as [s Hinit|a s s' k k' _ IH Hstep].
    - destruct (newGame_consistent title one false) as (s0 & Hrun & Hs0 & _).
      unfold initialState in Hinit. congruence.
    - destruct (step_consistent a s k IH) as (s1 & k1 & Hrun & Hs1). congruence. }
  split; [done|]. intros a.
  destruct (step_consistent a s k Hs) as (s' & k' & Hrun & _). by eexists _, _.
Qed.

(** X22. The computer's turn, in a consistent state of a game that is not
    over: [chooseBestMove] picks one of the moves on offer, having drawn one
    random number for each of them, and the turn is [commitMove] of that
    very move; the position becomes the one [applyMove] gives for it, and
    the computer is no longer waited for. *)
Theorem computerTurn_plays (s : Store.GameState) (k : nat) :
  consistent s -> Store.gameOver s = false ->
  exists m r s',
    chooseBestMove rnd (Store.legalMoves s) (Store.board s) (Store.currentPlayer s) k
    = Ok (Some m, (k + length (Store.legalMoves s))%nat)
    /\ In m (Store.legalMoves s)
    /\ applyMove (Store.board s) m (Store.currentPlayer s) = Ok r
    /\ commitMove (setWaitingForComputer s false) m = Ok s'
    /\ computerTurn rnd s k = Ok (s', (k + length (Store.legalMoves s))%nat)
    /\ Store.board s' = board r
    /\ Store.currentPlayer s' = currentPlayer r
    /\ Store.waitingForComputer s' = false
    /\ option_map Store.move (Store.lastMoveEvent s') = Some m.
Proof.
  intros Hs Hover.
  assert (Hne : Store.legalMoves s <> []).
  { destruct Hs as (_ & _ & Hg & _). rewrite Hover in Hg. by destruct (Store.legalMoves s). }
  destruct (chooseBestMove_legal s k Hs Hne) as (m & Hrun & Hin).
  destruct (commitMove_run (setWaitingForComputer s false) m)
    as (pc & r & moves & s' & _ & _ & Hr & _ & Hcommit & -> & _); [done..|].
  exists m, r. eexists. split; [done|]. split; [done|]. split; [done|].
  split; [exact Hcommit|].
  split; [unfold computerTurn; by rewrite Hrun, bind_Ok, Hcommit, bind_Ok|]. done.
Qed.

(** X23. [showHint] returns no hint when the game is over or no move is on
    offer; otherwise it returns one of the moves on offer and selects its
    piece, and it changes nothing else. *)
Theorem showHint_hint (s : Store.GameState) (k : nat) :
  consistent s ->
  exists s' hint k',
    showHint rnd s k = Ok (s', hint, k')
    /\ match hint with
       | Some m =>
           In m (Store.legalMoves s)
           /\ s' = setSelectedPieceId s (Some (pieceId m))
           /\ Store.gameOver s = false
       | None => s' = s /\ Store.legalMoves s = []
       end.
Proof.
  intros Hs. unfold showHint.
  destruct (Store.gameOver s) eqn:Hover; cbn [orb].
  { eexists _, _, _. split; [done|]. split; [done|].
    destruct Hs as (_ & _ & Hg & _). rewrite Hover in Hg. by destruct (Store.legalMoves s). }
  destruct (isEmpty (Store.legalMoves s)) eqn:Hempty.
  { eexists _, _, _. split; [done|]. split; [done|]. by destruct (Store.legalMoves s). }
  destruct (chooseBestMove_legal s k Hs) as (m & -> & Hin); [by destruct (Store.legalMoves s)|].
  rewrite bind_Ok. eexists _, _, _. split; [done|]. done.
Qed.

End StoreSteps.

(** *** The properties on the positions of the engine's tests *)

Lemma captureBoard_good : goodPosition captureBoard.
Proof. apply goodPositionb_sound. vm_compute. reflexivity. Qed.

Lemma chainBoard_good : goodPosition chainBoard.
Proof. apply goodPositionb_sound. vm_compute. reflexivity. Qed.

(** The first jump of the multi-jump position is a move of checkers. *)
Lemma chainBoard_jump_valid :
  validMove chainBoard (man 10 light)
    {| pieceId := 10; from := (5, 0); to := (3, 2); capture := Some (4, 1) |}.
Proof.
  repeat split; try done.
  - by intros sq [= <-].
  - exists (-1), 1. repeat split; try done; try (by right); try (by left).
    by exists (man 20 dark).
Qed.

Lemma applyMove_board_witness :
  exists r,
    applyMove captureBoard
      {| pieceId := 1; from := (5, 2); to := (3, 4); capture := Some (4, 3) |} light = Ok r
    /\ cellAt (board r) 3 4 = Some (man 1 light)
    /\ cellAt (board r) 5 2 = None
    /\ cellAt (board r) 4 3 = None
    /\ cellAt (board r) 5 6 = Some (man 3 light)
    /\ capturedPieceId r = Some 2.
Proof.
  destruct (applyMove_board captureBoard
              {| pieceId := 1; from := (5, 2); to := (3, 4); capture := Some (4, 3) |}
              light (man 1 light) captureBoard_wf captureBoard_jump_valid)
    as (r & Hr & _ & Hcells & Hcap & _).
  exists r. split; [exact Hr|]. rewrite !Hcells, Hcap. repeat split; reflexivity.
Defined.

Lemma applyMove_keeps_invariants_witness :
  exists r,
    applyMove captureBoard
      {| pieceId := 1; from := (5, 2); to := (3, 4); capture := Some (4, 3) |} light = Ok r
    /\ goodPosition (board r).
Proof.
  destruct (applyMove_keeps_invariants captureBoard
              {| pieceId := 1; from := (5, 2); to := (3, 4); capture := Some (4, 3) |}
              light (man 1 light) captureBoard_wf captureBoard_jump_valid)
    as (r & Hr & Hwf & Hu & Hn & Hd).
  exists r. split; [exact Hr|].
  destruct captureBoard_good as (_ & Hu0 & Hn0 & Hd0).
  split; [exact Hwf|]. split; [exact (Hu Hu0)|]. split; [exact (Hn Hn0)|exact (Hd Hd0)].
Defined.

Lemma applyMove_piece_count_witness :
  exists r,
    applyMove captureBoard
      {| pieceId := 1; from := (5, 2); to := (3, 4); capture := Some (4, 3) |} light = Ok r
    /\ countPieces (board r) light = 2%nat
    /\ countPieces (board r) dark = 0%nat.
Proof.
  destruct (applyMove_piece_count captureBoard
              {| pieceId := 1; from := (5, 2); to := (3, 4); capture := Some (4, 3) |}
              light (man 1 light) captureBoard_wf captureBoard_jump_valid)
    as (r & Hr & Hown & Hother).
  exists r. split; [exact Hr|]. split; [exact Hown|].
  cbn [man player otherPlayer Player_eqb capture isSome] in Hother.
  change (countPieces captureBoard dark) with 1%nat in Hother. lia.
Defined.

Lemma applyMove_forced_continues_witness :
  exists r,
    applyMove chainBoard
      {| pieceId := 10; from := (5, 0); to := (3, 2); capture := Some (4, 1) |} light = Ok r
    /\ forcedPieceId r = Some 10 /\ currentPlayer r = light
    /\ exists followups,
         getLegalMoves (board r) (currentPlayer r) (forcedPieceId r) = Ok followups
         /\ followups <> [].
Proof.
  eexists. split; [vm_compute; reflexivity|].
  destruct chainBoard_good as (Hwf & Hu & Hn & _).
  destruct (applyMove_forced_continues chainBoard
              {| pieceId := 10; from := (5, 0); to := (3, 2); capture := Some (4, 1) |}
              light (man 10 light) _ 10 Hwf Hu Hn chainBoard_jump_valid eq_refl eq_refl)
    as (_ & Hcur & followups & Hrun & Hne & _).
  split; [reflexivity|]. split; [exact Hcur|]. exists followups. split; [exact Hrun|exact Hne].
Defined.

Lemma findPiece_correct_witness :
  exists found,
    findPiece 2 captureBoard = Ok found
    /\ match found with
       | Some (row, col, pc) =>
           isInside row col = true /\ cellAt captureBoard row col = Some pc /\ id pc = 2
       | None => forall row col pc, cellAt captureBoard row col = Some pc -> id pc <> 2
       end.
Proof. exact (findPiece_correct 2 captureBoard captureBoard_wf). Defined.

(** X15. On an 8x8 board and for moves over squares of the board,
    [chooseMoveBySkill] returns and does not throw, at every skill, for
    every random source and in every arithmetic: the search of the hard
    policy never leaves the board. *)
Theorem chooseMoveBySkill_returns {R : Type} {N : Num R} (rnd : nat -> R) (skill : AISkill)
    (moves : list Move) (b : Board) (p : Player) (k : nat) :
  wf_board b -> Forall onBoard moves ->
  exists r k', chooseMoveBySkill rnd skill moves b p k = Ok (r, k').
Proof.
  intros Hwf Hon. unfold chooseMoveBySkill.
  destruct (isEmpty moves); [by eexists _, _|].
  destruct skill; [by eexists _, _|..].
  - unfold chooseBestMove. destruct (isEmpty moves); [by eexists _, _|].
    by apply bestLoop_total.
  - by apply lookaheadLoop_total.
Qed.

Lemma chooseMoveBySkill_returns_witness :
  exists r k',
    chooseMoveBySkill (fun _ => 0.5%float) hard [greedySlide; greedyCapture]
      greedyBoard light 0 = Ok (r, k').
Proof.
  apply (chooseMoveBySkill_returns (fun _ => 0.5%float) hard [greedySlide; greedyCapture]
           greedyBoard light 0 greedyBoard_wf).
  constructor; [apply onBoard_slide; reflexivity|].
  constructor; [apply onBoard_jump; reflexivity|constructor].
Defined.

Lemma chooseMoveBySkill_member_witness :
  chooseMoveBySkill (fun _ => 0.5%float) medium [greedySlide; greedyCapture]
    greedyBoard light 0 = Ok (Some greedyCapture, 2%nat)
  /\ In greedyCapture [greedySlide; greedyCapture].
Proof.
  assert (Hrun : chooseMoveBySkill (fun _ => 0.5%float) medium [greedySlide; greedyCapture]
                   greedyBoard light 0 = Ok (Some greedyCapture, 2%nat))
    by (vm_compute; reflexivity).
  split; [exact Hrun|].
  destruct (chooseMoveBySkill_member (fun _ => 0.5%float) medium [greedySlide; greedyCapture]
              greedyBoard light 0 (Some greedyCapture) 2 Hrun) as (Hin & _).
  apply Hin. reflexivity.
Defined.

(** *** The store on a game that has just started *)

(** The first move of the engine's opening: the light man on 5,0 to 4,1. *)
Lemma commitMove_rejects_witness :
  exists s,
    newGame game two false = Ok s
    /\ commitMove s {| pieceId := 13; from := (5, 0); to := (3, 2); capture := None |} = Ok s.
Proof.
  eexists. split; [vm_compute; reflexivity|].
  apply commitMove_rejects. right. vm_compute. intuition discriminate.
Defined.

Lemma commitMove_plays_witness :
  exists s s',
    newGame game two false = Ok s
    /\ commitMove s {| pieceId := 13; from := (5, 0); to := (4, 1); capture := None |} = Ok s'
    /\ Store.currentPlayer s' = dark
    /\ Store.gameOver s' = false /\ Store.winner s' = None.
Proof.
  destruct (newGame_consistent game two false) as (s & Hnew & Hs & _ & _ & Hover).
  exists s.
  assert (Hin : In {| pieceId := 13; from := (5, 0); to := (4, 1); capture := None |}
                   (Store.legalMoves s)).
  { vm_compute in Hnew. injection Hnew as <-. left. reflexivity. }
  destruct (commitMove_plays s {| pieceId := 13; from := (5, 0); to := (4, 1); capture := None |}
              Hs Hover Hin) as (r & s' & Hr & Hrun & _ & Hcur & _ & _ & Hg & Hw).
  exists s'. split; [exact Hnew|]. split; [exact Hrun|].
  vm_compute in Hnew. injection Hnew as <-.
  vm_compute in Hrun. injection Hrun as <-.
  repeat split; reflexivity.
Defined.

Lemma store_invariant_witness :
  exists s0 s1 s2,
    initialState = Ok s0
    /\ startGame s0 two false = Ok s1
    /\ commitMove s1 {| pieceId := 13; from := (5, 0); to := (4, 1); capture := None |} = Ok s2
    /\ consistent s2.
Proof.
  eexists _, _, _.
  split; [vm_compute; reflexivity|]. split; [vm_compute; reflexivity|].
  split; [vm_compute; reflexivity|].
  refine (proj1 (store_invariant (fun _ : nat => 0.5%float) _ 0%nat _)).
  eapply (reachable_step _
            (CommitMove {| pieceId := 13; from := (5, 0); to := (4, 1); capture := None |})
            _ _ 0%nat 0%nat).
  - eapply (reachable_step _ (StartGame two false) _ _ 0%nat 0%nat).
    + apply reachable_initial. vm_compute. reflexivity.
    + vm_compute. reflexivity.
  - vm_compute. reflexivity.
Defined.

Lemma computerTurn_plays_witness :
  exists s m r s',
    newGame game one false = Ok s
    /\ In m (Store.legalMoves s)
    /\ applyMove (Store.board s) m (Store.currentPlayer s) = Ok r
    /\ computerTurn (fun _ : nat => 0.5%float) s 0 = Ok (s', 7%nat)
    /\ Store.board s' = board r.
Proof.
  destruct (newGame_consistent game one false) as (s & Hnew & Hs & _ & _ & Hover).
  destruct (computerTurn_plays (fun _ : nat => 0.5%float) s 0 Hs Hover)
    as (m & r & s' & _ & Hin & Hr & _ & Hrun & Hb & _).
  exists s, m, r, s'. split; [exact Hnew|]. split; [exact Hin|]. split; [exact Hr|].
  split; [|exact Hb].
  rewrite Hrun. vm_compute in Hnew. injection Hnew as <-. reflexivity.
Defined.

Lemma showHint_hint_witness :
  exists s s' m k',
    newGame game one false = Ok s
    /\ showHint (fun _ : nat => 0.5%float) s 0 = Ok (s', Some m, k')
    /\ In m (Store.legalMoves s)
    /\ Store.selectedPieceId s' = Some (pieceId m).
Proof.
  destruct (newGame_consistent game one false) as (s & Hnew & Hs & _ & _ & Hover).
  destruct (showHint_hint (fun _ : nat => 0.5%float) s 0 Hs)
    as (s' & hint & k' & Hrun & Hhint).
  destruct hint as [m|].
  - destruct Hhint as (Hin & -> & _).
    exists s, (setSelectedPieceId s (Some (pieceId m))), m, k'.
    split; [exact Hnew|]. split; [exact Hrun|]. split; [exact Hin|].
    reflexivity.
  - exfalso. destruct Hhint as [_ Hnone].
    vm_compute in Hnew. injection Hnew as <-. discriminate Hnone.
Defined.

(** *** The greedy policy takes the first best move *)

Lemma xdiv_Fin (x y : Q) : Qeq_bool y 0 = false -> xdiv (Fin x) (Fin y) = Fin (x / y).
Proof. intros H. unfold xdiv. by rewrite H. Qed.

Lemma dec_xQ (n d : Z) :
  Qeq_bool (inject_Z d) 0 = false -> @dec xQ Num_xQ n d = Fin (inject_Z n / inject_Z d).
Proof. intros H. unfold dec. cbn [ndiv ofZ Num_xQ]. by apply xdiv_Fin. Qed.

Lemma centerDistance_Fin (row col : Z) :
  exists cd, centerDistance (R := xQ) row col = Fin cd.
Proof.
  unfold centerDistance. rewrite (dec_xQ 35 10) by reflexivity.
  cbn [nadd nabs nsub ofZ Num_xQ xadd xsub xabs xopp]. by eexists.
Qed.

Section FirstBest.
Variable rnd : nat -> xQ.
Hypothesis rnd_finite : forall i, exists q, rnd i = Fin q.
Variable b : Board.
Hypothesis Hwf : wf_board b.
Variable p : Player.

Lemma scoreMove_Fin (m : Move) (k : nat) :
  onBoard m -> exists s, scoreMove rnd m b p k = Ok (Fin s, S k).
Proof.
  intros (Hf & Ht & Hc).
  destruct (rnd_finite k) as (q & Hq).
  destruct (centerDistance_Fin (fst (to m)) (snd (to m))) as (cd & Hcd).
  unfold scoreMove. rewrite Hq, Hcd.
  rewrite (dec_xQ 2 10), (dec_xQ 55 100), (dec_xQ 12 100) by reflexivity.
  rewrite (getCell_inside _ _ _ Hwf Hf), bind_Ok.
  destruct (capture m) as [[cr cc]|].
  - pose proof (Hc _ eq_refl) as Hc'. cbn [fst snd] in Hc'.
    rewrite (getCell_inside b cr cc Hwf Hc'), bind_Ok.
    destruct (cellAt b cr cc) as [cp|]; [destruct (king cp)|]; rewrite bind_Ok;
      (destruct (cellAt b (fst (from m)) (snd (from m))) as [mp|]; [destruct (king mp)|]);
      cbn [negb]; destruct p; cbn [Player_eqb andb orb]; rewrite ?orb_false_r;
      repeat match goal with
             | |- context [?x =? ?y] => destruct (Z.eqb_spec x y)
             end;
      xq_eval; by eexists.
  - rewrite bind_Ok.
    (destruct (cellAt b (fst (from m)) (snd (from m))) as [mp|]; [destruct (king mp)|]);
      cbn [negb]; destruct p; cbn [Player_eqb andb orb]; rewrite ?orb_false_r;
      repeat match goal with
             | |- context [?x =? ?y] => destruct (Z.eqb_spec x y)
             end;
      xq_eval; by eexists.
Qed.

Lemma scoreMove_scoreOf (m : Move) (k : nat) :
  onBoard m -> scoreMove rnd m b p k = Ok (Fin (scoreOf rnd b p k m), S k).
Proof.
  intros Hm. destruct (scoreMove_Fin m k Hm) as [s Hs]. unfold scoreOf. by rewrite Hs.
Qed.

Lemma xlt_trans_Fin (bs : xQ) (s t : Q) :
  xlt bs (Fin s) = true -> (s <= t)%Q -> xlt bs (Fin t) = true.
Proof.
  destruct bs as [a| | |]; cbn [xlt]; try done.
  rewrite !Qltb_spec. intros. lra.
Qed.

Lemma xlt_false_Fin (bs : xQ) (s t : Q) :
  xlt bs (Fin s) = false -> xlt bs (Fin t) = true -> (s < t)%Q.
Proof.
  destruct bs as [a| | |]; cbn [xlt]; try done.
  rewrite Qltb_false, Qltb_spec. intros. lra.
Qed.

Lemma bestLoop_first_best (rest : list Move) :
  forall (best : option Move) (bs : xQ) (k : nat),
    Forall onBoard rest ->
    exists r,
      bestLoop rnd rest b p best bs k = Ok (r, (k + length rest)%nat)
      /\ ((r = best
           /\ forall j m, rest !! j = Some m -> xlt bs (Fin (scoreOf rnd b p (k + j) m)) = false)
          \/ exists i m,
               rest !! i = Some m /\ r = Some m
               /\ xlt bs (Fin (scoreOf rnd b p (k + i) m)) = true
               /\ (forall j m', rest !! j = Some m' ->
                     (scoreOf rnd b p (k + j) m' <= scoreOf rnd b p (k + i) m)%Q)
               /\ (forall j m', (j < i)%nat -> rest !! j = Some m' ->
                     (scoreOf rnd b p (k + j) m' < scoreOf rnd b p (k + i) m)%Q)).
Proof.
  induction rest as [|m rest IH]; intros best bs k Hon.
  { exists best. split; [cbn; do 2 f_equal; lia|]. left. split; [done|]. by intros j m. }
  apply Forall_cons in Hon as [Hm Hon]. cbn [bestLoop].
  rewrite (scoreMove_scoreOf m k Hm), bind_Ok. cbn [nlt Num_xQ].
  set (s := scoreOf rnd b p k m).
  assert (Hs : s = scoreOf rnd b p (k + 0) m) by (by rewrite Nat.add_0_r).
  assert (Hk : forall j, (S k + j)%nat = (k + S j)%nat) by (intros; lia).
  destruct (xlt bs (Fin s)) eqn:Hlt.
  - destruct (IH (Some m) (Fin s) (S k) Hon) as (r & Hrun & Hr).
    exists r. split; [rewrite Hrun; cbn [length]; do 2 f_equal; lia|]. right.
    destruct Hr as [[-> Hnone]|(i & mi & Hi & -> & Hbeat & Hmax & Hfirst)].
    + exists 0%nat, m. split; [done|]. split; [done|]. rewrite <- Hs. split; [done|].
      split; [|intros; lia].
      intros [|j] m' Hj; [injection Hj as <-; rewrite <- Hs; lra|].
      cbn in Hj. specialize (Hnone j m' Hj). rewrite Hk in Hnone.
      cbn [xlt] in Hnone. apply Qltb_false in Hnone. done.
    + exists (S i), mi. rewrite <- !Hk. split; [done|]. split; [done|].
      cbn [xlt] in Hbeat. apply Qltb_spec in Hbeat.
      split; [apply (xlt_trans_Fin bs s); [done|lra]|].
      split.
      * intros [|j] m' Hj; [injection Hj as <-; rewrite <- Hs; lra|].
        rewrite <- Hk. by apply Hmax.
      * intros [|j] m' Hlt' Hj; [injection Hj as <-; rewrite <- Hs; lra|].
        rewrite <- Hk. apply Hfirst; [lia|done].
  - destruct (IH best bs (S k) Hon) as (r & Hrun & Hr).
    exists r. split; [rewrite Hrun; cbn [length]; do 2 f_equal; lia|].
    destruct Hr as [[-> Hnone]|(i & mi & Hi & -> & Hbeat & Hmax & Hfirst)].
    + left. split; [done|].
      intros [|j] m' Hj; [injection Hj as <-; by rewrite <- Hs|].
      rewrite <- Hk. by apply Hnone.
    + right. exists (S i), mi. rewrite <- !Hk. split; [done|]. split; [done|].
      split; [done|].
      pose proof (xlt_false_Fin bs s _ Hlt Hbeat) as Hsi.
      split.
      * intros [|j] m' Hj; [injection Hj as <-; rewrite <- Hs; lra|].
        rewrite <- Hk. by apply Hmax.
      * intros [|j] m' Hlt' Hj; [injection Hj as <-; rewrite <- Hs; lra|].
        rewrite <- Hk. apply Hfirst; [lia|done].
Qed.

End FirstBest.

(** X17. The greedy policy returns the first of the best moves.  In exact
    arithmetic, on an 8x8 board, for a non-empty list of moves over squares
    of the board and a random source with finite values: [chooseBestMove]
    draws one random number for each move, and the move it returns has a
    score that no move of the list exceeds and that no earlier move of the
    list reaches. *)
Theorem chooseBestMove_first_best (rnd : nat -> xQ) (moves : list Move) (b : Board)
    (p : Player) (k : nat) :
  wf_board b -> (forall i, exists q, rnd i = Fin q) -> Forall onBoard moves -> moves <> [] ->
  exists i best,
    chooseBestMove rnd moves b p k = Ok (Some best, (k + length moves)%nat)
    /\ moves !! i = Some best
    /\ (forall j m, moves !! j = Some m ->
          (scoreOf rnd b p (k + j) m <= scoreOf rnd b p (k + i) best)%Q)
    /\ (forall j m, (j < i)%nat -> moves !! j = Some m ->
          (scoreOf rnd b p (k + j) m < scoreOf rnd b p (k + i) best)%Q).
Proof.
  intros Hwf Hrnd Hon Hne. unfold chooseBestMove.
  destruct moves as [|m0 ms] eqn:Hmoves; [done|]. cbn [isEmpty]. rewrite <- Hmoves in *.
  destruct (bestLoop_first_best rnd Hrnd b Hwf p moves (head moves) (nopp infinity) k Hon)
    as (r & Hrun & Hr).
  destruct Hr as [[_ Hnone]|(i & mi & Hi & -> & _ & Hmax & Hfirst)].
  - exfalso. specialize (Hnone 0%nat m0). rewrite Hmoves in Hnone.
    by specialize (Hnone eq_refl).
  - by exists i, mi.
Qed.

Lemma chooseBestMove_first_best_witness :
  exists i best,
    chooseBestMove (fun _ => Fin 0) [greedySlide; greedyCapture] greedyBoard light 0
    = Ok (Some best, 2%nat)
    /\ [greedySlide; greedyCapture] !! i = Some best
    /\ (scoreOf (fun _ => Fin 0) greedyBoard light 0 greedySlide
        <= scoreOf (fun _ => Fin 0) greedyBoard light i best)%Q.
Proof.
  destruct (chooseBestMove_first_best (fun _ => Fin 0) [greedySlide; greedyCapture]
              greedyBoard light 0 greedyBoard_wf) as (i & best & Hrun & Hi & Hmax & _).
  - intros _. by exists 0%Q.
  - constructor; [apply onBoard_slide; reflexivity|].
    constructor; [apply onBoard_jump; reflexivity|constructor].
  - discriminate.
  - exists i, best. split; [exact Hrun|]. split; [exact Hi|].
    apply (Hmax 0%nat greedySlide). reflexivity.
Defined.

(** *** The evaluation is zero-sum *)

Lemma otherPlayer_involutive (p : Player) : otherPlayer (otherPlayer p) = p.
Proof. by destruct p. Qed.

Lemma Player_eqb_other (q p : Player) :
  Player_eqb q (otherPlayer p) = negb (Player_eqb q p).
Proof. by destruct q, p. Qed.

(** Two runs of a loop, side by side. *)
Lemma foldM_pair {A B : Type} (I : A -> A -> Prop) (body1 body2 : A -> B -> res A)
    (xs : list B) :
  (forall a1 a2 x, In x xs -> I a1 a2 ->
     exists a1' a2', body1 a1 x = Ok a1' /\ body2 a2 x = Ok a2' /\ I a1' a2') ->
  forall a1 a2, I a1 a2 ->
    exists r1 r2, foldM body1 a1 xs = Ok r1 /\ foldM body2 a2 xs = Ok r2 /\ I r1 r2.
Proof.
  induction xs as [|x xs IH]; intros Hbody a1 a2 HI; cbn [foldM]; [by eexists _, _|].
  destruct (Hbody a1 a2 x (or_introl eq_refl) HI) as (a1' & a2' & -> & -> & HI').
  rewrite !bind_Ok. apply IH; [|done]. intros b1 b2 y Hy. apply Hbody. by right.
Qed.

Lemma evalCell_opposite (b : Board) (p : Player) (row col : Z) (a1 a2 : xQ) :
  wf_board b -> isInside row col = true -> opposite a1 a2 ->
  exists a1' a2',
    evalCell b p row a1 col = Ok a1'
    /\ evalCell b (otherPlayer p) row a2 col = Ok a2'
    /\ opposite a1' a2'.
Proof.
  intros Hwf Hin (v & w & -> & -> & Hvw). unfold evalCell.
  rewrite (getCell_inside b row col Hwf Hin), !bind_Ok.
  destruct (cellAt b row col) as [pc|]; [|eexists _, _; split; [done|split; [done|by exists v, w]]].
  destruct (centerDistance_Fin row col) as (cd & ->).
  rewrite (dec_xQ 38 10), (dec_xQ 12 10), (dec_xQ 35 100), (dec_xQ 5 100) by reflexivity.
  rewrite Player_eqb_other.
  destruct (king pc), (Player_eqb (player pc) light), (Player_eqb (player pc) p);
    cbn [ofZ nsub Num_xQ ndiv nmul nadd nopp xsub xadd xopp negb];
    rewrite !xdiv_Fin by reflexivity;
    cbn [negb xmul xadd xsub xopp];
    (eexists _, _; split; [reflexivity|split; [reflexivity|]]);
    (eexists _, _; split; [reflexivity|split; [reflexivity|]]); lra.
Qed.

Lemma evalRows_opposite (b : Board) (p : Player) :
  wf_board b ->
  exists a1 a2,
    foldM (evalRow b p) (ofZ 0) (seqZ 0 8) = Ok a1
    /\ foldM (evalRow b (otherPlayer p)) (ofZ 0) (seqZ 0 8) = Ok a2
    /\ opposite a1 a2.
Proof.
  intros Hwf. apply (foldM_pair opposite).
  - intros a1 a2 row Hrow%In_seqZ_8 Ha. unfold evalRow. apply (foldM_pair opposite); [|done].
    intros c1 c2 col Hcol%In_seqZ_8 Hc. apply evalCell_opposite; [done| |done].
    apply isInside_spec. lia.
  - exists 0%Q, 0%Q. split; [done|]. split; [done|]. lra.
Qed.

(** X18. The evaluation is zero-sum: in exact arithmetic, on an 8x8 board,
    what [evaluateBoard] gives for one player is the opposite of what it
    gives for the other. *)
Theorem evaluateBoard_zero_sum (b : Board) (p : Player) :
  wf_board b ->
  exists v w,
    evaluateBoard (R := xQ) b p = Ok (Fin v)
    /\ evaluateBoard (R := xQ) b (otherPlayer p) = Ok (Fin w)
    /\ (v + w == 0)%Q.
Proof.
  intros Hwf. unfold evaluateBoard.
  destruct (evalRows_opposite b p Hwf) as (a1 & a2 & -> & -> & v & w & -> & -> & Hvw).
  rewrite !bind_Ok, otherPlayer_involutive.
  destruct (getLegalMoves_total b p None Hwf) as (mine & -> & _).
  destruct (getLegalMoves_total b (otherPlayer p) None Hwf) as (theirs & -> & _).
  rewrite !bind_Ok. rewrite (dec_xQ 6 100) by reflexivity.
  cbn [ofZ nsub nmul nadd Num_xQ xsub xadd xopp xmul].
  eexists _, _. split; [reflexivity|]. split; [reflexivity|]. lra.
Qed.

Lemma evaluateBoard_zero_sum_witness :
  exists v w,
    evaluateBoard (R := xQ) captureBoard light = Ok (Fin v)
    /\ evaluateBoard (R := xQ) captureBoard dark = Ok (Fin w)
    /\ (v + w == 0)%Q.
Proof. exact (evaluateBoard_zero_sum captureBoard light captureBoard_wf). Defined.

(** *** The easy policy, for every random number *)

Lemma xtoIndex_Z (z : Z) : xtoIndex (Fin (inject_Z z)) = Some z.
Proof.
  unfold xtoIndex. rewrite Qfloor_Z.
  assert (Qeq_bool (inject_Z z) (inject_Z z) = true) as -> by (by apply Qeq_bool_iff).
  done.
Qed.

Lemma xtoIndex_pred (n : Z) : xtoIndex (Fin (inject_Z n + - inject_Z 1)) = Some (n - 1).
Proof.
  assert (Heq : (inject_Z n + - inject_Z 1 == inject_Z (n - 1))%Q).
  { unfold Z.sub. rewrite inject_Z_plus, inject_Z_opp. reflexivity. }
  unfold xtoIndex.
  assert (Hfl : Qfloor (inject_Z n + - inject_Z 1) = n - 1).
  { rewrite (Qfloor_comp _ _ Heq). apply Qfloor_Z. }
  rewrite Hfl.
  assert (Qeq_bool (inject_Z n + - inject_Z 1) (inject_Z (n - 1)) = true) as ->
    by (by apply Qeq_bool_iff).
  done.
Qed.

(** X16. The easy policy, in exact arithmetic: for a random number [q] with
    [0 <= q < 1] and a non-empty list of [n] moves it draws once and
    returns the move at index [floor (q * n)], which is an index of the
    list; the clamp to [n - 1] changes nothing. *)
Theorem easy_picks_floor (rnd : nat -> xQ) (moves : list Move) (b : Board) (p : Player)
    (k : nat) (q : Q) :
  rnd k = Fin q -> (0 <= q < 1)%Q -> moves <> [] ->
  exists m,
    chooseMoveBySkill rnd easy moves b p k = Ok (Some m, S k)
    /\ index moves (Qfloor (q * inject_Z (Z.of_nat (length moves)))) = Some m.
Proof.
  intros Hq [Hq0 Hq1] Hne. unfold chooseMoveBySkill.
  destruct moves as [|m0 ms] eqn:Hmoves; [done|]. cbn [isEmpty]. rewrite <- Hmoves in *.
  set (n := Z.of_nat (length moves)).
  assert (Hn : 1 <= n) by (subst n; rewrite Hmoves; cbn [length]; lia).
  set (f := Qfloor (q * inject_Z n)).
  assert (Hf : 0 <= f <= n - 1).
  { assert (Hn' : (1 <= inject_Z n)%Q) by (change 1%Q with (inject_Z 1); by rewrite <- Zle_Qle).
    split.
    - change 0 with (Qfloor 0). apply Qfloor_resp_le. nra.
    - assert (Hlt : f < n); [|lia].
      rewrite Zlt_Qlt.
      apply Qle_lt_trans with (y := (q * inject_Z n)%Q); [apply Qfloor_le|nra]. }
  rewrite Hq. cbn [ofZ nsub nmul nmin nfloor toIndex Num_xQ xsub xadd xopp xmul xfloor xmin].
  fold n. fold f.
  assert (Hidx : xtoIndex (if xlt (Fin (inject_Z f)) (Fin (inject_Z n + - inject_Z 1))
                           then Fin (inject_Z f) else Fin (inject_Z n + - inject_Z 1))
                 = Some f).
  { destruct (xlt _ _) eqn:Hlt; [apply xtoIndex_Z|].
    rewrite xtoIndex_pred. f_equal. cbn [xlt] in Hlt. apply Qltb_false in Hlt.
    assert (Hle : (inject_Z (n - 1) <= inject_Z f)%Q).
    { unfold Z.sub. rewrite inject_Z_plus, inject_Z_opp. exact Hlt. }
    rewrite <- Zle_Qle in Hle. lia. }
  rewrite Hidx.
  destruct (index_in_range moves f) as [m Hm]; [subst n; lia|].
  exists m. by rewrite Hm.
Qed.

Lemma easy_picks_floor_witness :
  exists m,
    chooseMoveBySkill (fun _ => Fin (1 # 2)) easy (numberedMoves 7) emptyBoard light 0
    = Ok (Some m, 1%nat)
    /\ index (numberedMoves 7) 3 = Some m.
Proof.
  apply (easy_picks_floor (fun _ => Fin (1 # 2)) (numberedMoves 7) emptyBoard light 0 (1 # 2)).
  - reflexivity.
  - split; [discriminate|reflexivity].
  - discriminate.
Defined.

(** *** [cloneBoard] on objects *)

(** X12. [cloneBoard] makes a deep copy.  Run on a reference to a board, it
    returns a reference to a board with the same contents whose outer
    array, row arrays and piece objects were all allocated by the call;
    the heap before the call is a prefix of the heap after it, so no
    object of the original was written to, and the original still has its
    contents. *)
Theorem cloneBoard_deep_copy (h : list Heap.obj) (b : Heap.loc) (bv : Board) :
  Heap.boardValue h b = Some bv ->
  exists h' nb,
    Heap.cloneBoard b h = (h', Ok nb)
    /\ h `prefix_of` h'
    /\ newBoard (length h) h' nb
    /\ Heap.boardValue h' nb = Some bv
    /\ Heap.boardValue h' b = Some bv.
Proof.
  intros Hbv.
  pose proof (cloneBoard_separated b bv h Hbv) as Hsep.
  pose proof (cloneBoard_new (length h) b h (le_n _)) as Hnew.
  unfold wp in Hsep, Hnew.
  destruct (Heap.cloneBoard b h) as [h' r]. cbn [fst snd] in *.
  destruct Hsep as (nb & rows & locs & -> & Hsep). destruct Hnew as [Hpre Hnew].
  exists h', nb. split; [done|]. split; [done|]. split; [by apply Hnew|].
  split; [by eapply separated_value|].
  destruct Hpre as [ext ->]. by apply boardValue_grow.
Qed.

Lemma cloneBoard_deep_copy_witness :
  exists h b h' nb,
    Heap.allocBoard captureBoard [] = (h, Ok b)
    /\ Heap.cloneBoard b h = (h', Ok nb)
    /\ Heap.boardValue h' nb = Some captureBoard
    /\ Heap.boardValue h' b = Some captureBoard
    /\ (length h <= nb)%nat.
Proof.
  destruct (Heap.allocBoard captureBoard []) as [h0 [b0|]] eqn:Hrun;
    [|vm_compute in Hrun; discriminate].
  assert (Hbv : Heap.boardValue h0 b0 = Some captureBoard).
  { vm_compute in Hrun. injection Hrun as <- <-. vm_compute. reflexivity. }
  destruct (cloneBoard_deep_copy h0 b0 captureBoard Hbv)
    as (h' & nb & Hclone & _ & Hnew & Hv & Hv').
  exists h0, b0, h', nb. split; [reflexivity|]. split; [exact Hclone|]. split; [exact Hv|].
  split; [exact Hv'|]. apply Hnew.
Defined.

(** *** How many moves *)

Lemma getLegalMoves_length_witness :
  exists moves,
    getLegalMoves captureBoard light None = Ok moves
    /\ (length moves <= 4 * length (playerPieces captureBoard light))%nat.
Proof.
  eexists. split; [vm_compute; reflexivity|].
  apply (getLegalMoves_length captureBoard light _ captureBoard_wf).
  vm_compute. reflexivity.
Defined.

(** *** From a point of the screen to a tile *)

Lemma Qfloor_unique (t : Q) (z : Z) :
  (inject_Z z <= t < inject_Z z + 1)%Q -> Qfloor t = z.
Proof.
  intros [Hle Hlt].
  pose proof (Qfloor_le t) as Hfl. pose proof (Qlt_floor t) as Hfu.
  rewrite inject_Z_plus in Hfu. change (inject_Z 1) with 1%Q in Hfu.
  assert (H1 : (inject_Z (Qfloor t) < inject_Z (z + 1))%Q).
  { rewrite inject_Z_plus. change (inject_Z 1) with 1%Q. lra. }
  assert (H2 : (inject_Z z < inject_Z (Qfloor t + 1))%Q).
  { rewrite inject_Z_plus. change (inject_Z 1) with 1%Q. lra. }
  rewrite <- Zlt_Qlt in H1, H2. lia.
Qed.

(** [roundUp] in exact arithmetic: the integer [z] with
    [z - 1/2 <= t < z + 1/2]. *)
Lemma roundUp_xQ (t : Q) (z : Z) :
  (inject_Z z - (1 # 2) <= t < inject_Z z + (1 # 2))%Q ->
  exists r, roundUp (R := xQ) (Fin t) = Fin r /\ (r == inject_Z z)%Q.
Proof.
  intros [Hle Hlt]. unfold roundUp. rewrite (dec_xQ 5 10) by reflexivity.
  cbn [nfloor nsub nle nadd ofZ Num_xQ xfloor xsub xadd xopp xle].
  pose proof (Qfloor_le t) as Hfl. pose proof (Qlt_floor t) as Hfu.
  rewrite inject_Z_plus in Hfu. change (inject_Z 1) with 1%Q in *.
  assert (H510 : (inject_Z 5 / inject_Z 10 == 1 # 2)%Q) by reflexivity.
  destruct (Qle_bool _ _) eqn:Hhalf.
  - apply Qle_bool_iff in Hhalf.
    assert (Qfloor t = z - 1) as ->.
    { apply Qfloor_unique. unfold Z.sub. rewrite inject_Z_plus, inject_Z_opp.
      change (inject_Z 1) with 1%Q.
      assert (Hz : (inject_Z (Qfloor t) < inject_Z z)%Q) by lra.
      rewrite <- Zlt_Qlt in Hz.
      assert (Hz' : (inject_Z (z - 1) < inject_Z (Qfloor t + 1))%Q).
      { unfold Z.sub. rewrite !inject_Z_plus, inject_Z_opp. change (inject_Z 1) with 1%Q. lra. }
      rewrite <- Zlt_Qlt in Hz'.
      assert (Qfloor t = z - 1) as Heq by lia. rewrite Heq in Hfl, Hfu.
      unfold Z.sub in Hfl, Hfu. rewrite inject_Z_plus, inject_Z_opp in Hfl, Hfu.
      change (inject_Z 1) with 1%Q in *. lra. }
    eexists. split; [reflexivity|]. unfold Z.sub. rewrite inject_Z_plus, inject_Z_opp.
    change (inject_Z 1) with 1%Q. lra.
  - assert (Hhalf' : (t + - inject_Z (Qfloor t) < 1 # 2)%Q).
    { apply Qnot_le_lt. intros H. rewrite <- H510 in H. apply Qle_bool_iff in H. congruence. }
    assert (Qfloor t = z) as ->.
    { assert (Hz : (inject_Z z < inject_Z (Qfloor t + 1))%Q).
      { rewrite inject_Z_plus. change (inject_Z 1) with 1%Q. lra. }
      assert (Hz' : (inject_Z (Qfloor t) < inject_Z (z + 1))%Q).
      { rewrite inject_Z_plus. change (inject_Z 1) with 1%Q. lra. }
      rewrite <- Zlt_Qlt in Hz, Hz'. lia. }
    eexists. split; [reflexivity|]. lra.
Qed.

(** [round] is the same integer: exact arithmetic has one zero. *)
Lemma round_xQ (t : Q) (z : Z) :
  (inject_Z z - (1 # 2) <= t < inject_Z z + (1 # 2))%Q ->
  exists r, round (R := xQ) (Fin t) = Fin r /\ (r == inject_Z z)%Q.
Proof.
  intros Hz. destruct (roundUp_xQ t z Hz) as (r & Hr & Hrz).
  unfold round. rewrite Hr. cbn [nlt nle nopp ofZ Num_xQ xlt xle xopp].
  destruct (Qltb t (inject_Z 0) && Qle_bool (inject_Z 0) r) eqn:Hneg.
  - apply andb_prop in Hneg as [Hlt%Qltb_spec Hle%Qle_bool_iff].
    change (inject_Z 0) with 0%Q in *.
    eexists. split; [reflexivity|].
    assert (Hz0 : (inject_Z z < 1)%Q) by lra.
    assert (Hz1 : (- (1) < inject_Z z)%Q) by lra.
    change 1%Q with (inject_Z 1) in Hz0. change (- (1))%Q with (inject_Z (-1)) in Hz1.
    rewrite <- Zlt_Qlt in Hz0, Hz1. assert (z = 0) as -> by lia. reflexivity.
  - by exists r.
Qed.

Lemma round_xQ_total (t : Q) :
  exists z r,
    round (R := xQ) (Fin t) = Fin r /\ (r == inject_Z z)%Q
    /\ (inject_Z z - (1 # 2) <= t < inject_Z z + (1 # 2))%Q.
Proof.
  set (z := Qfloor (t + (1 # 2))).
  assert (Hz : (inject_Z z - (1 # 2) <= t < inject_Z z + (1 # 2))%Q).
  { pose proof (Qfloor_le (t + (1 # 2))) as Hfl. pose proof (Qlt_floor (t + (1 # 2))) as Hfu.
    fold z in Hfl, Hfu. rewrite inject_Z_plus in Hfu. change (inject_Z 1) with 1%Q in Hfu.
    split; lra. }
  destruct (round_xQ t z Hz) as (r & Hr & Hrz). by exists z, r.
Qed.

Lemma xtoIndex_int (r : Q) (z : Z) : (r == inject_Z z)%Q -> xtoIndex (Fin r) = Some z.
Proof.
  intros Hr. unfold xtoIndex.
  assert (Hfl : Qfloor r = z) by (rewrite (Qfloor_comp _ _ Hr); apply Qfloor_Z).
  rewrite Hfl.
  assert (Qeq_bool r (inject_Z z) = true) as -> by (by apply Qeq_bool_iff). done.
Qed.

Lemma isInsideBoard_xQ (r c : Q) (row col : Z) :
  (r == inject_Z row)%Q -> (c == inject_Z col)%Q ->
  isInsideBoard (R := xQ) (Fin r) (Fin c) = isInside row col.
Proof.
  intros Hr Hc. unfold isInsideBoard, isInside, BOARD_SIZE.
  cbn [nle nlt ofZ Num_xQ xle xlt].
  assert (Hle : forall (q : Q) (z : Z), (q == inject_Z z)%Q ->
                  Qle_bool (inject_Z 0) q = (0 <=? z)).
  { intros q z Hq. destruct (Z.leb_spec 0 z) as [H|H].
    - apply Qle_bool_iff. rewrite Hq. by rewrite <- Zle_Qle.
    - destruct (Qle_bool _ _) eqn:E; [|done]. apply Qle_bool_iff in E.
      rewrite Hq in E. rewrite <- Zle_Qle in E. lia. }
  assert (Hlt : forall (q : Q) (z : Z), (q == inject_Z z)%Q ->
                  Qltb q (inject_Z 8) = (z <? 8)).
  { intros q z Hq. destruct (Z.ltb_spec z 8) as [H|H].
    - apply Qltb_spec. rewrite Hq. by rewrite <- Zlt_Qlt.
    - apply Qltb_false. rewrite Hq. by rewrite <- Zle_Qle. }
  by rewrite (Hle r row Hr), (Hle c col Hc), (Hlt r row Hr), (Hlt c col Hc).
Qed.

(** The two numbers that [boardPointToCell] rounds. *)
Lemma boardPointToCell_xQ (x y : Q) :
  exists t1 t2 : Q,
    boardPointToCell (R := xQ) (Fin x) (Fin y)
    = (let row := round (Fin t1) in
       let col := round (Fin t2) in
       if negb (isInsideBoard row col) then None else Some (row, col))
    /\ (forall row col,
          inTile row col x y
          <-> (inject_Z row - (1 # 2) <= t1 < inject_Z row + (1 # 2))%Q
              /\ (inject_Z col - (1 # 2) <= t2 < inject_Z col + (1 # 2))%Q).
Proof.
  unfold boardPointToCell, CENTER_X, VIEW_WIDTH, TILE_HALF_WIDTH, TILE_HALF_HEIGHT,
    TOP_WIDTH, TOP_HEIGHT, TOP_PADDING, HORIZONTAL_PADDING, BOARD_EDGE_PADDING_X,
    BOARD_EDGE_PADDING_Y.
  cbn [nsub nadd nmul ofZ Num_xQ xsub xadd xmul xopp ndiv].
  repeat (rewrite !xdiv_Fin by reflexivity; cbn [xadd xopp xsub]).
  eexists _, _. split; [reflexivity|].
  intros row col. unfold inTile. cbv zeta.
  change (inject_Z 800) with 800%Q. change (inject_Z 448) with 448%Q.
  change (inject_Z 28) with 28%Q. change (inject_Z 18) with 18%Q.
  change (inject_Z 34) with 34%Q. change (inject_Z 26) with 26%Q.
  change (inject_Z 16) with 16%Q. change (inject_Z 2) with 2%Q.
  change (inject_Z 1) with 1%Q.
  assert (Hu : forall a : Q, (a / ((800 + - (28 * 2)) / 16) == a * (2 # 93))%Q)
    by (intros; field).
  assert (Hv : forall a : Q, (a / ((448 + - (18 * 2)) / 16) == a * (4 # 103))%Q)
    by (intros; field).
  assert (Hu' : forall a : Q, (a / (93 # 2) == a * (2 # 93))%Q) by (intros; field).
  assert (Hv' : forall a : Q, (a / (103 # 4) == a * (4 # 103))%Q) by (intros; field).
  assert (H2 : forall a : Q, (a / 2 == a * (1 # 2))%Q) by (intros; field).
  rewrite !Hu, !Hv, !Hu', !Hv', !H2.
  split; intros [[H1 H3] [H4 H5]]; (split; split); lra.
Qed.

(** X25. [boardPointToCell] finds the tile under a point.  In exact
    arithmetic, for every point of the screen: either the function returns
    the indices of a tile of the board and the point lies in the rhombus of
    that tile, or it returns [null] and the point lies in the rhombus of no
    tile of the board. *)
Theorem boardPointToCell_tile (x y : Q) :
  (exists row col,
      cellOf (R := xQ) (Fin x) (Fin y) = Some (Some row, Some col)
      /\ isInside row col = true /\ inTile row col x y)
  \/ (cellOf (R := xQ) (Fin x) (Fin y) = None
      /\ forall row col, isInside row col = true -> ~ inTile row col x y).
Proof.
  destruct (boardPointToCell_xQ x y) as (t1 & t2 & Hrun & Htile).
  destruct (round_xQ_total t1) as (z1 & r1 & Hr1 & Hz1 & Ht1).
  destruct (round_xQ_total t2) as (z2 & r2 & Hr2 & Hz2 & Ht2).
  unfold cellOf. rewrite Hrun. cbv zeta. rewrite Hr1, Hr2.
  rewrite (isInsideBoard_xQ r1 r2 z1 z2 Hz1 Hz2).
  destruct (isInside z1 z2) eqn:Hin; cbn [negb option_map fst snd].
  - left. exists z1, z2. cbn [toIndex Num_xQ].
    rewrite (xtoIndex_int r1 z1 Hz1), (xtoIndex_int r2 z2 Hz2).
    split; [done|]. split; [done|]. by apply Htile.
  - right. split; [done|]. intros row col Hin' [Hrow Hcol]%Htile.
    assert (row = z1 /\ col = z2) as [-> ->]; [|congruence].
    assert (H1 : (inject_Z row < inject_Z (z1 + 1))%Q
                 /\ (inject_Z z1 < inject_Z (row + 1))%Q
                 /\ (inject_Z col < inject_Z (z2 + 1))%Q
                 /\ (inject_Z z2 < inject_Z (col + 1))%Q).
    { rewrite !inject_Z_plus. change (inject_Z 1) with 1%Q. repeat split; lra. }
    rewrite <- !Zlt_Qlt in H1. lia.
Qed.

Lemma centreRoundTrip_all : forallb centreRoundTrip squares = true.
Proof. vm_compute. reflexivity. Qed.

(** X26. In binary64, as the browser computes: for every tile of the board,
    [boardPointToCell] maps the centre that [getTileCenter] gives for the
    tile back to the tile. *)
Theorem boardPointToCell_centre (row col : Z) :
  isInside row col = true ->
  cellOf (fst (getTileCenter (R := float) (ofZ row) (ofZ col)))
         (snd (getTileCenter (R := float) (ofZ row) (ofZ col)))
  = Some (Some row, Some col).
Proof.
  intros Hin%In_squares.
  pose proof (proj1 (forallb_forall _ _) centreRoundTrip_all _ Hin) as H.
  unfold centreRoundTrip in H. cbn [fst snd] in H.
  destruct (getTileCenter (ofZ row) (ofZ col)) as [x y]. by apply bool_decide_eq_true in H.
Qed.

Lemma boardPointToCell_centre_witness :
  cellOf (fst (getTileCenter (R := float) (ofZ 5) (ofZ 2)))
         (snd (getTileCenter (R := float) (ofZ 5) (ofZ 2)))
  = Some (Some 5, Some 2).
Proof. apply (boardPointToCell_centre 5 2). reflexivity. Defined.

(** *** A move is known by its piece and its destination *)

Lemma validMove_determined (b : Board) (pc pc' : Piece) (m m' : Move) :
  uniqueIds b -> validMove b pc m -> validMove b pc' m' ->
  pieceId m = pieceId m' -> to m = to m' -> m = m'.
Proof.
  intros Hu (Hcell & Hid & _ & _ & dr & dc & (Hdr & Hdc & _) & Hshape)
    (Hcell' & Hid' & _ & _ & dr' & dc' & (Hdr' & Hdc' & _) & Hshape') Hids Hto.
  assert (Hfrom : from m = from m').
  { rewrite (surjective_pairing (from m)), (surjective_pairing (from m')).
    apply (Hu _ _ _ _ _ _ Hcell Hcell'). congruence. }
  destruct m as [i [fr fc] [tr tc] cap], m' as [i' [fr' fc'] [tr' tc'] cap'].
  cbn [pieceId from to capture fst snd] in *.
  injection Hfrom as <- <-. injection Hto as <- <-.
  assert (i' = i) as -> by congruence.
  f_equal.
  destruct cap as [[cr cc]|], cap' as [[cr' cc']|]; cbn [fst snd] in *.
  - destruct Hshape as ([= -> ->] & [= Hr Hc] & _), Hshape' as ([= -> ->] & [= Hr' Hc'] & _).
    do 2 f_equal; lia.
  - destruct Hshape as (_ & [= Hr Hc] & _). injection Hshape' as Hr' Hc'. lia.
  - destruct Hshape' as (_ & [= Hr' Hc'] & _). injection Hshape as Hr Hc. lia.
  - done.
Qed.

(** X3. Among the moves that [getLegalMoves] generates on an 8x8 board with
    distinct ids, a move is determined by the id of its piece and its
    destination: two generated moves that agree on both are the same
    move.  (The interface offers the moves of the selected piece by their
    destinations.) *)
Theorem getLegalMoves_determined (b : Board) (p : Player) (forced : option Z)
    (moves : list Move) (m m' : Move) :
  wf_board b -> uniqueIds b -> getLegalMoves b p forced = Ok moves ->
  In m moves -> In m' moves -> pieceId m = pieceId m' -> to m = to m' -> m = m'.
Proof.
  intros Hwf Hu Hrun Hm Hm'.
  destruct (getLegalMoves_any_valid b p forced Hwf) as (moves' & Hrun' & HF).
  assert (moves' = moves) as -> by congruence.
  rewrite List.Forall_forall in HF.
  destruct (HF m Hm) as [pc Hv], (HF m' Hm') as [pc' Hv'].
  by apply (validMove_determined b pc pc').
Qed.

Lemma getLegalMoves_determined_witness :
  exists moves,
    getLegalMoves chainBoard dark None = Ok moves
    /\ forall m m', In m moves -> In m' moves ->
                    pieceId m = pieceId m' -> to m = to m' -> m = m'.
Proof.
  eexists. split; [vm_compute; reflexivity|].
  intros m m'.
  apply (getLegalMoves_determined chainBoard dark None _ m m' chainBoard_wf).
  - apply chainBoard_good.
  - vm_compute. reflexivity.
Defined.

(** *** Two clicks play a move *)

Lemma find_none_intro {A : Type} (f : A -> bool) (xs : list A) :
  (forall x, In x xs -> f x = false) -> find f xs = None.
Proof.
  induction xs as [|x xs IH]; intros H; [done|]. cbn [find].
  rewrite (H x (or_introl eq_refl)). apply IH. intros y Hy. apply H. by right.
Qed.

Lemma commitMove_setSelectedPieceId (s : Store.GameState) (v : option Z) (m : Move) :
  commitMove (setSelectedPieceId s v) m
  = match commitMove s m with
    | Ok s' => if Store.gameOver s || negb (isSome (find (fun c => isSameMove c m)
                                                          (Store.legalMoves s)))
               then Ok (setSelectedPieceId s v) else Ok s'
    | TypeError => TypeError
    end.
Proof.
  unfold commitMove. cbn [setSelectedPieceId Store.gameOver Store.legalMoves Store.board
    Store.currentPlayer Store.screen Store.mode Store.tutorialEnabled Store.tipIndex].
  destruct (Store.gameOver s); [done|]. cbn [orb].
  destruct (find _ _) as [lm|]; [|done]. cbn [isSome negb].
  destruct (applyMove _ _ _) as [next|]; [|done]. rewrite !bind_Ok.
  by destruct (getLegalMoves _ _ _).
Qed.

(** X24. Two clicks play a move.  In a consistent state of a game that is
    not over, when it is a human's turn and the computer is not waited for:
    for every move on offer, a click on the square of its piece selects
    the piece, and a click on its destination then commits this very move. *)
Theorem handleSquareClick_plays (s : Store.GameState) (m : Move) :
  consistent s -> Store.gameOver s = false ->
  isHumanTurn s = true -> Store.waitingForComputer s = false ->
  In m (Store.legalMoves s) ->
  exists s1,
    handleSquareClick s false (fst (from m)) (snd (from m)) = Ok s1
    /\ Store.selectedPieceId s1 = Some (pieceId m)
    /\ handleSquareClick s1 false (fst (to m)) (snd (to m)) = commitMove s m.
Proof.
  intros Hs Hover Hturn Hwait Hin.
  pose proof Hs as ((Hwf & Hu & Hn & _) & Hvalid & _).
  rewrite List.Forall_forall in Hvalid.
  destruct (Hvalid m Hin) as (pc & Hp & Hv).
  pose proof Hv as (Hcell & Hid & (Hfrom & _) & Hempty & _).
  assert (Hhas : existsb (fun move => pieceId move =? id pc) (Store.legalMoves s) = true).
  { apply existsb_exists. exists m. split; [done|]. by apply Z.eqb_eq. }
  assert (Htruthy : truthyId (Some (id pc)) = Some (id pc)).
  { cbn. destruct (Z.eqb_spec (id pc) 0) as [H0|_]; [|done]. by destruct (Hn _ _ _ Hcell). }
  exists (setSelectedPieceId s (Some (pieceId m))). split; [|split; [done|]].
  - unfold handleSquareClick. rewrite Hturn, Hwait. cbn [negb orb].
    rewrite find_none_intro.
    + rewrite (getCell_inside _ _ _ Hwf Hfrom), bind_Ok, Hcell, Hp.
      assert (Player_eqb (Store.currentPlayer s) (Store.currentPlayer s) = true) as ->
        by (by apply Player_eqb_eq).
      cbn [negb]. rewrite Hhas. unfold selectPiece. rewrite Htruthy, Hhas. by rewrite Hid.
    + intros m' Hm'. unfold selectedMoves in Hm'.
      destruct (truthyId (Store.selectedPieceId s)) as [i|]; [|done].
      apply filter_In in Hm' as [Hm' _].
      destruct (Hvalid m' Hm') as (pc' & _ & _ & _ & _ & Hempty' & _).
      apply andb_false_iff.
      destruct (Z.eqb_spec (fst (to m')) (fst (from m))) as [Hr|]; [|by left].
      destruct (Z.eqb_spec (snd (to m')) (snd (from m))) as [Hc|]; [|by right].
      rewrite Hr, Hc in Hempty'. congruence.
  - unfold handleSquareClick.
    change (isHumanTurn (setSelectedPieceId s (Some (pieceId m)))) with (isHumanTurn s).
    change (Store.waitingForComputer (setSelectedPieceId s (Some (pieceId m))))
      with (Store.waitingForComputer s).
    rewrite Hturn, Hwait. cbn [negb orb].
    unfold selectedMoves. cbn [setSelectedPieceId Store.selectedPieceId Store.legalMoves].
    rewrite Hid, Htruthy.
    destruct (find _ _) as [m'|] eqn:Hfind.
    + apply find_some in Hfind as [[Hm' Hpid%Z.eqb_eq]%filter_In [Hr%Z.eqb_eq Hc%Z.eqb_eq]%andb_true_iff].
      destruct (Hvalid m' Hm') as (pc' & _ & Hv').
      assert (m' = m) as ->.
      { apply (validMove_determined (Store.board s) pc' pc); try done; [congruence|].
        rewrite (surjective_pairing (to m')), (surjective_pairing (to m)). congruence. }
      rewrite <- Hid. rewrite commitMove_setSelectedPieceId.
      rewrite Hover, (find_isSameMove_In _ _ Hin). cbn [orb isSome negb].
      by destruct (commitMove s m).
    + exfalso. pose proof (find_none _ _ Hfind m) as Hnone. cbv beta in Hnone.
      rewrite !Z.eqb_refl in Hnone.
      assert (Hno : true && true = false); [|done]. apply Hnone.
      apply filter_In. split; [done|]. apply Z.eqb_eq. done.
Qed.

Lemma handleSquareClick_plays_witness :
  exists s s1,
    newGame game two false = Ok s
    /\ handleSquareClick s false 5 0 = Ok s1
    /\ Store.selectedPieceId s1 = Some 13
    /\ handleSquareClick s1 false 4 1
       = commitMove s {| pieceId := 13; from := (5, 0); to := (4, 1); capture := None |}.
Proof.
  destruct (newGame_consistent game two false) as (s & Hnew & Hs & _ & _ & Hover).
  assert (Hin : In {| pieceId := 13; from := (5, 0); to := (4, 1); capture := None |}
                   (Store.legalMoves s)
                /\ isHumanTurn s = true /\ Store.waitingForComputer s = false).
  { vm_compute in Hnew. injection Hnew as <-. split; [left; reflexivity|]. split; reflexivity. }
  destruct Hin as (Hin & Hturn & Hwait).
  destruct (handleSquareClick_plays s
              {| pieceId := 13; from := (5, 0); to := (4, 1); capture := None |}
              Hs Hover Hturn Hwait Hin) as (s1 & H1 & Hsel & H2).
  exists s, s1. split; [exact Hnew|]. split; [exact H1|]. split; [exact Hsel|exact H2].
Defined.

(** *** Pruning does not change the value *)

Lemma Qle_bool_true (a b : Q) : Qle_bool a b = true <-> (a <= b)%Q.
Proof. apply Qle_bool_iff. Qed.

Lemma Qle_bool_false (a b : Q) : Qle_bool a b = false <-> (b < a)%Q.
Proof.
  split.
  - intros H. apply Qnot_le_lt. intros Hle. apply Qle_bool_iff in Hle. congruence.
  - intros H. destruct (Qle_bool a b) eqn:E; [|done].
    apply Qle_bool_iff in E. exfalso. by apply (Qlt_not_le b a).
Qed.

(* Case analysis on the bounds and on the comparisons that choose between
   two numbers, down to linear arithmetic over the rationals. *)
Ltac xq_bounds :=
  repeat match goal with
         | H : lowBound _ |- _ => destruct H as [->|[? ->]]
         | H : highBound _ |- _ => destruct H as [->|[? ->]]
         end.

Ltac xq_if :=
  let E := fresh "E" in
  match goal with
  | |- context [if Qltb ?a ?b then _ else _] =>
      destruct (Qltb a b) eqn:E; [apply Qltb_spec in E|apply Qltb_false in E]
  | H : context [if Qltb ?a ?b then _ else _] |- _ =>
      destruct (Qltb a b) eqn:E; [apply Qltb_spec in E|apply Qltb_false in E]
  end.

Ltac xq_solve :=
  xq_bounds; unfold failsoft, jittered in *;
  cbn [xle xlt xmax xmin] in *;
  repeat (xq_if; cbn [xle xlt xmax xmin] in * );
  rewrite ?Qle_bool_true, ?Qle_bool_false, ?Qltb_spec, ?Qltb_false in *;
  first [lra | reflexivity | (repeat split; lra) | by left | (right; by eexists)].

Lemma xmax_low (a b : xQ) : lowBound a -> lowBound b -> lowBound (xmax a b).
Proof. intros Ha Hb. unfold lowBound. xq_solve. Qed.

Lemma xmax_alpha (alpha V x : xQ) :
  lowBound alpha -> lowBound V -> lowBound x ->
  xmax (xmax alpha V) (xmax V x) = xmax alpha (xmax V x).
Proof. intros Ha HV Hx. xq_bounds; cbn [xle xlt xmax xmin];
  repeat (xq_if; cbn [xle xlt xmax xmin] in * ); first [reflexivity | exfalso; lra]. Qed.

Lemma max_step (alpha beta V Tj : xQ) (tj v : Q) :
  lowBound alpha -> highBound beta -> lowBound V -> lowBound Tj ->
  failsoft alpha beta Tj V -> xle beta (xmax alpha V) = false ->
  failsoft (xmax alpha V) beta (Fin tj) (Fin v) ->
  failsoft alpha beta (xmax Tj (Fin tj)) (xmax V (Fin v)).
Proof. intros Ha Hb HV HT. intros. xq_solve. Qed.

Lemma max_jitter (T Tj : xQ) (t tj : Q) :
  lowBound T -> lowBound Tj -> jittered T Tj -> jittered (Fin t) (Fin tj) ->
  jittered (xmax T (Fin t)) (xmax Tj (Fin tj)).
Proof. intros HT HTj. intros. xq_solve. Qed.

Lemma max_break (alpha beta V T Tj Tfin : xQ) :
  lowBound alpha -> highBound beta -> lowBound V -> lowBound T -> lowBound Tj ->
  lowBound Tfin ->
  xlt alpha beta = true -> failsoft alpha beta Tj V -> jittered T Tj ->
  xle T Tfin = true -> xle beta (xmax alpha V) = true ->
  jittered Tfin (xmax Tj Tfin) /\ failsoft alpha beta (xmax Tj Tfin) V.
Proof. intros Ha Hb HV HT HTj HTf. intros. xq_solve. Qed.

Lemma min_step (alpha beta V Tj : xQ) (tj v : Q) :
  lowBound alpha -> highBound beta -> highBound V -> highBound Tj ->
  failsoft alpha beta Tj V -> xle (xmin beta V) alpha = false ->
  failsoft alpha (xmin beta V) (Fin tj) (Fin v) ->
  failsoft alpha beta (xmin Tj (Fin tj)) (xmin V (Fin v)).
Proof. intros Ha Hb HV HT. intros. xq_solve. Qed.

Lemma min_jitter (T Tj : xQ) (t tj : Q) :
  highBound T -> highBound Tj -> jittered T Tj -> jittered (Fin t) (Fin tj) ->
  jittered (xmin T (Fin t)) (xmin Tj (Fin tj)).
Proof. intros HT HTj. intros. xq_solve. Qed.

Lemma min_break (alpha beta V T Tj Tfin : xQ) :
  lowBound alpha -> highBound beta -> highBound V -> highBound T -> highBound Tj ->
  highBound Tfin ->
  xlt alpha beta = true -> failsoft alpha beta Tj V -> jittered T Tj ->
  xle Tfin T = true -> xle (xmin beta V) alpha = true ->
  jittered Tfin (xmin Tj Tfin) /\ failsoft alpha beta (xmin Tj Tfin) V.
Proof. intros Ha Hb HV HT HTj HTf. intros. xq_solve. Qed.

Lemma xmin_high (a b : xQ) : highBound a -> highBound b -> highBound (xmin a b).
Proof. intros Ha Hb. unfold highBound. xq_solve. Qed.

Lemma xmin_beta (beta V x : xQ) :
  highBound beta -> highBound V -> highBound x ->
  xmin (xmin beta V) (xmin V x) = xmin beta (xmin V x).
Proof. intros Ha HV Hx. xq_bounds; cbn [xle xlt xmax xmin];
  repeat (xq_if; cbn [xle xlt xmax xmin] in * ); first [reflexivity | exfalso; lra]. Qed.

Lemma window_open (a b : xQ) :
  lowBound a -> highBound b -> xle b a = false -> xlt a b = true.
Proof. intros Ha Hb H. xq_solve. Qed.

Lemma window_closed (a b : xQ) :
  lowBound a -> highBound b -> xlt a b = true -> xle b a = false.
Proof. intros Ha Hb H. xq_solve. Qed.

Lemma xmax_Fin (V : xQ) (v : Q) : lowBound V -> exists q, xmax V (Fin v) = Fin q.
Proof. intros HV. xq_bounds; cbn [xmax xlt]; [|destruct (Qltb _ _)]; by eexists. Qed.

Lemma xmin_Fin (V : xQ) (v : Q) : highBound V -> exists q, xmin V (Fin v) = Fin q.
Proof. intros HV. xq_bounds; cbn [xmin xlt]; [|destruct (Qltb _ _)]; by eexists. Qed.

Lemma xmax_NInf (a : xQ) : lowBound a -> xmax a NInf = a.
Proof. intros Ha. by xq_bounds. Qed.

Lemma xmin_PInf (a : xQ) : highBound a -> xmin a PInf = a.
Proof. intros Ha. by xq_bounds. Qed.

Lemma xle_xmax (T : xQ) (t : Q) : lowBound T -> xle T (xmax T (Fin t)) = true.
Proof. intros HT. xq_solve. Qed.

Lemma xle_xmin (T : xQ) (t : Q) : highBound T -> xle (xmin T (Fin t)) T = true.
Proof. intros HT. xq_solve. Qed.

Lemma xle_trans (a b c : xQ) :
  lowBound a -> lowBound b -> lowBound c ->
  xle a b = true -> xle b c = true -> xle a c = true.
Proof. intros Ha Hb Hc. intros. xq_solve. Qed.

Lemma xle_trans_high (a b c : xQ) :
  highBound a -> highBound b -> highBound c ->
  xle a b = true -> xle b c = true -> xle a c = true.
Proof. intros Ha Hb Hc. intros. xq_solve. Qed.

Lemma evaluateBoard_Fin (b : Board) (p : Player) :
  wf_board b -> exists e, evaluateBoard (R := xQ) b p = Ok (Fin e).
Proof.
  intros Hwf. unfold evaluateBoard.
  destruct (evalRows_opposite b p Hwf) as (a1 & a2 & -> & _ & v & w & -> & _).
  rewrite bind_Ok.
  destruct (getLegalMoves_total b p None Hwf) as (mine & -> & _).
  destruct (getLegalMoves_total b (otherPlayer p) None Hwf) as (theirs & -> & _).
  rewrite !bind_Ok. rewrite (dec_xQ 6 100) by reflexivity.
  cbn [ofZ nsub nmul nadd Num_xQ xsub xadd xopp xmul]. by eexists.
Qed.

Section AlphaBeta.
Variable rnd : nat -> xQ.
Hypothesis rnd_unit : forall i, exists q, rnd i = Fin q /\ (0 <= q < 1)%Q.
Variable maximizingPlayer : Player.

Section Loops.
Variable rec : Board -> Player -> option Z -> xQ -> xQ -> nat -> res (xQ * nat).
Variable spec : Board -> Player -> option Z -> res xQ.
Hypothesis Hchild : forall b' cur' forced' alpha' beta' k',
  wf_board b' -> lowBound alpha' -> highBound beta' -> xlt alpha' beta' = true ->
  exists v t tj k'',
    rec b' cur' forced' alpha' beta' k' = Ok (Fin v, k'')
    /\ spec b' cur' forced' = Ok (Fin t)
    /\ jittered (Fin t) (Fin tj)
    /\ failsoft alpha' beta' (Fin tj) (Fin v).
Variable b : Board.
Hypothesis Hwf : wf_board b.
Variable cur : Player.

Lemma spec_child (m : Move) :
  onBoard m ->
  exists next t,
    applyMove b m cur = Ok next /\ wf_board (board next)
    /\ spec (board next) (currentPlayer next) (forcedPieceId next) = Ok (Fin t).
Proof.
  intros Hm. destruct (applyMove_total b m cur Hwf Hm) as (next & Hnext & Hwf').
  destruct (Hchild (board next) (currentPlayer next) (forcedPieceId next) NInf PInf 0%nat Hwf')
    as (v & t & tj & k'' & _ & Hspec & _); [by left|by left|done|].
  by exists next, t.
Qed.

Lemma specMax_rest (moves : list Move) :
  Forall onBoard moves ->
  forall T, lowBound T ->
    exists Tfin,
      foldM (fun value move =>
               next ← applyMove b move cur;
               v ← spec (board next) (currentPlayer next) (forcedPieceId next);
               Ok (xmax value v)) T moves = Ok Tfin
      /\ lowBound Tfin /\ xle T Tfin = true
      /\ (moves <> [] \/ (exists q, T = Fin q) -> exists q, Tfin = Fin q).
Proof.
  induction 1 as [|m ms Hm _ IH]; intros T HT; cbn [foldM].
  - exists T. split; [done|]. split; [done|]. split; [xq_solve|]. by intros [?|?].
  - destruct (spec_child m Hm) as (next & t & -> & _ & Hspec).
    rewrite bind_Ok, Hspec, !bind_Ok.
    destruct (IH (xmax T (Fin t))) as (Tfin & Hfold & Hlow & Hle & Hfin);
      [by apply xmax_low; [|right; eexists]|].
    exists Tfin. split; [done|]. split; [done|].
    split.
    + eapply (xle_trans T (xmax T (Fin t)) Tfin); try done.
      * by apply xmax_low; [|right; eexists].
      * by apply xle_xmax.
    + intros _. apply Hfin. right. by apply xmax_Fin.
Qed.

Lemma specMin_rest (moves : list Move) :
  Forall onBoard moves ->
  forall T, highBound T ->
    exists Tfin,
      foldM (fun value move =>
               next ← applyMove b move cur;
               v ← spec (board next) (currentPlayer next) (forcedPieceId next);
               Ok (xmin value v)) T moves = Ok Tfin
      /\ highBound Tfin /\ xle Tfin T = true
      /\ (moves <> [] \/ (exists q, T = Fin q) -> exists q, Tfin = Fin q).
Proof.
  induction 1 as [|m ms Hm _ IH]; intros T HT; cbn [foldM].
  - exists T. split; [done|]. split; [done|]. split; [xq_solve|]. by intros [?|?].
  - destruct (spec_child m Hm) as (next & t & -> & _ & Hspec).
    rewrite bind_Ok, Hspec, !bind_Ok.
    destruct (IH (xmin T (Fin t))) as (Tfin & Hfold & Hlow & Hle & Hfin);
      [by apply xmin_high; [|right; eexists]|].
    exists Tfin. split; [done|]. split; [done|].
    split.
    + eapply (xle_trans_high Tfin (xmin T (Fin t)) T); try done.
      * by apply xmin_high; [|right; eexists].
      * by apply xle_xmin.
    + intros _. apply Hfin. right. by apply xmin_Fin.
Qed.

Lemma maxLoop_failsoft (alpha beta : xQ) (moves : list Move) :
  lowBound alpha -> highBound beta -> xlt alpha beta = true ->
  Forall onBoard moves ->
  forall V T Tj k,
    lowBound V -> lowBound T -> lowBound Tj ->
    jittered T Tj -> failsoft alpha beta Tj V -> xle beta (xmax alpha V) = false ->
    exists v k' Tfin Tjfin,
      maxLoop rec b cur moves V (xmax alpha V) beta k = Ok (v, k')
      /\ foldM (fun value move =>
                  next ← applyMove b move cur;
                  v ← spec (board next) (currentPlayer next) (forcedPieceId next);
                  Ok (xmax value v)) T moves = Ok Tfin
      /\ jittered Tfin Tjfin /\ failsoft alpha beta Tjfin v
      /\ (moves <> [] \/ ((exists q, V = Fin q) /\ exists q, T = Fin q) ->
          (exists q, v = Fin q) /\ exists q, Tfin = Fin q).
Proof.
  intros Ha Hb Hab. induction 1 as [|m ms Hm Hms IH]; intros V T Tj k HV HT HTj Hjit Hsoft Hopen.
  { exists V, k, T, Tj. cbn [maxLoop foldM]. repeat (split; [done|]). by intros [?|?]. }
  cbn [maxLoop foldM].
  destruct (applyMove_total b m cur Hwf Hm) as (next & Hnext & Hwf').
  rewrite Hnext, !bind_Ok.
  destruct (Hchild (board next) (currentPlayer next) (forcedPieceId next) (xmax alpha V) beta k
              Hwf') as (v' & t' & tj' & k1 & Hrec & Hspec & Hjit' & Hsoft');
    [by apply xmax_low|done|by apply window_open; [apply xmax_low| |]|].
  rewrite Hrec, Hspec, !bind_Ok. cbv zeta. cbn [nmax nle Num_xQ].
  assert (HV' : lowBound (xmax V (Fin v'))) by (apply xmax_low; [done|right; by eexists]).
  assert (HT' : lowBound (xmax T (Fin t'))) by (apply xmax_low; [done|right; by eexists]).
  assert (HTj' : lowBound (xmax Tj (Fin tj'))) by (apply xmax_low; [done|right; by eexists]).
  rewrite (xmax_alpha alpha V (Fin v')) by (try done; right; by eexists).
  pose proof (max_step alpha beta V Tj tj' v' Ha Hb HV HTj Hsoft Hopen Hsoft') as Hsoft2.
  pose proof (max_jitter T Tj t' tj' HT HTj Hjit Hjit') as Hjit2.
  destruct (xmax_Fin V v' HV) as [qv Hqv]. destruct (xmax_Fin T t' HT) as [qt Hqt].
  destruct (xle beta (xmax alpha (xmax V (Fin v')))) eqn:Hbreak.
  - destruct (specMax_rest ms Hms (xmax T (Fin t')) HT') as (Tfin & Hfold & HTfin & Hle & Hfin).
    destruct (max_break alpha beta (xmax V (Fin v')) (xmax T (Fin t')) (xmax Tj (Fin tj')) Tfin)
      as [Hjit3 Hsoft3]; try done.
    exists (xmax V (Fin v')), k1, Tfin, (xmax (xmax Tj (Fin tj')) Tfin).
    repeat (split; [done|]). intros _. split; [by eexists|]. apply Hfin. right. by eexists.
  - destruct (IH (xmax V (Fin v')) (xmax T (Fin t')) (xmax Tj (Fin tj')) k1)
      as (v & k' & Tfin & Tjfin & Hloop & Hfold & Hjit3 & Hsoft3 & Hfin); try done.
    exists v, k', Tfin, Tjfin. repeat (split; [done|]). intros _. apply Hfin. right.
    split; by eexists.
Qed.

Lemma minLoop_failsoft (alpha beta : xQ) (moves : list Move) :
  lowBound alpha -> highBound beta -> xlt alpha beta = true ->
  Forall onBoard moves ->
  forall V T Tj k,
    highBound V -> highBound T -> highBound Tj ->
    jittered T Tj -> failsoft alpha beta Tj V -> xle (xmin beta V) alpha = false ->
    exists v k' Tfin Tjfin,
      minLoop rec b cur moves V alpha (xmin beta V) k = Ok (v, k')
      /\ foldM (fun value move =>
                  next ← applyMove b move cur;
                  v ← spec (board next) (currentPlayer next) (forcedPieceId next);
                  Ok (xmin value v)) T moves = Ok Tfin
      /\ jittered Tfin Tjfin /\ failsoft alpha beta Tjfin v
      /\ (moves <> [] \/ ((exists q, V = Fin q) /\ exists q, T = Fin q) ->
          (exists q, v = Fin q) /\ exists q, Tfin = Fin q).
Proof.
  intros Ha Hb Hab. induction 1 as [|m ms Hm Hms IH]; intros V T Tj k HV HT HTj Hjit Hsoft Hopen.
  { exists V, k, T, Tj. cbn [minLoop foldM]. repeat (split; [done|]). by intros [?|?]. }
  cbn [minLoop foldM].
  destruct (applyMove_total b m cur Hwf Hm) as (next & Hnext & Hwf').
  rewrite Hnext, !bind_Ok.
  destruct (Hchild (board next) (currentPlayer next) (forcedPieceId next) alpha (xmin beta V) k
              Hwf') as (v' & t' & tj' & k1 & Hrec & Hspec & Hjit' & Hsoft');
    [done|by apply xmin_high|by apply window_open; [|apply xmin_high|]|].
  rewrite Hrec, Hspec, !bind_Ok. cbv zeta. cbn [nmin nle Num_xQ].
  assert (HV' : highBound (xmin V (Fin v'))) by (apply xmin_high; [done|right; by eexists]).
  assert (HT' : highBound (xmin T (Fin t'))) by (apply xmin_high; [done|right; by eexists]).
  assert (HTj' : highBound (xmin Tj (Fin tj'))) by (apply xmin_high; [done|right; by eexists]).
  rewrite (xmin_beta beta V (Fin v')) by (try done; right; by eexists).
  pose proof (min_step alpha beta V Tj tj' v' Ha Hb HV HTj Hsoft Hopen Hsoft') as Hsoft2.
  pose proof (min_jitter T Tj t' tj' HT HTj Hjit Hjit') as Hjit2.
  destruct (xmin_Fin V v' HV) as [qv Hqv]. destruct (xmin_Fin T t' HT) as [qt Hqt].
  destruct (xle (xmin beta (xmin V (Fin v'))) alpha) eqn:Hbreak.
  - destruct (specMin_rest ms Hms (xmin T (Fin t')) HT') as (Tfin & Hfold & HTfin & Hle & Hfin).
    destruct (min_break alpha beta (xmin V (Fin v')) (xmin T (Fin t')) (xmin Tj (Fin tj')) Tfin)
      as [Hjit3 Hsoft3]; try done.
    exists (xmin V (Fin v')), k1, Tfin, (xmin (xmin Tj (Fin tj')) Tfin).
    repeat (split; [done|]). intros _. split; [by eexists|]. apply Hfin. right. by eexists.
  - destruct (IH (xmin V (Fin v')) (xmin T (Fin t')) (xmin Tj (Fin tj')) k1)
      as (v & k' & Tfin & Tjfin & Hloop & Hfold & Hjit3 & Hsoft3 & Hfin); try done.
    exists v, k', Tfin, Tjfin. repeat (split; [done|]). intros _. apply Hfin. right.
    split; by eexists.
Qed.

End Loops.

Lemma minimaxN_failsoft (n : nat) :
  forall b cur forced depth alpha beta k,
    wf_board b -> lowBound alpha -> highBound beta -> xlt alpha beta = true ->
    exists v t tj k',
      minimaxN rnd n b cur forced maximizingPlayer depth alpha beta k = Ok (Fin v, k')
      /\ searchValueN n b cur forced maximizingPlayer depth = Ok (Fin t)
      /\ jittered (Fin t) (Fin tj)
      /\ failsoft alpha beta (Fin tj) (Fin v).
Proof.
  assert (Hleaf : forall (alpha beta : xQ) (t : Q),
             jittered (Fin t) (Fin t) /\ failsoft alpha beta (Fin t) (Fin t)).
  { intros alpha beta t. split; [cbn; lra|].
    unfold failsoft. destruct alpha as [a| | |], beta as [c| | |]; cbn [xle xlt];
      rewrite ?Qle_bool_true, ?Qle_bool_false, ?Qltb_spec, ?Qltb_false;
      repeat split; try done; try lra. }
  induction n as [|n IH]; intros b cur forced depth alpha beta k Hwf Ha Hb Hab;
    destruct (getLegalMoves_total b cur forced Hwf) as (moves & Hmoves & Hon);
    cbn [minimaxN searchValueN]; rewrite Hmoves, !bind_Ok;
    destruct moves as [|m0 ms] eqn:Hlist; cbn [isEmpty].
  - destruct (Player_eqb cur maximizingPlayer);
      cbn [nsub nadd nopp ofZ Num_xQ xsub xadd xopp];
      eexists _, _, _, _; (split; [reflexivity|]); (split; [reflexivity|]); apply Hleaf.
  - destruct (evaluateBoard_Fin b maximizingPlayer Hwf) as [e ->]. rewrite bind_Ok.
    destruct (rnd_unit k) as (q & -> & Hq).
    rewrite (dec_xQ 1 100) by reflexivity. cbn [nadd nmul Num_xQ xadd xmul].
    eexists _, e, _, _. split; [reflexivity|]. split; [reflexivity|].
    split; [|apply Hleaf].
    cbn. assert (H100 : (inject_Z 1 / inject_Z 100 == 1 # 100)%Q) by reflexivity.
    rewrite H100. lra.
  - destruct (Player_eqb cur maximizingPlayer);
      cbn [nsub nadd nopp ofZ Num_xQ xsub xadd xopp];
      eexists _, _, _, _; (split; [reflexivity|]); (split; [reflexivity|]); apply Hleaf.
  - clear Hlist Hmoves. cbv zeta.
    set (rec := fun b' cur' forced' alpha' beta' k' =>
                  minimaxN rnd n b' cur' forced' maximizingPlayer (depth - 1) alpha' beta' k').
    set (spec := fun b' cur' forced' =>
                   searchValueN n b' cur' forced' maximizingPlayer (depth - 1)).
    assert (Hchild : forall b' cur' forced' alpha' beta' k',
               wf_board b' -> lowBound alpha' -> highBound beta' -> xlt alpha' beta' = true ->
               exists v t tj k'',
                 rec b' cur' forced' alpha' beta' k' = Ok (Fin v, k'')
                 /\ spec b' cur' forced' = Ok (Fin t)
                 /\ jittered (Fin t) (Fin tj)
                 /\ failsoft alpha' beta' (Fin tj) (Fin v)).
    { intros. by apply IH. }
    destruct (Player_eqb cur maximizingPlayer).
    + destruct (maxLoop_failsoft rec spec Hchild b Hwf cur alpha beta (m0 :: ms) Ha Hb Hab Hon
                  NInf NInf NInf k)
        as (v & k' & Tfin & Tjfin & Hloop & Hfold & Hjit & Hsoft & Hfin);
        try (by left); try done.
      { rewrite xmax_NInf by done. by apply window_closed. }
      rewrite xmax_NInf in Hloop by done.
      destruct Hfin as [[qv ->] [qt ->]]; [by left|].
      destruct Tjfin as [tj| | |]; try done.
      exists qv, qt, tj, k'. split; [exact Hloop|]. split; [exact Hfold|]. done.
    + destruct (minLoop_failsoft rec spec Hchild b Hwf cur alpha beta (m0 :: ms) Ha Hb Hab Hon
                  PInf PInf PInf k)
        as (v & k' & Tfin & Tjfin & Hloop & Hfold & Hjit & Hsoft & Hfin);
        try (by left); try done.
      { rewrite xmin_PInf by done. by apply window_closed. }
      rewrite xmin_PInf in Hloop by done.
      destruct Hfin as [[qv ->] [qt ->]]; [by left|].
      destruct Tjfin as [tj| | |]; try done.
      exists qv, qt, tj, k'. split; [exact Hloop|]. split; [exact Hfold|]. done.
Qed.

End AlphaBeta.

(** X27. Pruning does not change the value.  In exact arithmetic, on an 8x8
    board and for a random source with values from 0 up to 1: called with
    the full window, from [-Infinity] to [Infinity], [minimax] returns, and
    what it returns is the value of the position by plain minimax to that
    depth, without pruning and without jitter, raised by at most
    one hundredth, the most that the jitter adds at a leaf. *)
Theorem minimax_value (rnd : nat -> xQ) (b : Board) (cur : Player) (forced : option Z)
    (maximizingPlayer : Player) (depth : Z) (k : nat) :
  wf_board b -> (forall i, exists q, rnd i = Fin q /\ (0 <= q < 1)%Q) ->
  exists v t k',
    minimax rnd b cur forced maximizingPlayer depth (nopp infinity) infinity k = Ok (Fin v, k')
    /\ searchValue b cur forced maximizingPlayer depth = Ok (Fin t)
    /\ (t <= v <= t + (1 # 100))%Q.
Proof.
  intros Hwf Hrnd.
  destruct (minimaxN_failsoft rnd Hrnd maximizingPlayer (Z.to_nat depth) b cur forced depth
              NInf PInf k Hwf) as (v & t & tj & k' & Hrun & Hspec & Hjit & Hsoft);
    [by left|by left|done|].
  exists v, t, k'. split; [exact Hrun|]. split; [exact Hspec|].
  destruct Hsoft as (_ & Hin & _). destruct (Hin eq_refl eq_refl) as [H1 H2].
  cbn [xle] in H1, H2. apply Qle_bool_iff in H1, H2. cbn in Hjit. lra.
Qed.

Lemma minimax_value_witness :
  exists v t k',
    minimax (fun _ => Fin (1 # 2)) chainBoard light None light 2
      (nopp infinity) infinity 0 = Ok (Fin v, k')
    /\ searchValue chainBoard light None light 2 = Ok (Fin t)
    /\ (t <= v <= t + (1 # 100))%Q.
Proof.
  apply (minimax_value (fun _ => Fin (1 # 2)) chainBoard light None light 2 0 chainBoard_wf).
  intros _. exists (1 # 2). split; [reflexivity|]. split; [discriminate|reflexivity].
Defined.

(** *** The hard policy *)

Section Hard.
Variable rnd : nat -> xQ.
Hypothesis rnd_unit : forall i, exists q, rnd i = Fin q /\ (0 <= q < 1)%Q.
Variable b : Board.
Hypothesis Hwf : wf_board b.
Variable p : Player.

(** The score that the search gives a move is its value, up to the jitter. *)
Lemma lookahead_score (m : Move) (k : nat) :
  onBoard m ->
  exists next s k',
    applyMove b m p = Ok next
    /\ minimax rnd (board next) (currentPlayer next) (forcedPieceId next) p
         (HARD_SEARCH_DEPTH - 1) (nopp infinity) infinity k = Ok (Fin s, k')
    /\ (moveValue b p m <= s <= moveValue b p m + (1 # 100))%Q.
Proof.
  intros Hm. destruct (applyMove_total b m p Hwf Hm) as (next & Hnext & Hwf').
  destruct (minimaxN_failsoft rnd rnd_unit p (Z.to_nat (HARD_SEARCH_DEPTH - 1)) (board next)
              (currentPlayer next) (forcedPieceId next) (HARD_SEARCH_DEPTH - 1)
              NInf PInf k Hwf') as (v & t & tj & k' & Hrun & Hspec & Hjit & Hsoft);
    [by left|by left|done|].
  exists next, v, k'. split; [done|]. split; [exact Hrun|].
  unfold moveValue, searchValue. rewrite Hnext, Hspec.
  destruct Hsoft as (_ & Hin & _). destruct (Hin eq_refl eq_refl) as [H1 H2].
  cbn [xle] in H1, H2. apply Qle_bool_iff in H1, H2. cbn in Hjit. lra.
Qed.

Lemma lookaheadLoop_near_best (rest : list Move) :
  Forall onBoard rest ->
  forall (seen : list Move) (best : option Move) (bs : xQ) (k : nat),
    (bs = NInf /\ seen = []
     \/ exists q mb,
          bs = Fin q /\ best = Some mb /\ In mb seen
          /\ (forall m, In m seen -> (moveValue b p m <= q)%Q)
          /\ (q <= moveValue b p mb + (11 # 1000))%Q) ->
    exists r k',
      lookaheadLoop rnd rest b p best bs k = Ok (r, k')
      /\ (rest = [] /\ seen = [] /\ r = best
          \/ exists mb,
               r = Some mb /\ In mb (seen ++ rest)
               /\ forall m, In m (seen ++ rest) ->
                    (moveValue b p m <= moveValue b p mb + (11 # 1000))%Q).
Proof.
  induction 1 as [|m ms Hm _ IH]; intros seen best bs k Hinv.
  { exists best, k. split; [done|]. rewrite app_nil_r.
    destruct Hinv as [[-> ->]|(q & mb & -> & -> & Hin & Hle & Hq)]; [by left|].
    right. exists mb. split; [done|]. split; [done|]. intros m Hm. specialize (Hle m Hm). lra. }
  cbn [lookaheadLoop].
  destruct (lookahead_score m k Hm) as (next & s & k1 & Hnext & Hscore & Hs).
  rewrite Hnext, bind_Ok, Hscore, bind_Ok.
  assert (Hstep : forall best' bs' k2,
             (exists q mb,
                 bs' = Fin q /\ best' = Some mb /\ In mb (seen ++ [m])
                 /\ (forall m', In m' (seen ++ [m]) -> (moveValue b p m' <= q)%Q)
                 /\ (q <= moveValue b p mb + (11 # 1000))%Q) ->
             exists r k',
               lookaheadLoop rnd ms b p best' bs' k2 = Ok (r, k')
               /\ (ms = [] /\ seen ++ [m] = [] /\ r = best'
                   \/ exists mb,
                        r = Some mb /\ In mb (seen ++ m :: ms)
                        /\ forall m', In m' (seen ++ m :: ms) ->
                             (moveValue b p m' <= moveValue b p mb + (11 # 1000))%Q)).
  { intros best' bs' k2 Hinv'.
    destruct (IH (seen ++ [m]) best' bs' k2) as (r & k' & Hrun & Hr); [by right|].
    exists r, k'. split; [done|]. by rewrite <- app_assoc in Hr. }
  cbn [nlt nabs nsub Num_xQ].
  destruct (xlt bs (Fin s)) eqn:Hlt.
  - destruct (Hstep (Some m) (Fin s) k1) as (r & k' & Hrun & Hr).
    { exists s, m. split; [done|]. split; [done|]. split; [apply in_app_iff; right; by left|].
      split; [|lra].
      intros m' [Hm'|[<-|[]]]%in_app_iff; [|lra].
      destruct Hinv as [[-> ->]|(q & mb & -> & -> & Hin & Hle & Hq)]; [done|].
      specialize (Hle m' Hm'). cbn [xlt] in Hlt. apply Qltb_spec in Hlt. lra. }
    exists r, k'. split; [done|].
    destruct Hr as [(_ & Hnil & _)|Hr]; [by destruct seen|by right].
  - destruct Hinv as [[-> ->]|(q & mb & -> & -> & Hin & Hle & Hq)]; [done|].
    cbn [xlt] in Hlt. apply Qltb_false in Hlt.
    assert (Hkeep : exists q' mb',
               Fin q = Fin q' /\ Some mb = Some mb' /\ In mb' (seen ++ [m])
               /\ (forall m', In m' (seen ++ [m]) -> (moveValue b p m' <= q')%Q)
               /\ (q' <= moveValue b p mb' + (11 # 1000))%Q).
    { exists q, mb. split; [done|]. split; [done|]. split; [apply in_app_iff; by left|].
      split; [|done]. intros m' [Hm'|[<-|[]]]%in_app_iff; [by apply Hle|lra]. }
    rewrite (dec_xQ 1 1000), (dec_xQ 5 10) by reflexivity.
    destruct (rnd_unit k1) as (r1 & -> & _).
    cbn [xsub xadd xopp xabs xlt].
    destruct (Qltb (Qabs (s + - q)) _) eqn:Hnear.
    + apply Qltb_spec in Hnear.
      assert (H1000 : (inject_Z 1 / inject_Z 1000 == 1 # 1000)%Q) by reflexivity.
      rewrite H1000 in Hnear. apply Qabs_Qlt_condition in Hnear.
      destruct (Qltb _ r1).
      * destruct (Hstep (Some m) (Fin q) (S k1)) as (r & k' & Hrun & Hr).
        { exists q, m. split; [done|]. split; [done|].
          split; [apply in_app_iff; right; by left|].
          split; [|lra]. intros m' [Hm'|[<-|[]]]%in_app_iff; [by apply Hle|lra]. }
        exists r, k'. split; [done|].
        destruct Hr as [(_ & Hnil & _)|Hr]; [by destruct seen|by right].
      * destruct (Hstep (Some mb) (Fin q) (S k1) Hkeep) as (r & k' & Hrun & Hr).
        exists r, k'. split; [done|].
        destruct Hr as [(_ & Hnil & _)|Hr]; [by destruct seen|by right].
    + destruct (Hstep (Some mb) (Fin q) k1 Hkeep) as (r & k' & Hrun & Hr).
      exists r, k'. split; [done|].
      destruct Hr as [(_ & Hnil & _)|Hr]; [by destruct seen|by right].
Qed.

End Hard.

(** X28. The hard policy plays a move that is best up to the jitter.  In
    exact arithmetic, on an 8x8 board, for a non-empty list of moves over
    squares of the board and a random source with values from 0 up to 1:
    [chooseMoveBySkill] with skill hard returns a move of the list, and no
    move of the list has a value by plain minimax (to the depth of the
    search, without pruning or jitter) that exceeds the value of the move
    returned by more than 0.011. *)
Theorem hard_near_best (rnd : nat -> xQ) (moves : list Move) (b : Board) (p : Player)
    (k : nat) :
  wf_board b -> (forall i, exists q, rnd i = Fin q /\ (0 <= q < 1)%Q) ->
  Forall onBoard moves -> moves <> [] ->
  exists best k',
    chooseMoveBySkill rnd hard moves b p k = Ok (Some best, k')
    /\ In best moves
    /\ forall m, In m moves -> (moveValue b p m <= moveValue b p best + (11 # 1000))%Q.
Proof.
  intros Hwf Hrnd Hon Hne. unfold chooseMoveBySkill, chooseBestLookaheadMove.
  destruct moves as [|m0 ms] eqn:Hmoves; [done|]. cbn [isEmpty]. rewrite <- Hmoves in *.
  destruct (lookaheadLoop_near_best rnd Hrnd b Hwf p moves Hon [] (head moves) (nopp infinity) k)
    as (r & k' & Hrun & Hr); [by left|].
  destruct Hr as [(Hnil & _)|(mb & -> & Hin & Hbest)]; [congruence|].
  by exists mb, k'.
Qed.

Lemma hard_near_best_witness :
  exists best k',
    chooseMoveBySkill (fun _ => Fin (1 # 2)) hard [greedySlide; greedyCapture] greedyBoard
      light 0 = Ok (Some best, k')
    /\ In best [greedySlide; greedyCapture]
    /\ (moveValue greedyBoard light greedyCapture
        <= moveValue greedyBoard light best + (11 # 1000))%Q.
Proof.
  destruct (hard_near_best (fun _ => Fin (1 # 2)) [greedySlide; greedyCapture] greedyBoard
              light 0 greedyBoard_wf) as (best & k' & Hrun & Hin & Hbest).
  - intros _. exists (1 # 2). split; [reflexivity|]. split; [discriminate|reflexivity].
  - constructor; [apply onBoard_slide; reflexivity|].
    constructor; [apply onBoard_jump; reflexivity|constructor].
  - discriminate.
  - exists best, k'. split; [exact Hrun|]. split; [exact Hin|].
    apply Hbest. right. left. reflexivity.
Defined.

(** *** Every move of checkers is generated *)

Lemma getDirections_complete (pc : Piece) (dr dc : Z) :
  diagonalStep pc dr dc -> In (dr, dc) (getDirections pc).
Proof.
  unfold getDirections, diagonalStep, forward.
  intros (Hr & Hc & Hman).
  destruct (king pc).
  - destruct Hr as [-> | ->], Hc as [-> | ->]; cbn; tauto.
  - specialize (Hman eq_refl). subst dr.
    destruct (player pc); cbn [Player_eqb]; destruct Hc as [-> | ->]; cbn; tauto.
Qed.

Lemma move_eq (m : Move) (i : Z) (f t : Z * Z) (c : option (Z * Z)) :
  pieceId m = i -> from m = f -> to m = t -> capture m = c ->
  m = {| pieceId := i; from := f; to := t; capture := c |}.
Proof. destruct m. cbn. by intros -> -> -> ->. Qed.

Lemma captureCandidates_complete (b : Board) (pc : Piece) (m : Move) :
  validMove b pc m -> isCapture m ->
  In m (captureCandidates b (fst (from m)) (snd (from m)) pc).
Proof.
  intros (Hcell & Hid & (Hf & Ht & Hc) & Hempty & dr & dc & Hstep & Hshape) Hcap.
  unfold isCapture in Hcap.
  destruct (capture m) as [sq|] eqn:Hsq; [|done].
  destruct Hshape as (-> & Hto & other & Hother & Hne).
  cbn [fst snd] in Hother.
  unfold captureCandidates. apply in_flat_map. exists (dr, dc).
  split; [by apply getDirections_complete|].
  unfold captureCandidate. cbn [fst snd]. rewrite Hother.
  pose proof (Hc _ eq_refl) as Hmid. cbn [fst snd] in Hmid.
  rewrite Hto in Ht, Hempty. cbn [fst snd] in Ht, Hempty.
  replace (2 * dr) with (dr * 2) in Ht, Hempty, Hto by lia.
  replace (2 * dc) with (dc * 2) in Ht, Hempty, Hto by lia.
  rewrite decide_True by done.
  left. symmetry. apply move_eq; try done. by destruct (from m).
Qed.

Lemma slideCandidates_complete (b : Board) (pc : Piece) (m : Move) :
  validMove b pc m -> isSlide m ->
  In m (slideCandidates b (fst (from m)) (snd (from m)) pc).
Proof.
  intros (Hcell & Hid & (Hf & Ht & Hc) & Hempty & dr & dc & Hstep & Hshape) Hslide.
  unfold isSlide in Hslide. rewrite Hslide in Hshape.
  unfold slideCandidates. apply in_flat_map. exists (dr, dc).
  split; [by apply getDirections_complete|].
  unfold slideCandidate. cbn [fst snd].
  rewrite Hshape in Ht, Hempty. cbn [fst snd] in Ht, Hempty.
  rewrite decide_True by done.
  left. symmetry. apply move_eq; try done. by destruct (from m).
Qed.

(** X29. [getLegalMoves] leaves no move of checkers out.  On an 8x8 board,
    every capture that a piece of the player can make is in the result;
    and every slide that a piece of the player can make is in the result,
    provided the player has no capture at all. *)
Theorem getLegalMoves_complete (b : Board) (p : Player) (moves : list Move)
    (pc : Piece) (m : Move) :
  wf_board b -> getLegalMoves b p None = Ok moves ->
  player pc = p -> validMove b pc m ->
  (isCapture m -> In m moves)
  /\ (isSlide m ->
      (forall pc' m', player pc' = p -> validMove b pc' m' -> isSlide m') ->
      In m moves).
Proof.
  intros Hwf Hrun Hp Hvalid. rewrite (getLegalMoves_scan b p Hwf) in Hrun.
  injection Hrun as <-.
  assert (Hpiece : In (fst (from m), snd (from m), pc) (playerPieces b p)).
  { apply In_playerPieces. destruct Hvalid as (Hcell & _ & (Hf & _) & _). done. }
  split.
  - intros Hcap.
    assert (Hin : In m (allCaptureCandidates b p)).
    { unfold allCaptureCandidates. apply in_flat_map.
      exists (fst (from m), snd (from m), pc). split; [done|].
      by apply captureCandidates_complete. }
    destruct (allCaptureCandidates b p); [done|]. exact Hin.
  - intros Hslide Hnone.
    destruct (allCaptureCandidates b p) as [|m' rest] eqn:Hcaps; cbn [isEmpty].
    + unfold allSlideCandidates. apply in_flat_map.
      exists (fst (from m), snd (from m), pc). split; [done|].
      by apply slideCandidates_complete.
    + exfalso. pose proof (allCaptureCandidates_valid b p) as Hall.
      rewrite Hcaps in Hall. apply Forall_cons in Hall as [(pc' & Hp' & Hv' & Hc') _].
      specialize (Hnone pc' m' Hp' Hv'). unfold isCapture, isSlide in *. congruence.
Qed.

Lemma getLegalMoves_complete_witness :
  exists moves,
    getLegalMoves captureBoard light None = Ok moves
    /\ In {| pieceId := 1; from := (5, 2); to := (3, 4); capture := Some (4, 3) |} moves.
Proof.
  eexists. split; [vm_compute; reflexivity|].
  refine (proj1 (getLegalMoves_complete captureBoard light _ (man 1 light)
                   {| pieceId := 1; from := (5, 2); to := (3, 4); capture := Some (4, 3) |}
                   captureBoard_wf _ eq_refl captureBoard_jump_valid) _);
    [vm_compute; reflexivity|discriminate].
Defined.
